(** * pragzip: block finder, thread pool, precode check, CRC-32 and block fetcher

    A shallow embedding of the parts of pragzip that its specification makes
    claims about, and the theorems that settle those claims.

    Conventions.  [size_t] and [uint64_t] values are integers in
    [0, 2^64), [uint32_t] values integers in [0, 2^32); every C++ operation that
    can leave the range is followed by its wrap-around.  Functions that can
    throw return a [result], whose [Throw] carries the C++ exception. *)

From Stdlib Require Import ZArith List Lia Bool String Sorted.
From stdpp Require Import base option list sorting gmap strings pretty.
Import ListNotations.

Local Open Scope Z_scope.

(** ** Machine integers and exceptions *)

Definition SIZE_T_DIGITS : Z := 64.
Definition size_t_wrap (x : Z) : Z := x mod 2 ^ SIZE_T_DIGITS.
Definition is_size_t (x : Z) : Prop := 0 <= x < 2 ^ SIZE_T_DIGITS.
Definition SIZE_T_MAX : Z := 2 ^ SIZE_T_DIGITS - 1.

Definition uint32_wrap (x : Z) : Z := x mod 2 ^ 32.

(** The standard exceptions the modelled code throws, with their [what()]. *)
Inductive exception : Type :=
| invalid_argument (what : string)
| out_of_range (what : string)
| logic_error (what : string)
| runtime_error (what : string).

Inductive result (A : Type) : Type :=
| Ok (a : A)
| Throw (e : exception).
Arguments Ok {A} a.
Arguments Throw {A} e.

Definition bind {A B} (r : result A) (k : A -> result B) : result B :=
  match r with
  | Ok a => k a
  | Throw e => Throw e
  end.

Notation "'let!' x ':=' r 'in' k" := (bind r (fun x => k))
  (at level 10, x pattern, r at level 100, k at level 200).

(** [pragzip::Error] (Error.hpp is not part of the sources at hand; these are
    the enumerators the modelled code names). *)
Inductive Error : Type :=
| NONE
| END_OF_FILE
| INVALID_GZIP_HEADER
| INVALID_CODE_LENGTHS
| BLOATING_HUFFMAN_CODING
| EMPTY_ALPHABET.

Definition Error_eqb (a b : Error) : bool :=
  match a, b with
  | NONE, NONE | END_OF_FILE, END_OF_FILE
  | INVALID_GZIP_HEADER, INVALID_GZIP_HEADER
  | INVALID_CODE_LENGTHS, INVALID_CODE_LENGTHS
  | BLOATING_HUFFMAN_CODING, BLOATING_HUFFMAN_CODING
  | EMPTY_ALPHABET, EMPTY_ALPHABET => true
  | _, _ => false
  end.

Definition toString (e : Error) : string :=
  match e with
  | NONE => "No error"
  | END_OF_FILE => "End of file"
  | INVALID_GZIP_HEADER => "Invalid gzip header"
  | INVALID_CODE_LENGTHS => "Invalid code lengths"
  | BLOATING_HUFFMAN_CODING => "Bloating Huffman coding"
  | EMPTY_ALPHABET => "Empty alphabet"
  end.

(** The user-defined literal [_Ki] of common.hpp: [32_Ki] is [32 * 1024]. *)
Definition Ki (n : Z) : Z := n * 1024.

Definition CHAR_BIT : Z := 8.

(** ** GzipBlockFinder (src/pragzip/GzipBlockFinder.hpp) *)

Module GzipBlockFinder.

(** What the constructor reads from its [FileReader]: the size in bytes,
    whether [blockfinder::Bgzf::isBgzfFile] recognises it, the offsets that the
    BGZF block finder would report one [find()] after the other, and the
    outcome of [gzip::readHeader] together with [bitReader.tell()] after it. *)
Record FileReader : Type := {
  fr_size : Z;
  fr_isBgzfFile : bool;
  fr_bgzfOffsets : list Z;
  fr_readHeader : Error * Z
}.

Record t : Type := {
  m_fileSizeInBits : Z;
  m_finalized : bool;
  m_spacingInBits : Z;
  m_blockOffsets : list Z;
  m_isBgzfFile : bool;
  (** Modelled from the spec: blockfinder/Bgzf.hpp is absent; the BGZF finder
      "reads block sizes directly from the stream", so it is kept as the list
      of exact offsets its successive [find()] calls still have to return. *)
  m_bgzfBlockFinder : option (list Z);
  m_batchFetchCount : Z
}.

Definition with_blockOffsets (s : t) (offsets : list Z) : t :=
  {| m_fileSizeInBits := m_fileSizeInBits s;
     m_finalized := m_finalized s;
     m_spacingInBits := m_spacingInBits s;
     m_blockOffsets := offsets;
     m_isBgzfFile := m_isBgzfFile s;
     m_bgzfBlockFinder := m_bgzfBlockFinder s;
     m_batchFetchCount := m_batchFetchCount s |}.

Definition with_bgzfBlockFinder (s : t) (pending : option (list Z)) : t :=
  {| m_fileSizeInBits := m_fileSizeInBits s;
     m_finalized := m_finalized s;
     m_spacingInBits := m_spacingInBits s;
     m_blockOffsets := m_blockOffsets s;
     m_isBgzfFile := m_isBgzfFile s;
     m_bgzfBlockFinder := pending;
     m_batchFetchCount := m_batchFetchCount s |}.

Definition SPACING_MESSAGE : string :=
  "A spacing smaller than the window size makes no sense!".

(** The constructor.  [hardware_concurrency] is what
    [std::thread::hardware_concurrency()] reports. *)
Definition ctor (fileReader : FileReader) (spacing : Z) (hardware_concurrency : Z)
  : result t :=
  let fileSizeInBits := size_t_wrap (fr_size fileReader * CHAR_BIT) in
  let spacingInBits := size_t_wrap (spacing * CHAR_BIT) in
  if spacingInBits <? Ki 32 then
    Throw (invalid_argument SPACING_MESSAGE)
  else
    let '(error, tell) := fr_readHeader fileReader in
    if negb (Error_eqb error NONE) then
      Throw (invalid_argument
               ("Encountered error while reading gzip header: " +:+ toString error))
    else
      Ok {| m_fileSizeInBits := fileSizeInBits;
            m_finalized := false;
            m_spacingInBits := spacingInBits;
            m_blockOffsets := [tell];
            m_isBgzfFile := fr_isBgzfFile fileReader;
            m_bgzfBlockFinder :=
              if fr_isBgzfFile fileReader then Some (fr_bgzfOffsets fileReader)
              else None;
            m_batchFetchCount := Z.max 16 (uint32_wrap (3 * hardware_concurrency)) |}.

Definition size (s : t) : Z := Z.of_nat (length (m_blockOffsets s)).

Definition finalize (s : t) : t :=
  {| m_fileSizeInBits := m_fileSizeInBits s;
     m_finalized := true;
     m_spacingInBits := m_spacingInBits s;
     m_blockOffsets := m_blockOffsets s;
     m_isBgzfFile := m_isBgzfFile s;
     m_bgzfBlockFinder := m_bgzfBlockFinder s;
     m_batchFetchCount := m_batchFetchCount s |}.

Definition finalized (s : t) : bool := m_finalized s.

Definition isBgzfFile (s : t) : bool := m_isBgzfFile s.

(** [m_blockOffsets.back()]; on an empty deque the C++ is undefined, and [get]
    asserts that it is not. *)
Definition back (offsets : list Z) : Z := List.last offsets 0.

(** [m_blockOffsets[i]]. *)
Definition at_index (offsets : list Z) (i : Z) : Z :=
  List.nth (Z.to_nat i) offsets 0.

(** [std::lower_bound]: the index of the first element that is not smaller than
    [x] ([length] when there is none). *)
Fixpoint lower_bound (offsets : list Z) (x : Z) : Z :=
  match offsets with
  | [] => 0
  | y :: rest => if y <? x then 1 + lower_bound rest x else 0
  end.

(** [m_blockOffsets.insert( match, blockOffset )]. *)
Definition insert_at (offsets : list Z) (i : Z) (x : Z) : list Z :=
  firstn (Z.to_nat i) offsets ++ x :: skipn (Z.to_nat i) offsets.

Definition firstPartitionIndex (s : t) : Z :=
  size_t_wrap (back (m_blockOffsets s) / m_spacingInBits s + 1).

Definition insertUnsafe (s : t) (blockOffset : Z) : result t :=
  if m_fileSizeInBits s <=? blockOffset then Ok s
  else
    let match_ := lower_bound (m_blockOffsets s) blockOffset in
    if (match_ =? size s) || negb (at_index (m_blockOffsets s) match_ =? blockOffset)
    then
      if m_finalized s then
        Throw (invalid_argument "Already finalized, may not insert further block offsets!")
      else
        Ok (with_blockOffsets s (insert_at (m_blockOffsets s) match_ blockOffset))
    else Ok s.

Definition insert (s : t) (blockOffset : Z) : result t := insertUnsafe s blockOffset.

(** The loop of [gatherMoreBgzfBlocks], one iteration per offset that the BGZF
    finder still has; when the finder is exhausted its [find()] reports the
    largest [size_t], which is not below the file size, so the loop breaks. *)
Fixpoint gatherMoreBgzfBlocks_loop (pending : list Z) (s : t) (blockNumber : Z)
  : result t :=
  if negb (size s <=? size_t_wrap (blockNumber + m_batchFetchCount s)) then
    Ok (with_bgzfBlockFinder s (Some pending))
  else
    match pending with
    | [] => Ok (with_bgzfBlockFinder s (Some []))
    | nextOffset :: rest =>
        if nextOffset <? size_t_wrap (back (m_blockOffsets s) + m_spacingInBits s) then
          gatherMoreBgzfBlocks_loop rest s blockNumber
        else if m_fileSizeInBits s <=? nextOffset then
          Ok (with_bgzfBlockFinder s (Some rest))
        else
          let! s' := insertUnsafe s nextOffset in
          gatherMoreBgzfBlocks_loop rest s' blockNumber
    end.

Definition gatherMoreBgzfBlocks (s : t) (blockNumber : Z) : result t :=
  match m_bgzfBlockFinder s with
  | Some pending => gatherMoreBgzfBlocks_loop pending s blockNumber
  | None => Ok s
  end.

Definition get (s : t) (blockIndex : Z) : result (option Z * t) :=
  let! s := (if m_isBgzfFile s && bool_decide (is_Some (m_bgzfBlockFinder s))
                && negb (m_finalized s)
             then gatherMoreBgzfBlocks s blockIndex else Ok s) in
  if blockIndex <? size s then
    Ok (Some (at_index (m_blockOffsets s) blockIndex), s)
  else
    let blockIndexOutside := size_t_wrap (blockIndex - size s) in
    let partitionIndex := size_t_wrap (firstPartitionIndex s + blockIndexOutside) in
    let blockOffset := size_t_wrap (partitionIndex * m_spacingInBits s) in
    if blockOffset <? m_fileSizeInBits s then
      Ok (Some blockOffset, s)
    else if (0 <? partitionIndex)
            && (size_t_wrap ((partitionIndex - 1) * m_spacingInBits s)
                <? m_fileSizeInBits s)
    then Ok (Some (m_fileSizeInBits s), s)
    else Ok (None, s).

Definition find (s : t) (encodedBlockOffsetInBits : Z) : result Z :=
  let match_ := lower_bound (m_blockOffsets s) encodedBlockOffsetInBits in
  if (match_ <? size s)
     && (at_index (m_blockOffsets s) match_ =? encodedBlockOffsetInBits)
  then Ok match_
  else if (back (m_blockOffsets s) <? encodedBlockOffsetInBits)
          && (encodedBlockOffsetInBits <? m_fileSizeInBits s)
          && (encodedBlockOffsetInBits mod m_spacingInBits s =? 0)
  then
    Ok (size_t_wrap
          (size s + size_t_wrap (encodedBlockOffsetInBits / m_spacingInBits s
                                 - firstPartitionIndex s)))
  else
    Throw (out_of_range
             ("No block with the specified offset " +:+ pretty encodedBlockOffsetInBits
              +:+ " exists in the block finder map!")).

Definition setBlockOffsets (s : t) (blockOffsets : list Z) : t :=
  finalize (with_blockOffsets s blockOffsets).

Definition partitionOffsetContainingOffset (s : t) (blockOffset : Z) : Z :=
  size_t_wrap ((blockOffset / m_spacingInBits s) * m_spacingInBits s).

Definition spacingInBits (s : t) : Z := m_spacingInBits s.

(** The block offsets are "confirmed block offsets in order": strictly
    ascending [size_t] values. *)
Definition ascending (offsets : list Z) : Prop :=
  StronglySorted Z.lt offsets /\ Forall is_size_t offsets.

(** The states a program can bring a finder into: construct it, then insert,
    finalize, get, or load the offsets of an index (which are in order and
    start with the first block). *)
Inductive reachable : t -> Prop :=
| reachable_ctor fileReader spacing hardware_concurrency s :
    is_size_t (fr_size fileReader) ->
    is_size_t spacing ->
    is_size_t (snd (fr_readHeader fileReader)) ->
    Forall is_size_t (fr_bgzfOffsets fileReader) ->
    ctor fileReader spacing hardware_concurrency = Ok s ->
    reachable s
| reachable_insert s blockOffset s' :
    reachable s ->
    is_size_t blockOffset ->
    insert s blockOffset = Ok s' ->
    reachable s'
| reachable_finalize s :
    reachable s ->
    reachable (finalize s)
| reachable_get s blockIndex r s' :
    reachable s ->
    is_size_t blockIndex ->
    get s blockIndex = Ok (r, s') ->
    reachable s'
| reachable_setBlockOffsets s blockOffsets :
    reachable s ->
    blockOffsets <> [] ->
    ascending blockOffsets ->
    reachable (setBlockOffsets s blockOffsets).

(** What the constructor establishes and every member function keeps. *)
Definition wellFormed (s : t) : Prop :=
  m_blockOffsets s <> []
  /\ ascending (m_blockOffsets s)
  /\ 32768 <= m_spacingInBits s < 2 ^ 64
  /\ is_size_t (m_fileSizeInBits s)
  /\ match m_bgzfBlockFinder s with
     | Some pending => Forall is_size_t pending
     | None => True
     end.

(** The guess that [get] computes for [blockIndex] fits into a [size_t]. *)
Definition guessDoesNotOverflow (s : t) (blockIndex : Z) : Prop :=
  (back (m_blockOffsets s) / m_spacingInBits s + 1 + (blockIndex - size s))
  * m_spacingInBits s < 2 ^ 64.

End GzipBlockFinder.

(** ** ThreadPool (ThreadPool.hpp) *)

Module ThreadPool.

Section WithResult.

(** The result type of the submitted functors.  The pool itself erases it
    ([PackagedTaskWrapper]); one result type is enough for the block fetcher. *)
Context {R : Type}.

(** A [std::packaged_task]: the functor and the shared state (named by a
    number) into which running it stores its result or its exception. *)
Record PackagedTask : Type := {
  task_future : nat;
  task_functor : unit -> result R
}.

(** A [std::future]: the shared state it refers to, if it is [valid()]. *)
Definition Future : Type := option nat.

Record t : Type := {
  m_threadPoolRunning : bool;
  (** [std::map<int, std::deque<PackagedTaskWrapper>>]: ascending priorities. *)
  m_tasks : list (Z * list PackagedTask);
  (** The number of worker threads, [m_threads.size()]. *)
  m_threads : Z;
  (** The tasks that workers have taken out of [m_tasks] and are running. *)
  m_runningTasks : list PackagedTask;
  (** The shared states that already hold a result or an exception. *)
  m_sharedStates : gmap nat (result R);
  (** The next unused shared state. *)
  m_nextFuture : nat
}.

Definition ctor (nThreads : Z) : t :=
  {| m_threadPoolRunning := true;
     m_tasks := [];
     m_threads := nThreads;
     m_runningTasks := [];
     m_sharedStates := ∅;
     m_nextFuture := 0%nat |}.

(** [m_tasks[priority].emplace_back( task )]; [operator[]] creates the deque of
    a priority that has none yet, and the map keeps its keys in order. *)
Fixpoint tasks_emplace_back (tasks : list (Z * list PackagedTask)) (priority : Z)
    (task : PackagedTask) : list (Z * list PackagedTask) :=
  match tasks with
  | [] => [(priority, [task])]
  | (p, queue) :: rest =>
      if priority <? p then (priority, [task]) :: tasks
      else if priority =? p then (p, queue ++ [task]) :: rest
      else (p, queue) :: tasks_emplace_back rest priority task
  end.

Definition submit (pool : t) (task : unit -> result R) (priority : Z) : Future * t :=
  let packagedTask := {| task_future := m_nextFuture pool; task_functor := task |} in
  (Some (m_nextFuture pool),
   {| m_threadPoolRunning := m_threadPoolRunning pool;
      m_tasks := tasks_emplace_back (m_tasks pool) priority packagedTask;
      m_threads := m_threads pool;
      m_runningTasks := m_runningTasks pool;
      m_sharedStates := m_sharedStates pool;
      m_nextFuture := S (m_nextFuture pool) |}).

Definition size (pool : t) : Z := m_threads pool.

Fixpoint tasks_find (tasks : list (Z * list PackagedTask)) (priority : Z)
  : option (list PackagedTask) :=
  match tasks with
  | [] => None
  | (p, queue) :: rest => if p =? priority then Some queue else tasks_find rest priority
  end.

Definition unprocessedTasksCount (pool : t) (priority : option Z) : Z :=
  match priority with
  | Some p =>
      match tasks_find (m_tasks pool) p with
      | None => 0
      | Some queue => Z.of_nat (length queue)
      end
  | None =>
      fold_left (fun sum tasks => sum + Z.of_nat (length (snd tasks))) (m_tasks pool) 0
  end.

Definition hasUnprocessedTasks (pool : t) : bool :=
  existsb (fun tasks => negb (bool_decide (snd tasks = []))) (m_tasks pool).

(** The [std::find_if] of [workerMain] followed by [front()] and [pop_front()]:
    the first task of the first deque that is not empty, its priority, and the
    map without that task. *)
Fixpoint takeFirstTask (tasks : list (Z * list PackagedTask))
  : option (PackagedTask * Z * list (Z * list PackagedTask)) :=
  match tasks with
  | [] => None
  | (p, []) :: rest =>
      match takeFirstTask rest with
      | Some (task, priority, rest') => Some (task, priority, (p, []) :: rest')
      | None => None
      end
  | (p, task :: queue) :: rest => Some (task, p, (p, queue) :: rest)
  end.

(** What the worker threads do, seen from the thread that owns the pool: an
    idle worker takes the next task ([TakeTask], the locked part of one
    iteration of [workerMain]), or a worker finishes the task it is running
    ([FinishTask], the end of [task()]), which makes the future ready. *)
Inductive WorkerAction : Type :=
| TakeTask
| FinishTask (future : nat).

Definition workerTakeTask (pool : t) : t :=
  if m_threadPoolRunning pool
     && (Z.of_nat (length (m_runningTasks pool)) <? m_threads pool)
  then
    match takeFirstTask (m_tasks pool) with
    | Some (task, _, tasks') =>
        {| m_threadPoolRunning := m_threadPoolRunning pool;
           m_tasks := tasks';
           m_threads := m_threads pool;
           m_runningTasks := m_runningTasks pool ++ [task];
           m_sharedStates := m_sharedStates pool;
           m_nextFuture := m_nextFuture pool |}
    | None => pool
    end
  else pool.

Definition finishTask (pool : t) (task : PackagedTask) : t :=
  {| m_threadPoolRunning := m_threadPoolRunning pool;
     m_tasks := m_tasks pool;
     m_threads := m_threads pool;
     m_runningTasks :=
       List.filter (fun other => negb (task_future other =? task_future task)%nat)
                   (m_runningTasks pool);
     m_sharedStates :=
       <[task_future task := task_functor task tt]> (m_sharedStates pool);
     m_nextFuture := m_nextFuture pool |}.

Definition workerFinishTask (pool : t) (future : nat) : t :=
  match List.find (fun task => (task_future task =? future)%nat) (m_runningTasks pool) with
  | Some task => finishTask pool task
  | None => pool
  end.

Definition workerAction (pool : t) (action : WorkerAction) : t :=
  match action with
  | TakeTask => workerTakeTask pool
  | FinishTask future => workerFinishTask pool future
  end.

Definition workerActions (pool : t) (actions : list WorkerAction) : t :=
  fold_left workerAction actions pool.

(** The workers run until nothing is left to do: every running task finishes
    and every queued task is taken and finished, in the order of [workerMain]. *)
Fixpoint finishTasks (pool : t) (tasks : list PackagedTask) : t :=
  match tasks with
  | [] => pool
  | task :: rest => finishTasks (finishTask pool task) rest
  end.

Fixpoint processTasks (fuel : nat) (pool : t) : t :=
  match fuel with
  | O => pool
  | S fuel' =>
      let pool' := workerTakeTask pool in
      processTasks fuel' (finishTasks pool' (m_runningTasks pool'))
  end.

Definition queuedTasksCount (pool : t) : nat :=
  fold_right (fun tasks sum => (length (snd tasks) + sum)%nat) 0%nat (m_tasks pool).

Definition runToCompletion (pool : t) : t :=
  let pool' := finishTasks pool (m_runningTasks pool) in
  processTasks (queuedTasksCount pool') pool'.

(** [stop()]: the flag is cleared and the threads are joined, so the running
    tasks finish; the queued ones stay unprocessed. *)
Definition stop (pool : t) : t :=
  let pool' := finishTasks pool (m_runningTasks pool) in
  {| m_threadPoolRunning := false;
     m_tasks := m_tasks pool';
     m_threads := 0;
     m_runningTasks := [];
     m_sharedStates := m_sharedStates pool';
     m_nextFuture := m_nextFuture pool' |}.

(** [future.wait_for( 0s ) == std::future_status::ready]. *)
Definition future_ready (pool : t) (future : Future) : bool :=
  match future with
  | Some state => bool_decide (is_Some (m_sharedStates pool !! state))
  | None => false
  end.

(** [future.get()] on a ready future. *)
Definition future_get (pool : t) (future : Future) : option (result R) :=
  match future with
  | Some state => m_sharedStates pool !! state
  | None => None
  end.

(** The keys of [m_tasks] are in strictly ascending order. *)
Definition priorities_ascending (pool : t) : Prop :=
  StronglySorted Z.lt (map fst (m_tasks pool)).

(** All queued tasks, in the order of the priorities. *)
Definition queuedTasks (pool : t) : list PackagedTask :=
  concat (map snd (m_tasks pool)).

(** The pool keeps track of the shared state [future] of the functor [task]:
    the task is queued or running, or its result is stored; no other functor
    writes to that shared state, and no new task will. *)
Definition tracks (pool : t) (future : nat) (task : unit -> result R) : Prop :=
  (future < m_nextFuture pool)%nat
  /\ (forall packagedTask,
        In packagedTask (queuedTasks pool ++ m_runningTasks pool) ->
        task_future packagedTask = future -> task_functor packagedTask = task)
  /\ (forall r, m_sharedStates pool !! future = Some r -> r = task tt)
  /\ ((exists packagedTask,
         In packagedTask (queuedTasks pool ++ m_runningTasks pool)
         /\ task_future packagedTask = future)
      \/ is_Some (m_sharedStates pool !! future)).

(** Shared states are numbered in the order of the submissions: those that
    exist are below [m_nextFuture]. *)
Definition wellNumbered (pool : t) : Prop :=
  (forall packagedTask,
      In packagedTask (queuedTasks pool ++ m_runningTasks pool) ->
      (task_future packagedTask < m_nextFuture pool)%nat)
  /\ (forall future r,
        m_sharedStates pool !! future = Some r -> (future < m_nextFuture pool)%nat).

(** Every queued task has a shared state of its own, which holds no result yet
    and to which no running task writes. *)
Definition orderly (pool : t) : Prop :=
  NoDup (map task_future (queuedTasks pool))
  /\ (forall queued running,
        In queued (queuedTasks pool) -> In running (m_runningTasks pool) ->
        task_future queued <> task_future running)
  /\ (forall queued,
        In queued (queuedTasks pool) -> m_sharedStates pool !! task_future queued = None)
  /\ wellNumbered pool.

(** [pool'] is what the worker threads make of the orderly [pool]: they add no
    task to the queues. *)
Definition advanced (pool pool' : t) : Prop :=
  orderly pool'
  /\ incl (queuedTasks pool') (queuedTasks pool)
  /\ m_threads pool' = m_threads pool
  /\ m_nextFuture pool' = m_nextFuture pool.

(** The pool has workers that process tasks. *)
Definition working (pool : t) : Prop :=
  m_threadPoolRunning pool = true /\ 1 <= m_threads pool.

(** The task that a worker takes next, and its priority. *)
Definition nextTask (pool : t) : option (PackagedTask * Z) :=
  match takeFirstTask (m_tasks pool) with
  | Some (task, priority, _) => Some (task, priority)
  | None => None
  end.

End WithResult.

Arguments t : clear implicits.
Arguments PackagedTask : clear implicits.

End ThreadPool.

(** ** Cache (Cache.hpp) *)

Module Cache.

Section WithValue.

Context {Value : Type}.

(** Modelled from the spec: Cache.hpp is absent.  "[Cache<K,V>] with capacity C:
    get, insert, test, touch, evict, clear, shrinkTo, nextNthEviction(n) (query
    which key would be evicted next).  LRU order is maintained".  The entries
    are kept from the most recently to the least recently used one; the keys
    are block offsets. *)
Record t : Type := {
  capacity : Z;
  entries : list (Z * Value)
}.

Definition ctor (maxCacheSize : Z) : t :=
  {| capacity := maxCacheSize; entries := [] |}.

Definition size (cache : t) : Z := Z.of_nat (length (entries cache)).

Fixpoint lookup_entry (l : list (Z * Value)) (key : Z) : option Value :=
  match l with
  | [] => None
  | (k, v) :: rest => if k =? key then Some v else lookup_entry rest key
  end.

Definition remove_entry (l : list (Z * Value)) (key : Z) : list (Z * Value) :=
  List.filter (fun entry => negb (fst entry =? key)) l.

Definition test (cache : t) (key : Z) : bool :=
  bool_decide (is_Some (lookup_entry (entries cache) key)).

Definition touch (cache : t) (key : Z) : t :=
  match lookup_entry (entries cache) key with
  | Some value =>
      {| capacity := capacity cache;
         entries := (key, value) :: remove_entry (entries cache) key |}
  | None => cache
  end.

Definition get (cache : t) (key : Z) : option Value * t :=
  match lookup_entry (entries cache) key with
  | Some value => (Some value, touch cache key)
  | None => (None, cache)
  end.

Definition evict (cache : t) (key : Z) : t :=
  {| capacity := capacity cache; entries := remove_entry (entries cache) key |}.

Definition clear (cache : t) : t :=
  {| capacity := capacity cache; entries := [] |}.

(** Evict least recently used entries until at most [newSize] are left. *)
Definition shrinkTo (cache : t) (newSize : Z) : t :=
  {| capacity := capacity cache;
     entries := firstn (Z.to_nat newSize) (entries cache) |}.

Definition insert (cache : t) (key : Z) (value : Value) : t :=
  if capacity cache =? 0 then cache
  else
    match lookup_entry (entries cache) key with
    | Some _ =>
        {| capacity := capacity cache;
           entries := (key, value) :: remove_entry (entries cache) key |}
    | None =>
        let shrunk := shrinkTo cache (capacity cache - 1) in
        {| capacity := capacity cache;
           entries := (key, value) :: entries shrunk |}
    end.

(** The key that the last of [countToEmplaceHypothetically] insertions of new
    keys would evict, if it evicts one. *)
Definition nextNthEviction (cache : t) (countToEmplaceHypothetically : Z) : option Z :=
  let freeCapacity := capacity cache - size cache in
  if countToEmplaceHypothetically <=? freeCapacity then None
  else
    let nth := Z.to_nat (countToEmplaceHypothetically - freeCapacity) in
    match nth with
    | O => None
    | S n => option_map fst (List.nth_error (rev (entries cache)) n)
    end.

End WithValue.

Arguments t : clear implicits.

End Cache.

(** ** BlockFetcher (BlockFetcher.hpp) *)

Module BlockFetcher.

(** The [timeoutInSeconds] arguments that the fetcher passes to
    [BlockFinder::get]: none (infinity), [0], and [0.0001]. *)
Inductive Timeout : Type :=
| TimeoutInfinity
| TimeoutZero
| Timeout100us.

(** The template parameter [T_BlockFinder]: what the fetcher calls on it. *)
Class BlockFinderOps (BlockFinder : Type) : Type := {
  finder_find : BlockFinder -> Z -> result Z;
  finder_get : BlockFinder -> Z -> Timeout -> option Z * BlockFinder;
  finder_finalized : BlockFinder -> bool;
  finder_size : BlockFinder -> Z
}.

(** The template parameter [FetchingStrategy] (Prefetcher.hpp is absent): what
    the fetcher calls on it, and its default-constructed value. *)
Class FetchingStrategyOps (FetchingStrategy : Type) : Type := {
  strategy_default : FetchingStrategy;
  strategy_fetch : FetchingStrategy -> Z -> FetchingStrategy;
  strategy_prefetch : FetchingStrategy -> Z -> list Z;
  strategy_isSequential : FetchingStrategy -> bool
}.

(** The members of [Statistics] that count: those of the access patterns,
    which [recordBlockIndexGet] maintains, and those of the fetches. *)
Record Statistics : Type := {
  gets : Z;
  lastAccessedBlock : option Z;
  repeatedBlockAccesses : Z;
  sequentialBlockAccesses : Z;
  backwardBlockAccesses : Z;
  forwardBlockAccesses : Z;
  onDemandFetchCount : Z;
  prefetchCount : Z;
  prefetchDirectHits : Z;
  waitOnBlockFinderCount : Z
}.

(** The member initialisers. *)
Definition initialStatistics : Statistics :=
  {| gets := 0;
     lastAccessedBlock := None;
     repeatedBlockAccesses := 0;
     sequentialBlockAccesses := 0;
     backwardBlockAccesses := 0;
     forwardBlockAccesses := 0;
     onDemandFetchCount := 0;
     prefetchCount := 0;
     prefetchDirectHits := 0;
     waitOnBlockFinderCount := 0 |}.

(** [Statistics::recordBlockIndexGet].  A first access takes itself for the
    last accessed block; [+ 1] is [size_t] arithmetic. *)
Definition recordBlockIndexGet (statistics : Statistics) (blockindex : Z) : Statistics :=
  let gets' := size_t_wrap (gets statistics + 1) in
  let lastAccessedBlock' :=
    match lastAccessedBlock statistics with
    | Some last => last
    | None => blockindex
    end in
  if size_t_wrap (lastAccessedBlock' + 1) <? blockindex then
    {| gets := gets';
       lastAccessedBlock := Some blockindex;
       repeatedBlockAccesses := repeatedBlockAccesses statistics;
       sequentialBlockAccesses := sequentialBlockAccesses statistics;
       backwardBlockAccesses := backwardBlockAccesses statistics;
       forwardBlockAccesses := size_t_wrap (forwardBlockAccesses statistics + 1);
       onDemandFetchCount := onDemandFetchCount statistics;
       prefetchCount := prefetchCount statistics;
       prefetchDirectHits := prefetchDirectHits statistics;
       waitOnBlockFinderCount := waitOnBlockFinderCount statistics |}
  else if blockindex <? lastAccessedBlock' then
    {| gets := gets';
       lastAccessedBlock := Some blockindex;
       repeatedBlockAccesses := repeatedBlockAccesses statistics;
       sequentialBlockAccesses := sequentialBlockAccesses statistics;
       backwardBlockAccesses := size_t_wrap (backwardBlockAccesses statistics + 1);
       forwardBlockAccesses := forwardBlockAccesses statistics;
       onDemandFetchCount := onDemandFetchCount statistics;
       prefetchCount := prefetchCount statistics;
       prefetchDirectHits := prefetchDirectHits statistics;
       waitOnBlockFinderCount := waitOnBlockFinderCount statistics |}
  else if blockindex =? lastAccessedBlock' then
    {| gets := gets';
       lastAccessedBlock := Some blockindex;
       repeatedBlockAccesses := size_t_wrap (repeatedBlockAccesses statistics + 1);
       sequentialBlockAccesses := sequentialBlockAccesses statistics;
       backwardBlockAccesses := backwardBlockAccesses statistics;
       forwardBlockAccesses := forwardBlockAccesses statistics;
       onDemandFetchCount := onDemandFetchCount statistics;
       prefetchCount := prefetchCount statistics;
       prefetchDirectHits := prefetchDirectHits statistics;
       waitOnBlockFinderCount := waitOnBlockFinderCount statistics |}
  else
    {| gets := gets';
       lastAccessedBlock := Some blockindex;
       repeatedBlockAccesses := repeatedBlockAccesses statistics;
       sequentialBlockAccesses := size_t_wrap (sequentialBlockAccesses statistics + 1);
       backwardBlockAccesses := backwardBlockAccesses statistics;
       forwardBlockAccesses := forwardBlockAccesses statistics;
       onDemandFetchCount := onDemandFetchCount statistics;
       prefetchCount := prefetchCount statistics;
       prefetchDirectHits := prefetchDirectHits statistics;
       waitOnBlockFinderCount := waitOnBlockFinderCount statistics |}.

(** The statistics after the block indexes of a sequence of [get] calls. *)
Definition recordAll (blockindexes : list Z) : Statistics :=
  fold_left recordBlockIndexGet blockindexes initialStatistics.

(** A decode task handed to the thread pool, with the offsets that the caches
    and the prefetching map held at that moment. *)
Record Submission : Type := {
  submitted_offset : Z;
  offsets_in_cache : list Z;
  offsets_in_prefetchCache : list Z;
  offsets_in_prefetching : list Z
}.

Section WithTypes.

Context {BlockFinder FetchingStrategy BlockData : Type}.
Context `{BlockFinderOps BlockFinder} `{FetchingStrategyOps FetchingStrategy}.

(** The pure virtual [decodeBlock] of the inheriting class. *)
Variable decodeBlock : Z -> Z -> result BlockData.

(** [ENABLE_STATISTICS || SHOW_PROFILE]. *)
Variable STATISTICS : bool.

(** [availableCores()] of AffinityHelpers.hpp. *)
Variable availableCores : Z.

Record t : Type := {
  m_statistics : Statistics;
  m_parallelization : Z;
  m_blockFinder : BlockFinder;
  m_cache : Cache.t BlockData;
  m_prefetchCache : Cache.t BlockData;
  m_fetchingStrategy : FetchingStrategy;
  (** [std::map<size_t, std::future<BlockData>>]. *)
  m_prefetching : gmap Z (@ThreadPool.Future);
  m_threadPool : ThreadPool.t BlockData;
  (** What the worker threads do between the polls of the owner thread that
      are still to come: one list of actions per poll.  When the list is used
      up, the workers run to completion before each further poll. *)
  workers : list (list ThreadPool.WorkerAction);
  (** Every decode task submitted so far, the newest first. *)
  submissions : list Submission
}.

Definition with_statistics (s : t) (statistics : Statistics) : t :=
  {| m_statistics := statistics;
     m_parallelization := m_parallelization s;
     m_blockFinder := m_blockFinder s;
     m_cache := m_cache s;
     m_prefetchCache := m_prefetchCache s;
     m_fetchingStrategy := m_fetchingStrategy s;
     m_prefetching := m_prefetching s;
     m_threadPool := m_threadPool s;
     workers := workers s;
     submissions := submissions s |}.

Definition with_blockFinder (s : t) (blockFinder : BlockFinder) : t :=
  {| m_statistics := m_statistics s;
     m_parallelization := m_parallelization s;
     m_blockFinder := blockFinder;
     m_cache := m_cache s;
     m_prefetchCache := m_prefetchCache s;
     m_fetchingStrategy := m_fetchingStrategy s;
     m_prefetching := m_prefetching s;
     m_threadPool := m_threadPool s;
     workers := workers s;
     submissions := submissions s |}.

Definition with_cache (s : t) (cache : Cache.t BlockData) : t :=
  {| m_statistics := m_statistics s;
     m_parallelization := m_parallelization s;
     m_blockFinder := m_blockFinder s;
     m_cache := cache;
     m_prefetchCache := m_prefetchCache s;
     m_fetchingStrategy := m_fetchingStrategy s;
     m_prefetching := m_prefetching s;
     m_threadPool := m_threadPool s;
     workers := workers s;
     submissions := submissions s |}.

Definition with_prefetchCache (s : t) (prefetchCache : Cache.t BlockData) : t :=
  {| m_statistics := m_statistics s;
     m_parallelization := m_parallelization s;
     m_blockFinder := m_blockFinder s;
     m_cache := m_cache s;
     m_prefetchCache := prefetchCache;
     m_fetchingStrategy := m_fetchingStrategy s;
     m_prefetching := m_prefetching s;
     m_threadPool := m_threadPool s;
     workers := workers s;
     submissions := submissions s |}.

Definition with_fetchingStrategy (s : t) (fetchingStrategy : FetchingStrategy) : t :=
  {| m_statistics := m_statistics s;
     m_parallelization := m_parallelization s;
     m_blockFinder := m_blockFinder s;
     m_cache := m_cache s;
     m_prefetchCache := m_prefetchCache s;
     m_fetchingStrategy := fetchingStrategy;
     m_prefetching := m_prefetching s;
     m_threadPool := m_threadPool s;
     workers := workers s;
     submissions := submissions s |}.

Definition with_prefetching (s : t) (prefetching : gmap Z (@ThreadPool.Future)) : t :=
  {| m_statistics := m_statistics s;
     m_parallelization := m_parallelization s;
     m_blockFinder := m_blockFinder s;
     m_cache := m_cache s;
     m_prefetchCache := m_prefetchCache s;
     m_fetchingStrategy := m_fetchingStrategy s;
     m_prefetching := prefetching;
     m_threadPool := m_threadPool s;
     workers := workers s;
     submissions := submissions s |}.

Definition with_threadPool (s : t) (threadPool : ThreadPool.t BlockData) : t :=
  {| m_statistics := m_statistics s;
     m_parallelization := m_parallelization s;
     m_blockFinder := m_blockFinder s;
     m_cache := m_cache s;
     m_prefetchCache := m_prefetchCache s;
     m_fetchingStrategy := m_fetchingStrategy s;
     m_prefetching := m_prefetching s;
     m_threadPool := threadPool;
     workers := workers s;
     submissions := submissions s |}.

Definition with_workers (s : t) (schedule : list (list ThreadPool.WorkerAction)) : t :=
  {| m_statistics := m_statistics s;
     m_parallelization := m_parallelization s;
     m_blockFinder := m_blockFinder s;
     m_cache := m_cache s;
     m_prefetchCache := m_prefetchCache s;
     m_fetchingStrategy := m_fetchingStrategy s;
     m_prefetching := m_prefetching s;
     m_threadPool := m_threadPool s;
     workers := schedule;
     submissions := submissions s |}.

Definition with_submissions (s : t) (log : list Submission) : t :=
  {| m_statistics := m_statistics s;
     m_parallelization := m_parallelization s;
     m_blockFinder := m_blockFinder s;
     m_cache := m_cache s;
     m_prefetchCache := m_prefetchCache s;
     m_fetchingStrategy := m_fetchingStrategy s;
     m_prefetching := m_prefetching s;
     m_threadPool := m_threadPool s;
     workers := workers s;
     submissions := log |}.

(** How a member function that can wait ends: it returns, it throws, or it
    waits for ever. *)
Inductive Outcome (A : Type) : Type :=
| Returns (a : A) (s : t)
| Throws (e : exception) (s : t)
| Blocks (s : t).
Arguments Returns {A} a s.
Arguments Throws {A} e s.
Arguments Blocks {A} s.

(** The fetcher after the member function has ended or come to a halt. *)
Definition stateOf {A} (outcome : Outcome A) : t :=
  match outcome with
  | Returns _ s => s
  | Throws _ s => s
  | Blocks s => s
  end.

(** The constructor: the member initialisers in the order of the members, then
    the body.  [blockFinder] is [None] for a null [std::shared_ptr]. *)
Definition ctor (blockFinder : option BlockFinder) (parallelization : Z) : result t :=
  let parallelization' :=
    if parallelization =? 0 then Z.max 1 availableCores else parallelization in
  let cache := Cache.ctor (Z.max 16 parallelization') in
  let prefetchCache := Cache.ctor (size_t_wrap (2 * parallelization')) in
  let threadPool := ThreadPool.ctor parallelization' in
  match blockFinder with
  | None => Throw (invalid_argument "BlockFinder must be valid!")
  | Some finder =>
      Ok {| m_statistics := initialStatistics;
            m_parallelization := parallelization';
            m_blockFinder := finder;
            m_cache := cache;
            m_prefetchCache := prefetchCache;
            m_fetchingStrategy := strategy_default;
            m_prefetching := ∅;
            m_threadPool := threadPool;
            workers := [];
            submissions := [] |}
  end.

Definition clearCache (s : t) : t := with_cache s (Cache.clear (m_cache s)).

Definition insertIntoCache (s : t) (blockOffset : Z) (blockData : BlockData) : t :=
  let s := if strategy_isSequential (m_fetchingStrategy s)
           then with_cache s (Cache.clear (m_cache s)) else s in
  with_cache s (Cache.insert (m_cache s) blockOffset blockData).

Definition isInCacheOrQueue (s : t) (blockOffset : Z) : bool :=
  bool_decide (is_Some (m_prefetching s !! blockOffset))
  || Cache.test (m_cache s) blockOffset
  || Cache.test (m_prefetchCache s) blockOffset.

Definition takeFromPrefetchQueue (s : t) (blockOffset : Z) : ThreadPool.Future * t :=
  match m_prefetching s !! blockOffset with
  | Some resultFuture =>
      let s := with_prefetching s (delete blockOffset (m_prefetching s)) in
      let s := if STATISTICS
               then with_statistics s
                      {| gets := gets (m_statistics s);
                         lastAccessedBlock := lastAccessedBlock (m_statistics s);
                         repeatedBlockAccesses := repeatedBlockAccesses (m_statistics s);
                         sequentialBlockAccesses := sequentialBlockAccesses (m_statistics s);
                         backwardBlockAccesses := backwardBlockAccesses (m_statistics s);
                         forwardBlockAccesses := forwardBlockAccesses (m_statistics s);
                         onDemandFetchCount := onDemandFetchCount (m_statistics s);
                         prefetchCount := prefetchCount (m_statistics s);
                         prefetchDirectHits :=
                           size_t_wrap (prefetchDirectHits (m_statistics s) + 1);
                         waitOnBlockFinderCount :=
                           waitOnBlockFinderCount (m_statistics s) |}
               else s in
      (resultFuture, s)
  | None => (None, s)
  end.

Definition getFromCaches (s : t) (blockOffset : Z)
  : option BlockData * ThreadPool.Future * t :=
  let '(resultFuture, s) := takeFromPrefetchQueue s blockOffset in
  match resultFuture with
  | Some _ => (None, resultFuture, s)
  | None =>
      let '(result, cache) := Cache.get (m_cache s) blockOffset in
      let s := with_cache s cache in
      match result with
      | Some _ => (result, resultFuture, s)
      | None =>
          let '(result, prefetchCache) := Cache.get (m_prefetchCache s) blockOffset in
          let s := with_prefetchCache s prefetchCache in
          match result with
          | Some blockData =>
              let s := with_prefetchCache s (Cache.evict (m_prefetchCache s) blockOffset) in
              (result, resultFuture, insertIntoCache s blockOffset blockData)
          | None => (result, resultFuture, s)
          end
      end
  end.

(** The body of the loop of [processReadyPrefetches] for one entry of
    [m_prefetching]; the [catch ( ... )] drops the exception of a failed task. *)
Definition processReadyPrefetch (s : t) (prefetchedBlockOffset : Z) : t :=
  match m_prefetching s !! prefetchedBlockOffset with
  | Some prefetchedFuture =>
      if ThreadPool.future_ready (m_threadPool s) prefetchedFuture then
        let s :=
          match ThreadPool.future_get (m_threadPool s) prefetchedFuture with
          | Some (Ok result) =>
              with_prefetchCache s
                (Cache.insert (m_prefetchCache s) prefetchedBlockOffset result)
          | Some (Throw _) => s
          | None => s
          end in
        with_prefetching s (delete prefetchedBlockOffset (m_prefetching s))
      else s
  | None => s
  end.

(** The keys of [m_prefetching] in the order in which [std::map] iterates. *)
Definition prefetchingOffsets (s : t) : list Z :=
  merge_sort Z.le (map fst (map_to_list (m_prefetching s))).

Definition processReadyPrefetches (s : t) : t :=
  fold_left processReadyPrefetch (prefetchingOffsets s) s.

(** The worker threads make progress while the owner thread polls. *)
Definition workersProgress (s : t) : t :=
  match workers s with
  | actions :: schedule =>
      with_workers
        (with_threadPool s (ThreadPool.workerActions (m_threadPool s) actions))
        schedule
  | [] => with_threadPool s (ThreadPool.runToCompletion (m_threadPool s))
  end.

Definition decodeAndMeasureBlock (blockOffset nextBlockOffset : Z) : result BlockData :=
  decodeBlock blockOffset nextBlockOffset.

Definition recordSubmission (s : t) (blockOffset : Z) : t :=
  with_submissions s
    ({| submitted_offset := blockOffset;
        offsets_in_cache := map fst (Cache.entries (m_cache s));
        offsets_in_prefetchCache := map fst (Cache.entries (m_prefetchCache s));
        offsets_in_prefetching := map fst (map_to_list (m_prefetching s)) |}
       :: submissions s).

Definition submitOnDemandTask (s : t) (blockOffset : Z) (nextBlockOffset : option Z)
  : ThreadPool.Future * t :=
  let s := if STATISTICS
           then with_statistics s
                  {| gets := gets (m_statistics s);
                     lastAccessedBlock := lastAccessedBlock (m_statistics s);
                     repeatedBlockAccesses := repeatedBlockAccesses (m_statistics s);
                     sequentialBlockAccesses := sequentialBlockAccesses (m_statistics s);
                     backwardBlockAccesses := backwardBlockAccesses (m_statistics s);
                     forwardBlockAccesses := forwardBlockAccesses (m_statistics s);
                     onDemandFetchCount :=
                       size_t_wrap (onDemandFetchCount (m_statistics s) + 1);
                     prefetchCount := prefetchCount (m_statistics s);
                     prefetchDirectHits := prefetchDirectHits (m_statistics s);
                     waitOnBlockFinderCount := waitOnBlockFinderCount (m_statistics s) |}
           else s in
  let s := recordSubmission s blockOffset in
  let '(resultFuture, threadPool) :=
    ThreadPool.submit (m_threadPool s)
      (fun _ => decodeAndMeasureBlock blockOffset
                  (match nextBlockOffset with
                   | Some offset => offset
                   | None => SIZE_T_MAX
                   end))
      (* priority *) 0 in
  (resultFuture, with_threadPool s threadPool).

(** The submission at the end of the loop body of [prefetchNewBlocks]. *)
Definition submitPrefetchTask (s : t) (prefetchBlockOffset nextPrefetchBlockOffset : Z) : t :=
  let s := with_statistics s
             {| gets := gets (m_statistics s);
                lastAccessedBlock := lastAccessedBlock (m_statistics s);
                repeatedBlockAccesses := repeatedBlockAccesses (m_statistics s);
                sequentialBlockAccesses := sequentialBlockAccesses (m_statistics s);
                backwardBlockAccesses := backwardBlockAccesses (m_statistics s);
                forwardBlockAccesses := forwardBlockAccesses (m_statistics s);
                onDemandFetchCount := onDemandFetchCount (m_statistics s);
                prefetchCount := size_t_wrap (prefetchCount (m_statistics s) + 1);
                prefetchDirectHits := prefetchDirectHits (m_statistics s);
                waitOnBlockFinderCount := waitOnBlockFinderCount (m_statistics s) |} in
  let s := recordSubmission s prefetchBlockOffset in
  let '(prefetchedFuture, threadPool) :=
    ThreadPool.submit (m_threadPool s)
      (fun _ => decodeAndMeasureBlock prefetchBlockOffset nextPrefetchBlockOffset)
      (* priority *) 0 in
  let s := with_threadPool s threadPool in
  match m_prefetching s !! prefetchBlockOffset with
  | Some _ => s
  | None => with_prefetching s (<[prefetchBlockOffset := prefetchedFuture]> (m_prefetching s))
  end.

Definition submitTaskWithHighPriority (s : t) (task : unit -> result BlockData)
  : ThreadPool.Future * t :=
  let '(future, threadPool) := ThreadPool.submit (m_threadPool s) task (* priority *) (-1) in
  (future, with_threadPool s threadPool).

Definition stopThreadPool (s : t) : t :=
  with_threadPool s (ThreadPool.stop (m_threadPool s)).

Definition threadPoolSaturated (s : t) : bool :=
  ThreadPool.size (m_threadPool s)
  <=? size_t_wrap (Z.of_nat (size (m_prefetching s)) + 1).

(** The first loop of [prefetchNewBlocks]: the offsets of the predicted block
    indexes (with a zero timeout) and their partition offsets. *)
Fixpoint collectBlockOffsetsToPrefetch (blockIndexesToPrefetch : list Z)
    (getPartitionOffsetFromOffset : option (Z -> Z)) (finder : BlockFinder)
  : list Z * BlockFinder :=
  match blockIndexesToPrefetch with
  | [] => ([], finder)
  | blockIndexToPrefetch :: rest =>
      let '(blockOffset, finder) := finder_get finder blockIndexToPrefetch TimeoutZero in
      let found :=
        match blockOffset with
        | None => []
        | Some offset =>
            offset ::
              match getPartitionOffsetFromOffset with
              | Some getPartitionOffset =>
                  if negb (offset =? getPartitionOffset offset)
                  then [getPartitionOffset offset] else []
              | None => []
              end
        end in
      let '(others, finder) :=
        collectBlockOffsetsToPrefetch rest getPartitionOffsetFromOffset finder in
      (found ++ others, finder)
  end.

Definition touchInCacheIfExists (s : t) (prefetchBlockOffset : Z) : t :=
  let s := if Cache.test (m_prefetchCache s) prefetchBlockOffset
           then with_prefetchCache s (Cache.touch (m_prefetchCache s) prefetchBlockOffset)
           else s in
  if Cache.test (m_cache s) prefetchBlockOffset
  then with_cache s (Cache.touch (m_cache s) prefetchBlockOffset)
  else s.

(** The do-while loop of [prefetchNewBlocks] that asks the block finder for
    the offset to prefetch and the one after it. *)
Fixpoint waitOnBlockFinder (fuel : nat) (stopPrefetching : t -> bool) (s : t)
    (blockIndexToPrefetch : Z) : Outcome (option Z * option Z) :=
  match fuel with
  | O => Blocks s
  | S fuel' =>
      let '(prefetchBlockOffset, finder) :=
        finder_get (m_blockFinder s) blockIndexToPrefetch
                   (if stopPrefetching s then TimeoutZero else Timeout100us) in
      let wasFinalized := finder_finalized finder in
      let '(nextPrefetchBlockOffset, finder) :=
        finder_get finder (size_t_wrap (blockIndexToPrefetch + 1))
                   (if stopPrefetching s then TimeoutZero else Timeout100us) in
      let nextPrefetchBlockOffset :=
        if wasFinalized && bool_decide (nextPrefetchBlockOffset = None)
        then Some SIZE_T_MAX else nextPrefetchBlockOffset in
      let s := with_blockFinder s finder in
      match prefetchBlockOffset, nextPrefetchBlockOffset with
      | None, None =>
          let s := workersProgress s in
          if stopPrefetching s then Returns (None, None) s
          else waitOnBlockFinder fuel' stopPrefetching s blockIndexToPrefetch
      | _, _ => Returns (prefetchBlockOffset, nextPrefetchBlockOffset) s
      end
  end.

(** The second loop of [prefetchNewBlocks], over the predicted block indexes. *)
Fixpoint prefetchBlocks (blockIndexesToPrefetch : list Z) (blockOffsetsToPrefetch : list Z)
    (getPartitionOffsetFromOffset : option (Z -> Z)) (stopPrefetching : t -> bool) (s : t)
  : Outcome unit :=
  match blockIndexesToPrefetch with
  | [] => Returns tt s
  | blockIndexToPrefetch :: rest =>
      if threadPoolSaturated s then Returns tt s
      else if finder_finalized (m_blockFinder s)
              && (finder_size (m_blockFinder s) <=? blockIndexToPrefetch)
      then prefetchBlocks rest blockOffsetsToPrefetch getPartitionOffsetFromOffset
                          stopPrefetching s
      else
        match waitOnBlockFinder (2 + length (workers s)) stopPrefetching s
                                blockIndexToPrefetch with
        | Blocks s => Blocks s
        | Throws e s => Throws e s
        | Returns (prefetchBlockOffset, nextPrefetchBlockOffset) s =>
            let s :=
              if STATISTICS && bool_decide (prefetchBlockOffset = None)
              then with_statistics s
                     {| gets := gets (m_statistics s);
                        lastAccessedBlock := lastAccessedBlock (m_statistics s);
                        repeatedBlockAccesses := repeatedBlockAccesses (m_statistics s);
                        sequentialBlockAccesses := sequentialBlockAccesses (m_statistics s);
                        backwardBlockAccesses := backwardBlockAccesses (m_statistics s);
                        forwardBlockAccesses := forwardBlockAccesses (m_statistics s);
                        onDemandFetchCount := onDemandFetchCount (m_statistics s);
                        prefetchCount := prefetchCount (m_statistics s);
                        prefetchDirectHits := prefetchDirectHits (m_statistics s);
                        waitOnBlockFinderCount :=
                          size_t_wrap (waitOnBlockFinderCount (m_statistics s) + 1) |}
              else s in
            match prefetchBlockOffset, nextPrefetchBlockOffset with
            | Some prefetchOffset, Some nextOffset =>
                if isInCacheOrQueue s prefetchOffset
                   || match getPartitionOffsetFromOffset with
                      | Some getPartitionOffset =>
                          isInCacheOrQueue s (getPartitionOffset prefetchOffset)
                      | None => false
                      end
                then prefetchBlocks rest blockOffsetsToPrefetch
                                    getPartitionOffsetFromOffset stopPrefetching s
                else
                  match Cache.nextNthEviction (m_prefetchCache s)
                          (size_t_wrap (Z.of_nat (size (m_prefetching s)) + 1)) with
                  | Some offsetToBeEvicted =>
                      if existsb (Z.eqb offsetToBeEvicted) blockOffsetsToPrefetch
                      then Returns tt s
                      else prefetchBlocks rest blockOffsetsToPrefetch
                             getPartitionOffsetFromOffset stopPrefetching
                             (submitPrefetchTask s prefetchOffset nextOffset)
                  | None =>
                      prefetchBlocks rest blockOffsetsToPrefetch
                        getPartitionOffsetFromOffset stopPrefetching
                        (submitPrefetchTask s prefetchOffset nextOffset)
                  end
            | _, _ =>
                prefetchBlocks rest blockOffsetsToPrefetch getPartitionOffsetFromOffset
                               stopPrefetching s
            end
        end
  end.

Definition TOO_MANY_TASKS : string :=
  "The thread pool should not have more tasks than there are prefetching futures!".

Definition prefetchNewBlocks (getPartitionOffsetFromOffset : option (Z -> Z))
    (stopPrefetching : t -> bool) (s : t) : Outcome unit :=
  let s := processReadyPrefetches (workersProgress s) in
  if threadPoolSaturated s then Returns tt s
  else
    let blockIndexesToPrefetch :=
      strategy_prefetch (m_fetchingStrategy s) (Cache.capacity (m_prefetchCache s)) in
    let '(found, finder) :=
      collectBlockOffsetsToPrefetch blockIndexesToPrefetch getPartitionOffsetFromOffset
                                    (m_blockFinder s) in
    let blockOffsetsToPrefetch :=
      repeat 0 (length blockIndexesToPrefetch) ++ found in
    let s := with_blockFinder s finder in
    let s := fold_left touchInCacheIfExists (rev blockOffsetsToPrefetch) s in
    match prefetchBlocks blockIndexesToPrefetch blockOffsetsToPrefetch
                         getPartitionOffsetFromOffset stopPrefetching s with
    | Blocks s => Blocks s
    | Throws e s => Throws e s
    | Returns _ s =>
        if m_parallelization s <? ThreadPool.unprocessedTasksCount (m_threadPool s) (Some 0)
        then Throws (logic_error TOO_MANY_TASKS) s
        else Returns tt s
    end.

(** The loop of [get] that waits for the requested result and keeps
    prefetching in the meantime. *)
Fixpoint waitForResult (fuel : nat) (getPartitionOffsetFromOffset : option (Z -> Z))
    (resultIsReady : t -> bool) (queuedResult : ThreadPool.Future) (s : t)
  : Outcome unit :=
  match fuel with
  | O => Blocks s
  | S fuel' =>
      let s := workersProgress s in
      if ThreadPool.future_ready (m_threadPool s) queuedResult then Returns tt s
      else
        match prefetchNewBlocks getPartitionOffsetFromOffset resultIsReady s with
        | Returns _ s =>
            waitForResult fuel' getPartitionOffsetFromOffset resultIsReady queuedResult s
        | Throws e s => Throws e s
        | Blocks s => Blocks s
        end
  end.

(** [m_statistics.recordBlockIndexGet( validDataBlockIndex )] under
    [if constexpr ( ENABLE_STATISTICS || SHOW_PROFILE )]. *)
Definition recordAccess (s : t) (validDataBlockIndex : Z) : t :=
  if STATISTICS
  then with_statistics s (recordBlockIndexGet (m_statistics s) validDataBlockIndex)
  else s.

Definition get (s : t) (blockOffset : Z) (dataBlockIndex : option Z)
    (onlyCheckCaches : bool) (getPartitionOffsetFromOffset : option (Z -> Z))
  : Outcome (option BlockData) :=
  let '(cachedResult, queuedResult, s) := getFromCaches s blockOffset in
  match (match dataBlockIndex with
         | Some index => Ok index
         | None => finder_find (m_blockFinder s) blockOffset
         end) with
  | Throw e => Throws e s
  | Ok validDataBlockIndex =>
      let '(nextBlockOffset, finder) :=
        finder_get (m_blockFinder s) (size_t_wrap (validDataBlockIndex + 1))
                   TimeoutInfinity in
      let s := with_blockFinder s finder in
      let s := recordAccess s validDataBlockIndex in
      let missed :=
        bool_decide (cachedResult = None) && bool_decide (queuedResult = None) in
      if missed && onlyCheckCaches then Returns None s
      else
        let '(queuedResult, s) :=
          if missed then submitOnDemandTask s blockOffset nextBlockOffset
          else (queuedResult, s) in
        let s := with_fetchingStrategy s
                   (strategy_fetch (m_fetchingStrategy s) validDataBlockIndex) in
        let resultIsReady := fun s' : t =>
          bool_decide (is_Some cachedResult)
          || ThreadPool.future_ready (m_threadPool s') queuedResult in
        match prefetchNewBlocks getPartitionOffsetFromOffset resultIsReady s with
        | Blocks s => Blocks s
        | Throws e s => Throws e s
        | Returns _ s =>
            match cachedResult with
            | Some blockData => Returns (Some blockData) s
            | None =>
                match waitForResult (2 + length (workers s)) getPartitionOffsetFromOffset
                                    resultIsReady queuedResult s with
                | Blocks s => Blocks s
                | Throws e s => Throws e s
                | Returns _ s =>
                    match ThreadPool.future_get (m_threadPool s) queuedResult with
                    | Some (Ok blockData) =>
                        Returns (Some blockData) (insertIntoCache s blockOffset blockData)
                    | Some (Throw e) => Throws e s
                    | None => Blocks s
                    end
                end
            end
        end
  end.

(** The operations of the claims about sequences of calls: a [get], or the
    prefetching that [get] performs, each with what the worker threads do
    while it runs. *)
Inductive Operation : Type :=
| OperationGet (blockOffset : Z) (dataBlockIndex : option Z) (onlyCheckCaches : bool)
    (getPartitionOffsetFromOffset : option (Z -> Z))
    (schedule : list (list ThreadPool.WorkerAction))
| OperationPrefetch (getPartitionOffsetFromOffset : option (Z -> Z))
    (stopPrefetching : t -> bool) (schedule : list (list ThreadPool.WorkerAction)).

(** The fetcher after one operation: after its return, after its exception,
    or where it waits for ever. *)
Definition perform (s : t) (operation : Operation) : t :=
  match operation with
  | OperationGet blockOffset dataBlockIndex onlyCheckCaches getPartitionOffset schedule =>
      stateOf (get (with_workers s schedule) blockOffset dataBlockIndex onlyCheckCaches
                   getPartitionOffset)
  | OperationPrefetch getPartitionOffset stopPrefetching schedule =>
      stateOf (prefetchNewBlocks getPartitionOffset stopPrefetching
                                 (with_workers s schedule))
  end.

Definition performAll (s : t) (operations : list Operation) : t :=
  fold_left perform operations s.

(** A member function ends well when it does not throw. *)
Definition endsWell {A} (outcome : Outcome A) : Prop :=
  match outcome with
  | Throws _ _ => False
  | _ => True
  end.

(** The bookkeeping that the comment at the end of [prefetchNewBlocks] relies
    on: every task in the queues of the pool belongs to a future in
    [m_prefetching] or to the [resultFuture] that [get] holds, the pool has
    [m_parallelization] threads, and with the requested block at most
    [m_parallelization] blocks are being fetched. *)
Definition accounted (resultFuture : ThreadPool.Future) (s : t) : Prop :=
  ThreadPool.orderly (m_threadPool s)
  /\ (forall packagedTask,
        In packagedTask (ThreadPool.queuedTasks (m_threadPool s)) ->
        resultFuture = Some (ThreadPool.task_future packagedTask)
        \/ exists blockOffset,
             m_prefetching s !! blockOffset
             = Some (Some (ThreadPool.task_future packagedTask) : ThreadPool.Future))
  /\ ThreadPool.size (m_threadPool s) = m_parallelization s
  /\ Z.of_nat (size (m_prefetching s)) + 1 <= m_parallelization s
  /\ m_parallelization s < 2 ^ SIZE_T_DIGITS.



(** A submission is guarded when its offset was in neither cache and not in
    the prefetching map when the task was handed to the thread pool. *)
Definition guarded (submission : Submission) : Prop :=
  ~ In (submitted_offset submission) (offsets_in_cache submission)
  /\ ~ In (submitted_offset submission) (offsets_in_prefetchCache submission)
  /\ ~ In (submitted_offset submission) (offsets_in_prefetching submission).

(** The elementary changes of the fetcher, of which its member functions are
    composed.  The caches keep their capacities, and a decode task is only
    submitted for an offset that is not in a cache and not being prefetched. *)
Inductive step : t -> t -> Prop :=
| step_statistics s statistics :
    step s (with_statistics s statistics)
| step_blockFinder s finder :
    step s (with_blockFinder s finder)
| step_fetchingStrategy s strategy :
    step s (with_fetchingStrategy s strategy)
| step_cache s cache :
    Cache.capacity cache = Cache.capacity (m_cache s) ->
    step s (with_cache s cache)
| step_prefetchCache s prefetchCache :
    Cache.capacity prefetchCache = Cache.capacity (m_prefetchCache s) ->
    step s (with_prefetchCache s prefetchCache)
| step_erase s blockOffset :
    step s (with_prefetching s (delete blockOffset (m_prefetching s)))
| step_workers s :
    step s (workersProgress s)
| step_submitOnDemandTask s blockOffset nextBlockOffset :
    isInCacheOrQueue s blockOffset = false ->
    step s (snd (submitOnDemandTask s blockOffset nextBlockOffset))
| step_submitPrefetchTask s prefetchBlockOffset nextPrefetchBlockOffset :
    isInCacheOrQueue s prefetchBlockOffset = false ->
    step s (submitPrefetchTask s prefetchBlockOffset nextPrefetchBlockOffset).

Definition steps : t -> t -> Prop := rtc step.

(** Every decode task so far was submitted for an offset that was neither
    cached nor being prefetched. *)
Definition submissionsGuarded (s : t) : Prop := Forall guarded (submissions s).

(** The workers of the fetcher's pool process tasks, and the pool keeps track
    of the shared state [future] of the functor [task]. *)
Definition live (future : nat) (task : unit -> result BlockData) (s : t) : Prop :=
  ThreadPool.working (m_threadPool s) /\ ThreadPool.tracks (m_threadPool s) future task.


End WithTypes.

Arguments t : clear implicits.
Arguments Outcome : clear implicits.
Arguments Returns {BlockFinder FetchingStrategy BlockData A} a s.
Arguments Throws {BlockFinder FetchingStrategy BlockData A} e s.
Arguments Blocks {BlockFinder FetchingStrategy BlockData A} s.

End BlockFetcher.

(** ** Bit manipulation helpers (BitManipulation.hpp, common.hpp)

    Both headers are absent; the helpers are what their names say:
    [nLowestBitsSet<T>( n )] is the value of type [T] (of [digits] bits) whose
    [n] lowest bits are set, [ceilDiv] the division that rounds up. *)

Definition nLowestBitsSet (digits nBitsSet : Z) : Z :=
  if nBitsSet <=? 0 then 0
  else if digits <=? nBitsSet then 2 ^ digits - 1
  else 2 ^ nBitsSet - 1.

Definition ceilDiv (dividend divisor : Z) : Z := (dividend + divisor - 1) / divisor.

Definition uint64_wrap (x : Z) : Z := x mod 2 ^ 64.

(** [array.at( i )] and [array[i]] at an index inside the array.  Beyond it
    [at] throws [std::out_of_range], which this function does not tell: it
    gives 0 there, and what is proved of its callers is proved for indexes
    inside the arrays. *)
Definition array_at (a : list Z) (i : Z) : Z := List.nth (Z.to_nat i) a 0.

(** ** Precode check with a single lookup table *)

Module PrecodeCheck.

(** [pragzip::deflate::PRECODE_BITS] and [MAX_PRECODE_COUNT]: "19x 3-bit codes". *)
Definition PRECODE_BITS : Z := 3.
Definition MAX_PRECODE_COUNT : Z := 19.

(** [pragzip::deflate::precode::MAX_DEPTH]: the longest precode code length. *)
Definition MAX_DEPTH : nat := 7.

Module VariableLengthPackedHistogram.

Definition MEMBER_BIT_WIDTHS : list Z := [5; 1; 2; 3; 4; 5; 5; 4].

Fixpoint member_offsets (widths : list Z) (sum : Z) : list Z :=
  match widths with
  | [] => []
  | width :: rest => sum :: member_offsets rest ((sum + width) mod 2 ^ 8)
  end.

Definition MEMBER_OFFSETS : list Z := member_offsets MEMBER_BIT_WIDTHS 0.

Definition OVERFLOW_MEMBER_OFFSET : Z :=
  List.last MEMBER_OFFSETS 0 + List.last MEMBER_BIT_WIDTHS 0.

Definition LOWEST_MEMBER_BITS_MASK : Z :=
  fold_left (fun result offset => Z.lor result (uint32_wrap (Z.shiftl 1 offset)))
            MEMBER_OFFSETS 0.

Definition OVERFLOW_BITS_MASK : Z :=
  Z.lor LOWEST_MEMBER_BITS_MASK
        (uint32_wrap (Z.shiftl (2 ^ 32 - 1) OVERFLOW_MEMBER_OFFSET)).

Definition getCount (histogram value : Z) : Z :=
  Z.land (Z.shiftr histogram (array_at MEMBER_OFFSETS value))
         (nLowestBitsSet 32 (array_at MEMBER_BIT_WIDTHS value)) mod 2 ^ 8.

Definition setCount (histogram value count : Z) : result Z :=
  let bitWidth := array_at MEMBER_BIT_WIDTHS value in
  if Z.shiftl 1 bitWidth <=? count then
    Throw (invalid_argument "Overflow detected. Cannot set count to given value!")
  else
    Ok (Z.lor
          (Z.land histogram
                  (Z.lxor (2 ^ 32 - 1)
                          (uint32_wrap (Z.shiftl (nLowestBitsSet 32 bitWidth)
                                                 (array_at MEMBER_OFFSETS value)))))
          (uint32_wrap (Z.shiftl count (array_at MEMBER_OFFSETS value)))).

Definition incrementCount (histogram value : Z) : Z :=
  let oldCount := getCount histogram value in
  let newHistogram :=
    uint32_wrap (histogram + uint32_wrap (Z.shiftl 1 (array_at MEMBER_OFFSETS value))) in
  if oldCount + 1 <? Z.shiftl 1 (array_at MEMBER_BIT_WIDTHS value) then newHistogram
  else Z.lor newHistogram (uint32_wrap (Z.shiftl 1 OVERFLOW_MEMBER_OFFSET)).

(** The loop of [calculateHistogram], from [i] on, [count] values to go. *)
Fixpoint calculateHistogram_loop (VALUE_BITS : Z) (count : nat) (i : Z) (values : Z)
    (histogram : Z) : Z :=
  match count with
  | O => histogram
  | S count' =>
      let value := Z.land (Z.shiftr values (i * VALUE_BITS))
                          (nLowestBitsSet 32 VALUE_BITS) in
      let histogram :=
        if 0 <? value
        then uint32_wrap (incrementCount histogram (value mod 2 ^ 8) + 1)
        else histogram in
      calculateHistogram_loop VALUE_BITS count' (i + 1) values histogram
  end.

Definition calculateHistogram (VALUE_BITS VALUE_COUNT : Z) (values : Z) : Z :=
  calculateHistogram_loop VALUE_BITS (Z.to_nat VALUE_COUNT) 0 values 0.

Definition createHistogramLUT (VALUE_BITS VALUE_COUNT : Z) : list Z :=
  map (fun i => calculateHistogram VALUE_BITS VALUE_COUNT (Z.of_nat i))
      (seq 0 (Z.to_nat (2 ^ (VALUE_COUNT * VALUE_BITS)))).

(** The loop of [packHistogram] from depth [depth] on. *)
Fixpoint packHistogram_loop (counts : list Z) (depth : Z) (packedHistogram nonZeroCount : Z)
  : result (option (Z * Z)) :=
  match counts with
  | [] => Ok (Some (packedHistogram, nonZeroCount))
  | count :: rest =>
      let nonZeroCount := (nonZeroCount + count) mod 2 ^ 8 in
      if Z.shiftl 1 (array_at MEMBER_BIT_WIDTHS depth) <=? count then Ok None
      else
        let! packedHistogram := setCount packedHistogram depth count in
        packHistogram_loop rest (depth + 1) packedHistogram nonZeroCount
  end.

Definition packHistogram (histogram : list Z) : result (option Z) :=
  let! packed := packHistogram_loop histogram 1 0 0 in
  match packed with
  | None => Ok None
  | Some (packedHistogram, nonZeroCount) =>
      if Z.shiftl 1 (array_at MEMBER_BIT_WIDTHS 0) <=? nonZeroCount then
        Throw (invalid_argument "More total non-zero counts than permitted!")
      else
        let! result := setCount packedHistogram 0 nonZeroCount in
        Ok (Some result)
  end.

End VariableLengthPackedHistogram.

Import VariableLengthPackedHistogram.

Definition PRECODE_X4_TO_HISTOGRAM_LUT : list Z := createHistogramLUT PRECODE_BITS 4.

Definition HISTOGRAM_TO_LOOK_UP_BITS : Z :=
  List.last MEMBER_OFFSETS 0 - List.hd 0 MEMBER_BIT_WIDTHS + List.last MEMBER_BIT_WIDTHS 0.

(** Modelled from the spec: precode.hpp with [VALID_HISTOGRAMS] is absent; it
    is "the enumeration of all histograms corresponding to valid complete
    Huffman trees".  A histogram counts the codes of each length from 1 to 7
    among at most 19 precode symbols; the tree is complete when the codes use
    up every node: of the [unused] nodes of one depth, those that are not
    codes have two children each at the next depth, and none may be left
    after the last depth.  (More unused nodes than symbols left cannot be
    used up.) *)
Fixpoint validHistogramsFrom (depths : nat) (unused symbolsLeft : Z) : list (list Z) :=
  match depths with
  | O => if unused =? 0 then [[]] else []
  | S depths' =>
      if symbolsLeft <? unused then []
      else
        flat_map
          (fun count =>
             map (cons count)
                 (validHistogramsFrom depths' (2 * (unused - count)) (symbolsLeft - count)))
          (map Z.of_nat (seq 0 (S (Z.to_nat unused))))
  end.

Definition VALID_HISTOGRAMS : list (list Z) :=
  validHistogramsFrom MAX_DEPTH 2 MAX_PRECODE_COUNT.

(** The same condition as a test on one histogram: seven counts, at most 19
    symbols, and Kraft's sum equal to one (here in units of 2^-7). *)
Fixpoint kraftSum (histogram : list Z) (weight : Z) : Z :=
  match histogram with
  | [] => 0
  | count :: rest => count * weight + kraftSum rest (weight / 2)
  end.

Definition isCompleteHistogram (histogram : list Z) : bool :=
  (length histogram =? MAX_DEPTH)%nat
  && forallb (fun count => 0 <=? count) histogram
  && (fold_right Z.add 0 histogram <=? MAX_PRECODE_COUNT)
  && (kraftSum histogram 64 =? 128).

(** [PrecodeHistogramValidLUT]: 2^24 bits in 64-bit words; the words that are
    not listed are zero. *)
Definition setValid (result : gmap Z Z) (histogramToSetValid : Z) : gmap Z Z :=
  <[histogramToSetValid / 64 :=
      Z.lor (default 0 (result !! (histogramToSetValid / 64)))
            (uint64_wrap (Z.shiftl 1 (histogramToSetValid mod 64)))]> result.

Fixpoint createPrecodeHistogramValidLUT (histograms : list (list Z)) (result : gmap Z Z)
  : gmap Z Z :=
  match histograms with
  | [] => result
  | histogram :: rest =>
      let result :=
        match packHistogram histogram with
        | Ok (Some packedHistogram) =>
            setValid result (Z.shiftr packedHistogram (List.hd 0 MEMBER_BIT_WIDTHS))
        | _ => result
        end in
      createPrecodeHistogramValidLUT rest result
  end.

Definition PRECODE_HISTOGRAM_VALID_LUT : gmap Z Z :=
  createPrecodeHistogramValidLUT VALID_HISTOGRAMS ∅.

Definition POWER_OF_TWO_SPECIAL_CASES : list Z :=
  [ (*  0 *) 2 ^ 32 - 1;
    (*  1 *) 1;
    (*  2 *) 2;
    (*  3 *) 2 ^ 32 - 1;
    (*  4 *) 8;
    (*  5 *) 2 ^ 32 - 1;
    (*  6 *) 2 ^ 32 - 1;
    (*  7 *) 2 ^ 32 - 1;
    (*  8 *) 64;
    (*  9 *) 2 ^ 32 - 1;
    (* 10 *) 2 ^ 32 - 1;
    (* 11 *) 2 ^ 32 - 1;
    (* 12 *) 2 ^ 32 - 1;
    (* 13 *) 2 ^ 32 - 1;
    (* 14 *) 2 ^ 32 - 1;
    (* 15 *) 2 ^ 32 - 1;
    (* 16 *) 1024;
    (* 17 to 31: value-initialised *)
    0; 0; 0; 0; 0; 0; 0; 0; 0; 0; 0; 0; 0; 0; 0 ].

Definition PRECODES_PER_CHUNK : Z := 4.
Definition CACHED_BITS : Z := PRECODE_BITS * PRECODES_PER_CHUNK.
Definition CHUNK_COUNT : Z := ceilDiv MAX_PRECODE_COUNT PRECODES_PER_CHUNK.

(** [precodeBits] as [checkPrecode] computes it. *)
Definition precodeBitsOf (next4Bits next57Bits : Z) : Z :=
  let codeLengthCount := uint64_wrap (4 + next4Bits) in
  Z.land next57Bits (nLowestBitsSet 64 (codeLengthCount * PRECODE_BITS)).

Record Sums : Type := {
  bitLengthFrequencies : Z;
  overflowsInSum : Z;
  overflowsInLUT : Z
}.

(** The loop of [checkPrecode] over the chunks, from [chunk] on. *)
Fixpoint sumPartialHistograms (count : nat) (chunk : Z) (precodeBits : Z) (sums : Sums)
  : Sums :=
  match count with
  | O => sums
  | S count' =>
      let precodeChunk := Z.shiftr precodeBits (chunk * CACHED_BITS) in
      let precodeChunk :=
        if negb (chunk =? CHUNK_COUNT - 1)
        then Z.land precodeChunk (nLowestBitsSet 64 CACHED_BITS)
        else precodeChunk in
      let partialHistogram := array_at PRECODE_X4_TO_HISTOGRAM_LUT precodeChunk in
      let carrylessSum := Z.lxor (bitLengthFrequencies sums) partialHistogram in
      let bitLengthFrequencies' :=
        uint32_wrap (bitLengthFrequencies sums + partialHistogram) in
      sumPartialHistograms count' (chunk + 1) precodeBits
        {| bitLengthFrequencies := bitLengthFrequencies';
           overflowsInSum :=
             Z.lor (overflowsInSum sums) (Z.lxor carrylessSum bitLengthFrequencies');
           overflowsInLUT := Z.lor (overflowsInLUT sums) partialHistogram |}
  end.

Definition sumsOf (next4Bits next57Bits : Z) : Sums :=
  sumPartialHistograms (Z.to_nat CHUNK_COUNT) 0 (precodeBitsOf next4Bits next57Bits)
    {| bitLengthFrequencies := 0; overflowsInSum := 0; overflowsInLUT := 0 |}.

(** The test of the second [if] of [checkPrecode]: an overflow bit is set in
    the sum or in a partial histogram. *)
Definition overflowDetected (sums : Sums) : bool :=
  negb (Z.land (overflowsInSum sums) OVERFLOW_BITS_MASK =? 0)
  || negb (Z.land (overflowsInLUT sums)
                  (uint32_wrap (Z.shiftl (2 ^ 32 - 1) OVERFLOW_MEMBER_OFFSET)) =? 0).

Definition histogramToLookUpOf (sums : Sums) : Z :=
  Z.land (Z.shiftr (bitLengthFrequencies sums) 5) (nLowestBitsSet 32 HISTOGRAM_TO_LOOK_UP_BITS).

Definition nonZeroCountOf (sums : Sums) : Z :=
  Z.land (bitLengthFrequencies sums) (nLowestBitsSet 32 5).

(** The test of the first [if] of [checkPrecode]. *)
Definition isSpecialCase (sums : Sums) : bool :=
  array_at POWER_OF_TWO_SPECIAL_CASES (nonZeroCountOf sums) =? histogramToLookUpOf sums.

Definition checkPrecode (next4Bits next57Bits : Z) : Error :=
  let sums := sumsOf next4Bits next57Bits in
  let histogramToLookUp := histogramToLookUpOf sums in
  if isSpecialCase sums then NONE
  else if overflowDetected sums then INVALID_CODE_LENGTHS
  else
    let bitToLookUp := uint64_wrap (Z.shiftl 1 (histogramToLookUp mod 64)) in
    let INDEX_BIT_COUNT := HISTOGRAM_TO_LOOK_UP_BITS - 6 in
    let elementIndex := Z.land (histogramToLookUp / 64) (nLowestBitsSet 32 INDEX_BIT_COUNT) in
    if Z.land (default 0 (PRECODE_HISTOGRAM_VALID_LUT !! elementIndex)) bitToLookUp =? 0
    then BLOATING_HUFFMAN_CODING
    else NONE.

(** The input of [checkPrecode] for a list of precode code lengths: their
    number minus four, and the lengths packed three bits each, first length
    lowest. *)
Fixpoint packCodeLengths (codeLengths : list Z) : Z :=
  match codeLengths with
  | [] => 0
  | codeLength :: rest => Z.lor codeLength (Z.shiftl (packCodeLengths rest) PRECODE_BITS)
  end.

(** The histogram of a list of code lengths: how many there are of each of the
    lengths 1 to 7. *)
Definition histogramOf (codeLengths : list Z) : list Z :=
  map (fun depth =>
         Z.of_nat (length (List.filter (Z.eqb (Z.of_nat depth)) codeLengths)))
      (seq 1 MAX_DEPTH).

End PrecodeCheck.

(** ** CRC-32 (crc32.hpp, crc32.cpp) *)

Module CRC32.

Fixpoint createCRC32LookupTable_bits (j : nat) (c : Z) : Z :=
  match j with
  | O => c
  | S j' =>
      createCRC32LookupTable_bits j'
        (if Z.testbit c 0 then Z.lxor 3988292384 (Z.shiftr c 1) else Z.shiftr c 1)
  end.

Definition createCRC32LookupTable : list Z :=
  map (fun n => uint32_wrap (createCRC32LookupTable_bits 8 (Z.of_nat n))) (seq 0 256).

Definition CRC32_TABLE : list Z := createCRC32LookupTable.

Definition updateCRC32 (crc data : Z) : Z :=
  Z.lxor (Z.shiftr crc 8) (array_at CRC32_TABLE (Z.land (Z.lxor crc data) 255)).

(** The SSE 4.2 instruction behind [_mm_crc32_u8] and [_mm_crc32_u32]: it
    accumulates a CRC-32C, whose polynomial is 0x11EDC6F41 (bit-reflected
    0x82F63B78), over the bits of its second operand. *)
Fixpoint crc32c_bits (bits : nat) (c : Z) : Z :=
  match bits with
  | O => c
  | S bits' =>
      crc32c_bits bits'
        (if Z.testbit c 0 then Z.lxor 2197175160 (Z.shiftr c 1) else Z.shiftr c 1)
  end.

Definition _mm_crc32_u8 (crc v : Z) : Z := crc32c_bits 8 (Z.lxor crc v).

Definition _mm_crc32_u32 (crc v : Z) : Z := crc32c_bits 32 (Z.lxor crc v).

(** The 32-bit word that an x86 loads from four bytes. *)
Definition load_u32 (bytes : list Z) : Z :=
  array_at bytes 0 + Z.shiftl (array_at bytes 1) 8
  + Z.shiftl (array_at bytes 2) 16 + Z.shiftl (array_at bytes 3) 24.

(** The first loop of [crc32_sse4]: [len / 4] rounds of four words each. *)
Fixpoint crc32_sse4_words (rounds : nat) (crc : Z) (words : list Z) : Z * list Z :=
  match rounds with
  | O => (crc, words)
  | S rounds' =>
      let crc := _mm_crc32_u32 crc (load_u32 words) in
      let crc := _mm_crc32_u32 crc (load_u32 (skipn 4 words)) in
      let crc := _mm_crc32_u32 crc (load_u32 (skipn 8 words)) in
      let crc := _mm_crc32_u32 crc (load_u32 (skipn 12 words)) in
      crc32_sse4_words rounds' crc (skipn 16 words)
  end.

(** [crc32_sse4( crc, vec_data, length )] where [vec_data] points to [data]
    and [length] is its length, as [updateCRC32( crc, vec )] calls it. *)
Definition crc32_sse4 (crc : Z) (data : list Z) : Z :=
  let length := Z.of_nat (length data) in
  let len := length / 4 in
  let crc := Z.lxor crc 4294967295 in
  let '(crc, bytes) := crc32_sse4_words (Z.to_nat (len / 4)) crc data in
  let len := Z.land length 3 in
  let crc := fold_left _mm_crc32_u8 (firstn (Z.to_nat len) bytes) crc in
  Z.lxor crc 4294967295.

(** The table-based CRC-32 that the claim compares with: invert, fold
    [updateCRC32] over the bytes in order, invert again. *)
Definition crc32_table (crc : Z) (data : list Z) : Z :=
  Z.lxor (fold_left updateCRC32 data (Z.lxor crc 4294967295)) 4294967295.

End CRC32.

(** ** Instances and example objects *)

(** [GzipBlockFinder] as the block finder of a fetcher.  Its [get] ignores the
    timeout and does not throw (see [GzipBlockFinder_get_no_throw]). *)
#[export] Instance GzipBlockFinder_ops : BlockFetcher.BlockFinderOps GzipBlockFinder.t := {
  BlockFetcher.finder_find := GzipBlockFinder.find;
  BlockFetcher.finder_get s blockIndex _ :=
    match GzipBlockFinder.get s blockIndex with
    | Ok r => r
    | Throw _ => (None, s)
    end;
  BlockFetcher.finder_finalized := GzipBlockFinder.finalized;
  BlockFetcher.finder_size := GzipBlockFinder.size
}.

(** Modelled from the spec: Prefetcher.hpp is absent.  "Access-pattern
    predictor: ... emits a prediction prefetch(k) of up to k next chunk
    indexes ...  Sequentiality is detected when most recent deltas are +1."
    This strategy remembers the last two indexes that were fetched. *)
Module FetchNext.

Record t : Type := {
  lastFetched : option Z;
  previousFetched : option Z
}.

Definition fetch (strategy : t) (index : Z) : t :=
  {| lastFetched := Some index; previousFetched := lastFetched strategy |}.

Definition prefetch (strategy : t) (maxAmountToPrefetch : Z) : list Z :=
  match lastFetched strategy with
  | Some index =>
      map (fun i => size_t_wrap (index + 1 + Z.of_nat i))
          (seq 0 (Z.to_nat maxAmountToPrefetch))
  | None => []
  end.

Definition isSequential (strategy : t) : bool :=
  match lastFetched strategy, previousFetched strategy with
  | Some index, Some previous => index =? previous + 1
  | Some _, None => true
  | None, _ => false
  end.

End FetchNext.

#[export] Instance FetchNext_ops : BlockFetcher.FetchingStrategyOps FetchNext.t := {
  BlockFetcher.strategy_default :=
    {| FetchNext.lastFetched := None; FetchNext.previousFetched := None |};
  BlockFetcher.strategy_fetch := FetchNext.fetch;
  BlockFetcher.strategy_prefetch := FetchNext.prefetch;
  BlockFetcher.strategy_isSequential := FetchNext.isSequential
}.

Module Examples.

(** A gzip file of 1 MiB whose ten-byte header ends at bit 80. *)
Definition fileReader : GzipBlockFinder.FileReader :=
  {| GzipBlockFinder.fr_size := 1048576;
     GzipBlockFinder.fr_isBgzfFile := false;
     GzipBlockFinder.fr_bgzfOffsets := [];
     GzipBlockFinder.fr_readHeader := (NONE, 80) |}.

(** The finder that [GzipBlockFinder( fileReader, 4096 )] constructs on a
    machine with four hardware threads. *)
Definition finder : GzipBlockFinder.t :=
  {| GzipBlockFinder.m_fileSizeInBits := 8388608;
     GzipBlockFinder.m_finalized := false;
     GzipBlockFinder.m_spacingInBits := 32768;
     GzipBlockFinder.m_blockOffsets := [80];
     GzipBlockFinder.m_isBgzfFile := false;
     GzipBlockFinder.m_bgzfBlockFinder := None;
     GzipBlockFinder.m_batchFetchCount := 16 |}.

(** The same finder after the offsets 40000 and 70000 were confirmed. *)
Definition finder_confirmed : GzipBlockFinder.t :=
  GzipBlockFinder.with_blockOffsets finder [80; 40000; 70000].

(** Block data are byte strings here; decoding the chunk at bit 80 gives one
    byte, every other chunk is reported as broken. *)
Definition decodeBlock (blockOffset nextBlockOffset : Z) : result (list Z) :=
  if blockOffset =? 80 then Ok [120]
  else Throw (runtime_error "Failed to decode the deflate block!").

(** The fetcher that the constructor builds for [finder] and two threads. *)
Definition fetcher : BlockFetcher.t GzipBlockFinder.t FetchNext.t (list Z) :=
  {| BlockFetcher.m_statistics :=
       BlockFetcher.initialStatistics;
     BlockFetcher.m_parallelization := 2;
     BlockFetcher.m_blockFinder := finder;
     BlockFetcher.m_cache := Cache.ctor 16;
     BlockFetcher.m_prefetchCache := Cache.ctor 4;
     BlockFetcher.m_fetchingStrategy := BlockFetcher.strategy_default;
     BlockFetcher.m_prefetching := ∅;
     BlockFetcher.m_threadPool := ThreadPool.ctor 2;
     BlockFetcher.workers := [];
     BlockFetcher.submissions := [] |}.

(** [fetcher] after the chunk at bit 32768 was submitted as a prefetch. *)
Definition fetcher_prefetching : BlockFetcher.t GzipBlockFinder.t FetchNext.t (list Z) :=
  BlockFetcher.submitPrefetchTask decodeBlock fetcher 32768 65536.

(** [fetcher_prefetching] after a miss on the chunk at bit 80: the future of
    the on-demand task and the fetcher. *)
Definition fetcher_onDemand
  : ThreadPool.Future * BlockFetcher.t GzipBlockFinder.t FetchNext.t (list Z) :=
  BlockFetcher.submitOnDemandTask decodeBlock false fetcher_prefetching 80 (Some 32768).


(** [fetcher] after block 0 was fetched: the strategy reports sequential
    access. *)
Definition fetcher_sequential : BlockFetcher.t GzipBlockFinder.t FetchNext.t (list Z) :=
  BlockFetcher.with_fetchingStrategy fetcher
    (BlockFetcher.strategy_fetch (BlockFetcher.m_fetchingStrategy fetcher) 0).

(** [fetcher_sequential] with two blocks in its on-demand cache. *)
Definition fetcher_sequential_warm : BlockFetcher.t GzipBlockFinder.t FetchNext.t (list Z) :=
  BlockFetcher.with_cache fetcher_sequential
    (Cache.insert (Cache.insert (BlockFetcher.m_cache fetcher_sequential) 32768 [121])
                  65536 [122]).

(** [fetcher] in the middle of a miss on the chunk at bit 80 (block 0): the
    on-demand task is submitted, the strategy knows of the access, and the
    worker threads are idle during the next three polls. *)
Definition fetcher_busy : BlockFetcher.t GzipBlockFinder.t FetchNext.t (list Z) :=
  let s := snd (BlockFetcher.submitOnDemandTask decodeBlock false fetcher 80 (Some 32768)) in
  BlockFetcher.with_workers
    (BlockFetcher.with_fetchingStrategy s
       (BlockFetcher.strategy_fetch (BlockFetcher.m_fetchingStrategy s) 0))
    [[]; []; []].



(** Two reads: the chunk at bit 80 while the workers are slow at first, then
    the chunk at bit 32768, which had been prefetched in the meantime. *)
Definition operations
  : list (BlockFetcher.Operation (BlockFinder := GzipBlockFinder.t)
            (FetchingStrategy := FetchNext.t) (BlockData := list Z)) :=
  [ BlockFetcher.OperationGet 80 None false
      (Some (GzipBlockFinder.partitionOffsetContainingOffset finder))
      [[]; [ThreadPool.TakeTask];
       [ThreadPool.TakeTask; ThreadPool.FinishTask 1]; [ThreadPool.FinishTask 0]];
    BlockFetcher.OperationGet 32768 (Some 1) false None [] ].

(** The precode of the most lopsided complete tree: codes of the lengths 1, 2
    and 3 and sixteen codes of length 7, for all 19 precode symbols. *)
Definition lopsidedCodeLengths : list Z :=
  [1; 2; 3; 7; 7; 7; 7; 7; 7; 7; 7; 7; 7; 7; 7; 7; 7; 7; 7].

(** A precode with two codes of length 1 (and two unused symbols). *)
Definition twoCodesOfLengthOne : list Z := [1; 1; 0; 0].

End Examples.

(** ** CRC-32 by slicing (crc32.hpp) *)

Module CRC32Slicing.

Import CRC32.

Definition MAX_CRC32_SLICE_SIZE : Z := 64.

(** [CRC32_SLICE_BY_N_LUT[j][i]]: [lut[0] = CRC32_TABLE] and
    [lut[j][i] = updateCRC32( lut[j - 1][i], 0 )]. *)
Fixpoint lut_entry (j : nat) (i : Z) : Z :=
  match j with
  | O => array_at CRC32_TABLE i
  | S j' => updateCRC32 (lut_entry j' i) 0
  end.

Definition CRC32_SLICE_BY_N_LUT : list (list Z) :=
  map (fun j => map (fun i => lut_entry j (Z.of_nat i)) (seq 0 256))
      (seq 0 (Z.to_nat MAX_CRC32_SLICE_SIZE)).

(** [LUT[j][i]]. *)
Definition LUT_at (j i : Z) : Z :=
  array_at (List.nth (Z.to_nat j) CRC32_SLICE_BY_N_LUT []) i.

(** The four bytes that [memcpy] makes of a 32-bit value on x86 (little
    endian), the inverse of [load_u32]. *)
Definition store_u32 (value : Z) : list Z :=
  [Z.land value 255; Z.land (Z.shiftr value 8) 255;
   Z.land (Z.shiftr value 16) 255; Z.land (Z.shiftr value 24) 255].

(** The inner loop over [j], [count] rounds to go. *)
Fixpoint sliceChunk (count : nat) (SLICE_SIZE j : Z) (chunk : list Z) (result : Z) : Z :=
  match count with
  | O => result
  | S count' =>
      sliceChunk count' SLICE_SIZE (j + 1) chunk
        (Z.lxor result (LUT_at j (array_at chunk (SLICE_SIZE - 1 - j))))
  end.

(** The loop over the slices; it ends after at most [size / SLICE_SIZE]
    rounds, for which the fuel is enough. *)
Fixpoint sliceLoop (fuel : nat) (SLICE_SIZE : Z) (data : list Z) (size i crc : Z) : Z :=
  match fuel with
  | O => crc
  | S fuel' =>
      if size_t_wrap (i + SLICE_SIZE) <=? size then
        let firstDoubleWord := load_u32 (skipn (Z.to_nat i) data) in
        let crc := Z.lxor crc firstDoubleWord in
        let chunk :=
          store_u32 crc
          ++ firstn (Z.to_nat (SLICE_SIZE - 4)) (skipn (Z.to_nat (i + 4)) data) in
        let result := sliceChunk (Z.to_nat SLICE_SIZE) SLICE_SIZE 0 chunk 0 in
        sliceLoop fuel' SLICE_SIZE data size (size_t_wrap (i + SLICE_SIZE)) result
      else crc
  end.

(** [crc32SliceByN<SLICE_SIZE>( crc, data, size )] for the bytes [data], of
    which there are [size]. *)
Definition crc32SliceByN (SLICE_SIZE : Z) (crc : Z) (data : list Z) : Z :=
  let size := Z.of_nat (length data) in
  let crc := Z.lxor crc 4294967295 in
  let crc := sliceLoop (length data) SLICE_SIZE data size 0 crc in
  let crc :=
    fold_left updateCRC32 (skipn (Z.to_nat (size - size mod SLICE_SIZE)) data) crc in
  Z.lxor crc 4294967295.

(** The overload [updateCRC32<SLICE_SIZE>( crc, buffer, size )]. *)
Definition updateCRC32_buffer (SLICE_SIZE : Z) (crc : Z) (buffer : list Z) : Z :=
  crc32SliceByN SLICE_SIZE crc buffer.

(** What the static assertions of [crc32SliceByN] demand of [SLICE_SIZE]. *)
Definition validSliceSize (SLICE_SIZE : Z) : Prop :=
  SLICE_SIZE mod 4 = 0 /\ 0 < SLICE_SIZE <= MAX_CRC32_SLICE_SIZE.

(** Bytes. *)
Definition is_byte (b : Z) : Prop := 0 <= b < 256.

End CRC32Slicing.

(** ** FileUtils.hpp *)

Module FileUtils.

(** What the operating system does with a [write] or [vmsplice] call: the
    return value of the call that starts at the given position of the data
    with the given number of bytes left.  The position grows with every
    successful call, so that no call is asked about twice. *)
Definition SystemCall : Type := Z -> Z -> Z.




(** The loop of [writeAllSpliceUnsafe] (with [HAVE_VMSPLICE]); [iov_len] is
    what is left to splice.  A [vmsplice] that [transfers] ends the loop
    within [dataToWriteSize] rounds; for one that keeps returning 0 the code
    does not return, which this function does not tell. *)
Fixpoint writeAllSpliceUnsafe_loop (fuel : nat) (vmsplice : SystemCall)
    (dataToWriteSize : Z) (iov_len : Z) : result bool :=
  match fuel with
  | O => Ok true
  | S fuel' =>
      if 0 <? iov_len then
        let nBytesWritten := vmsplice (dataToWriteSize - iov_len) iov_len in
        if nBytesWritten <? 0 then
          if iov_len =? dataToWriteSize then Ok false
          else Throw (runtime_error "Failed to write to pipe")
        else
          writeAllSpliceUnsafe_loop fuel' vmsplice dataToWriteSize
                                    (size_t_wrap (iov_len - nBytesWritten))
      else Ok true
  end.

Definition writeAllSpliceUnsafe (vmsplice : SystemCall) (dataToWriteSize : Z)
  : result bool :=
  writeAllSpliceUnsafe_loop (S (Z.to_nat dataToWriteSize)) vmsplice
                            dataToWriteSize dataToWriteSize.

(** A system call that transfers no more bytes than it was asked to, and at
    least one whenever it does not fail. *)
Definition transfers (call : SystemCall) : Prop :=
  forall position count,
    0 < count -> call position count <= count /\ call position count <> 0.

(** The positions in the data at which the [vmsplice] calls of
    [writeAllSpliceUnsafe] start: the first one at 0, the next one behind the
    bytes that a call has spliced. *)
Inductive splicedUpTo (vmsplice : SystemCall) (dataToWriteSize : Z) : Z -> Prop :=
| spliced_nothing :
    splicedUpTo vmsplice dataToWriteSize 0
| spliced_more position :
    splicedUpTo vmsplice dataToWriteSize position ->
    position < dataToWriteSize ->
    0 <= vmsplice position (dataToWriteSize - position) ->
    splicedUpTo vmsplice dataToWriteSize
                (position + vmsplice position (dataToWriteSize - position)).

(** *** [SpliceVault] *)

Module SpliceVault.

(** [m_splicedData] holds, for each resource, its raw pointer and the number
    of bytes spliced from it ([std::any] keeps the resource alive and plays no
    other part). *)
Record t : Type := {
  m_fileDescriptor : Z;
  m_pipeBufferSize : Z;
  m_splicedData : list (Z * Z);
  m_totalSplicedBytes : Z
}.

(** The constructor; [F_GETPIPE_SZ] is what [fcntl] reports. *)
Definition ctor (fileDescriptor F_GETPIPE_SZ : Z) : t :=
  {| m_fileDescriptor := fileDescriptor;
     m_pipeBufferSize := F_GETPIPE_SZ;
     m_splicedData := [];
     m_totalSplicedBytes := 0 |}.






End SpliceVault.

End FileUtils.

(** * Theorems *)

(** ** GzipBlockFinder *)

Section GzipBlockFinderFacts.

Import GzipBlockFinder.

Lemma size_t_wrap_small x : is_size_t x -> size_t_wrap x = x.
Proof. unfold is_size_t, size_t_wrap. intros Hx. apply Z.mod_small. exact Hx. Qed.

Lemma size_t_wrap_range x : is_size_t (size_t_wrap x).
Proof.
  unfold is_size_t, size_t_wrap, SIZE_T_DIGITS. apply Z.mod_pos_bound. lia.
Qed.

(** The spacing test of the constructor, in bytes: it compares the spacing in
    bits with [32_Ki]. *)
Lemma GzipBlockFinder_ctor_spacing fileReader spacing hardware_concurrency :
  size_t_wrap (spacing * 8) < 32768 ->
  ctor fileReader spacing hardware_concurrency = Throw (invalid_argument SPACING_MESSAGE).
Proof.
  intros Hsmall. unfold ctor, CHAR_BIT, Ki.
  destruct (Z.ltb_spec (size_t_wrap (spacing * 8)) (32 * 1024)) as [_ | Hge]; [reflexivity | lia].
Qed.

Lemma GzipBlockFinder_ctor_no_spacing_error fileReader spacing hardware_concurrency :
  32768 <= size_t_wrap (spacing * 8) ->
  ctor fileReader spacing hardware_concurrency <> Throw (invalid_argument SPACING_MESSAGE).
Proof.
  intros Hlarge. unfold ctor, CHAR_BIT, Ki.
  destruct (Z.ltb_spec (size_t_wrap (spacing * 8)) (32 * 1024)) as [Hlt | _]; [lia |].
  destruct (fr_readHeader fileReader) as [error tell].
  destruct error; simpl; discriminate.
Qed.

(** *** [std::lower_bound] on strictly ascending offsets *)

Lemma lower_bound_range offsets x :
  0 <= lower_bound offsets x <= Z.of_nat (length offsets).
Proof.
  induction offsets as [| y rest IH]; simpl; [lia |].
  destruct (y <? x); lia.
Qed.

Lemma lower_bound_all_smaller offsets x :
  Forall (fun y => y < x) offsets -> lower_bound offsets x = Z.of_nat (length offsets).
Proof.
  induction 1 as [| y rest Hy _ IH]; simpl; [reflexivity |].
  destruct (Z.ltb_spec y x); lia.
Qed.

Lemma lower_bound_at offsets (i : nat) :
  StronglySorted Z.lt offsets ->
  (i < length offsets)%nat ->
  lower_bound offsets (List.nth i offsets 0) = Z.of_nat i.
Proof.
  intros Hsorted. revert i.
  induction Hsorted as [| y rest Hrest IH Hy]; intros i Hi; simpl in Hi; [lia |].
  destruct i as [| i]; simpl.
  - rewrite Z.ltb_irrefl. reflexivity.
  - assert (Hin : y < List.nth i rest 0).
    { rewrite List.Forall_forall in Hy. apply Hy. apply nth_In. lia. }
    destruct (Z.ltb_spec y (List.nth i rest 0)); [| lia].
    rewrite IH by lia. lia.
Qed.

Lemma back_cons y rest : rest <> [] -> back (y :: rest) = back rest.
Proof. unfold back. destruct rest; [congruence | reflexivity]. Qed.

Lemma back_is_largest offsets :
  StronglySorted Z.lt offsets -> Forall (fun y => y <= back offsets) offsets.
Proof.
  induction 1 as [| y rest Hrest IH Hy]; [constructor |].
  destruct rest as [| z rest'].
  - constructor; [unfold back; simpl; lia | constructor].
  - rewrite back_cons by discriminate.
    constructor.
    + inversion Hy as [| ? ? Hz _]; subst. inversion IH as [| ? ? Hzb _]; subst. lia.
    + exact IH.
Qed.

Lemma back_in offsets : offsets <> [] -> In (back offsets) offsets.
Proof.
  induction offsets as [| y rest IH]; [congruence |]. intros _.
  destruct rest as [| z rest'].
  - left. reflexivity.
  - right. rewrite back_cons by discriminate. apply IH. discriminate.
Qed.

(** *** Inserting keeps the offsets in order *)

Lemma insert_at_lower_bound_sorted offsets x :
  StronglySorted Z.lt offsets ->
  (lower_bound offsets x = Z.of_nat (length offsets)
   \/ at_index offsets (lower_bound offsets x) <> x) ->
  StronglySorted Z.lt (insert_at offsets (lower_bound offsets x) x).
Proof.
  unfold insert_at, at_index.
  induction 1 as [| y rest Hrest IH Hy]; intros Hnew; simpl in Hnew |- *.
  - repeat constructor.
  - destruct (Z.ltb_spec y x) as [Hlt | Hge].
    + pose proof (lower_bound_range rest x) as Hrange.
      assert (Hsucc : Z.to_nat (1 + lower_bound rest x) = S (Z.to_nat (lower_bound rest x)))
        by lia.
      rewrite Hsucc in *.
      simpl in Hnew |- *. constructor.
      * apply IH. destruct Hnew as [Hend | Hother]; [left; lia | right; exact Hother].
      * rewrite Forall_app. split.
        -- apply Forall_take. exact Hy.
        -- constructor; [exact Hlt |]. apply Forall_drop. exact Hy.
    + simpl in Hnew |- *. destruct Hnew as [Hend | Hother]; [lia |].
      constructor; [constructor; assumption |].
      constructor; [lia |].
      eapply Forall_impl; [exact Hy |]. simpl. intros z Hz. lia.
Qed.


Lemma insertUnsafe_wellFormed s blockOffset s' :
  wellFormed s -> is_size_t blockOffset ->
  insertUnsafe s blockOffset = Ok s' -> wellFormed s'.
Proof.
  intros Hs Hoffset.
  pose proof Hs as (Hne & [Hsorted Hrange] & Hspacing & Hsize & Hpending).
  unfold insertUnsafe.
  destruct (m_fileSizeInBits s <=? blockOffset); [intros [= <-]; exact Hs |].
  destruct ((lower_bound (m_blockOffsets s) blockOffset =? size s)
            || negb (at_index (m_blockOffsets s) (lower_bound (m_blockOffsets s) blockOffset)
                     =? blockOffset)) eqn:Hnew;
    [| intros [= <-]; exact Hs].
  destruct (m_finalized s); [discriminate |]. intros [= <-].
  unfold wellFormed, with_blockOffsets; simpl.
  refine (conj _ (conj (conj _ _) (conj Hspacing (conj Hsize Hpending)))).
  - unfold insert_at. intros Hnil. apply app_eq_nil in Hnil as [_ Hnil]. discriminate.
  - apply insert_at_lower_bound_sorted; [assumption |].
    apply orb_true_iff in Hnew as [Hend | Hother].
    + left. unfold size in Hend. lia.
    + right. apply negb_true_iff in Hother. lia.
  - unfold insert_at. rewrite Forall_app. split; [apply Forall_take; assumption |].
    constructor; [assumption | apply Forall_drop; assumption].
Qed.

Lemma gatherMoreBgzfBlocks_loop_wellFormed pending :
  forall s blockNumber s',
    wellFormed s -> Forall is_size_t pending ->
    gatherMoreBgzfBlocks_loop pending s blockNumber = Ok s' -> wellFormed s'.
Proof.
  assert (Hwith : forall s rest, wellFormed s -> Forall is_size_t rest ->
                                 wellFormed (with_bgzfBlockFinder s (Some rest))).
  { intros s rest (Hne & Hasc & Hspacing & Hsize & _) Hrest.
    exact (conj Hne (conj Hasc (conj Hspacing (conj Hsize Hrest)))). }
  induction pending as [| nextOffset rest IH]; intros s blockNumber s' Hs Hpending; simpl.
  - destruct (negb _); intros [= <-]; apply Hwith; assumption.
  - inversion Hpending as [| ? ? Hnext Hrest]; subst.
    destruct (negb _); [intros [= <-]; apply Hwith; assumption |].
    destruct (nextOffset <? _); [apply IH; assumption |].
    destruct (m_fileSizeInBits s <=? nextOffset); [intros [= <-]; apply Hwith; assumption |].
    destruct (insertUnsafe s nextOffset) as [s1 | e] eqn:Hinsert; simpl; [| discriminate].
    apply IH; [| assumption]. eapply insertUnsafe_wellFormed; eassumption.
Qed.

Lemma get_wellFormed s blockIndex r s' :
  wellFormed s -> get s blockIndex = Ok (r, s') -> wellFormed s'.
Proof.
  intros Hs. unfold get.
  match goal with |- context [bind ?g _] => set (gathered := g) end.
  assert (Hgathered : forall s1, gathered = Ok s1 -> wellFormed s1).
  { subst gathered. intros s1.
    destruct (_ && _); [| intros [= <-]; exact Hs].
    unfold gatherMoreBgzfBlocks.
    destruct (m_bgzfBlockFinder s) as [pending |] eqn:Hpending; [| intros [= <-]; exact Hs].
    apply gatherMoreBgzfBlocks_loop_wellFormed; [exact Hs |].
    destruct Hs as (_ & _ & _ & _ & Hp). rewrite Hpending in Hp. exact Hp. }
  destruct gathered as [s1 | e]; simpl; [| discriminate].
  specialize (Hgathered s1 eq_refl).
  destruct (blockIndex <? size s1); [intros [= _ <-]; assumption |].
  destruct (_ <? m_fileSizeInBits s1); [intros [= _ <-]; assumption |].
  destruct (_ && _); intros [= _ <-]; assumption.
Qed.

Lemma reachable_wellFormed s : reachable s -> wellFormed s.
Proof.
  induction 1 as [fileReader spacing hc s Hsize Hspacing Htell Hbgzf Hctor
                 | s blockOffset s' _ IH Hoffset Hinsert
                 | s _ IH
                 | s blockIndex r s' _ IH _ Hget
                 | s blockOffsets _ IH Hne Hasc].
  - unfold ctor in Hctor.
    destruct (Z.ltb_spec (size_t_wrap (spacing * CHAR_BIT)) (Ki 32)) as [| Hge]; [discriminate |].
    destruct (fr_readHeader fileReader) as [error tell]. simpl in Htell.
    destruct (negb (Error_eqb error NONE)); [discriminate |].
    injection Hctor as <-. unfold wellFormed; simpl.
    pose proof (size_t_wrap_range (spacing * CHAR_BIT)) as Hs.
    pose proof (size_t_wrap_range (fr_size fileReader * CHAR_BIT)) as Hf.
    unfold is_size_t, SIZE_T_DIGITS, Ki in *.
    repeat split; try lia; try discriminate.
    + repeat constructor.
    + repeat constructor; unfold is_size_t, SIZE_T_DIGITS; lia.
    + destruct (fr_isBgzfFile fileReader); [assumption | exact I].
  - eapply insertUnsafe_wellFormed; eassumption.
  - exact IH.
  - eapply get_wellFormed; eassumption.
  - destruct IH as (_ & _ & Hspacing & Hsize & Hpending).
    exact (conj Hne (conj Hasc (conj Hspacing (conj Hsize Hpending)))).
Qed.

Lemma at_index_nth offsets (i : Z) :
  at_index offsets i = List.nth (Z.to_nat i) offsets 0.
Proof. reflexivity. Qed.

(** C10, as amended: in every reachable finder state of a file that is not
    BGZF, when [get( i )] returns an offset below the file size in bits and
    [i] is a known index or its guess does not overflow [size_t], then [find]
    of that offset returns [i] and does not throw; [get] leaves the finder as
    it was. *)
Theorem GzipBlockFinder_get_find_round_trip s blockIndex offset s' :
  reachable s ->
  m_isBgzfFile s = false ->
  is_size_t blockIndex ->
  blockIndex < size s \/ guessDoesNotOverflow s blockIndex ->
  get s blockIndex = Ok (Some offset, s') ->
  offset < m_fileSizeInBits s ->
  find s offset = Ok blockIndex /\ s' = s.
Proof.
  intros Hreach Hbgzf Hindex Hguess Hget Hinside.
  apply reachable_wellFormed in Hreach as (Hne & [Hsorted Hrange] & Hspacing & Hsize & _).
  unfold is_size_t, SIZE_T_DIGITS in Hindex.
  revert Hget. unfold get. rewrite Hbgzf. simpl.
  unfold find.
  destruct (Z.ltb_spec blockIndex (size s)) as [Hknown | Hguessed]; intros Hget.
  - injection Hget as <- <-. split; [| reflexivity].
    unfold at_index, size in *.
    rewrite lower_bound_at by (assumption || lia).
    rewrite Z2Nat.id by (apply Hindex).
    destruct (Z.ltb_spec blockIndex (Z.of_nat (length (m_blockOffsets s)))); [| lia].
    rewrite Z.eqb_refl. reflexivity.
  - destruct Hguess as [Hknown | Hguess]; [lia |].
    unfold guessDoesNotOverflow in Hguess.
    set (spacing := m_spacingInBits s) in *.
    set (last := back (m_blockOffsets s)) in *.
    assert (Hlast : is_size_t last).
    { subst last. rewrite Forall_forall in Hrange. apply Hrange.
      apply list_elem_of_In. apply back_in. exact Hne. }
    unfold is_size_t, SIZE_T_DIGITS in *.
    assert (Hdiv : 0 <= last / spacing <= last).
    { split; [apply Z.div_pos; lia |]. apply Z.div_le_upper_bound; nia. }
    assert (Hsz : 0 <= size s) by (unfold size; lia).
    assert (Hfirst : firstPartitionIndex s = last / spacing + 1).
    { unfold firstPartitionIndex. fold last spacing. apply size_t_wrap_small.
      unfold is_size_t, SIZE_T_DIGITS.
      assert (last / spacing < 2 ^ 49); [| lia].
      apply Z.div_lt_upper_bound; lia. }
    set (partition := last / spacing + 1 + (blockIndex - size s)) in *.
    assert (Hpartition : 0 < partition < 2 ^ 64) by (subst partition; nia).
    rewrite Hfirst in Hget |- *.
    rewrite (size_t_wrap_small (blockIndex - size s)) in Hget
      by (unfold is_size_t, SIZE_T_DIGITS; lia).
    fold partition in Hget.
    rewrite (size_t_wrap_small partition) in Hget by (unfold is_size_t, SIZE_T_DIGITS; lia).
    rewrite (size_t_wrap_small (partition * spacing)) in Hget
      by (unfold is_size_t, SIZE_T_DIGITS; nia).
    assert (Hoffset : offset = partition * spacing /\ s' = s).
    { destruct (partition * spacing <? m_fileSizeInBits s); [injection Hget as <- <-; auto |].
      destruct (_ && _); [injection Hget as <- <-; lia | discriminate]. }
    destruct Hoffset as [-> ->]. split; [| reflexivity].
    assert (Hbeyond : last < partition * spacing).
    { pose proof (Z.mod_pos_bound last spacing ltac:(lia)).
      pose proof (Z.div_mod last spacing ltac:(lia)). subst partition. nia. }
    rewrite lower_bound_all_smaller.
    2:{ eapply Forall_impl; [apply back_is_largest; exact Hsorted |].
        simpl. fold last. intros y Hy. lia. }
    fold (size s). rewrite Z.ltb_irrefl. simpl.
    destruct (Z.ltb_spec last (partition * spacing)); [| lia].
    destruct (Z.ltb_spec (partition * spacing) (m_fileSizeInBits s)); [| lia].
    rewrite Z.mod_mul by lia. simpl.
    rewrite Z.div_mul by lia.
    replace (partition - (last / spacing + 1)) with (blockIndex - size s)
      by (subst partition; lia).
    rewrite (size_t_wrap_small (blockIndex - size s))
      by (unfold is_size_t, SIZE_T_DIGITS; lia).
    rewrite size_t_wrap_small by (unfold is_size_t, SIZE_T_DIGITS; lia).
    f_equal. lia.
Qed.

Lemma Examples_finder_reachable : reachable Examples.finder.
Proof.
  apply (reachable_ctor Examples.fileReader 4096 4).
  - unfold is_size_t, SIZE_T_DIGITS; simpl; lia.
  - unfold is_size_t, SIZE_T_DIGITS; lia.
  - unfold is_size_t, SIZE_T_DIGITS; simpl; lia.
  - constructor.
  - reflexivity.
Defined.

Lemma Examples_finder_confirmed_reachable : reachable Examples.finder_confirmed.
Proof.
  apply (reachable_insert
           (with_blockOffsets Examples.finder [80; 40000]) 70000).
  - apply (reachable_insert Examples.finder 40000).
    + exact Examples_finder_reachable.
    + unfold is_size_t, SIZE_T_DIGITS; lia.
    + reflexivity.
  - unfold is_size_t, SIZE_T_DIGITS; lia.
  - reflexivity.
Defined.

(** A guessed offset and a confirmed offset of [Examples.finder_confirmed]. *)
Lemma GzipBlockFinder_get_find_round_trip_witness :
  find Examples.finder_confirmed 98304 = Ok 3
  /\ Examples.finder_confirmed = Examples.finder_confirmed.
Proof.
  apply (GzipBlockFinder_get_find_round_trip Examples.finder_confirmed 3 98304).
  - exact Examples_finder_confirmed_reachable.
  - reflexivity.
  - unfold is_size_t, SIZE_T_DIGITS; lia.
  - right. unfold guessDoesNotOverflow. vm_compute. reflexivity.
  - reflexivity.
  - vm_compute. reflexivity.
Defined.

(** C10, counterexample: with a spacing of 32768 bits the guess for block
    index 2^49 is 2^64, which wraps around to offset 0; [get] returns it, it
    is below the file size, and [find( 0 )] throws. *)
Lemma GzipBlockFinder_round_trip_fails_on_overflow :
  reachable Examples.finder
  /\ m_isBgzfFile Examples.finder = false
  /\ is_size_t (2 ^ 49)
  /\ get Examples.finder (2 ^ 49) = Ok (Some 0, Examples.finder)
  /\ 0 < m_fileSizeInBits Examples.finder
  /\ find Examples.finder 0
     = Throw (out_of_range
                "No block with the specified offset 0 exists in the block finder map!")
  /\ find Examples.finder 0 <> Ok (2 ^ 49).
Proof.
  split; [exact Examples_finder_reachable |].
  split; [reflexivity |].
  split; [unfold is_size_t, SIZE_T_DIGITS; lia |].
  split; [vm_compute; reflexivity |].
  split; [vm_compute; reflexivity |].
  split; [vm_compute; reflexivity |].
  vm_compute. discriminate.
Qed.

(** C1, the failing input: a spacing of 4096 bytes is smaller than 32 KiB,
    and the constructor accepts it, because 4096 * 8 bits are not below
    [32_Ki]. *)
Theorem GzipBlockFinder_ctor_accepts_4096_bytes :
  4096 < 32 * 1024
  /\ ctor Examples.fileReader 4096 4 = Ok Examples.finder.
Proof. split; [lia | reflexivity]. Qed.

(** A spacing of 2^61 bytes is larger than 32 KiB, and the constructor
    rejects it, because its size in bits wraps around to zero. *)
Lemma GzipBlockFinder_ctor_rejects_2_61_bytes :
  32 * 1024 <= 2 ^ 61 < 2 ^ 64
  /\ ctor Examples.fileReader (2 ^ 61) 4 = Throw (invalid_argument SPACING_MESSAGE).
Proof. split; [lia | reflexivity]. Qed.

(** [get] never throws: it gathers BGZF blocks only while the finder accepts
    insertions. *)
Lemma gatherMoreBgzfBlocks_loop_no_throw pending :
  forall s blockNumber,
    m_finalized s = false ->
    exists s', gatherMoreBgzfBlocks_loop pending s blockNumber = Ok s'.
Proof.
  induction pending as [| nextOffset rest IH]; intros s blockNumber Hopen; simpl.
  - destruct (negb _); eexists; reflexivity.
  - destruct (negb _); [eexists; reflexivity |].
    destruct (nextOffset <? _); [apply IH; exact Hopen |].
    destruct (m_fileSizeInBits s <=? nextOffset); [eexists; reflexivity |].
    unfold insertUnsafe.
    destruct (m_fileSizeInBits s <=? nextOffset); simpl; [apply IH; exact Hopen |].
    destruct (_ || _); simpl; [| apply IH; exact Hopen].
    rewrite Hopen. simpl. apply IH. exact Hopen.
Qed.

Lemma GzipBlockFinder_get_no_throw s blockIndex :
  exists r, get s blockIndex = Ok r.
Proof.
  unfold get.
  match goal with
  | |- context [bind ?g ?k] =>
      assert (Hk : forall s1, exists r, k s1 = Ok r);
      [| assert (Hg : exists s1, g = Ok s1)]
  end.
  - intros s1. simpl. destruct (blockIndex <? size s1); [eexists; reflexivity |].
    destruct (_ <? m_fileSizeInBits s1); [eexists; reflexivity |].
    destruct (_ && _); eexists; reflexivity.
  - destruct (m_isBgzfFile s && bool_decide (is_Some (m_bgzfBlockFinder s))
              && negb (m_finalized s)) eqn:Hgather; [| eexists; reflexivity].
    apply andb_true_iff in Hgather as [_ Hopen]. apply negb_true_iff in Hopen.
    unfold gatherMoreBgzfBlocks.
    destruct (m_bgzfBlockFinder s) as [pending |]; [| eexists; reflexivity].
    apply gatherMoreBgzfBlocks_loop_no_throw. exact Hopen.
  - destruct Hg as [s1 ->]. simpl. apply (Hk s1).
Qed.

End GzipBlockFinderFacts.

(** ** ThreadPool and the priority of decode tasks *)

Section ThreadPoolFacts.

Context {R : Type}.

Implicit Types (tasks : list (Z * list (ThreadPool.PackagedTask R))).
Implicit Types (task new : ThreadPool.PackagedTask R).

Lemma takeFirstTask_priority tasks task priority rest :
  ThreadPool.takeFirstTask tasks = Some (task, priority, rest) ->
  In priority (map fst tasks).
Proof.
  revert rest. induction tasks as [| [p queue] tasks IH]; intros rest; simpl; [discriminate |].
  destruct queue as [| first queue].
  - destruct (ThreadPool.takeFirstTask tasks) as [[[task' priority'] rest'] |];
      [| discriminate].
    intros [= -> -> <-]. right. eapply IH. reflexivity.
  - intros [= -> -> <-]. left. reflexivity.
Qed.

(** A task that is added at priority 0 is taken after every task of a
    priority of at most 0 that is already queued, and before the others. *)
Lemma takeFirstTask_emplace_back tasks new :
  StronglySorted Z.lt (map fst tasks) ->
  match ThreadPool.takeFirstTask (ThreadPool.tasks_emplace_back tasks 0 new) with
  | Some (task, priority, _) =>
      match ThreadPool.takeFirstTask tasks with
      | Some (queued, priority', _) =>
          if priority' <=? 0 then task = queued /\ priority = priority'
          else task = new /\ priority = 0
      | None => task = new /\ priority = 0
      end
  | None => False
  end.
Proof.
  induction tasks as [| [p queue] tasks IH]; intros Hsorted; simpl.
  - split; reflexivity.
  - simpl in Hsorted. apply StronglySorted_inv in Hsorted as [Hrest Hp].
    assert (Hlater : forall task priority rest,
               ThreadPool.takeFirstTask tasks = Some (task, priority, rest) -> p < priority).
    { intros task priority rest Htake. apply takeFirstTask_priority in Htake.
      rewrite List.Forall_forall in Hp. apply Hp. exact Htake. }
    destruct p as [| p | p]; simpl.
    + destruct queue as [| first queue]; simpl.
      * destruct (ThreadPool.takeFirstTask tasks) as [[[task' priority'] rest'] |] eqn:Htake;
          [| split; reflexivity].
        specialize (Hlater _ _ _ eq_refl).
        destruct (Z.leb_spec priority' 0); [lia | split; reflexivity].
      * split; reflexivity.
    + destruct queue as [| first queue].
      * destruct (ThreadPool.takeFirstTask tasks) as [[[task' priority'] rest'] |] eqn:Htake;
          [| split; reflexivity].
        specialize (Hlater _ _ _ eq_refl).
        destruct (Z.leb_spec priority' 0); [lia | split; reflexivity].
      * split; reflexivity.
    + destruct queue as [| first queue]; simpl.
      * specialize (IH Hrest).
        destruct (ThreadPool.takeFirstTask (ThreadPool.tasks_emplace_back tasks 0 new))
          as [[[task priority] rest] |]; [| contradiction].
        destruct (ThreadPool.takeFirstTask tasks) as [[[task' priority'] rest'] |];
          exact IH.
      * split; reflexivity.
Qed.

Lemma tasks_emplace_back_sorted tasks priority new :
  StronglySorted Z.lt (map fst tasks) ->
  StronglySorted Z.lt (map fst (ThreadPool.tasks_emplace_back tasks priority new)).
Proof.
  induction tasks as [| [p queue] tasks IH]; intros Hsorted; simpl.
  - repeat constructor.
  - simpl in Hsorted. pose proof Hsorted as Hall.
    apply StronglySorted_inv in Hsorted as [Hrest Hp].
    destruct (Z.ltb_spec priority p) as [Hlt | Hge]; simpl.
    + constructor; [exact Hall |]. constructor; [exact Hlt |].
      eapply Forall_impl; [exact Hp |]. simpl. intros q Hq. lia.
    + destruct (Z.eqb_spec priority p) as [-> | Hne]; simpl.
      * exact Hall.
      * constructor; [apply IH; exact Hrest |].
        clear IH Hall Hrest. induction tasks as [| [p' queue'] tasks IH]; simpl.
        -- repeat constructor. lia.
        -- simpl in Hp. apply Forall_cons in Hp as [Hp' Hp].
           destruct (priority <? p'); simpl; [repeat constructor; try lia; exact Hp |].
           destruct (priority =? p'); simpl; constructor; try lia; try exact Hp.
           apply IH. exact Hp.
Qed.

End ThreadPoolFacts.

Section DecodeTaskPriority.

Context {BlockFinder FetchingStrategy BlockData : Type}.
Context `{BlockFetcher.BlockFinderOps BlockFinder}
        `{BlockFetcher.FetchingStrategyOps FetchingStrategy}.
Variable decodeBlock : Z -> Z -> result BlockData.
Variable STATISTICS : bool.

Implicit Types (s : BlockFetcher.t BlockFinder FetchingStrategy BlockData).

(** C2, as amended: on a miss the on-demand decode task is submitted at
    priority 0, the level at which prefetches are submitted as well, behind
    the tasks that this level already holds.  A worker takes the first task of
    the lowest priority that has one, so the next task it takes after the
    submission is the one it would have taken before if that one has a
    priority of at most 0 (a queued prefetch, for instance), and the on-demand
    task otherwise. *)
Theorem BlockFetcher_onDemand_task_priority s blockOffset nextBlockOffset :
  ThreadPool.priorities_ascending (BlockFetcher.m_threadPool s) ->
  let pool := BlockFetcher.m_threadPool s in
  let submitted :=
    BlockFetcher.submitOnDemandTask decodeBlock STATISTICS s blockOffset nextBlockOffset in
  let pool' := BlockFetcher.m_threadPool (snd submitted) in
  fst submitted = Some (ThreadPool.m_nextFuture pool)
  /\ (exists task,
        ThreadPool.task_future task = ThreadPool.m_nextFuture pool
        /\ ThreadPool.m_tasks pool'
           = ThreadPool.tasks_emplace_back (ThreadPool.m_tasks pool) 0 task)
  /\ (forall prefetchBlockOffset nextPrefetchBlockOffset,
        exists task,
          ThreadPool.m_tasks
            (BlockFetcher.m_threadPool
               (BlockFetcher.submitPrefetchTask decodeBlock s prefetchBlockOffset
                                                nextPrefetchBlockOffset))
          = ThreadPool.tasks_emplace_back (ThreadPool.m_tasks pool) 0 task)
  /\ match ThreadPool.nextTask pool' with
     | Some (task, priority) =>
         match ThreadPool.nextTask pool with
         | Some (queued, priority') =>
             if priority' <=? 0
             then task = queued /\ priority = priority'
             else ThreadPool.task_future task = ThreadPool.m_nextFuture pool
                  /\ priority = 0
         | None =>
             ThreadPool.task_future task = ThreadPool.m_nextFuture pool /\ priority = 0
         end
     | None => False
     end.
Proof.
  intros Hsorted pool submitted pool'.
  unfold ThreadPool.priorities_ascending in Hsorted. fold pool in Hsorted.
  subst submitted pool'. unfold BlockFetcher.submitOnDemandTask.
  destruct STATISTICS; simpl; fold pool.
  all: split; [reflexivity |].
  all: split; [eexists; split; [| reflexivity]; reflexivity |].
  all: split;
    [ intros prefetchBlockOffset nextPrefetchBlockOffset;
      unfold BlockFetcher.submitPrefetchTask; simpl;
      destruct (BlockFetcher.m_prefetching s !! prefetchBlockOffset);
      eexists; reflexivity |].
  all: unfold ThreadPool.nextTask; simpl.
  all: match goal with
       | |- context [ThreadPool.tasks_emplace_back _ 0 ?new] =>
           pose proof (takeFirstTask_emplace_back (ThreadPool.m_tasks pool) new Hsorted)
             as Hnext
       end.
  all: destruct (ThreadPool.takeFirstTask (ThreadPool.tasks_emplace_back _ _ _))
         as [[[task priority] rest] |]; [| contradiction].
  all: destruct (ThreadPool.takeFirstTask (ThreadPool.m_tasks pool))
         as [[[queued priority'] rest'] |].
  all: try destruct (priority' <=? 0).
  all: destruct Hnext as [-> ->]; split; reflexivity.
Qed.

End DecodeTaskPriority.

(** The rule at work: [Examples.fetcher_prefetching] is well-formed, and its
    queued prefetch is taken before the on-demand task. *)
Lemma BlockFetcher_onDemand_task_priority_witness :
  fst Examples.fetcher_onDemand = Some 1%nat
  /\ match ThreadPool.nextTask (BlockFetcher.m_threadPool (snd Examples.fetcher_onDemand)) with
     | Some (task, priority) => ThreadPool.task_future task = 0%nat /\ priority = 0
     | None => False
     end.
Proof.
  assert (Hsorted : ThreadPool.priorities_ascending
                      (BlockFetcher.m_threadPool Examples.fetcher_prefetching)).
  { unfold ThreadPool.priorities_ascending. simpl. repeat constructor. }
  destruct (BlockFetcher_onDemand_task_priority Examples.decodeBlock false
              Examples.fetcher_prefetching 80 (Some 32768) Hsorted)
    as (Hfuture & _ & _ & Hnext).
  split; [exact Hfuture |].
  fold Examples.fetcher_onDemand in Hnext.
  destruct (ThreadPool.nextTask (BlockFetcher.m_threadPool (snd Examples.fetcher_onDemand)))
    as [[task priority] |]; [| exact Hnext].
  simpl in Hnext. destruct Hnext as [-> ->]. split; reflexivity.
Defined.

(** C2, counterexample: a prefetch of the chunk at bit 32768 is queued; the
    miss on the chunk at bit 80 then puts its on-demand task (future 1) into
    the same deque, that of priority 0, behind the prefetch (future 0), and
    the next task that a worker takes is the prefetch. *)
Lemma BlockFetcher_onDemand_task_not_preferred :
  BlockFetcher.m_prefetching Examples.fetcher_prefetching !! 32768 = Some (Some 0%nat)
  /\ fst Examples.fetcher_onDemand = Some 1%nat
  /\ map (fun tasks => (fst tasks, map ThreadPool.task_future (snd tasks)))
         (ThreadPool.m_tasks (BlockFetcher.m_threadPool (snd Examples.fetcher_onDemand)))
     = [(0, [0%nat; 1%nat])]
  /\ option_map (fun next => (ThreadPool.task_future (fst next), snd next))
        (ThreadPool.nextTask (BlockFetcher.m_threadPool (snd Examples.fetcher_onDemand)))
     = Some (0%nat, 0).
Proof. repeat split; vm_compute; reflexivity. Qed.


(** ** ThreadPool: the workers finish the tasks they are given *)

Section ThreadPoolWorkers.

Context {R : Type}.

Import ThreadPool.

Implicit Types (pool : ThreadPool.t R) (task : unit -> result R).
Implicit Types (packagedTask : ThreadPool.PackagedTask R).

Lemma takeFirstTask_Some (tasks : list (Z * list (PackagedTask R))) packagedTask priority tasks' :
  takeFirstTask tasks = Some (packagedTask, priority, tasks') ->
  concat (map snd tasks) = packagedTask :: concat (map snd tasks').
Proof.
  revert tasks'. induction tasks as [| [p queue] tasks IH]; intros tasks'; simpl;
    [discriminate |].
  destruct queue as [| first queue].
  - destruct (takeFirstTask tasks) as [[[packagedTask' priority'] rest] |]; [| discriminate].
    intros [= -> -> <-]. simpl. apply IH. reflexivity.
  - intros [= -> -> <-]. reflexivity.
Qed.

Lemma takeFirstTask_None (tasks : list (Z * list (PackagedTask R))) :
  takeFirstTask tasks = None -> concat (map snd tasks) = [].
Proof.
  induction tasks as [| [p queue] tasks IH]; simpl; [reflexivity |].
  destruct queue as [| first queue]; [| discriminate].
  destruct (takeFirstTask tasks) as [[[packagedTask' priority'] rest] |]; [discriminate |].
  intros _. apply IH. reflexivity.
Qed.

Lemma queuedTasksCount_length pool :
  queuedTasksCount pool = length (queuedTasks pool).
Proof.
  unfold queuedTasksCount, queuedTasks.
  induction (m_tasks pool) as [| [p queue] tasks IH]; simpl; [reflexivity |].
  rewrite length_app, IH. reflexivity.
Qed.

(** *** What the workers do not change *)

Lemma workerTakeTask_nextFuture pool :
  m_nextFuture (workerTakeTask pool) = m_nextFuture pool.
Proof.
  unfold workerTakeTask. destruct (_ && _); [| reflexivity].
  destruct (takeFirstTask (m_tasks pool)) as [[[packagedTask priority] rest] |]; reflexivity.
Qed.

Lemma workerFinishTask_nextFuture pool future :
  m_nextFuture (workerFinishTask pool future) = m_nextFuture pool.
Proof.
  unfold workerFinishTask. destruct (List.find _ _); reflexivity.
Qed.

Lemma workerActions_nextFuture actions :
  forall pool, m_nextFuture (workerActions pool actions) = m_nextFuture pool.
Proof.
  unfold workerActions.
  induction actions as [| action actions IH]; intros pool; simpl; [reflexivity |].
  rewrite IH.
  destruct action; [apply workerTakeTask_nextFuture | apply workerFinishTask_nextFuture].
Qed.

Lemma finishTasks_nextFuture l :
  forall pool, m_nextFuture (finishTasks pool l) = m_nextFuture pool.
Proof.
  induction l as [| packagedTask l IH]; intros pool; simpl; [reflexivity |].
  rewrite IH. reflexivity.
Qed.

Lemma processTasks_nextFuture fuel :
  forall pool, m_nextFuture (processTasks fuel pool) = m_nextFuture pool.
Proof.
  induction fuel as [| fuel IH]; intros pool; simpl; [reflexivity |].
  rewrite IH, finishTasks_nextFuture. apply workerTakeTask_nextFuture.
Qed.

Lemma runToCompletion_nextFuture pool :
  m_nextFuture (runToCompletion pool) = m_nextFuture pool.
Proof.
  unfold runToCompletion. rewrite processTasks_nextFuture. apply finishTasks_nextFuture.
Qed.

Lemma workerTakeTask_working pool : working pool -> working (workerTakeTask pool).
Proof.
  unfold workerTakeTask. destruct (_ && _); [| auto].
  destruct (takeFirstTask (m_tasks pool)) as [[[packagedTask priority] rest] |]; auto.
Qed.

Lemma workerFinishTask_working pool future :
  working pool -> working (workerFinishTask pool future).
Proof. unfold workerFinishTask. destruct (List.find _ _); auto. Qed.

Lemma workerActions_working actions :
  forall pool, working pool -> working (workerActions pool actions).
Proof.
  unfold workerActions.
  induction actions as [| action actions IH]; intros pool Hpool; simpl; [exact Hpool |].
  apply IH. destruct action; [apply workerTakeTask_working | apply workerFinishTask_working];
    exact Hpool.
Qed.

Lemma finishTasks_working l :
  forall pool, working pool -> working (finishTasks pool l).
Proof.
  induction l as [| packagedTask l IH]; intros pool Hpool; simpl; [exact Hpool |].
  apply IH. exact Hpool.
Qed.

Lemma processTasks_working fuel :
  forall pool, working pool -> working (processTasks fuel pool).
Proof.
  induction fuel as [| fuel IH]; intros pool Hpool; simpl; [exact Hpool |].
  apply IH, finishTasks_working, workerTakeTask_working, Hpool.
Qed.

Lemma runToCompletion_working pool : working pool -> working (runToCompletion pool).
Proof. intros Hpool. apply processTasks_working, finishTasks_working, Hpool. Qed.

Lemma submit_working pool task priority :
  working pool -> working (snd (submit pool task priority)).
Proof. auto. Qed.

(** *** Tracking a shared state *)

Lemma queuedTasks_emplace_back (tasks : list (Z * list (PackagedTask R))) priority
    packagedTask other :
  In other (concat (map snd (tasks_emplace_back tasks priority packagedTask)))
  <-> other = packagedTask \/ In other (concat (map snd tasks)).
Proof.
  induction tasks as [| [p queue] tasks IH]; simpl.
  - intuition congruence.
  - destruct (priority <? p); simpl.
    + rewrite !in_app_iff. simpl. intuition congruence.
    + destruct (priority =? p); simpl.
      * rewrite !in_app_iff. simpl. intuition congruence.
      * rewrite !in_app_iff, IH. intuition congruence.
Qed.

Lemma submit_tracks pool task priority future tracked :
  tracks pool future tracked ->
  tracks (snd (submit pool task priority)) future tracked.
Proof.
  intros (Hfresh & Hfunctor & Hresult & Hlive). unfold tracks, queuedTasks. simpl.
  split; [lia |]. split; [| split; [exact Hresult |]].
  - intros other Hin Hfuture. rewrite in_app_iff, queuedTasks_emplace_back in Hin.
    destruct Hin as [[-> | Hin] | Hin].
    + simpl in Hfuture. lia.
    + apply Hfunctor; [apply in_app_iff; left; exact Hin | exact Hfuture].
    + apply Hfunctor; [apply in_app_iff; right; exact Hin | exact Hfuture].
  - destruct Hlive as [(other & Hin & Hfuture) | Hdone]; [left | right; exact Hdone].
    exists other. split; [| exact Hfuture].
    rewrite in_app_iff, queuedTasks_emplace_back. rewrite in_app_iff in Hin. tauto.
Qed.

(** The task that [submit] adds is tracked. *)
Lemma submit_tracks_new pool task priority :
  wellNumbered pool ->
  tracks (snd (submit pool task priority)) (m_nextFuture pool) task.
Proof.
  intros [Htasks Hstates]. unfold tracks, queuedTasks. simpl. split; [lia |].
  split; [| split].
  - intros other Hin Hfuture. rewrite in_app_iff, queuedTasks_emplace_back in Hin.
    destruct Hin as [[-> | Hin] | Hin]; [reflexivity | |].
    all: assert (Hold : (task_future other < m_nextFuture pool)%nat)
           by (apply Htasks; apply in_app_iff; unfold queuedTasks; tauto).
    all: lia.
  - intros r Hstate. apply Hstates in Hstate. lia.
  - left. exists {| task_future := m_nextFuture pool; task_functor := task |}.
    split; [| reflexivity].
    rewrite in_app_iff, queuedTasks_emplace_back. left. left. reflexivity.
Qed.

Lemma workerTakeTask_tasks pool other :
  In other (queuedTasks (workerTakeTask pool) ++ m_runningTasks (workerTakeTask pool))
  <-> In other (queuedTasks pool ++ m_runningTasks pool).
Proof.
  unfold workerTakeTask. destruct (_ && _); [| reflexivity].
  destruct (takeFirstTask (m_tasks pool)) as [[[packagedTask priority] rest] |] eqn:Htake;
    [| reflexivity].
  apply takeFirstTask_Some in Htake. unfold queuedTasks. simpl. rewrite Htake.
  rewrite !in_app_iff. simpl. tauto.
Qed.

Lemma workerTakeTask_tracks pool future tracked :
  tracks pool future tracked -> tracks (workerTakeTask pool) future tracked.
Proof.
  intros (Hfresh & Hfunctor & Hresult & Hlive).
  assert (Hstates : m_sharedStates (workerTakeTask pool) = m_sharedStates pool).
  { unfold workerTakeTask. destruct (_ && _); [| reflexivity].
    destruct (takeFirstTask (m_tasks pool)) as [[[packagedTask priority] rest] |];
      reflexivity. }
  unfold tracks. rewrite workerTakeTask_nextFuture, Hstates.
  split; [exact Hfresh |]. split; [| split; [exact Hresult |]].
  - intros other Hin. apply Hfunctor. apply workerTakeTask_tasks. exact Hin.
  - destruct Hlive as [(other & Hin & Hfuture) | Hdone]; [left | right; exact Hdone].
    exists other. split; [apply workerTakeTask_tasks; exact Hin | exact Hfuture].
Qed.

Lemma finishTask_tracks pool packagedTask future tracked :
  tracks pool future tracked ->
  (task_future packagedTask = future -> task_functor packagedTask = tracked) ->
  tracks (finishTask pool packagedTask) future tracked.
Proof.
  intros (Hfresh & Hfunctor & Hresult & Hlive) Hsame. unfold tracks, queuedTasks. simpl.
  split; [exact Hfresh |]. split; [| split].
  - intros other Hin. apply Hfunctor. rewrite in_app_iff in Hin |- *.
    destruct Hin as [Hin | Hin]; [left; exact Hin | right].
    apply filter_In in Hin as [Hin _]. exact Hin.
  - intros r. destruct (Nat.eq_dec (task_future packagedTask) future) as [Heq | Hne].
    + rewrite Heq, lookup_insert_eq. intros [= <-]. rewrite (Hsame Heq). reflexivity.
    + rewrite lookup_insert_ne by exact Hne. apply Hresult.
  - destruct (Nat.eq_dec (task_future packagedTask) future) as [Heq | Hne].
    + right. rewrite Heq, lookup_insert_eq. eauto.
    + rewrite lookup_insert_ne by exact Hne.
      destruct Hlive as [(other & Hin & Hfuture) | Hdone]; [left | right; exact Hdone].
      exists other. split; [| exact Hfuture].
      rewrite in_app_iff in Hin |- *. destruct Hin as [Hin | Hin]; [left; exact Hin | right].
      apply filter_In. split; [exact Hin |].
      apply negb_true_iff, Nat.eqb_neq. lia.
Qed.

Lemma workerFinishTask_tracks pool finished future tracked :
  tracks pool future tracked -> tracks (workerFinishTask pool finished) future tracked.
Proof.
  intros Htracks. unfold workerFinishTask.
  destruct (List.find _ _) as [packagedTask |] eqn:Hfind; [| exact Htracks].
  apply find_some in Hfind as [Hin _].
  apply finishTask_tracks; [exact Htracks |].
  destruct Htracks as (_ & Hfunctor & _). apply Hfunctor.
  apply in_app_iff. right. exact Hin.
Qed.

Lemma workerActions_tracks actions future tracked :
  forall pool, tracks pool future tracked -> tracks (workerActions pool actions) future tracked.
Proof.
  unfold workerActions.
  induction actions as [| action actions IH]; intros pool Hpool; simpl; [exact Hpool |].
  apply IH. destruct action; [apply workerTakeTask_tracks | apply workerFinishTask_tracks];
    exact Hpool.
Qed.

Lemma finishTasks_tracks l future tracked :
  forall pool,
    tracks pool future tracked ->
    (forall packagedTask, In packagedTask l ->
                          task_future packagedTask = future ->
                          task_functor packagedTask = tracked) ->
    tracks (finishTasks pool l) future tracked.
Proof.
  induction l as [| packagedTask l IH]; intros pool Hpool Hl; simpl; [exact Hpool |].
  apply IH.
  - apply finishTask_tracks; [exact Hpool |]. apply Hl. left. reflexivity.
  - intros other Hin. apply Hl. right. exact Hin.
Qed.

Lemma finishTasks_tasks l :
  forall pool, m_tasks (finishTasks pool l) = m_tasks pool.
Proof.
  induction l as [| packagedTask l IH]; intros pool; simpl; [reflexivity |].
  rewrite IH. reflexivity.
Qed.

Lemma finishTasks_running l :
  forall pool,
    (forall packagedTask, In packagedTask (m_runningTasks pool) ->
                          exists other, In other l
                                        /\ task_future other = task_future packagedTask) ->
    m_runningTasks (finishTasks pool l) = [].
Proof.
  induction l as [| finished l IH]; intros pool Hl; simpl.
  - destruct (m_runningTasks pool) as [| packagedTask running]; [reflexivity |].
    destruct (Hl packagedTask) as (other & [] & _). left. reflexivity.
  - apply IH. simpl. intros packagedTask Hin.
    apply filter_In in Hin as [Hin Hother].
    apply negb_true_iff, Nat.eqb_neq in Hother.
    destruct (Hl packagedTask Hin) as (other & [<- | Hinl] & Hfuture); [lia |].
    exists other. split; assumption.
Qed.

Lemma tracks_running_functor pool future tracked :
  tracks pool future tracked ->
  forall packagedTask, In packagedTask (m_runningTasks pool) ->
                       task_future packagedTask = future ->
                       task_functor packagedTask = tracked.
Proof.
  intros (_ & Hfunctor & _) packagedTask Hin. apply Hfunctor.
  apply in_app_iff. right. exact Hin.
Qed.

(** Workers that take and finish one task after the other empty the queue. *)
Lemma processTasks_completes fuel future tracked :
  forall pool,
    working pool ->
    tracks pool future tracked ->
    m_runningTasks pool = [] ->
    (length (queuedTasks pool) <= fuel)%nat ->
    tracks (processTasks fuel pool) future tracked
    /\ queuedTasks (processTasks fuel pool) = []
    /\ m_runningTasks (processTasks fuel pool) = [].
Proof.
  induction fuel as [| fuel IH]; intros pool Hworking Htracks Hidle Hfuel; simpl.
  - split; [exact Htracks |]. split; [| exact Hidle].
    destruct (queuedTasks pool); [reflexivity | simpl in Hfuel; lia].
  - pose proof (workerTakeTask_tracks pool future tracked Htracks) as Htracks'.
    pose proof (workerTakeTask_working pool Hworking) as Hworking'.
    assert (Htaken : m_runningTasks (workerTakeTask pool) = []
                     /\ queuedTasks (workerTakeTask pool) = queuedTasks pool
                     /\ queuedTasks pool = []
                     \/ exists packagedTask,
                          m_runningTasks (workerTakeTask pool) = [packagedTask]
                          /\ queuedTasks pool
                             = packagedTask :: queuedTasks (workerTakeTask pool)).
    { unfold workerTakeTask. destruct Hworking as [-> Hthreads]. rewrite Hidle. simpl.
      replace (Z.of_nat 0 <? m_threads pool) with true
        by (symmetry; apply Z.ltb_lt; simpl; lia).
      destruct (takeFirstTask (m_tasks pool)) as [[[packagedTask priority] rest] |] eqn:Htake.
      - right. exists packagedTask. simpl. split; [reflexivity |].
        apply takeFirstTask_Some in Htake. exact Htake.
      - left. apply takeFirstTask_None in Htake. auto. }
    set (pool' := workerTakeTask pool) in *.
    apply IH.
    + apply finishTasks_working. exact Hworking'.
    + apply finishTasks_tracks; [exact Htracks' |].
      apply tracks_running_functor. exact Htracks'.
    + apply finishTasks_running. intros packagedTask Hin. eauto.
    + unfold queuedTasks in *. rewrite finishTasks_tasks.
      destruct Htaken as [(_ & -> & ->) | (packagedTask & _ & Hqueue)]; [simpl; lia |].
      rewrite Hqueue in Hfuel. simpl in Hfuel. lia.
Qed.

(** When the workers have run to completion, every tracked shared state
    holds the result of its functor. *)
Lemma runToCompletion_completes pool future tracked :
  working pool ->
  tracks pool future tracked ->
  tracks (runToCompletion pool) future tracked
  /\ m_sharedStates (runToCompletion pool) !! future = Some (tracked tt).
Proof.
  intros Hworking Htracks. unfold runToCompletion.
  set (pool' := finishTasks pool (m_runningTasks pool)).
  destruct (processTasks_completes (queuedTasksCount pool') future tracked pool')
    as (Hfinal & Hqueue & Hrunning).
  - apply finishTasks_working. exact Hworking.
  - apply finishTasks_tracks; [exact Htracks |].
    apply tracks_running_functor. exact Htracks.
  - apply finishTasks_running. intros packagedTask Hin. eauto.
  - rewrite queuedTasksCount_length. lia.
  - split; [exact Hfinal |].
    destruct Hfinal as (_ & _ & Hresult & Hlive).
    rewrite Hqueue, Hrunning in Hlive.
    destruct Hlive as [(other & [] & _) | [r Hr]].
    rewrite Hr. f_equal. apply Hresult. exact Hr.
Qed.

Lemma runToCompletion_tracks pool future tracked :
  tracks pool future tracked -> tracks (runToCompletion pool) future tracked.
Proof.
  intros Htracks. unfold runToCompletion.
  set (pool' := finishTasks pool (m_runningTasks pool)).
  assert (Hpool' : tracks pool' future tracked).
  { apply finishTasks_tracks; [exact Htracks |].
    apply tracks_running_functor. exact Htracks. }
  clearbody pool'. generalize (queuedTasksCount pool'). intros fuel.
  revert pool' Hpool'. induction fuel as [| fuel IH]; intros pool' Hpool'; simpl;
    [exact Hpool' |].
  apply IH. apply finishTasks_tracks; [apply workerTakeTask_tracks; exact Hpool' |].
  apply tracks_running_functor. apply workerTakeTask_tracks. exact Hpool'.
Qed.

(** A ready future that is tracked holds the result of its functor. *)
Lemma tracks_future_get pool future tracked r :
  tracks pool future tracked ->
  future_get pool (Some future) = Some r -> r = tracked tt.
Proof. intros (_ & _ & Hresult & _). apply Hresult. Qed.

End ThreadPoolWorkers.

(** ** ThreadPool: the queued tasks stay apart *)

Section ThreadPoolOrderly.

Context {R : Type}.

Import ThreadPool.

Implicit Types (pool : ThreadPool.t R) (task : unit -> result R).
Implicit Types (packagedTask : ThreadPool.PackagedTask R).

Lemma ctor_orderly nThreads : orderly (ctor (R := R) nThreads).
Proof.
  unfold orderly, wellNumbered. simpl. repeat split; try constructor; try contradiction.
  intros future r Hlookup. rewrite lookup_empty in Hlookup. discriminate.
Qed.

Lemma advanced_refl pool : orderly pool -> advanced pool pool.
Proof.
  intros Horderly. split; [exact Horderly |]. split; [apply incl_refl | split; reflexivity].
Qed.

Lemma advanced_trans pool1 pool2 pool3 :
  advanced pool1 pool2 -> advanced pool2 pool3 -> advanced pool1 pool3.
Proof.
  intros (_ & Hincl12 & Hthreads12 & Hnext12) (Horderly & Hincl23 & Hthreads23 & Hnext23).
  split; [exact Horderly |]. split; [| split; congruence].
  eapply incl_tran; eassumption.
Qed.

Lemma workerTakeTask_advanced pool : orderly pool -> advanced pool (workerTakeTask pool).
Proof.
  intros Horderly. unfold workerTakeTask.
  destruct (_ && _); [| apply advanced_refl; exact Horderly].
  destruct (takeFirstTask (m_tasks pool)) as [[[packagedTask priority] tasks'] |] eqn:Htake;
    [| apply advanced_refl; exact Horderly].
  apply takeFirstTask_Some in Htake.
  destruct Horderly as (Hdistinct & Hapart & Hpending & Hnumbered & Hstates).
  unfold advanced, orderly, wellNumbered, queuedTasks in *. simpl.
  rewrite Htake in *. simpl in Hdistinct. inversion Hdistinct as [| ? ? Hfresh Hrest]; subst.
  repeat split.
  - exact Hrest.
  - intros queued running Hqueued Hrunning. apply in_app_iff in Hrunning as [Hrunning | [<- | []]].
    + apply Hapart; [right; exact Hqueued | exact Hrunning].
    + intros Heq. apply Hfresh. rewrite <- Heq. apply list_elem_of_In, in_map. exact Hqueued.
  - intros queued Hqueued. apply Hpending. right. exact Hqueued.
  - intros other Hother. apply Hnumbered.
    apply in_app_iff in Hother as [Hother | Hother];
      [right; apply in_app_iff; left; exact Hother |].
    apply in_app_iff in Hother as [Hother | [<- | []]]; [| left; reflexivity].
    right. apply in_app_iff. right. exact Hother.
  - exact Hstates.
  - intros queued Hqueued. right. exact Hqueued.
Qed.

(** A task whose shared state belongs to no queued task finishes. *)
Lemma finishTask_advanced pool packagedTask :
  orderly pool ->
  (forall queued, In queued (queuedTasks pool) ->
                  task_future queued <> task_future packagedTask) ->
  (task_future packagedTask < m_nextFuture pool)%nat ->
  advanced pool (finishTask pool packagedTask).
Proof.
  intros (Hdistinct & Hapart & Hpending & Hnumbered & Hstates) Hother Hbelow.
  unfold advanced, orderly, wellNumbered, finishTask, queuedTasks in *. simpl.
  repeat split.
  - exact Hdistinct.
  - intros queued running Hqueued Hrunning. apply filter_In in Hrunning as [Hrunning _].
    apply Hapart; assumption.
  - intros queued Hqueued. rewrite lookup_insert_ne; [apply Hpending; exact Hqueued |].
    intros Heq. apply (Hother queued Hqueued). symmetry. exact Heq.
  - intros other Hin. apply Hnumbered.
    apply in_app_iff in Hin as [Hin | Hin]; apply in_app_iff; [left; exact Hin |].
    right. apply filter_In in Hin as [Hin _]. exact Hin.
  - intros future r Hlookup.
    destruct (Nat.eq_dec (task_future packagedTask) future) as [<- | Hne]; [exact Hbelow |].
    rewrite lookup_insert_ne in Hlookup by exact Hne. eapply Hstates. exact Hlookup.
  - apply incl_refl.
Qed.

Lemma running_advanced pool packagedTask :
  orderly pool ->
  In packagedTask (m_runningTasks pool) ->
  advanced pool (finishTask pool packagedTask).
Proof.
  intros Horderly Hrunning. apply finishTask_advanced; [exact Horderly | |].
  - intros queued Hqueued. destruct Horderly as (_ & Hapart & _). apply Hapart; assumption.
  - destruct Horderly as (_ & _ & _ & Hnumbered & _). apply Hnumbered.
    apply in_app_iff. right. exact Hrunning.
Qed.

Lemma workerFinishTask_advanced pool future :
  orderly pool -> advanced pool (workerFinishTask pool future).
Proof.
  intros Horderly. unfold workerFinishTask.
  destruct (List.find _ (m_runningTasks pool)) as [packagedTask |] eqn:Hfind;
    [| apply advanced_refl; exact Horderly].
  apply find_some in Hfind as [Hrunning _]. apply running_advanced; assumption.
Qed.

Lemma workerActions_advanced actions :
  forall pool, orderly pool -> advanced pool (workerActions pool actions).
Proof.
  induction actions as [| action actions IH]; intros pool Horderly; simpl;
    [apply advanced_refl; exact Horderly |].
  assert (Hfirst : advanced pool (workerAction pool action)).
  { destruct action as [| future]; simpl;
      [apply workerTakeTask_advanced | apply workerFinishTask_advanced]; exact Horderly. }
  eapply advanced_trans; [exact Hfirst |]. apply IH. apply Hfirst.
Qed.

Lemma finishTasks_advanced l :
  forall pool,
    orderly pool ->
    (forall packagedTask queued,
        In packagedTask l -> In queued (queuedTasks pool) ->
        task_future queued <> task_future packagedTask) ->
    (forall packagedTask, In packagedTask l ->
                          (task_future packagedTask < m_nextFuture pool)%nat) ->
    advanced pool (finishTasks pool l).
Proof.
  induction l as [| packagedTask l IH]; intros pool Horderly Hother Hbelow; simpl;
    [apply advanced_refl; exact Horderly |].
  assert (Hfirst : advanced pool (finishTask pool packagedTask)).
  { apply finishTask_advanced; [exact Horderly | |].
    - intros queued Hqueued. apply Hother; simpl; auto.
    - apply Hbelow. simpl. auto. }
  eapply advanced_trans; [exact Hfirst |]. apply IH.
  - apply Hfirst.
  - intros other queued Hin Hqueued. apply Hother; simpl; auto.
  - intros other Hin. simpl. apply Hbelow. simpl. auto.
Qed.

Lemma finishRunningTasks_advanced pool :
  orderly pool -> advanced pool (finishTasks pool (m_runningTasks pool)).
Proof.
  intros Horderly. apply finishTasks_advanced; [exact Horderly | |].
  - intros packagedTask queued Hrunning Hqueued.
    destruct Horderly as (_ & Hapart & _). apply Hapart; assumption.
  - intros packagedTask Hrunning. destruct Horderly as (_ & _ & _ & Hnumbered & _).
    apply Hnumbered. apply in_app_iff. right. exact Hrunning.
Qed.

Lemma processTasks_advanced fuel :
  forall pool, orderly pool -> advanced pool (processTasks fuel pool).
Proof.
  induction fuel as [| fuel IH]; intros pool Horderly; simpl;
    [apply advanced_refl; exact Horderly |].
  pose proof (workerTakeTask_advanced pool Horderly) as Htake.
  pose proof (finishRunningTasks_advanced (workerTakeTask pool) ltac:(apply Htake)) as Hfinish.
  eapply advanced_trans; [exact Htake |]. eapply advanced_trans; [exact Hfinish |].
  apply IH. apply Hfinish.
Qed.

Lemma runToCompletion_advanced pool : orderly pool -> advanced pool (runToCompletion pool).
Proof.
  intros Horderly. unfold runToCompletion.
  pose proof (finishRunningTasks_advanced pool Horderly) as Hfinish.
  eapply advanced_trans; [exact Hfinish |]. apply processTasks_advanced. apply Hfinish.
Qed.

(** *** Submitting a task *)

Lemma tasks_emplace_back_Permutation (tasks : list (Z * list (PackagedTask R))) priority
    packagedTask :
  Permutation (concat (map snd (tasks_emplace_back tasks priority packagedTask)))
              (packagedTask :: concat (map snd tasks)).
Proof.
  induction tasks as [| [p queue] rest IH]; simpl; [reflexivity |].
  destruct (priority <? p); simpl; [reflexivity |].
  destruct (priority =? p); simpl.
  - rewrite <- app_assoc. simpl. symmetry. apply Permutation_middle.
  - rewrite IH. symmetry. apply Permutation_middle.
Qed.

Lemma submit_orderly pool task priority :
  orderly pool ->
  orderly (snd (submit pool task priority))
  /\ (forall packagedTask,
        In packagedTask (queuedTasks (snd (submit pool task priority))) ->
        task_future packagedTask = m_nextFuture pool
        \/ In packagedTask (queuedTasks pool)).
Proof.
  intros (Hdistinct & Hapart & Hpending & Hnumbered & Hstates).
  set (new := {| task_future := m_nextFuture pool; task_functor := task |}).
  pose proof (tasks_emplace_back_Permutation (m_tasks pool) priority new) as Hperm.
  assert (Hin : forall packagedTask,
             In packagedTask (queuedTasks (snd (submit pool task priority))) ->
             packagedTask = new \/ In packagedTask (queuedTasks pool)).
  { intros packagedTask Hqueued. unfold queuedTasks, submit in Hqueued. simpl in Hqueued.
    apply (Permutation_in _ Hperm) in Hqueued as [<- | Hqueued]; auto. }
  assert (Hold : forall packagedTask,
             In packagedTask (queuedTasks pool ++ m_runningTasks pool) ->
             task_future packagedTask <> m_nextFuture pool).
  { intros packagedTask Hold Heq. apply Hnumbered in Hold. lia. }
  split.
  - unfold orderly, wellNumbered. repeat split.
    + unfold queuedTasks, submit. simpl.
      fold new. rewrite (Permutation_map task_future Hperm).
      simpl. constructor; [| exact Hdistinct].
      intros Hdup. apply list_elem_of_In, in_map_iff in Hdup as (other & Heq & Hother).
      apply (Hold other); [apply in_app_iff; left; exact Hother | exact Heq].
    + intros queued running Hqueued Hrunning. simpl in Hrunning.
      destruct (Hin _ Hqueued) as [-> | Hqueued']; [| apply Hapart; assumption].
      simpl. intros Heq. apply (Hold running); [apply in_app_iff; right; exact Hrunning |].
      symmetry. exact Heq.
    + intros queued Hqueued. simpl.
      destruct (Hin _ Hqueued) as [-> | Hqueued']; [| apply Hpending; exact Hqueued'].
      simpl. destruct (m_sharedStates pool !! m_nextFuture pool) as [r |] eqn:Hlookup;
        [| reflexivity].
      apply Hstates in Hlookup. lia.
    + intros other Hother. simpl.
      apply in_app_iff in Hother as [Hqueued | Hrunning].
      * destruct (Hin _ Hqueued) as [-> | Hqueued']; [simpl; lia |].
        assert (task_future other < m_nextFuture pool)%nat; [| lia].
        apply Hnumbered. apply in_app_iff. left. exact Hqueued'.
      * assert (task_future other < m_nextFuture pool)%nat; [| lia].
        apply Hnumbered. apply in_app_iff. right. exact Hrunning.
    + intros future r Hlookup. simpl in Hlookup |- *. apply Hstates in Hlookup. lia.
  - intros packagedTask Hqueued. destruct (Hin _ Hqueued) as [-> | Hqueued']; auto.
Qed.

(** The tasks of one priority are among the queued tasks. *)
Lemma unprocessedTasksCount_queued pool priority :
  unprocessedTasksCount pool (Some priority) <= Z.of_nat (length (queuedTasks pool)).
Proof.
  unfold unprocessedTasksCount, queuedTasks.
  induction (m_tasks pool) as [| [p queue] rest IH]; simpl; [lia |].
  rewrite length_app. destruct (p =? priority); [lia |].
  destruct (tasks_find rest priority); lia.
Qed.

End ThreadPoolOrderly.

(** ** Cache *)

Section CacheFacts.

Context {Value : Type}.

Implicit Types (cache : Cache.t Value) (l : list (Z * Value)).

Lemma lookup_entry_In l key :
  is_Some (Cache.lookup_entry l key) <-> In key (map fst l).
Proof.
  induction l as [| [k v] l IH]; simpl.
  - split; [intros [? [=]] | contradiction].
  - destruct (Z.eqb_spec k key) as [-> | Hne].
    + split; [left; reflexivity | eauto].
    + rewrite IH. split; [right; assumption | intros [? | ?]; [contradiction | assumption]].
Qed.

Lemma Cache_test_In cache key :
  Cache.test cache key = true <-> In key (map fst (Cache.entries cache)).
Proof.
  unfold Cache.test. rewrite bool_decide_eq_true. apply lookup_entry_In.
Qed.

Lemma Cache_test_false cache key :
  Cache.test cache key = false <-> ~ In key (map fst (Cache.entries cache)).
Proof.
  rewrite <- Cache_test_In. destruct (Cache.test cache key); split; congruence.
Qed.

Lemma Cache_get_miss cache key cache' :
  Cache.get cache key = (None, cache') -> cache' = cache /\ Cache.test cache key = false.
Proof.
  unfold Cache.get, Cache.test.
  destruct (Cache.lookup_entry (Cache.entries cache) key) eqn:Hlookup; [discriminate |].
  intros [= <-]. split; [reflexivity |].
  apply bool_decide_eq_false. intros [? [=]].
Qed.

Lemma Cache_get_capacity cache key :
  Cache.capacity (snd (Cache.get cache key)) = Cache.capacity cache.
Proof.
  unfold Cache.get, Cache.touch.
  destruct (Cache.lookup_entry (Cache.entries cache) key); reflexivity.
Qed.

Lemma Cache_touch_capacity cache key :
  Cache.capacity (Cache.touch cache key) = Cache.capacity cache.
Proof.
  unfold Cache.touch. destruct (Cache.lookup_entry (Cache.entries cache) key); reflexivity.
Qed.

Lemma Cache_insert_capacity cache key value :
  Cache.capacity (Cache.insert cache key value) = Cache.capacity cache.
Proof.
  unfold Cache.insert. destruct (Cache.capacity cache =? 0); [reflexivity |].
  destruct (Cache.lookup_entry (Cache.entries cache) key); reflexivity.
Qed.



(** An insertion into an empty cache of positive capacity leaves exactly the
    inserted entry. *)
Lemma Cache_insert_clear cache key value :
  0 < Cache.capacity cache ->
  Cache.entries (Cache.insert (Cache.clear cache) key value) = [(key, value)].
Proof.
  intros Hcapacity. unfold Cache.insert, Cache.clear. simpl.
  destruct (Z.eqb_spec (Cache.capacity cache) 0); [lia |].
  simpl. rewrite firstn_nil. reflexivity.
Qed.

End CacheFacts.

(** ** BlockFetcher: every member function is a sequence of elementary steps *)

Section BlockFetcherSteps.

Context {BlockFinder FetchingStrategy BlockData : Type}.
Context `{BlockFetcher.BlockFinderOps BlockFinder}
        `{BlockFetcher.FetchingStrategyOps FetchingStrategy}.
Variable decodeBlock : Z -> Z -> result BlockData.
Variable STATISTICS : bool.

Import BlockFetcher.

Local Abbreviation fetcher := (BlockFetcher.t BlockFinder FetchingStrategy BlockData).
Local Abbreviation step := (BlockFetcher.step decodeBlock STATISTICS).
Local Abbreviation steps := (BlockFetcher.steps decodeBlock STATISTICS).

Implicit Types (s : fetcher).

Lemma steps_refl s : steps s s.
Proof. apply rtc_refl. Qed.

Lemma steps_once s s' : step s s' -> steps s s'.
Proof. apply rtc_once. Qed.

Lemma steps_trans s1 s2 s3 : steps s1 s2 -> steps s2 s3 -> steps s1 s3.
Proof. apply rtc_trans. Qed.

Lemma steps_if (b : bool) s s1 s2 :
  steps s s1 -> steps s s2 -> steps s (if b then s1 else s2).
Proof. destruct b; auto. Qed.

Lemma insertIntoCache_steps s blockOffset blockData :
  steps s (insertIntoCache s blockOffset blockData).
Proof.
  unfold insertIntoCache.
  destruct (strategy_isSequential (m_fetchingStrategy s)).
  - apply (steps_trans _ (with_cache s (Cache.clear (m_cache s)))).
    + apply steps_once. apply step_cache. reflexivity.
    + apply steps_once. apply step_cache. apply Cache_insert_capacity.
  - apply steps_once. apply step_cache. apply Cache_insert_capacity.
Qed.

Lemma takeFromPrefetchQueue_steps s blockOffset :
  steps s (snd (takeFromPrefetchQueue STATISTICS s blockOffset)).
Proof.
  unfold takeFromPrefetchQueue.
  destruct (m_prefetching s !! blockOffset); [| apply steps_refl].
  simpl. eapply steps_trans; [apply steps_once; apply step_erase |].
  apply steps_if; [apply steps_once; apply step_statistics | apply steps_refl].
Qed.

Lemma takeFromPrefetchQueue_spec s blockOffset :
  m_cache (snd (takeFromPrefetchQueue STATISTICS s blockOffset)) = m_cache s
  /\ m_prefetchCache (snd (takeFromPrefetchQueue STATISTICS s blockOffset))
     = m_prefetchCache s
  /\ m_prefetching (snd (takeFromPrefetchQueue STATISTICS s blockOffset)) !! blockOffset
     = None.
Proof.
  unfold takeFromPrefetchQueue.
  destruct (m_prefetching s !! blockOffset) eqn:Hprefetching; simpl.
  - destruct STATISTICS; simpl; rewrite lookup_delete_eq; auto.
  - auto.
Qed.

Lemma getFromCaches_steps s blockOffset :
  steps s (snd (getFromCaches STATISTICS s blockOffset)).
Proof.
  unfold getFromCaches.
  pose proof (takeFromPrefetchQueue_steps s blockOffset) as Htake.
  destruct (takeFromPrefetchQueue STATISTICS s blockOffset) as [resultFuture s1].
  simpl in Htake. destruct resultFuture; [exact Htake |].
  pose proof (Cache_get_capacity (m_cache s1) blockOffset) as Hcache.
  destruct (Cache.get (m_cache s1) blockOffset) as [result cache]. simpl in Hcache.
  assert (Hs2 : steps s (with_cache s1 cache)).
  { eapply steps_trans; [exact Htake |]. apply steps_once. apply step_cache. exact Hcache. }
  destruct result; [exact Hs2 |].
  pose proof (Cache_get_capacity (m_prefetchCache (with_cache s1 cache)) blockOffset)
    as Hprefetch.
  destruct (Cache.get (m_prefetchCache (with_cache s1 cache)) blockOffset)
    as [result prefetchCache].
  simpl in Hprefetch.
  assert (Hs3 : steps s (with_prefetchCache (with_cache s1 cache) prefetchCache)).
  { eapply steps_trans; [exact Hs2 |]. apply steps_once. apply step_prefetchCache.
    exact Hprefetch. }
  destruct result as [blockData |]; [| exact Hs3]. simpl.
  eapply steps_trans; [exact Hs3 |].
  eapply steps_trans; [| apply insertIntoCache_steps].
  apply steps_once. apply step_prefetchCache. reflexivity.
Qed.

(** After a miss in [getFromCaches] the offset is in neither cache and not in
    the prefetching map. *)
Lemma getFromCaches_miss s blockOffset s' :
  getFromCaches STATISTICS s blockOffset = (None, None, s') ->
  isInCacheOrQueue s' blockOffset = false.
Proof.
  unfold getFromCaches.
  pose proof (takeFromPrefetchQueue_spec s blockOffset) as (Hcache1 & Hprefetch1 & Hqueue1).
  destruct (takeFromPrefetchQueue STATISTICS s blockOffset) as [resultFuture s1].
  simpl in Hcache1, Hprefetch1, Hqueue1.
  destruct resultFuture; [discriminate |].
  destruct (Cache.get (m_cache s1) blockOffset) as [result cache] eqn:Hcache.
  destruct result; [discriminate |].
  apply Cache_get_miss in Hcache as [-> Hcache]. simpl.
  destruct (Cache.get (m_prefetchCache s1) blockOffset) as [result prefetchCache]
    eqn:Hprefetch.
  destruct result; [discriminate |].
  apply Cache_get_miss in Hprefetch as [-> Hprefetch].
  intros [= <-]. unfold isInCacheOrQueue. simpl.
  rewrite Hqueue1, Hcache, Hprefetch.
  rewrite bool_decide_eq_false_2 by (intros [? [=]]). reflexivity.
Qed.

Lemma processReadyPrefetch_steps s prefetchedBlockOffset :
  steps s (processReadyPrefetch s prefetchedBlockOffset).
Proof.
  unfold processReadyPrefetch.
  destruct (m_prefetching s !! prefetchedBlockOffset) as [prefetchedFuture |];
    [| apply steps_refl].
  destruct (ThreadPool.future_ready (m_threadPool s) prefetchedFuture); [| apply steps_refl].
  destruct (ThreadPool.future_get (m_threadPool s) prefetchedFuture) as [[result | e] |].
  - eapply steps_trans; apply steps_once; [| apply step_erase].
    apply step_prefetchCache. apply Cache_insert_capacity.
  - apply steps_once. apply step_erase.
  - apply steps_once. apply step_erase.
Qed.

Lemma fold_left_steps {A} (f : fetcher -> A -> fetcher) (l : list A) :
  (forall s a, steps s (f s a)) ->
  forall s, steps s (fold_left f l s).
Proof.
  intros Hf. induction l as [| a l IH]; intros s; simpl; [apply steps_refl |].
  eapply steps_trans; [apply Hf | apply IH].
Qed.

Lemma processReadyPrefetches_steps s : steps s (processReadyPrefetches s).
Proof. apply fold_left_steps. apply processReadyPrefetch_steps. Qed.

Lemma touchInCacheIfExists_steps s prefetchBlockOffset :
  steps s (touchInCacheIfExists s prefetchBlockOffset).
Proof.
  unfold touchInCacheIfExists.
  match goal with
  | |- context [if Cache.test (m_prefetchCache s) prefetchBlockOffset then ?x else s] =>
      set (s1 := if Cache.test (m_prefetchCache s) prefetchBlockOffset then x else s)
  end.
  assert (Hs1 : steps s s1).
  { subst s1. apply steps_if; [| apply steps_refl].
    apply steps_once. apply step_prefetchCache. apply Cache_touch_capacity. }
  eapply steps_trans; [exact Hs1 |].
  apply steps_if; [| apply steps_refl].
  apply steps_once. apply step_cache. apply Cache_touch_capacity.
Qed.

Lemma waitOnBlockFinder_steps fuel stopPrefetching :
  forall s blockIndexToPrefetch,
    steps s (stateOf (waitOnBlockFinder fuel stopPrefetching s blockIndexToPrefetch)).
Proof.
  induction fuel as [| fuel IH]; intros s blockIndexToPrefetch; simpl; [apply steps_refl |].
  destruct (finder_get (m_blockFinder s) blockIndexToPrefetch _)
    as [prefetchBlockOffset finder1].
  destruct (finder_get finder1 _ _) as [nextPrefetchBlockOffset finder2].
  match goal with
  | |- context [if ?c then Some SIZE_T_MAX else nextPrefetchBlockOffset] =>
      set (next := if c then Some SIZE_T_MAX else nextPrefetchBlockOffset)
  end.
  assert (Hfinder : steps s (with_blockFinder s finder2))
    by (apply steps_once; apply step_blockFinder).
  destruct prefetchBlockOffset, next; simpl; try exact Hfinder.
  assert (Hworkers : steps s (workersProgress (with_blockFinder s finder2))).
  { eapply steps_trans; [exact Hfinder |]. apply steps_once. apply step_workers. }
  destruct (stopPrefetching _); simpl; [exact Hworkers |].
  eapply steps_trans; [exact Hworkers | apply IH].
Qed.

#[local] Arguments BlockFetcher.waitOnBlockFinder : simpl never.

Lemma submitPrefetchTask_steps s prefetchBlockOffset nextPrefetchBlockOffset :
  isInCacheOrQueue s prefetchBlockOffset = false ->
  steps s (submitPrefetchTask decodeBlock s prefetchBlockOffset nextPrefetchBlockOffset).
Proof. intros Hguard. apply steps_once. apply step_submitPrefetchTask. exact Hguard. Qed.

Lemma prefetchBlocks_steps blockIndexesToPrefetch blockOffsetsToPrefetch
    getPartitionOffsetFromOffset stopPrefetching :
  forall s,
    steps s (stateOf (prefetchBlocks decodeBlock STATISTICS blockIndexesToPrefetch
                        blockOffsetsToPrefetch getPartitionOffsetFromOffset
                        stopPrefetching s)).
Proof.
  induction blockIndexesToPrefetch as [| blockIndexToPrefetch rest IH]; intros s; simpl;
    [apply steps_refl |].
  destruct (threadPoolSaturated s); [apply steps_refl |].
  destruct (_ && _); [apply IH |].
  pose proof (waitOnBlockFinder_steps (2 + length (workers s)) stopPrefetching s
                blockIndexToPrefetch) as Hwait.
  destruct (waitOnBlockFinder _ _ _ _) as [[prefetchBlockOffset nextPrefetchBlockOffset] s1
                                          | e s1 | s1]; simpl in Hwait; try exact Hwait.
  cbv beta iota zeta.
  match goal with
  | |- context [if STATISTICS && ?c then ?x else s1] =>
      set (s2 := if STATISTICS && c then x else s1)
  end.
  assert (Hs2 : steps s s2).
  { eapply steps_trans; [exact Hwait |]. subst s2.
    apply steps_if; [| apply steps_refl]. apply steps_once. apply step_statistics. }
  clearbody s2.
  destruct prefetchBlockOffset as [prefetchOffset |], nextPrefetchBlockOffset as [nextOffset |];
    try (eapply steps_trans; [exact Hs2 | apply IH]).
  destruct (isInCacheOrQueue s2 prefetchOffset) eqn:Hguard; simpl;
    [eapply steps_trans; [exact Hs2 | apply IH] |].
  destruct (match getPartitionOffsetFromOffset with Some _ => _ | None => false end);
    [eapply steps_trans; [exact Hs2 | apply IH] |].
  assert (Hsubmit : steps s (submitPrefetchTask decodeBlock s2 prefetchOffset nextOffset)).
  { eapply steps_trans; [exact Hs2 |]. apply submitPrefetchTask_steps. exact Hguard. }
  destruct (Cache.nextNthEviction _ _) as [offsetToBeEvicted |].
  - destruct (existsb _ _); simpl; [exact Hs2 |].
    eapply steps_trans; [exact Hsubmit | apply IH].
  - eapply steps_trans; [exact Hsubmit | apply IH].
Qed.

Lemma prefetchNewBlocks_steps getPartitionOffsetFromOffset stopPrefetching s :
  steps s (stateOf (prefetchNewBlocks decodeBlock STATISTICS getPartitionOffsetFromOffset
                      stopPrefetching s)).
Proof.
  unfold prefetchNewBlocks.
  assert (Hs1 : steps s (processReadyPrefetches (workersProgress s))).
  { eapply steps_trans; [apply steps_once; apply step_workers |].
    apply processReadyPrefetches_steps. }
  set (s1 := processReadyPrefetches (workersProgress s)) in *. clearbody s1.
  destruct (threadPoolSaturated s1); [exact Hs1 |].
  destruct (collectBlockOffsetsToPrefetch _ _ _) as [found finder].
  match goal with
  | |- context [prefetchBlocks _ _ ?indexes ?offsets _ _ ?s2] =>
      pose proof (prefetchBlocks_steps indexes offsets getPartitionOffsetFromOffset
                    stopPrefetching s2) as Hloop;
      assert (Hs2 : steps s s2)
  end.
  { eapply steps_trans; [exact Hs1 |].
    eapply steps_trans; [apply steps_once; apply step_blockFinder |].
    apply fold_left_steps. apply touchInCacheIfExists_steps. }
  destruct (prefetchBlocks _ _ _ _ _ _ _) as [[] s3 | e s3 | s3]; simpl in Hloop |- *.
  - destruct (_ <? _); simpl; eapply steps_trans; eassumption.
  - eapply steps_trans; eassumption.
  - eapply steps_trans; eassumption.
Qed.

Lemma waitForResult_steps fuel getPartitionOffsetFromOffset resultIsReady queuedResult :
  forall s,
    steps s (stateOf (waitForResult decodeBlock STATISTICS fuel getPartitionOffsetFromOffset
                        resultIsReady queuedResult s)).
Proof.
  induction fuel as [| fuel IH]; intros s; simpl; [apply steps_refl |].
  assert (Hworkers : steps s (workersProgress s)) by (apply steps_once; apply step_workers).
  destruct (ThreadPool.future_ready _ _); [exact Hworkers |].
  pose proof (prefetchNewBlocks_steps getPartitionOffsetFromOffset resultIsReady
                (workersProgress s)) as Hprefetch.
  destruct (prefetchNewBlocks _ _ _ _ _) as [[] s1 | e s1 | s1]; simpl in Hprefetch |- *.
  - eapply steps_trans; [exact Hworkers |]. eapply steps_trans; [exact Hprefetch | apply IH].
  - eapply steps_trans; eassumption.
  - eapply steps_trans; eassumption.
Qed.

#[local] Arguments BlockFetcher.waitForResult : simpl never.

Lemma submitOnDemandTask_steps s blockOffset nextBlockOffset :
  isInCacheOrQueue s blockOffset = false ->
  steps s (snd (submitOnDemandTask decodeBlock STATISTICS s blockOffset nextBlockOffset)).
Proof. intros Hguard. apply steps_once. apply step_submitOnDemandTask. exact Hguard. Qed.

Lemma with_blockFinder_isInCacheOrQueue s finder blockOffset :
  isInCacheOrQueue (with_blockFinder s finder) blockOffset = isInCacheOrQueue s blockOffset.
Proof. reflexivity. Qed.

(** Recording an access changes the statistics and nothing else. *)
Lemma recordAccess_with_statistics s validDataBlockIndex :
  exists statistics,
    recordAccess STATISTICS s validDataBlockIndex = with_statistics s statistics.
Proof.
  unfold recordAccess. destruct STATISTICS; [eexists; reflexivity |].
  exists (m_statistics s). destruct s; reflexivity.
Qed.

Lemma get_steps s blockOffset dataBlockIndex onlyCheckCaches getPartitionOffsetFromOffset :
  steps s (stateOf (get decodeBlock STATISTICS s blockOffset dataBlockIndex onlyCheckCaches
                      getPartitionOffsetFromOffset)).
Proof.
  unfold get.
  pose proof (getFromCaches_steps s blockOffset) as Hcaches.
  pose proof (getFromCaches_miss s blockOffset) as Hmiss.
  destruct (getFromCaches STATISTICS s blockOffset) as [[cachedResult queuedResult] s1].
  simpl in Hcaches.
  destruct (match dataBlockIndex with Some _ => _ | None => _ end)
    as [validDataBlockIndex | e]; [| exact Hcaches].
  destruct (finder_get (m_blockFinder s1) _ _) as [nextBlockOffset finder].
  destruct (recordAccess_with_statistics (with_blockFinder s1 finder) validDataBlockIndex)
    as [statistics ->].
  assert (Hs2 : steps s (with_statistics (with_blockFinder s1 finder) statistics)).
  { eapply steps_trans; [exact Hcaches |].
    eapply steps_trans; apply steps_once; [apply step_blockFinder | apply step_statistics]. }
  destruct (bool_decide (cachedResult = None) && bool_decide (queuedResult = None))
    eqn:Hmissed.
  - apply andb_true_iff in Hmissed as [Hcached Hqueued].
    apply bool_decide_eq_true in Hcached, Hqueued. subst cachedResult queuedResult.
    specialize (Hmiss s1 eq_refl).
    destruct onlyCheckCaches; cbv beta iota zeta delta [andb]; [exact Hs2 |].
    pose proof (submitOnDemandTask_steps
                  (with_statistics (with_blockFinder s1 finder) statistics) blockOffset
                  nextBlockOffset Hmiss) as Hsubmit.
    destruct (submitOnDemandTask _ _ _ _ _) as [queuedResult s3]. simpl in Hsubmit.
    cbv beta iota zeta.
    match goal with
    | |- context [prefetchNewBlocks _ _ ?gpo ?ready ?s4] =>
        pose proof (prefetchNewBlocks_steps gpo ready s4) as Hprefetch;
        assert (Hs4 : steps s s4)
    end.
    { eapply steps_trans; [exact Hs2 |]. eapply steps_trans; [exact Hsubmit |].
      apply steps_once. apply step_fetchingStrategy. }
    destruct (prefetchNewBlocks _ _ _ _ _) as [[] s5 | e s5 | s5];
      simpl in Hprefetch |- *; try (eapply steps_trans; eassumption).
    match goal with
    | |- context [waitForResult _ _ ?fuel ?gpo ?ready ?queued ?s6] =>
        pose proof (waitForResult_steps fuel gpo ready queued s6) as Hwait
    end.
    destruct (waitForResult _ _ _ _ _ _ _) as [[] s6 | e s6 | s6]; simpl in Hwait |- *;
      try (eapply steps_trans; [exact Hs4 |]; eapply steps_trans; eassumption).
    assert (Hs6 : steps s s6)
      by (eapply steps_trans; [exact Hs4 |]; eapply steps_trans; eassumption).
    destruct (ThreadPool.future_get _ _) as [[blockData | e] |]; simpl; try exact Hs6.
    eapply steps_trans; [exact Hs6 | apply insertIntoCache_steps].
  - cbv beta iota zeta delta [andb].
    match goal with
    | |- context [prefetchNewBlocks _ _ ?gpo ?ready ?s4] =>
        pose proof (prefetchNewBlocks_steps gpo ready s4) as Hprefetch;
        assert (Hs4 : steps s s4)
    end.
    { eapply steps_trans; [exact Hs2 |]. apply steps_once. apply step_fetchingStrategy. }
    destruct (prefetchNewBlocks _ _ _ _ _) as [[] s5 | e s5 | s5];
      simpl in Hprefetch |- *; try (eapply steps_trans; eassumption).
    destruct cachedResult as [blockData |]; simpl; [eapply steps_trans; eassumption |].
    match goal with
    | |- context [waitForResult _ _ ?fuel ?gpo ?ready ?queued ?s6] =>
        pose proof (waitForResult_steps fuel gpo ready queued s6) as Hwait
    end.
    destruct (waitForResult _ _ _ _ _ _ _) as [[] s6 | e s6 | s6]; simpl in Hwait |- *;
      try (eapply steps_trans; [exact Hs4 |]; eapply steps_trans; eassumption).
    assert (Hs6 : steps s s6)
      by (eapply steps_trans; [exact Hs4 |]; eapply steps_trans; eassumption).
    destruct (ThreadPool.future_get _ _) as [[blockData | e] |]; simpl; try exact Hs6.
    eapply steps_trans; [exact Hs6 | apply insertIntoCache_steps].
Qed.

End BlockFetcherSteps.

(** ** BlockFetcher: what the elementary steps preserve *)

Section BlockFetcherInvariants.

Context {BlockFinder FetchingStrategy BlockData : Type}.
Context `{BlockFetcher.BlockFinderOps BlockFinder}
        `{BlockFetcher.FetchingStrategyOps FetchingStrategy}.
Variable decodeBlock : Z -> Z -> result BlockData.
Variable STATISTICS : bool.

Import BlockFetcher.

Local Abbreviation fetcher := (BlockFetcher.t BlockFinder FetchingStrategy BlockData).
Local Abbreviation step := (BlockFetcher.step decodeBlock STATISTICS).
Local Abbreviation steps := (BlockFetcher.steps decodeBlock STATISTICS).

Implicit Types (s : fetcher).

Lemma workersProgress_frame s :
  m_cache (workersProgress s) = m_cache s
  /\ m_prefetchCache (workersProgress s) = m_prefetchCache s
  /\ m_prefetching (workersProgress s) = m_prefetching s
  /\ submissions (workersProgress s) = submissions s
  /\ (length (workers (workersProgress s)) <= length (workers s))%nat.
Proof.
  unfold workersProgress.
  destruct (workers s) as [| actions schedule] eqn:Hworkers; simpl; rewrite ?Hworkers;
    repeat split; simpl; lia.
Qed.

Lemma submitOnDemandTask_frame s blockOffset nextBlockOffset :
  let s' := snd (submitOnDemandTask decodeBlock STATISTICS s blockOffset nextBlockOffset) in
  m_cache s' = m_cache s
  /\ m_prefetchCache s' = m_prefetchCache s
  /\ m_prefetching s' = m_prefetching s
  /\ workers s' = workers s
  /\ m_threadPool s'
     = snd (ThreadPool.submit (m_threadPool s)
              (fun _ => decodeAndMeasureBlock decodeBlock blockOffset
                          (match nextBlockOffset with
                           | Some offset => offset
                           | None => SIZE_T_MAX
                           end)) 0)
  /\ submissions s'
     = {| submitted_offset := blockOffset;
          offsets_in_cache := map fst (Cache.entries (m_cache s));
          offsets_in_prefetchCache := map fst (Cache.entries (m_prefetchCache s));
          offsets_in_prefetching := map fst (map_to_list (m_prefetching s)) |}
         :: submissions s.
Proof.
  unfold submitOnDemandTask. destruct STATISTICS; simpl; repeat split; reflexivity.
Qed.

Lemma submitPrefetchTask_frame s prefetchBlockOffset nextPrefetchBlockOffset :
  let s' := submitPrefetchTask decodeBlock s prefetchBlockOffset nextPrefetchBlockOffset in
  m_cache s' = m_cache s
  /\ m_prefetchCache s' = m_prefetchCache s
  /\ workers s' = workers s
  /\ m_threadPool s'
     = snd (ThreadPool.submit (m_threadPool s)
              (fun _ => decodeAndMeasureBlock decodeBlock prefetchBlockOffset
                          nextPrefetchBlockOffset) 0)
  /\ submissions s'
     = {| submitted_offset := prefetchBlockOffset;
          offsets_in_cache := map fst (Cache.entries (m_cache s));
          offsets_in_prefetchCache := map fst (Cache.entries (m_prefetchCache s));
          offsets_in_prefetching := map fst (map_to_list (m_prefetching s)) |}
         :: submissions s.
Proof.
  unfold submitPrefetchTask. simpl.
  destruct (m_prefetching s !! prefetchBlockOffset); simpl; repeat split; reflexivity.
Qed.

(** *** The capacities of the caches *)

Lemma steps_capacity s s' :
  steps s s' ->
  Cache.capacity (m_cache s') = Cache.capacity (m_cache s)
  /\ Cache.capacity (m_prefetchCache s') = Cache.capacity (m_prefetchCache s).
Proof.
  induction 1 as [s | s1 s2 s3 Hstep _ [IHcache IHprefetch]]; [split; reflexivity |].
  rewrite IHcache, IHprefetch. clear IHcache IHprefetch.
  destruct Hstep as [s statistics | s finder | s strategy | s cache Hcache
                    | s prefetchCache Hprefetch | s blockOffset | s
                    | s blockOffset nextBlockOffset Hguard
                    | s prefetchBlockOffset nextPrefetchBlockOffset Hguard];
    try (simpl; split; (reflexivity || assumption)).
  - destruct (workersProgress_frame s) as (-> & -> & _). split; reflexivity.
  - destruct (submitOnDemandTask_frame s blockOffset nextBlockOffset) as (-> & -> & _).
    split; reflexivity.
  - destruct (submitPrefetchTask_frame s prefetchBlockOffset nextPrefetchBlockOffset)
      as (-> & -> & _).
    split; reflexivity.
Qed.

(** *** The guard of the submissions *)

Lemma isInCacheOrQueue_guarded s blockOffset :
  isInCacheOrQueue s blockOffset = false ->
  guarded {| submitted_offset := blockOffset;
             offsets_in_cache := map fst (Cache.entries (m_cache s));
             offsets_in_prefetchCache := map fst (Cache.entries (m_prefetchCache s));
             offsets_in_prefetching := map fst (map_to_list (m_prefetching s)) |}.
Proof.
  unfold isInCacheOrQueue, guarded. simpl. intros Hguard.
  apply orb_false_iff in Hguard as [Hguard Hprefetch].
  apply orb_false_iff in Hguard as [Hqueue Hcache].
  split; [apply Cache_test_false; exact Hcache |].
  split; [apply Cache_test_false; exact Hprefetch |].
  apply bool_decide_eq_false in Hqueue. intros Hin. apply Hqueue.
  apply in_map_iff in Hin as ([offset future] & Hoffset & Hin). simpl in Hoffset. subst offset.
  apply list_elem_of_In, elem_of_map_to_list in Hin. rewrite Hin. eauto.
Qed.

Lemma steps_submissionsGuarded s s' :
  steps s s' -> submissionsGuarded s -> submissionsGuarded s'.
Proof.
  induction 1 as [s | s1 s2 s3 Hstep _ IH]; [auto |].
  intros Hs1. apply IH. clear IH. unfold submissionsGuarded in *.
  destruct Hstep as [s statistics | s finder | s strategy | s cache Hcache
                    | s prefetchCache Hprefetch | s blockOffset | s
                    | s blockOffset nextBlockOffset Hguard
                    | s prefetchBlockOffset nextPrefetchBlockOffset Hguard];
    try exact Hs1.
  - destruct (workersProgress_frame s) as (_ & _ & _ & -> & _). exact Hs1.
  - destruct (submitOnDemandTask_frame s blockOffset nextBlockOffset)
      as (_ & _ & _ & _ & _ & ->).
    constructor; [apply isInCacheOrQueue_guarded; exact Hguard | exact Hs1].
  - destruct (submitPrefetchTask_frame s prefetchBlockOffset nextPrefetchBlockOffset)
      as (_ & _ & _ & _ & ->).
    constructor; [apply isInCacheOrQueue_guarded; exact Hguard | exact Hs1].
Qed.

(** Every future of the pool belongs to a recorded submission. *)
Lemma steps_submissions_count s s' :
  steps s s' ->
  length (submissions s) = ThreadPool.m_nextFuture (m_threadPool s) ->
  length (submissions s') = ThreadPool.m_nextFuture (m_threadPool s').
Proof.
  induction 1 as [s | s1 s2 s3 Hstep _ IH]; [auto |].
  intros Hs1. apply IH. clear IH.
  destruct Hstep as [s statistics | s finder | s strategy | s cache Hcache
                    | s prefetchCache Hprefetch | s blockOffset | s
                    | s blockOffset nextBlockOffset Hguard
                    | s prefetchBlockOffset nextPrefetchBlockOffset Hguard];
    try exact Hs1.
  - destruct (workersProgress_frame s) as (_ & _ & _ & -> & _). rewrite Hs1.
    unfold workersProgress. destruct (workers s); simpl.
    + symmetry. apply runToCompletion_nextFuture.
    + symmetry. apply workerActions_nextFuture.
  - destruct (submitOnDemandTask_frame s blockOffset nextBlockOffset)
      as (_ & _ & _ & _ & -> & ->).
    simpl. rewrite Hs1. reflexivity.
  - destruct (submitPrefetchTask_frame s prefetchBlockOffset nextPrefetchBlockOffset)
      as (_ & _ & _ & -> & ->).
    simpl. rewrite Hs1. reflexivity.
Qed.

(** *** The schedule of the workers is only used up *)

Lemma steps_workers s s' :
  steps s s' -> (length (workers s') <= length (workers s))%nat.
Proof.
  induction 1 as [s | s1 s2 s3 Hstep _ IH]; [lia |].
  etransitivity; [exact IH |]. clear IH.
  destruct Hstep as [s statistics | s finder | s strategy | s cache Hcache
                    | s prefetchCache Hprefetch | s blockOffset | s
                    | s blockOffset nextBlockOffset Hguard
                    | s prefetchBlockOffset nextPrefetchBlockOffset Hguard];
    try (simpl; lia).
  - apply workersProgress_frame.
  - destruct (submitOnDemandTask_frame s blockOffset nextBlockOffset)
      as (_ & _ & _ & -> & _).
    lia.
  - destruct (submitPrefetchTask_frame s prefetchBlockOffset nextPrefetchBlockOffset)
      as (_ & _ & -> & _).
    lia.
Qed.

(** *** The pool keeps track of a submitted task *)

Lemma workersProgress_live future task s :
  live future task s -> live future task (workersProgress s).
Proof.
  intros [Hworking Htracks]. unfold live, workersProgress.
  destruct (workers s) as [| actions schedule]; simpl.
  - split; [apply runToCompletion_working | apply runToCompletion_tracks]; assumption.
  - split; [apply workerActions_working | apply workerActions_tracks]; assumption.
Qed.

Lemma steps_live future task s s' :
  steps s s' -> live future task s -> live future task s'.
Proof.
  induction 1 as [s | s1 s2 s3 Hstep _ IH]; [auto |].
  intros Hs1. apply IH. clear IH.
  destruct Hstep as [s statistics | s finder | s strategy | s cache Hcache
                    | s prefetchCache Hprefetch | s blockOffset | s
                    | s blockOffset nextBlockOffset Hguard
                    | s prefetchBlockOffset nextPrefetchBlockOffset Hguard];
    try exact Hs1.
  - apply workersProgress_live. exact Hs1.
  - destruct Hs1 as [Hworking Htracks]. unfold live.
    destruct (submitOnDemandTask_frame s blockOffset nextBlockOffset)
      as (_ & _ & _ & _ & -> & _).
    split; [apply submit_working | apply submit_tracks]; assumption.
  - destruct Hs1 as [Hworking Htracks]. unfold live.
    destruct (submitPrefetchTask_frame s prefetchBlockOffset nextPrefetchBlockOffset)
      as (_ & _ & _ & -> & _).
    split; [apply submit_working | apply submit_tracks]; assumption.
Qed.

(** When the schedule is used up, the workers finish every task before the
    next poll, and the tracked future is ready. *)
Lemma workersProgress_ready future task s :
  live future task s ->
  workers s = [] ->
  ThreadPool.future_ready (m_threadPool (workersProgress s)) (Some future) = true.
Proof.
  intros [Hworking Htracks] Hschedule. unfold workersProgress. rewrite Hschedule. simpl.
  destruct (runToCompletion_completes _ _ _ Hworking Htracks) as [_ ->].
  apply bool_decide_eq_true. eauto.
Qed.

End BlockFetcherInvariants.

(** ** BlockFetcher: waiting for a tracked task ends *)

Section BlockFetcherProgress.

Context {BlockFinder FetchingStrategy BlockData : Type}.
Context `{BlockFetcher.BlockFinderOps BlockFinder}
        `{BlockFetcher.FetchingStrategyOps FetchingStrategy}.
Variable decodeBlock : Z -> Z -> result BlockData.
Variable STATISTICS : bool.

Import BlockFetcher.

Local Abbreviation fetcher := (BlockFetcher.t BlockFinder FetchingStrategy BlockData).
Local Abbreviation steps := (BlockFetcher.steps decodeBlock STATISTICS).

Implicit Types (s : fetcher).

#[local] Arguments ThreadPool.future_ready : simpl never.

(** The tracked task and a stop condition that holds once it is done. *)
Variable future : nat.
Variable task : unit -> result BlockData.
Variable stopPrefetching : fetcher -> bool.
Hypothesis stopPrefetching_ready :
  forall s, ThreadPool.future_ready (m_threadPool s) (Some future) = true ->
            stopPrefetching s = true.

Lemma waitOnBlockFinder_returns fuel :
  forall s blockIndexToPrefetch,
    live future task s ->
    (length (workers s) + 2 <= fuel)%nat ->
    exists offsets s',
      waitOnBlockFinder fuel stopPrefetching s blockIndexToPrefetch = Returns offsets s'.
Proof.
  induction fuel as [| fuel IH]; intros s blockIndexToPrefetch Hlive Hfuel; [lia |].
  simpl.
  destruct (finder_get (m_blockFinder s) blockIndexToPrefetch _)
    as [prefetchBlockOffset finder1].
  destruct (finder_get finder1 _ _) as [nextPrefetchBlockOffset finder2].
  match goal with
  | |- context [if ?c then Some SIZE_T_MAX else nextPrefetchBlockOffset] =>
      set (next := if c then Some SIZE_T_MAX else nextPrefetchBlockOffset)
  end.
  destruct prefetchBlockOffset, next; try (eexists _, _; reflexivity).
  set (s1 := with_blockFinder s finder2).
  assert (Hlive1 : live future task s1) by exact Hlive.
  destruct (stopPrefetching (workersProgress s1)) eqn:Hstop; [eexists _, _; reflexivity |].
  apply IH; [apply workersProgress_live; exact Hlive1 |].
  destruct (workers s1) as [| actions schedule] eqn:Hschedule.
  - rewrite stopPrefetching_ready in Hstop; [discriminate |].
    eapply workersProgress_ready; eassumption.
  - unfold workersProgress. rewrite Hschedule. simpl.
    change (workers s) with (workers s1) in Hfuel. rewrite Hschedule in Hfuel.
    simpl in Hfuel. lia.
Qed.

#[local] Arguments BlockFetcher.waitOnBlockFinder : simpl never.

Lemma prefetchBlocks_returns blockIndexesToPrefetch blockOffsetsToPrefetch
    getPartitionOffsetFromOffset :
  forall s,
    live future task s ->
    exists s',
      prefetchBlocks decodeBlock STATISTICS blockIndexesToPrefetch blockOffsetsToPrefetch
                     getPartitionOffsetFromOffset stopPrefetching s
      = Returns tt s'.
Proof.
  induction blockIndexesToPrefetch as [| blockIndexToPrefetch rest IH]; intros s Hlive; simpl;
    [eexists; reflexivity |].
  destruct (threadPoolSaturated s); [eexists; reflexivity |].
  destruct (_ && _); [apply IH; exact Hlive |].
  pose proof (waitOnBlockFinder_steps decodeBlock STATISTICS (S (S (length (workers s))))
                stopPrefetching s blockIndexToPrefetch) as Hsteps.
  destruct (waitOnBlockFinder_returns (S (S (length (workers s)))) s blockIndexToPrefetch
              Hlive)
    as ([prefetchBlockOffset nextPrefetchBlockOffset] & s1 & Hwait); [lia |].
  rewrite Hwait in Hsteps |- *. simpl in Hsteps. cbv beta iota zeta.
  assert (Hlive1 : live future task s1) by (eapply steps_live; eassumption).
  match goal with
  | |- context [if STATISTICS && ?c then ?x else s1] =>
      set (s2 := if STATISTICS && c then x else s1)
  end.
  assert (Hlive2 : live future task s2).
  { subst s2. destruct (STATISTICS && _); exact Hlive1. }
  clearbody s2.
  destruct prefetchBlockOffset as [prefetchOffset |], nextPrefetchBlockOffset as [nextOffset |];
    try (apply IH; exact Hlive2).
  destruct (isInCacheOrQueue s2 prefetchOffset) eqn:Hguard; simpl;
    [apply IH; exact Hlive2 |].
  destruct (match getPartitionOffsetFromOffset with Some _ => _ | None => false end);
    [apply IH; exact Hlive2 |].
  assert (Hlive3 : live future task
                     (submitPrefetchTask decodeBlock s2 prefetchOffset nextOffset)).
  { eapply steps_live; [| exact Hlive2].
    apply (submitPrefetchTask_steps decodeBlock STATISTICS). exact Hguard. }
  destruct (Cache.nextNthEviction _ _) as [offsetToBeEvicted |].
  - destruct (existsb _ _); [eexists; reflexivity | apply IH; exact Hlive3].
  - apply IH; exact Hlive3.
Qed.

(** [prefetchNewBlocks] returns, or it throws its own [std::logic_error]. *)
Lemma prefetchNewBlocks_ends getPartitionOffsetFromOffset s :
  live future task s ->
  exists s',
    steps s s'
    /\ (prefetchNewBlocks decodeBlock STATISTICS getPartitionOffsetFromOffset
                          stopPrefetching s = Returns tt s'
        \/ prefetchNewBlocks decodeBlock STATISTICS getPartitionOffsetFromOffset
                             stopPrefetching s = Throws (logic_error TOO_MANY_TASKS) s').
Proof.
  intros Hlive.
  pose proof (prefetchNewBlocks_steps decodeBlock STATISTICS getPartitionOffsetFromOffset
                stopPrefetching s) as Hsteps.
  revert Hsteps. unfold prefetchNewBlocks.
  assert (Hlive1 : live future task (processReadyPrefetches (workersProgress s))).
  { eapply steps_live; [| exact Hlive].
    eapply rtc_l; [apply step_workers |].
    apply (processReadyPrefetches_steps decodeBlock STATISTICS). }
  set (s1 := processReadyPrefetches (workersProgress s)) in *. clearbody s1.
  destruct (threadPoolSaturated s1); [intros Hsteps; eexists; split; [exact Hsteps | auto] |].
  destruct (collectBlockOffsetsToPrefetch _ _ _) as [found finder].
  match goal with
  | |- context [prefetchBlocks _ _ ?indexes ?offsets _ _ ?s2] =>
      destruct (prefetchBlocks_returns indexes offsets getPartitionOffsetFromOffset s2)
        as [s3 ->]
  end.
  { eapply steps_live; [| exact Hlive1].
    eapply rtc_l; [apply step_blockFinder |].
    apply (fold_left_steps decodeBlock STATISTICS).
    apply (touchInCacheIfExists_steps decodeBlock STATISTICS). }
  destruct (_ <? _); simpl; intros Hsteps; eexists; split; try exact Hsteps; auto.
Qed.

Lemma waitForResult_ends fuel getPartitionOffsetFromOffset :
  forall s,
    live future task s ->
    (length (workers s) + 2 <= fuel)%nat ->
    exists s',
      steps s s'
      /\ (waitForResult decodeBlock STATISTICS fuel getPartitionOffsetFromOffset
                        stopPrefetching (Some future) s = Returns tt s'
          /\ ThreadPool.future_ready (m_threadPool s') (Some future) = true
          \/ waitForResult decodeBlock STATISTICS fuel getPartitionOffsetFromOffset
                           stopPrefetching (Some future) s
             = Throws (logic_error TOO_MANY_TASKS) s').
Proof.
  induction fuel as [| fuel IH]; intros s Hlive Hfuel; [lia |]. simpl.
  assert (Hsteps1 : steps s (workersProgress s)) by (apply rtc_once; apply step_workers).
  pose proof (workersProgress_live _ _ _ Hlive) as Hlive1.
  destruct (ThreadPool.future_ready (m_threadPool (workersProgress s)) (Some future))
    eqn:Hready;
    [eexists; split; [exact Hsteps1 | left; split; [reflexivity | exact Hready]] |].
  destruct (workers s) as [| actions schedule] eqn:Hschedule.
  { rewrite (workersProgress_ready future task) in Hready by assumption. discriminate. }
  assert (Hfuel1 : (length (workers (workersProgress s)) + 2 <= fuel)%nat).
  { unfold workersProgress. rewrite Hschedule. simpl. simpl in Hfuel. lia. }
  destruct (prefetchNewBlocks_ends getPartitionOffsetFromOffset (workersProgress s) Hlive1)
    as (s2 & Hsteps2 & [-> | ->]).
  - destruct (IH s2) as (s3 & Hsteps3 & Hend).
    + eapply steps_live; eassumption.
    + pose proof (steps_workers _ _ _ _ Hsteps2). lia.
    + exists s3. split; [| exact Hend].
      eapply rtc_trans; [exact Hsteps1 |]. eapply rtc_trans; eassumption.
  - exists s2. split; [eapply rtc_trans; eassumption | right; reflexivity].
Qed.

End BlockFetcherProgress.

(** ** BlockFetcher: the thread pool never holds more tasks than it should *)

Section BlockFetcherAccounted.

Context {BlockFinder FetchingStrategy BlockData : Type}.
Context `{BlockFetcher.BlockFinderOps BlockFinder}
        `{BlockFetcher.FetchingStrategyOps FetchingStrategy}.
Variable decodeBlock : Z -> Z -> result BlockData.
Variable STATISTICS : bool.

Import BlockFetcher.

Local Abbreviation fetcher := (BlockFetcher.t BlockFinder FetchingStrategy BlockData).

Implicit Types (s : fetcher) (resultFuture : ThreadPool.Future).

#[local] Arguments ThreadPool.future_ready : simpl never.

Lemma advanced_accounted resultFuture s s' :
  ThreadPool.advanced (m_threadPool s) (m_threadPool s') ->
  m_prefetching s' = m_prefetching s ->
  m_parallelization s' = m_parallelization s ->
  accounted resultFuture s -> accounted resultFuture s'.
Proof.
  intros (Horderly & Hincl & Hthreads & _) Hprefetching Hparallelization
         (_ & Htasks & Hsize & Hcount & Hrange).
  unfold accounted. rewrite Hprefetching, Hparallelization.
  split; [exact Horderly |]. split; [| split; [| split; assumption]].
  - intros packagedTask Hqueued. apply Htasks. apply Hincl. exact Hqueued.
  - unfold ThreadPool.size in *. congruence.
Qed.

Lemma workersProgress_accounted resultFuture s :
  accounted resultFuture s -> accounted resultFuture (workersProgress s).
Proof.
  intros Haccounted. apply (advanced_accounted resultFuture s); try exact Haccounted;
    unfold workersProgress; destruct (workers s); try reflexivity; simpl.
  - apply runToCompletion_advanced. apply Haccounted.
  - apply workerActions_advanced. apply Haccounted.
Qed.

Lemma processReadyPrefetch_accounted resultFuture s prefetchedBlockOffset :
  accounted resultFuture s ->
  accounted resultFuture (processReadyPrefetch s prefetchedBlockOffset).
Proof.
  intros Haccounted. unfold processReadyPrefetch.
  destruct (m_prefetching s !! prefetchedBlockOffset) as [prefetchedFuture |] eqn:Hlookup;
    [| exact Haccounted].
  destruct (ThreadPool.future_ready (m_threadPool s) prefetchedFuture) eqn:Hready;
    [| exact Haccounted].
  match goal with
  | |- accounted _ (with_prefetching ?inserted _) => set (s' := inserted)
  end.
  assert (Hsame : m_threadPool s' = m_threadPool s
                  /\ m_prefetching s' = m_prefetching s
                  /\ m_parallelization s' = m_parallelization s).
  { subst s'. destruct (ThreadPool.future_get _ _) as [[result | e] |]; auto. }
  clearbody s'. destruct Hsame as (Hpool & Hprefetching & Hparallelization).
  destruct Haccounted as (Horderly & Htasks & Hsize & Hcount & Hrange).
  unfold accounted. simpl. rewrite Hpool, Hprefetching, Hparallelization.
  split; [exact Horderly |]. split; [| split; [exact Hsize | split; [| exact Hrange]]].
  - intros packagedTask Hqueued.
    destruct (Htasks _ Hqueued) as [Hrequested | [blockOffset Hat]]; [left; exact Hrequested |].
    right. exists blockOffset. rewrite lookup_delete_ne; [exact Hat |].
    intros <-. rewrite Hlookup in Hat. injection Hat as ->.
    unfold ThreadPool.future_ready in Hready. apply bool_decide_eq_true in Hready as [r Hr].
    destruct Horderly as (_ & _ & Hpending & _). rewrite (Hpending _ Hqueued) in Hr.
    discriminate.
  - rewrite map_size_delete_Some by eauto. lia.
Qed.

Lemma processReadyPrefetches_accounted resultFuture s :
  accounted resultFuture s -> accounted resultFuture (processReadyPrefetches s).
Proof.
  unfold processReadyPrefetches. generalize (prefetchingOffsets s). intros offsets. revert s.
  induction offsets as [| offset offsets IH]; intros s Haccounted; simpl; [exact Haccounted |].
  apply IH. apply processReadyPrefetch_accounted. exact Haccounted.
Qed.

Lemma NoDup_valid_futures (l : list (ThreadPool.PackagedTask BlockData)) :
  NoDup (map ThreadPool.task_future l) ->
  NoDup (map (fun packagedTask => Some (ThreadPool.task_future packagedTask)) l).
Proof.
  induction l as [| packagedTask l IH]; simpl; intros Hdistinct; [constructor |].
  inversion Hdistinct as [| ? ? Hfresh Hrest]; subst. constructor; [| apply IH; exact Hrest].
  intros Hdup. apply Hfresh.
  apply list_elem_of_In, in_map_iff in Hdup as (other & [= Heq] & Hother).
  rewrite <- Heq. apply list_elem_of_In, in_map. exact Hother.
Qed.

(** There are no more queued tasks than prefetching futures and the future of
    the requested block. *)
Lemma accounted_queuedTasks resultFuture s :
  accounted resultFuture s ->
  Z.of_nat (length (ThreadPool.queuedTasks (m_threadPool s)))
  <= Z.of_nat (size (m_prefetching s)) + 1.
Proof.
  intros ((Hdistinct & _) & Htasks & _).
  pose proof (NoDup_valid_futures _ Hdistinct) as Hvalid.
  assert (Hamong :
            map (fun packagedTask => Some (ThreadPool.task_future packagedTask))
                (ThreadPool.queuedTasks (m_threadPool s))
            ⊆+ resultFuture :: map snd (map_to_list (m_prefetching s))).
  { apply NoDup_submseteq; [exact Hvalid |]. intros future Hfuture.
    apply list_elem_of_In, in_map_iff in Hfuture as (packagedTask & <- & Hqueued).
    apply list_elem_of_In.
    destruct (Htasks _ Hqueued) as [-> | [blockOffset Hat]]; [left; reflexivity |].
    right. apply in_map_iff. exists (blockOffset, Some (ThreadPool.task_future packagedTask)).
    split; [reflexivity |]. apply list_elem_of_In, elem_of_map_to_list. exact Hat. }
  apply submseteq_length in Hamong. simpl in Hamong.
  rewrite !length_map, length_map_to_list in Hamong. lia.
Qed.

Lemma threadPoolSaturated_false resultFuture s :
  accounted resultFuture s ->
  threadPoolSaturated s = false ->
  Z.of_nat (size (m_prefetching s)) + 2 <= m_parallelization s.
Proof.
  intros (_ & _ & Hsize & Hcount & Hrange) Hsaturated.
  unfold threadPoolSaturated in Hsaturated. rewrite Hsize in Hsaturated.
  apply Z.leb_gt in Hsaturated.
  rewrite size_t_wrap_small in Hsaturated by (unfold is_size_t; lia). lia.
Qed.

Lemma submitPrefetchTask_accounted resultFuture s prefetchBlockOffset nextPrefetchBlockOffset :
  accounted resultFuture s ->
  m_prefetching s !! prefetchBlockOffset = None ->
  threadPoolSaturated s = false ->
  accounted resultFuture
    (submitPrefetchTask decodeBlock s prefetchBlockOffset nextPrefetchBlockOffset).
Proof.
  intros Haccounted Hnew Hsaturated.
  pose proof (threadPoolSaturated_false _ _ Haccounted Hsaturated) as Hroom.
  destruct Haccounted as (Horderly & Htasks & Hsize & Hcount & Hrange).
  destruct (submit_orderly (m_threadPool s)
              (fun _ => decodeAndMeasureBlock decodeBlock prefetchBlockOffset
                          nextPrefetchBlockOffset) 0 Horderly) as [Horderly' Hqueued'].
  assert (Hresult :
            m_threadPool (submitPrefetchTask decodeBlock s prefetchBlockOffset
                                             nextPrefetchBlockOffset)
            = snd (ThreadPool.submit (m_threadPool s)
                     (fun _ => decodeAndMeasureBlock decodeBlock prefetchBlockOffset
                                 nextPrefetchBlockOffset) 0)
            /\ m_prefetching (submitPrefetchTask decodeBlock s prefetchBlockOffset
                                                 nextPrefetchBlockOffset)
               = <[prefetchBlockOffset := Some (ThreadPool.m_nextFuture (m_threadPool s))]>
                   (m_prefetching s)
            /\ m_parallelization (submitPrefetchTask decodeBlock s prefetchBlockOffset
                                                     nextPrefetchBlockOffset)
               = m_parallelization s).
  { unfold submitPrefetchTask. simpl. rewrite Hnew. auto. }
  destruct Hresult as (Hpool & Hprefetching & Hparallelization).
  unfold accounted. rewrite Hpool, Hprefetching, Hparallelization.
  split; [exact Horderly' |]. split; [| split; [exact Hsize | split; [| exact Hrange]]].
  - intros packagedTask Hqueued. apply Hqueued' in Hqueued as [Hfuture | Hqueued].
    + right. exists prefetchBlockOffset. rewrite Hfuture. apply lookup_insert_eq.
    + destruct (Htasks _ Hqueued) as [Hrequested | [blockOffset Hat]];
        [left; exact Hrequested |].
      right. exists blockOffset. rewrite lookup_insert_ne; [exact Hat |].
      intros <-. rewrite Hnew in Hat. discriminate.
  - rewrite map_size_insert_None by exact Hnew. lia.
Qed.

Lemma submitOnDemandTask_accounted s blockOffset nextBlockOffset :
  accounted None s ->
  accounted (fst (submitOnDemandTask decodeBlock STATISTICS s blockOffset nextBlockOffset))
            (snd (submitOnDemandTask decodeBlock STATISTICS s blockOffset nextBlockOffset)).
Proof.
  intros (Horderly & Htasks & Hsize & Hcount & Hrange).
  destruct (submit_orderly (m_threadPool s)
              (fun _ => decodeAndMeasureBlock decodeBlock blockOffset
                          (match nextBlockOffset with
                           | Some offset => offset
                           | None => SIZE_T_MAX
                           end)) 0 Horderly) as [Horderly' Hqueued'].
  unfold submitOnDemandTask, accounted. destruct STATISTICS; simpl.
  all: split; [exact Horderly' |]; split; [| split; [exact Hsize | split; assumption]].
  all: intros packagedTask Hqueued; apply Hqueued' in Hqueued as [-> | Hqueued];
    [left; reflexivity |].
  all: destruct (Htasks _ Hqueued) as [[=] | Hat]; right; exact Hat.
Qed.

(** *** The loops of [prefetchNewBlocks] and [get] *)

Lemma workersProgress_saturated resultFuture s :
  accounted resultFuture s ->
  threadPoolSaturated (workersProgress s) = threadPoolSaturated s.
Proof.
  intros Haccounted.
  assert (Hadvanced : ThreadPool.advanced (m_threadPool s) (m_threadPool (workersProgress s))).
  { unfold workersProgress. destruct (workers s); simpl;
      [apply runToCompletion_advanced | apply workerActions_advanced]; apply Haccounted. }
  destruct Hadvanced as (_ & _ & Hthreads & _).
  assert (Hprefetching : m_prefetching (workersProgress s) = m_prefetching s).
  { unfold workersProgress. destruct (workers s); reflexivity. }
  unfold threadPoolSaturated, ThreadPool.size. rewrite Hthreads, Hprefetching. reflexivity.
Qed.

Lemma waitOnBlockFinder_accounted resultFuture stopPrefetching fuel :
  forall s blockIndexToPrefetch,
    accounted resultFuture s ->
    endsWell (waitOnBlockFinder fuel stopPrefetching s blockIndexToPrefetch)
    /\ accounted resultFuture
         (stateOf (waitOnBlockFinder fuel stopPrefetching s blockIndexToPrefetch))
    /\ threadPoolSaturated
         (stateOf (waitOnBlockFinder fuel stopPrefetching s blockIndexToPrefetch))
       = threadPoolSaturated s.
Proof.
  induction fuel as [| fuel IH]; intros s blockIndexToPrefetch Haccounted; simpl;
    [split; [exact I | split; [exact Haccounted | reflexivity]] |].
  destruct (finder_get (m_blockFinder s) blockIndexToPrefetch _)
    as [prefetchBlockOffset finder1].
  destruct (finder_get finder1 _ _) as [nextPrefetchBlockOffset finder2].
  match goal with
  | |- context [if ?c then Some SIZE_T_MAX else nextPrefetchBlockOffset] =>
      set (next := if c then Some SIZE_T_MAX else nextPrefetchBlockOffset)
  end.
  destruct prefetchBlockOffset, next;
    try (split; [exact I | split; [exact Haccounted | reflexivity]]).
  set (s1 := with_blockFinder s finder2).
  assert (Haccounted1 : accounted resultFuture s1) by exact Haccounted.
  pose proof (workersProgress_accounted _ _ Haccounted1) as Haccounted2.
  pose proof (workersProgress_saturated _ _ Haccounted1) as Hsaturated.
  change (threadPoolSaturated s1) with (threadPoolSaturated s) in Hsaturated.
  destruct (stopPrefetching (workersProgress s1));
    [split; [exact I | split; [exact Haccounted2 | exact Hsaturated]] |].
  destruct (IH (workersProgress s1) blockIndexToPrefetch Haccounted2) as (Hends & Hstate & Hsame).
  split; [exact Hends |]. split; [exact Hstate |]. rewrite Hsame. exact Hsaturated.
Qed.

#[local] Arguments BlockFetcher.waitOnBlockFinder : simpl never.

Lemma prefetchBlocks_accounted resultFuture blockIndexesToPrefetch blockOffsetsToPrefetch
    getPartitionOffsetFromOffset stopPrefetching :
  forall s,
    accounted resultFuture s ->
    endsWell (prefetchBlocks decodeBlock STATISTICS blockIndexesToPrefetch
                             blockOffsetsToPrefetch getPartitionOffsetFromOffset
                             stopPrefetching s)
    /\ accounted resultFuture
         (stateOf (prefetchBlocks decodeBlock STATISTICS blockIndexesToPrefetch
                                  blockOffsetsToPrefetch getPartitionOffsetFromOffset
                                  stopPrefetching s)).
Proof.
  induction blockIndexesToPrefetch as [| blockIndexToPrefetch rest IH]; intros s Haccounted;
    simpl; [split; [exact I | exact Haccounted] |].
  destruct (threadPoolSaturated s) eqn:Hsaturated; [split; [exact I | exact Haccounted] |].
  destruct (_ && _); [apply IH; exact Haccounted |].
  destruct (waitOnBlockFinder_accounted resultFuture stopPrefetching
              (S (S (length (workers s)))) s blockIndexToPrefetch Haccounted)
    as (Hends & Haccounted1 & Hsaturated1).
  rewrite Hsaturated in Hsaturated1.
  destruct (waitOnBlockFinder (S (S (length (workers s)))) stopPrefetching s
                              blockIndexToPrefetch)
    as [[prefetchBlockOffset nextPrefetchBlockOffset] s1 | e s1 | s1];
    simpl in Hends, Haccounted1, Hsaturated1;
    [| contradiction | split; [exact I | exact Haccounted1]].
  cbv beta iota zeta.
  match goal with
  | |- context [if STATISTICS && ?c then ?x else s1] =>
      set (s2 := if STATISTICS && c then x else s1)
  end.
  assert (Haccounted2 : accounted resultFuture s2 /\ threadPoolSaturated s2 = false).
  { subst s2. destruct (STATISTICS && _); split; assumption. }
  clearbody s2. destruct Haccounted2 as [Haccounted2 Hsaturated2].
  destruct prefetchBlockOffset as [prefetchOffset |], nextPrefetchBlockOffset as [nextOffset |];
    try (apply IH; exact Haccounted2).
  destruct (isInCacheOrQueue s2 prefetchOffset) eqn:Hguard; simpl;
    [apply IH; exact Haccounted2 |].
  destruct (match getPartitionOffsetFromOffset with Some _ => _ | None => false end);
    [apply IH; exact Haccounted2 |].
  assert (Haccounted3 : accounted resultFuture
                          (submitPrefetchTask decodeBlock s2 prefetchOffset nextOffset)).
  { apply submitPrefetchTask_accounted; [exact Haccounted2 | | exact Hsaturated2].
    unfold isInCacheOrQueue in Hguard. apply orb_false_iff in Hguard as [Hguard _].
    apply orb_false_iff in Hguard as [Hqueue _]. apply bool_decide_eq_false in Hqueue.
    apply eq_None_not_Some. exact Hqueue. }
  destruct (Cache.nextNthEviction _ _) as [offsetToBeEvicted |].
  - destruct (existsb _ _); [split; [exact I | exact Haccounted2] | apply IH; exact Haccounted3].
  - apply IH; exact Haccounted3.
Qed.

Lemma touchInCacheIfExists_accounted resultFuture offsets :
  forall s,
    accounted resultFuture s ->
    accounted resultFuture (fold_left touchInCacheIfExists offsets s).
Proof.
  induction offsets as [| offset offsets IH]; intros s Haccounted; simpl; [exact Haccounted |].
  apply IH. unfold touchInCacheIfExists.
  destruct (Cache.test (m_prefetchCache s) offset); simpl;
    destruct (Cache.test (m_cache s) offset); exact Haccounted.
Qed.

(** With the bookkeeping in order, [prefetchNewBlocks] does not throw its
    [std::logic_error]. *)
Lemma prefetchNewBlocks_accounted resultFuture getPartitionOffsetFromOffset stopPrefetching s :
  accounted resultFuture s ->
  endsWell (prefetchNewBlocks decodeBlock STATISTICS getPartitionOffsetFromOffset
                              stopPrefetching s)
  /\ accounted resultFuture
       (stateOf (prefetchNewBlocks decodeBlock STATISTICS getPartitionOffsetFromOffset
                                   stopPrefetching s)).
Proof.
  intros Haccounted. unfold prefetchNewBlocks.
  assert (Haccounted1 : accounted resultFuture (processReadyPrefetches (workersProgress s))).
  { apply processReadyPrefetches_accounted, workersProgress_accounted. exact Haccounted. }
  set (s1 := processReadyPrefetches (workersProgress s)) in *. clearbody s1.
  destruct (threadPoolSaturated s1); [split; [exact I | exact Haccounted1] |].
  destruct (collectBlockOffsetsToPrefetch _ _ _) as [found finder].
  match goal with
  | |- context [prefetchBlocks _ _ ?indexes ?offsets _ _ ?s2] =>
      destruct (prefetchBlocks_accounted resultFuture indexes offsets
                  getPartitionOffsetFromOffset stopPrefetching s2) as [Hends Haccounted3];
      [apply touchInCacheIfExists_accounted; exact Haccounted1 |];
      destruct (prefetchBlocks decodeBlock STATISTICS indexes offsets
                  getPartitionOffsetFromOffset stopPrefetching s2) as [[] s3 | e s3 | s3]
  end; simpl in Hends, Haccounted3; [| contradiction | split; [exact I | exact Haccounted3]].
  pose proof (accounted_queuedTasks _ _ Haccounted3) as Hqueued.
  pose proof (unprocessedTasksCount_queued (m_threadPool s3) 0) as Hunprocessed.
  assert (Hcount : Z.of_nat (size (m_prefetching s3)) + 1 <= m_parallelization s3)
    by apply Haccounted3.
  replace (m_parallelization s3 <? _) with false by (symmetry; apply Z.ltb_ge; lia).
  split; [exact I | exact Haccounted3].
Qed.

#[local] Arguments BlockFetcher.prefetchNewBlocks : simpl never.

Lemma waitForResult_accounted resultFuture getPartitionOffsetFromOffset resultIsReady
    queuedResult fuel :
  forall s,
    accounted resultFuture s ->
    endsWell (waitForResult decodeBlock STATISTICS fuel getPartitionOffsetFromOffset
                            resultIsReady queuedResult s)
    /\ accounted resultFuture
         (stateOf (waitForResult decodeBlock STATISTICS fuel getPartitionOffsetFromOffset
                                 resultIsReady queuedResult s)).
Proof.
  induction fuel as [| fuel IH]; intros s Haccounted; simpl;
    [split; [exact I | exact Haccounted] |].
  pose proof (workersProgress_accounted _ _ Haccounted) as Haccounted1.
  destruct (ThreadPool.future_ready _ queuedResult); [split; [exact I | exact Haccounted1] |].
  destruct (prefetchNewBlocks_accounted resultFuture getPartitionOffsetFromOffset
              resultIsReady (workersProgress s) Haccounted1) as [Hends Haccounted2].
  destruct (prefetchNewBlocks decodeBlock STATISTICS getPartitionOffsetFromOffset
                              resultIsReady (workersProgress s)) as [[] s2 | e s2 | s2];
    simpl in Hends, Haccounted2;
    [apply IH; exact Haccounted2 | contradiction | split; [exact I | exact Haccounted2]].
Qed.

(** *** [get] keeps the bookkeeping in order *)




#[local] Arguments BlockFetcher.waitForResult : simpl never.


End BlockFetcherAccounted.

(** ** BlockFetcher: the claims *)

Section BlockFetcherClaims.

Context {BlockFinder FetchingStrategy BlockData : Type}.
Context `{BlockFetcher.BlockFinderOps BlockFinder}
        `{BlockFetcher.FetchingStrategyOps FetchingStrategy}.
Variable decodeBlock : Z -> Z -> result BlockData.
Variable STATISTICS : bool.
Variable availableCores : Z.

Import BlockFetcher.

Local Abbreviation fetcher := (BlockFetcher.t BlockFinder FetchingStrategy BlockData).
Local Abbreviation steps := (BlockFetcher.steps decodeBlock STATISTICS).

Implicit Types (s : fetcher).

#[local] Arguments ThreadPool.future_ready : simpl never.
#[local] Arguments BlockFetcher.waitForResult : simpl never.

(** *** The constructor *)

(** C8, as amended: for a parallelization N with 1 <= N < 2^63 the
    constructor creates the on-demand cache with capacity max(16, N) and the
    prefetch cache with capacity 2 N; for N = 0 it takes max(1, available
    cores) instead of N (which is below 2^63 as well).  The capacity of the
    prefetch cache is computed in [size_t]. *)
Theorem BlockFetcher_ctor_capacities (blockFinder : BlockFinder) parallelization :
  0 <= parallelization < 2 ^ 63 ->
  0 <= availableCores < 2 ^ 63 ->
  exists s,
    ctor availableCores (Some blockFinder) parallelization = Ok s
    /\ m_parallelization s
       = (if parallelization =? 0 then Z.max 1 availableCores else parallelization)
    /\ Cache.capacity (m_cache s) = Z.max 16 (m_parallelization s)
    /\ Cache.capacity (m_prefetchCache s) = 2 * m_parallelization s
    /\ ThreadPool.size (m_threadPool s) = m_parallelization s.
Proof.
  intros Hparallelization Hcores. unfold ctor. eexists. split; [reflexivity |]. simpl.
  repeat split. apply size_t_wrap_small. unfold is_size_t, SIZE_T_DIGITS.
  destruct (parallelization =? 0); lia.
Qed.

Lemma ctor_threadPool (blockFinder : option BlockFinder) parallelization s :
  ctor availableCores blockFinder parallelization = Ok s ->
  m_threadPool s
  = ThreadPool.ctor (if parallelization =? 0 then Z.max 1 availableCores
                     else parallelization)
  /\ Cache.capacity (m_cache s) = Z.max 16 (m_parallelization s)
  /\ submissions s = [].
Proof.
  unfold ctor. destruct blockFinder; [| discriminate]. intros [= <-]. auto.
Qed.

(** The constructor leaves the bookkeeping in order. *)
Lemma ctor_accounted (blockFinder : option BlockFinder) parallelization s :
  ctor availableCores blockFinder parallelization = Ok s ->
  0 <= parallelization < 2 ^ 64 ->
  availableCores < 2 ^ 64 ->
  accounted None s.
Proof.
  unfold ctor. destruct blockFinder; [| discriminate]. intros [= <-] Hparallelization Hcores.
  unfold accounted. simpl. split; [apply ctor_orderly |].
  split; [intros packagedTask [] |]. split; [reflexivity |].
  rewrite map_size_empty. unfold SIZE_T_DIGITS.
  destruct (Z.eqb_spec parallelization 0); lia.
Qed.

(** *** Sequences of operations *)

Lemma perform_steps s operation :
  exists schedule, steps (with_workers s schedule) (perform decodeBlock STATISTICS s operation).
Proof.
  destruct operation as [blockOffset dataBlockIndex onlyCheckCaches getPartitionOffset schedule
                        | getPartitionOffset stopPrefetching schedule];
    exists schedule; simpl.
  - apply get_steps.
  - apply prefetchNewBlocks_steps.
Qed.

Lemma performAll_invariant (P : fetcher -> Prop) :
  (forall s schedule, P s -> P (with_workers s schedule)) ->
  (forall s s', steps s s' -> P s -> P s') ->
  forall operations s, P s -> P (performAll decodeBlock STATISTICS s operations).
Proof.
  intros Hschedule Hsteps. unfold performAll.
  induction operations as [| operation operations IH]; intros s Hs; simpl; [exact Hs |].
  apply IH. destruct (perform_steps s operation) as [schedule Hperform].
  eapply Hsteps; [exact Hperform |]. apply Hschedule. exact Hs.
Qed.


(** C5: from the construction of the fetcher on, over every sequence of [get]
    and prefetch operations and whatever the workers do in the meantime,
    every decode task was handed to the thread pool while its offset was in
    neither cache and not in the prefetching map; and these recorded
    submissions are all the futures that the pool has created. *)
Theorem BlockFetcher_at_most_one_submission (blockFinder : option BlockFinder)
    parallelization s operations :
  ctor availableCores blockFinder parallelization = Ok s ->
  Forall guarded (submissions (performAll decodeBlock STATISTICS s operations))
  /\ length (submissions (performAll decodeBlock STATISTICS s operations))
     = ThreadPool.m_nextFuture
         (m_threadPool (performAll decodeBlock STATISTICS s operations)).
Proof.
  intros Hctor. apply ctor_threadPool in Hctor as (Hpool & _ & Hsubmissions).
  split.
  - apply (performAll_invariant (submissionsGuarded (BlockData := BlockData))).
    + intros s1 schedule Hs1. exact Hs1.
    + intros s1 s2. apply steps_submissionsGuarded.
    + unfold submissionsGuarded. rewrite Hsubmissions. constructor.
  - apply (performAll_invariant
             (fun s1 => length (submissions s1)
                        = ThreadPool.m_nextFuture (m_threadPool s1))).
    + intros s1 schedule Hs1. exact Hs1.
    + intros s1 s2. apply steps_submissions_count.
    + rewrite Hsubmissions, Hpool. reflexivity.
Qed.

(** The on-demand cache keeps the capacity that the constructor gave it. *)
Lemma BlockFetcher_cache_capacity (blockFinder : option BlockFinder) parallelization s
    operations :
  ctor availableCores blockFinder parallelization = Ok s ->
  16 <= Cache.capacity (m_cache (performAll decodeBlock STATISTICS s operations)).
Proof.
  intros Hctor. apply ctor_threadPool in Hctor as (_ & Hcapacity & _).
  apply (performAll_invariant (fun s1 => 16 <= Cache.capacity (m_cache s1))).
  - intros s1 schedule Hs1. exact Hs1.
  - intros s1 s2 Hsteps Hs1. apply steps_capacity in Hsteps as [-> _]. exact Hs1.
  - rewrite Hcapacity. lia.
Qed.

End BlockFetcherClaims.

Section BlockFetcherCacheAndErrors.

Context {BlockFinder FetchingStrategy BlockData : Type}.
Context `{BlockFetcher.BlockFinderOps BlockFinder}
        `{BlockFetcher.FetchingStrategyOps FetchingStrategy}.
Variable decodeBlock : Z -> Z -> result BlockData.
Variable STATISTICS : bool.

Import BlockFetcher.

Local Abbreviation fetcher := (BlockFetcher.t BlockFinder FetchingStrategy BlockData).
Local Abbreviation steps := (BlockFetcher.steps decodeBlock STATISTICS).

Implicit Types (s : fetcher).

#[local] Arguments ThreadPool.future_ready : simpl never.
#[local] Arguments BlockFetcher.waitForResult : simpl never.

(** *** The sequential-read optimisation *)

(** C9: when the fetching strategy reports sequential mode, [insertIntoCache]
    clears the on-demand cache and then inserts, and the cache, whose capacity
    is not zero, holds exactly the entry just inserted. *)
Theorem BlockFetcher_insertIntoCache_sequential s blockOffset blockData :
  strategy_isSequential (m_fetchingStrategy s) = true ->
  0 < Cache.capacity (m_cache s) ->
  m_cache (insertIntoCache s blockOffset blockData)
  = Cache.insert (Cache.clear (m_cache s)) blockOffset blockData
  /\ Cache.entries (m_cache (insertIntoCache s blockOffset blockData))
     = [(blockOffset, blockData)].
Proof.
  intros Hsequential Hcapacity. unfold insertIntoCache. rewrite Hsequential. simpl.
  split; [reflexivity |]. apply Cache_insert_clear. exact Hcapacity.
Qed.

(** *** Failed decode tasks *)

Lemma getFromCaches_miss_unchanged s blockOffset :
  isInCacheOrQueue s blockOffset = false ->
  getFromCaches STATISTICS s blockOffset = (None, None, s).
Proof.
  unfold isInCacheOrQueue. intros Hmiss.
  apply orb_false_iff in Hmiss as [Hmiss Hprefetch].
  apply orb_false_iff in Hmiss as [Hqueue Hcache].
  apply bool_decide_eq_false in Hqueue, Hcache, Hprefetch.
  unfold getFromCaches, takeFromPrefetchQueue.
  destruct (m_prefetching s !! blockOffset); [exfalso; apply Hqueue; eauto |].
  unfold Cache.get.
  destruct (Cache.lookup_entry (Cache.entries (m_cache s)) blockOffset);
    [exfalso; apply Hcache; eauto |].
  simpl.
  destruct (Cache.lookup_entry (Cache.entries (m_prefetchCache s)) blockOffset);
    [exfalso; apply Hprefetch; eauto |].
  destruct s; reflexivity.
Qed.

Lemma submitOnDemandTask_future s blockOffset nextBlockOffset :
  fst (submitOnDemandTask decodeBlock STATISTICS s blockOffset nextBlockOffset)
  = Some (ThreadPool.m_nextFuture (m_threadPool s)).
Proof. unfold submitOnDemandTask. destruct STATISTICS; reflexivity. Qed.





End BlockFetcherCacheAndErrors.

Section BlockFetcherExamples.

Import BlockFetcher.

Lemma Examples_fetcher_constructed :
  ctor 4 (Some Examples.finder) 2 = Ok Examples.fetcher.
Proof. reflexivity. Defined.

(** A fetcher for two threads on a machine with four cores. *)
Lemma BlockFetcher_ctor_capacities_witness :
  exists s : BlockFetcher.t GzipBlockFinder.t FetchNext.t (list Z),
    ctor 4 (Some Examples.finder) 2 = Ok s
    /\ m_parallelization s = (if 2 =? 0 then Z.max 1 4 else 2)
    /\ Cache.capacity (m_cache s) = Z.max 16 (m_parallelization s)
    /\ Cache.capacity (m_prefetchCache s) = 2 * m_parallelization s
    /\ ThreadPool.size (m_threadPool s) = m_parallelization s.
Proof.
  apply (BlockFetcher_ctor_capacities (FetchingStrategy := FetchNext.t)
           (BlockData := list Z) 4 Examples.finder 2); lia.
Defined.

(** C8, counterexample: for a parallelization of 2^63 the constructor creates
    the prefetch cache with capacity 0, not 2^64: twice the parallelization
    wraps around in [size_t]. *)
Lemma BlockFetcher_ctor_prefetch_capacity_wraps :
  1 <= 2 ^ 63 < 2 ^ 64
  /\ match ctor (FetchingStrategy := FetchNext.t) (BlockData := list Z)
             4 (Some Examples.finder) (2 ^ 63) with
     | Ok s =>
         m_parallelization s = 2 ^ 63
         /\ Cache.capacity (m_cache s) = Z.max 16 (2 ^ 63)
         /\ Cache.capacity (m_prefetchCache s) = 0
         /\ Cache.capacity (m_prefetchCache s) <> 2 * 2 ^ 63
     | Throw _ => False
     end.
Proof. split; [lia |]. vm_compute. repeat split; congruence. Qed.

(** Two reads of [Examples.fetcher]. *)
Lemma BlockFetcher_at_most_one_submission_witness :
  Forall guarded
    (submissions (performAll Examples.decodeBlock false Examples.fetcher Examples.operations))
  /\ length (submissions (performAll Examples.decodeBlock false Examples.fetcher
                            Examples.operations))
     = ThreadPool.m_nextFuture
         (m_threadPool (performAll Examples.decodeBlock false Examples.fetcher
                          Examples.operations)).
Proof.
  apply (BlockFetcher_at_most_one_submission Examples.decodeBlock false 4
           (Some Examples.finder) 2 Examples.fetcher Examples.operations).
  reflexivity.
Defined.

(** In those two reads the chunk at bit 32768 is submitted twice: as a
    prefetch that fails and is dropped, and as a prefetch again, whose future
    the second read takes over. *)
Lemma Examples_operations_submissions :
  map submitted_offset
      (submissions (performAll Examples.decodeBlock false Examples.fetcher
                      Examples.operations))
  = [65536; 32768; 32768; 80].
Proof. vm_compute. reflexivity. Qed.

(** The on-demand cache of [Examples.fetcher_sequential_warm] holds two blocks
    before the insertion, and the new block only after it. *)
Lemma BlockFetcher_insertIntoCache_sequential_witness :
  map fst (Cache.entries (m_cache Examples.fetcher_sequential_warm)) = [65536; 32768]
  /\ m_cache (insertIntoCache Examples.fetcher_sequential_warm 80 [120])
     = Cache.insert (Cache.clear (m_cache Examples.fetcher_sequential_warm)) 80 [120]
  /\ Cache.entries (m_cache (insertIntoCache Examples.fetcher_sequential_warm 80 [120]))
     = [(80, [120])].
Proof.
  split; [reflexivity |].
  apply (BlockFetcher_insertIntoCache_sequential Examples.fetcher_sequential_warm 80 [120]).
  - reflexivity.
  - simpl. lia.
Defined.



(** The on-demand read of the example indeed throws the error of the decoder. *)
Lemma Examples_get_throws_decode_error :
  match get Examples.decodeBlock false Examples.fetcher 32768 (Some 1) false None with
  | Throws e _ => e = runtime_error "Failed to decode the deflate block!"
  | _ => False
  end.
Proof. vm_compute. reflexivity. Qed.


(** The exception of the second of those reads is the block finder's. *)
Lemma Examples_orphaningOperations_outcomes :
  match get Examples.decodeBlock false
            (with_workers Examples.fetcher [[ThreadPool.TakeTask; ThreadPool.FinishTask 0];
                                            []; []; []])
            80 (Some (2 ^ 49 - 1)) false None with
  | Returns result s =>
      result = Some [120]
      /\ map fst (map_to_list (m_prefetching s)) = [0]
      /\ match get Examples.decodeBlock false (with_workers s [[]; []; []]) 0 None false
                   None with
         | Throws e _ =>
             e = out_of_range
                   "No block with the specified offset 0 exists in the block finder map!"
         | _ => False
         end
  | _ => False
  end.
Proof. vm_compute. repeat split. Qed.

End BlockFetcherExamples.

(** ** Precode check *)

Section PrecodeCheckFacts.

Import PrecodeCheck PrecodeCheck.VariableLengthPackedHistogram.

(** The constants that the source asserts statically. *)
Lemma PrecodeCheck_static_asserts :
  LOWEST_MEMBER_BITS_MASK = 34638177
  /\ OVERFLOW_BITS_MASK = 3792734561
  /\ OVERFLOW_MEMBER_OFFSET + 3 <= 32
  /\ HISTOGRAM_TO_LOOK_UP_BITS = 24
  /\ CACHED_BITS = 12
  /\ CHUNK_COUNT = 5.
Proof. repeat split; vm_compute; congruence. Qed.

(** Every enumerated histogram has seven counts for at most 19 symbols and
    Kraft's sum one. *)
Lemma VALID_HISTOGRAMS_complete :
  forallb isCompleteHistogram VALID_HISTOGRAMS = true.
Proof. vm_compute. reflexivity. Qed.

(** C3, as amended: when an overflow bit is set, in the sum of the partial
    histograms or in a partial histogram of the lookup table, [checkPrecode]
    returns [INVALID_CODE_LENGTHS], unless the summed histogram is the entry of
    [POWER_OF_TWO_SPECIAL_CASES] for its non-zero count: that test comes first
    and returns [NONE]. *)
Theorem checkPrecode_overflow next4Bits next57Bits :
  0 <= next4Bits < 16 ->
  0 <= next57Bits < 2 ^ 57 ->
  overflowDetected (sumsOf next4Bits next57Bits) = true ->
  checkPrecode next4Bits next57Bits
  = if isSpecialCase (sumsOf next4Bits next57Bits) then NONE else INVALID_CODE_LENGTHS.
Proof.
  intros _ _ Hoverflow. unfold checkPrecode.
  destruct (isSpecialCase (sumsOf next4Bits next57Bits)); [reflexivity |].
  rewrite Hoverflow. reflexivity.
Qed.

(** Three codes of length 1 overflow the one-bit count of that length and
    are no special case: rejected. *)
Lemma checkPrecode_overflow_witness :
  checkPrecode 0 (packCodeLengths [1; 1; 1; 0])
  = if isSpecialCase (sumsOf 0 (packCodeLengths [1; 1; 1; 0]))
    then NONE else INVALID_CODE_LENGTHS.
Proof.
  apply (checkPrecode_overflow 0 (packCodeLengths [1; 1; 1; 0])).
  - lia.
  - vm_compute. split; [discriminate | reflexivity].
  - vm_compute. reflexivity.
Defined.

(** C3, counterexample: for two codes of length 1 the partial histogram from
    the lookup table has its overflow bit set (bit 29), and [checkPrecode]
    returns [NONE]. *)
Lemma checkPrecode_accepts_overflow :
  0 <= 0 < 16
  /\ 0 <= packCodeLengths Examples.twoCodesOfLengthOne < 2 ^ 57
  /\ overflowsInLUT (sumsOf 0 (packCodeLengths Examples.twoCodesOfLengthOne))
     = 2 ^ 29 + 2 ^ 6 + 2
  /\ overflowDetected (sumsOf 0 (packCodeLengths Examples.twoCodesOfLengthOne)) = true
  /\ checkPrecode 0 (packCodeLengths Examples.twoCodesOfLengthOne) = NONE.
Proof.
  split; [lia |].
  split; [vm_compute; split; [discriminate | reflexivity] |].
  repeat split; vm_compute; reflexivity.
Qed.

(** C4, the failing input: the histogram of [Examples.lopsidedCodeLengths]
    is that of a complete Huffman tree and is among the valid histograms, but
    its sixteen codes of length 7 overflow the four-bit count, no special case
    covers 19 codes, and [checkPrecode] rejects the precode. *)
Theorem checkPrecode_rejects_lopsided_tree :
  Z.of_nat (length Examples.lopsidedCodeLengths) = 4 + 15
  /\ histogramOf Examples.lopsidedCodeLengths = [1; 1; 1; 0; 0; 0; 16]
  /\ isCompleteHistogram (histogramOf Examples.lopsidedCodeLengths) = true
  /\ In (histogramOf Examples.lopsidedCodeLengths) VALID_HISTOGRAMS
  /\ checkPrecode 15 (packCodeLengths Examples.lopsidedCodeLengths) = INVALID_CODE_LENGTHS.
Proof.
  split; [reflexivity |].
  split; [vm_compute; reflexivity |].
  split; [vm_compute; reflexivity |].
  split.
  - apply list_elem_of_In. apply (bool_decide_unpack _). vm_compute. exact I.
  - vm_compute. reflexivity.
Qed.

End PrecodeCheckFacts.

(** ** CRC-32 *)

Section CRC32Facts.

Import CRC32.

(** The table-based CRC-32 is the one of RFC 1952: its check value. *)
Lemma crc32_table_check_value :
  crc32_table 0 [49; 50; 51; 52; 53; 54; 55; 56; 57] = 3421780262.
Proof. vm_compute. reflexivity. Qed.

(** C6, the failing input: of four bytes [crc32_sse4] reads none (its first
    loop needs sixteen bytes, its second loop takes [length & 3] bytes), so it
    returns the initial value, and the table-based CRC-32 differs. *)
Theorem crc32_sse4_differs_from_table :
  crc32_sse4 0 [1; 2; 3; 4] = 0
  /\ crc32_table 0 [1; 2; 3; 4] = 3057449933
  /\ crc32_sse4 0 [1; 2; 3; 4] <> crc32_table 0 [1; 2; 3; 4].
Proof. repeat split; vm_compute; congruence. Qed.

(** Of a single byte, which [crc32_sse4] does read, it computes the CRC-32C
    of the instruction and not the CRC-32 of the table. *)
Lemma crc32_sse4_differs_on_one_byte :
  crc32_sse4 0 [49] = 2432014819 /\ crc32_table 0 [49] = 2212294583.
Proof. split; vm_compute; reflexivity. Qed.

(** Whatever the instruction computes, [crc32_sse4] skips the bytes that
    follow the last full round of sixteen and precede the last [length & 3]:
    data of 4, 8 or 12 bytes do not change the CRC. *)
Lemma crc32_sse4_ignores_short_data crc data :
  In (length data) [4%nat; 8%nat; 12%nat] ->
  crc32_sse4 crc data = crc.
Proof.
  intros Hlength. unfold crc32_sse4.
  assert (Hrounds : Z.to_nat (Z.of_nat (length data) / 4 / 4) = 0%nat
                    /\ Z.to_nat (Z.land (Z.of_nat (length data)) 3) = 0%nat).
  { simpl in Hlength. destruct Hlength as [<- | [<- | [<- | []]]]; split; reflexivity. }
  destruct Hrounds as [-> ->]. simpl.
  rewrite Z.lxor_assoc, Z.lxor_nilpotent, Z.lxor_0_r. reflexivity.
Qed.

End CRC32Facts.

(** * Further properties of the code *)

(** ** GzipBlockFinder: insertion, lookup and guesses *)

Section GzipBlockFinderIndex.

Import GzipBlockFinder.

Lemma In_insert_at offsets i x y :
  In y (insert_at offsets i x) <-> y = x \/ In y offsets.
Proof.
  unfold insert_at. rewrite in_app_iff. simpl.
  rewrite <- (firstn_skipn (Z.to_nat i) offsets) at 3. rewrite in_app_iff.
  split; [intros [? | [-> | ?]] | intros [-> | [? | ?]]]; auto.
Qed.

Lemma lower_bound_In offsets x :
  StronglySorted Z.lt offsets ->
  In x offsets ->
  lower_bound offsets x < Z.of_nat (length offsets)
  /\ at_index offsets (lower_bound offsets x) = x.
Proof.
  intros Hsorted Hin. apply (In_nth _ _ 0) in Hin as (i & Hi & <-).
  rewrite lower_bound_at by assumption. unfold at_index. rewrite Nat2Z.id.
  split; [lia | reflexivity].
Qed.

Lemma lower_bound_found offsets x :
  lower_bound offsets x < Z.of_nat (length offsets) ->
  at_index offsets (lower_bound offsets x) = x ->
  In x offsets.
Proof.
  intros Hbelow <-. unfold at_index. apply nth_In.
  pose proof (lower_bound_range offsets x). lia.
Qed.

(** Whether [insertUnsafe] and [find] see the offset among the known ones. *)
Lemma lower_bound_known offsets x :
  StronglySorted Z.lt offsets ->
  (lower_bound offsets x =? Z.of_nat (length offsets))
  || negb (at_index offsets (lower_bound offsets x) =? x) = false
  <-> In x offsets.
Proof.
  intros Hsorted. rewrite orb_false_iff, negb_false_iff, Z.eqb_neq, Z.eqb_eq.
  pose proof (lower_bound_range offsets x). split.
  - intros [Hbelow Hat]. apply lower_bound_found; [lia | exact Hat].
  - intros Hin. apply lower_bound_In in Hin as [Hbelow Hat]; [| exact Hsorted].
    split; [lia | exact Hat].
Qed.

Lemma insertUnsafe_offsets s blockOffset s' :
  StronglySorted Z.lt (m_blockOffsets s) ->
  insertUnsafe s blockOffset = Ok s' ->
  forall offset,
    In offset (m_blockOffsets s')
    <-> In offset (m_blockOffsets s)
        \/ (offset = blockOffset /\ blockOffset < m_fileSizeInBits s).
Proof.
  intros Hsorted. unfold insertUnsafe.
  destruct (Z.leb_spec (m_fileSizeInBits s) blockOffset) as [Houtside | Hinside].
  { intros [= <-] offset. split; [auto | intros [Hin | [_ Hlt]]; [exact Hin | lia]]. }
  destruct (_ || _) eqn:Hnew.
  - destruct (m_finalized s); [discriminate |]. intros [= <-] offset. simpl.
    rewrite In_insert_at. split; [intros [-> | Hin] | intros [Hin | [-> _]]]; auto.
  - intros [= <-] offset. apply lower_bound_known in Hnew; [| exact Hsorted].
    split; [auto | intros [Hin | [-> _]]; assumption].
Qed.

(** [get] without the gathering of BGZF blocks, which a file that is not BGZF
    and a finalized finder do not do. *)
Lemma get_without_gathering s blockIndex :
  m_isBgzfFile s = false \/ m_finalized s = true ->
  get s blockIndex
  = if blockIndex <? size s then
      Ok (Some (at_index (m_blockOffsets s) blockIndex), s)
    else
      let partitionIndex :=
        size_t_wrap (firstPartitionIndex s + size_t_wrap (blockIndex - size s)) in
      let blockOffset := size_t_wrap (partitionIndex * m_spacingInBits s) in
      if blockOffset <? m_fileSizeInBits s then Ok (Some blockOffset, s)
      else if (0 <? partitionIndex)
              && (size_t_wrap ((partitionIndex - 1) * m_spacingInBits s)
                  <? m_fileSizeInBits s)
      then Ok (Some (m_fileSizeInBits s), s)
      else Ok (None, s).
Proof.
  intros Hplain. unfold get.
  replace (m_isBgzfFile s && _ && negb (m_finalized s)) with false; [reflexivity |].
  destruct Hplain as [-> | ->]; [reflexivity |].
  rewrite andb_false_r. reflexivity.
Qed.

(** The guess of [get] for an index behind the known offsets, when it fits
    into a [size_t]. *)
Lemma get_guess s blockIndex :
  wellFormed s ->
  m_isBgzfFile s = false \/ m_finalized s = true ->
  size s <= blockIndex ->
  guessDoesNotOverflow s blockIndex ->
  let spacing := m_spacingInBits s in
  let partition := back (m_blockOffsets s) / spacing + 1 + (blockIndex - size s) in
  back (m_blockOffsets s) < (partition - (blockIndex - size s)) * spacing
  /\ get s blockIndex
     = Ok (if partition * spacing <? m_fileSizeInBits s then Some (partition * spacing)
           else if (partition - 1) * spacing <? m_fileSizeInBits s
                then Some (m_fileSizeInBits s)
                else None, s).
Proof.
  intros (Hne & [Hsorted Hrange] & Hspacing & Hsize & _) Hplain Hguessed Hguess spacing
         partition.
  unfold guessDoesNotOverflow in Hguess. fold spacing in Hguess, Hspacing.
  set (last := back (m_blockOffsets s)) in *.
  assert (Hlast : is_size_t last).
  { subst last. rewrite List.Forall_forall in Hrange. apply Hrange. apply back_in. exact Hne. }
  unfold is_size_t, SIZE_T_DIGITS in *.
  assert (Hdiv : 0 <= last / spacing <= last).
  { split; [apply Z.div_pos; lia |]. apply Z.div_le_upper_bound; nia. }
  assert (Hbeyond : last < (last / spacing + 1) * spacing).
  { pose proof (Z.mod_pos_bound last spacing ltac:(lia)).
    pose proof (Z.div_mod last spacing ltac:(lia)). nia. }
  split; [subst partition; replace (_ - _) with (last / spacing + 1) by lia; exact Hbeyond |].
  rewrite get_without_gathering by exact Hplain.
  destruct (Z.ltb_spec blockIndex (size s)); [lia |].
  assert (Hfirst : firstPartitionIndex s = last / spacing + 1).
  { unfold firstPartitionIndex. fold last spacing. apply size_t_wrap_small.
    unfold is_size_t, SIZE_T_DIGITS.
    assert (last / spacing < 2 ^ 49); [| lia].
    apply Z.div_lt_upper_bound; lia. }
  assert (Hpartition : 0 < partition < 2 ^ 64) by (subst partition; nia).
  cbv zeta. rewrite Hfirst. fold spacing.
  rewrite (size_t_wrap_small (blockIndex - size s))
    by (unfold is_size_t, SIZE_T_DIGITS; subst partition; nia).
  fold partition.
  rewrite (size_t_wrap_small partition) by (unfold is_size_t, SIZE_T_DIGITS; lia).
  rewrite (size_t_wrap_small (partition * spacing))
    by (unfold is_size_t, SIZE_T_DIGITS; nia).
  rewrite (size_t_wrap_small ((partition - 1) * spacing))
    by (unfold is_size_t, SIZE_T_DIGITS; nia).
  destruct (partition * spacing <? m_fileSizeInBits s); [reflexivity |].
  destruct (Z.ltb_spec 0 partition); [| lia]. simpl.
  destruct (_ <? _); reflexivity.
Qed.

(** X1: [insert] keeps the confirmed offsets in strictly ascending order.
    After it has returned, the known offsets are those known before and, if
    it lies below the file size, the inserted one. *)
Theorem GzipBlockFinder_insert_keeps_order s blockOffset s' :
  wellFormed s ->
  is_size_t blockOffset ->
  insert s blockOffset = Ok s' ->
  ascending (m_blockOffsets s')
  /\ forall offset,
       In offset (m_blockOffsets s')
       <-> In offset (m_blockOffsets s)
           \/ (offset = blockOffset /\ blockOffset < m_fileSizeInBits s).
Proof.
  intros Hs Hoffset Hinsert.
  split; [eapply insertUnsafe_wellFormed; eassumption |].
  apply insertUnsafe_offsets; [apply Hs | exact Hinsert].
Qed.

Lemma GzipBlockFinder_insert_keeps_order_witness :
  ascending [80; 40000]
  /\ forall offset,
       In offset [80; 40000]
       <-> In offset [80] \/ (offset = 40000 /\ 40000 < 8388608).
Proof.
  apply (GzipBlockFinder_insert_keeps_order Examples.finder 40000
           (with_blockOffsets Examples.finder [80; 40000])).
  - apply reachable_wellFormed. exact Examples_finder_reachable.
  - unfold is_size_t, SIZE_T_DIGITS. lia.
  - reflexivity.
Defined.

(** X2: once the finder is finalized, [insert] throws [std::invalid_argument]
    for an offset below the file size that is not known yet, and does nothing
    for a known offset or an offset at or behind the end of the file. *)
Theorem GzipBlockFinder_insert_after_finalize s blockOffset :
  wellFormed s ->
  m_finalized s = true ->
  (In blockOffset (m_blockOffsets s) \/ m_fileSizeInBits s <= blockOffset ->
   insert s blockOffset = Ok s)
  /\ (~ In blockOffset (m_blockOffsets s) -> blockOffset < m_fileSizeInBits s ->
      insert s blockOffset
      = Throw (invalid_argument
                 "Already finalized, may not insert further block offsets!")).
Proof.
  intros (_ & [Hsorted _] & _) Hfinalized. unfold insert, insertUnsafe.
  pose proof (lower_bound_known (m_blockOffsets s) blockOffset Hsorted) as Hknown.
  fold (size s) in Hknown. rewrite Hfinalized.
  destruct (Z.leb_spec (m_fileSizeInBits s) blockOffset) as [Houtside | Hinside];
    [split; [reflexivity | lia] |].
  destruct (_ || _).
  - split; [| reflexivity]. intros [Hin | Hge]; [| lia].
    apply Hknown in Hin. discriminate.
  - split; [reflexivity |]. intros Hunknown. exfalso. apply Hunknown. apply Hknown.
    reflexivity.
Qed.

Lemma GzipBlockFinder_insert_after_finalize_witness :
  (In 40000 [80; 40000; 70000] \/ 8388608 <= 40000 ->
   insert (finalize Examples.finder_confirmed) 40000
   = Ok (finalize Examples.finder_confirmed))
  /\ (~ In 40000 [80; 40000; 70000] -> 40000 < 8388608 ->
      insert (finalize Examples.finder_confirmed) 40000
      = Throw (invalid_argument
                 "Already finalized, may not insert further block offsets!")).
Proof.
  apply (GzipBlockFinder_insert_after_finalize (finalize Examples.finder_confirmed) 40000).
  - apply reachable_wellFormed, reachable_finalize. exact Examples_finder_confirmed_reachable.
  - reflexivity.
Defined.

(** X3: an offset below the file size that [insert] has accepted can be looked
    up: [find] returns an index of a known offset, and, in a finder that does
    not gather BGZF blocks (the file is not BGZF, or the finder is finalized),
    [get] of that index returns the offset again. *)
Theorem GzipBlockFinder_insert_find_get s blockOffset s' :
  wellFormed s ->
  is_size_t blockOffset ->
  blockOffset < m_fileSizeInBits s ->
  insert s blockOffset = Ok s' ->
  exists blockIndex,
    find s' blockOffset = Ok blockIndex
    /\ 0 <= blockIndex < size s'
    /\ (m_isBgzfFile s' = false \/ m_finalized s' = true ->
        get s' blockIndex = Ok (Some blockOffset, s')).
Proof.
  intros Hs Hoffset Hinside Hinsert.
  pose proof (insertUnsafe_wellFormed s blockOffset s' Hs Hoffset Hinsert)
    as (_ & [Hsorted' _] & _).
  assert (Hin : In blockOffset (m_blockOffsets s')).
  { apply (insertUnsafe_offsets s blockOffset s'); [apply Hs | exact Hinsert | auto]. }
  apply lower_bound_In in Hin as [Hbelow Hat]; [| exact Hsorted'].
  pose proof (lower_bound_range (m_blockOffsets s') blockOffset) as Hrange.
  exists (lower_bound (m_blockOffsets s') blockOffset). unfold find, size.
  destruct (Z.ltb_spec (lower_bound (m_blockOffsets s') blockOffset)
                       (Z.of_nat (length (m_blockOffsets s')))); [| lia].
  rewrite Hat, Z.eqb_refl. split; [reflexivity |]. split; [lia |].
  intros Hplain. rewrite get_without_gathering by exact Hplain. unfold size.
  destruct (Z.ltb_spec (lower_bound (m_blockOffsets s') blockOffset)
                       (Z.of_nat (length (m_blockOffsets s')))); [| lia].
  rewrite Hat. reflexivity.
Qed.

Lemma GzipBlockFinder_insert_find_get_witness :
  exists blockIndex,
    find (with_blockOffsets Examples.finder [80; 40000]) 40000 = Ok blockIndex
    /\ 0 <= blockIndex < size (with_blockOffsets Examples.finder [80; 40000])
    /\ (m_isBgzfFile (with_blockOffsets Examples.finder [80; 40000]) = false
        \/ m_finalized (with_blockOffsets Examples.finder [80; 40000]) = true ->
        get (with_blockOffsets Examples.finder [80; 40000]) blockIndex
        = Ok (Some 40000, with_blockOffsets Examples.finder [80; 40000])).
Proof.
  apply (GzipBlockFinder_insert_find_get Examples.finder 40000
           (with_blockOffsets Examples.finder [80; 40000])).
  - apply reachable_wellFormed. exact Examples_finder_reachable.
  - unfold is_size_t, SIZE_T_DIGITS. lia.
  - simpl. lia.
  - reflexivity.
Defined.

(** The index that [find] computes for an offset on the spacing grid behind
    the known offsets is one for which [get] guesses that offset. *)
Lemma get_of_grid_index s offset :
  wellFormed s ->
  m_isBgzfFile s = false \/ m_finalized s = true ->
  size s < 2 ^ 63 ->
  back (m_blockOffsets s) < offset < m_fileSizeInBits s ->
  offset mod m_spacingInBits s = 0 ->
  get s (size_t_wrap (size s + size_t_wrap (offset / m_spacingInBits s
                                            - firstPartitionIndex s)))
  = Ok (Some offset, s).
Proof.
  intros Hs Hplain Hcount [Hbeyond Hinside] Hgrid.
  pose proof Hs as (Hne & [Hsorted Hrange] & Hspacing & Hsize & _).
  set (spacing := m_spacingInBits s) in *.
  set (last := back (m_blockOffsets s)) in *.
  apply Z.div_exact in Hgrid; [| lia].
  set (k := offset / spacing) in *.
  unfold is_size_t, SIZE_T_DIGITS in *.
  assert (Hlast : 0 <= last).
  { subst last. rewrite List.Forall_forall in Hrange.
    apply (Hrange (back (m_blockOffsets s))). apply back_in. exact Hne. }
  assert (Hdiv : 0 <= last / spacing) by (apply Z.div_pos; lia).
  assert (Hlow : last / spacing * spacing <= last).
  { pose proof (Z.mod_pos_bound last spacing ltac:(lia)).
    pose proof (Z.div_mod last spacing ltac:(lia)). nia. }
  assert (Hk : last / spacing + 1 <= k < 2 ^ 49) by nia.
  assert (Hfirst : firstPartitionIndex s = last / spacing + 1).
  { unfold firstPartitionIndex. fold last spacing. apply size_t_wrap_small.
    unfold is_size_t, SIZE_T_DIGITS. lia. }
  assert (Hsz : 0 <= size s) by (unfold size; lia).
  rewrite Hfirst.
  rewrite (size_t_wrap_small (k - (last / spacing + 1)))
    by (unfold is_size_t, SIZE_T_DIGITS; lia).
  rewrite size_t_wrap_small by (unfold is_size_t, SIZE_T_DIGITS; lia).
  destruct (get_guess s (size s + (k - (last / spacing + 1))) Hs Hplain) as [_ ->].
  - lia.
  - unfold guessDoesNotOverflow. fold last spacing.
    replace (last / spacing + 1 + (size s + (k - (last / spacing + 1)) - size s))
      with k by lia. nia.
  - fold last spacing.
    replace (last / spacing + 1 + (size s + (k - (last / spacing + 1)) - size s))
      with k by lia.
    replace (k * spacing) with offset by lia.
    destruct (Z.ltb_spec offset (m_fileSizeInBits s)); [| lia].
    reflexivity.
Qed.

(** X4: what [find] returns, [get] maps back: when [find] returns an index
    for an offset, [get] of that index returns the offset, for a known offset
    as for an offset on the spacing grid behind the known ones. *)
Theorem GzipBlockFinder_find_get_round_trip s encodedBlockOffsetInBits blockIndex :
  wellFormed s ->
  m_isBgzfFile s = false \/ m_finalized s = true ->
  size s < 2 ^ 63 ->
  find s encodedBlockOffsetInBits = Ok blockIndex ->
  get s blockIndex = Ok (Some encodedBlockOffsetInBits, s).
Proof.
  intros Hs Hplain Hcount. unfold find.
  destruct ((lower_bound (m_blockOffsets s) encodedBlockOffsetInBits <? size s)
            && (at_index (m_blockOffsets s)
                  (lower_bound (m_blockOffsets s) encodedBlockOffsetInBits)
                =? encodedBlockOffsetInBits)) eqn:Hknown.
  - apply andb_true_iff in Hknown as [Hbelow Hat]. apply Z.eqb_eq in Hat.
    intros [= <-]. rewrite get_without_gathering by exact Hplain.
    rewrite Hbelow, Hat. reflexivity.
  - destruct (Z.ltb_spec (back (m_blockOffsets s)) encodedBlockOffsetInBits) as [Hbeyond |];
      [| discriminate].
    destruct (Z.ltb_spec encodedBlockOffsetInBits (m_fileSizeInBits s)) as [Hinside |];
      [| discriminate].
    destruct (Z.eqb_spec (encodedBlockOffsetInBits mod m_spacingInBits s) 0) as [Hgrid |];
      [| discriminate].
    simpl. intros [= <-]. apply get_of_grid_index; auto.
Qed.

Lemma GzipBlockFinder_find_get_round_trip_witness :
  get Examples.finder_confirmed 3 = Ok (Some 98304, Examples.finder_confirmed).
Proof.
  apply (GzipBlockFinder_find_get_round_trip Examples.finder_confirmed 98304 3).
  - apply reachable_wellFormed. exact Examples_finder_confirmed_reachable.
  - left. reflexivity.
  - vm_compute. reflexivity.
  - reflexivity.
Defined.

Lemma sorted_nth_lt offsets :
  StronglySorted Z.lt offsets ->
  forall i j : nat, (i < j < length offsets)%nat -> List.nth i offsets 0 < List.nth j offsets 0.
Proof.
  induction 1 as [| y rest Hsorted IH Hsmaller]; intros i j Hij; simpl in Hij; [lia |].
  destruct j as [| j]; [lia |]. destruct i as [| i]; simpl.
  - rewrite List.Forall_forall in Hsmaller. apply Hsmaller. apply nth_In. lia.
  - apply IH. lia.
Qed.

(** X5: in a finder that does not gather BGZF blocks (the file is not BGZF,
    or the finder is finalized), the offsets that [get] returns grow strictly
    with the block index, and behind an index for which [get] returns nothing
    it returns nothing either, as long as the guesses fit into a [size_t] and
    the known offsets lie inside the file. *)
Theorem GzipBlockFinder_get_strictly_increasing s i j :
  wellFormed s ->
  m_isBgzfFile s = false \/ m_finalized s = true ->
  Forall (fun offset => offset < m_fileSizeInBits s) (m_blockOffsets s) ->
  0 <= i < j ->
  j < size s \/ guessDoesNotOverflow s j ->
  (forall offset_i offset_j s_i s_j,
      get s i = Ok (Some offset_i, s_i) -> get s j = Ok (Some offset_j, s_j) ->
      offset_i < offset_j)
  /\ (forall s_i, get s i = Ok (None, s_i) -> get s j = Ok (None, s)).
Proof.
  intros Hs Hplain Hinside Hij Hguess.
  pose proof Hs as (Hne & [Hsorted Hrange] & Hspacing & Hsize & _).
  assert (Hknown : forall k, 0 <= k < size s ->
                             get s k = Ok (Some (List.nth (Z.to_nat k) (m_blockOffsets s) 0), s)).
  { intros k Hk. rewrite get_without_gathering by exact Hplain.
    destruct (Z.ltb_spec k (size s)); [reflexivity | lia]. }
  assert (Hlast : forall k, 0 <= k < size s ->
                            List.nth (Z.to_nat k) (m_blockOffsets s) 0
                            <= back (m_blockOffsets s)
                            /\ List.nth (Z.to_nat k) (m_blockOffsets s) 0
                               < m_fileSizeInBits s).
  { intros k Hk. unfold size in Hk.
    assert (Hin : In (List.nth (Z.to_nat k) (m_blockOffsets s) 0) (m_blockOffsets s))
      by (apply nth_In; lia).
    pose proof (back_is_largest _ Hsorted) as Hlargest.
    rewrite List.Forall_forall in Hlargest, Hinside. auto. }
  destruct Hguess as [Hj | Hguess].
  { rewrite (Hknown i), (Hknown j) by lia. split; [| discriminate].
    intros offset_i offset_j s_i s_j [= <- _] [= <- _].
    apply sorted_nth_lt; [exact Hsorted |]. unfold size in Hj. lia. }
  destruct (Z.ltb_spec j (size s)) as [Hj | Hj].
  { rewrite (Hknown i), (Hknown j) by lia. split; [| discriminate].
    intros offset_i offset_j s_i s_j [= <- _] [= <- _].
    apply sorted_nth_lt; [exact Hsorted |]. unfold size in Hj. lia. }
  destruct (get_guess s j Hs Hplain Hj Hguess) as [Hbeyond_j ->].
  set (spacing := m_spacingInBits s) in *.
  set (last := back (m_blockOffsets s)) in *.
  assert (Hdiv : 0 <= last / spacing).
  { apply Z.div_pos; [| lia]. subst last. rewrite List.Forall_forall in Hrange.
    apply (Hrange (back (m_blockOffsets s))). apply back_in. exact Hne. }
  destruct (Z.ltb_spec i (size s)) as [Hi | Hi].
  - rewrite (Hknown i) by lia. split; [| discriminate].
    destruct (Hlast i ltac:(lia)) as [Hle Hlt]. fold last in Hle.
    intros offset_i offset_j s_i s_j [= <- _].
    destruct (Z.ltb_spec ((last / spacing + 1 + (j - size s)) * spacing) (m_fileSizeInBits s)).
    + intros [= <- _]. nia.
    + destruct (_ <? _); [intros [= <- _]; lia | discriminate].
  - assert (Hguess_i : guessDoesNotOverflow s i).
    { unfold guessDoesNotOverflow in *. fold spacing last in Hguess |- *.
      eapply Z.le_lt_trans; [| exact Hguess].
      apply Z.mul_le_mono_nonneg_r; lia. }
    destruct (get_guess s i Hs Hplain Hi Hguess_i) as [_ ->].
    fold spacing last.
    set (p_i := last / spacing + 1 + (i - size s)).
    set (p_j := last / spacing + 1 + (j - size s)).
    assert (Hp : p_i + 1 <= p_j) by (subst p_i p_j; lia).
    destruct (Z.ltb_spec (p_i * spacing) (m_fileSizeInBits s));
      destruct (Z.ltb_spec (p_j * spacing) (m_fileSizeInBits s));
      destruct (Z.ltb_spec ((p_i - 1) * spacing) (m_fileSizeInBits s));
      destruct (Z.ltb_spec ((p_j - 1) * spacing) (m_fileSizeInBits s));
      (split; [intros offset_i offset_j s_i s_j Hget_i Hget_j | intros s_i Hget_i]);
      try discriminate; try reflexivity;
      try (injection Hget_i as <- _; injection Hget_j as <- _); try nia.
Qed.

(** Both halves on [Examples.finder_confirmed]: the last known offset and the
    first guess, and two indexes behind the end of the file. *)
Lemma GzipBlockFinder_get_strictly_increasing_witness :
  (get Examples.finder_confirmed 2 = Ok (Some 70000, Examples.finder_confirmed)
   /\ get Examples.finder_confirmed 3 = Ok (Some 98304, Examples.finder_confirmed)
   /\ 70000 < 98304)
  /\ (get Examples.finder_confirmed 257 = Ok (None, Examples.finder_confirmed)
      /\ get Examples.finder_confirmed 258 = Ok (None, Examples.finder_confirmed)).
Proof.
  assert (Hs : wellFormed Examples.finder_confirmed)
    by (apply reachable_wellFormed; exact Examples_finder_confirmed_reachable).
  assert (Hinside : Forall (fun offset => offset < m_fileSizeInBits Examples.finder_confirmed)
                           (m_blockOffsets Examples.finder_confirmed))
    by (repeat constructor).
  split.
  - destruct (GzipBlockFinder_get_strictly_increasing Examples.finder_confirmed 2 3 Hs
                (or_introl eq_refl) Hinside ltac:(lia) (or_intror eq_refl)) as [Hgrow _].
    split; [reflexivity |]. split; [reflexivity |].
    exact (Hgrow 70000 98304 _ _ eq_refl eq_refl).
  - destruct (GzipBlockFinder_get_strictly_increasing Examples.finder_confirmed 257 258 Hs
                (or_introl eq_refl) Hinside ltac:(lia) (or_intror eq_refl)) as [_ Hnone].
    split; [reflexivity |]. exact (Hnone _ eq_refl).
Defined.


(** X7: [partitionOffsetContainingOffset] rounds an offset down to the spacing
    grid: the result is a multiple of the spacing, at most the offset and less
    than one spacing below it, and a grid offset is its own partition offset. *)
Theorem GzipBlockFinder_partitionOffset_rounds_down s blockOffset :
  0 < m_spacingInBits s ->
  is_size_t blockOffset ->
  let partitionOffset := partitionOffsetContainingOffset s blockOffset in
  partitionOffset <= blockOffset < partitionOffset + m_spacingInBits s
  /\ partitionOffset mod m_spacingInBits s = 0
  /\ partitionOffsetContainingOffset s partitionOffset = partitionOffset.
Proof.
  intros Hspacing Hoffset. unfold partitionOffsetContainingOffset.
  set (spacing := m_spacingInBits s) in *. unfold is_size_t, SIZE_T_DIGITS in Hoffset.
  pose proof (Z.mod_pos_bound blockOffset spacing Hspacing) as Hmod.
  pose proof (Z.div_mod blockOffset spacing ltac:(lia)) as Hdiv.
  assert (Hquotient : 0 <= blockOffset / spacing) by (apply Z.div_pos; lia).
  assert (Hsmall : is_size_t (blockOffset / spacing * spacing))
    by (unfold is_size_t, SIZE_T_DIGITS; nia).
  rewrite (size_t_wrap_small _ Hsmall). cbv zeta.
  split; [nia |]. split; [apply Z.mod_mul; lia |].
  rewrite Z.div_mul by lia. apply size_t_wrap_small. exact Hsmall.
Qed.

Lemma GzipBlockFinder_partitionOffset_rounds_down_witness :
  let partitionOffset := partitionOffsetContainingOffset Examples.finder 40000 in
  partitionOffset <= 40000 < partitionOffset + m_spacingInBits Examples.finder
  /\ partitionOffset mod m_spacingInBits Examples.finder = 0
  /\ partitionOffsetContainingOffset Examples.finder partitionOffset = partitionOffset.
Proof.
  apply (GzipBlockFinder_partitionOffset_rounds_down Examples.finder 40000).
  - simpl. lia.
  - unfold is_size_t, SIZE_T_DIGITS. lia.
Defined.

(** X8: the offsets of an index that [setBlockOffsets] has loaded are the
    blocks of the finder: it is finalized, [get] returns the i-th loaded
    offset for the index i, and [find] returns i for that offset. *)
Theorem GzipBlockFinder_setBlockOffsets_lookup s blockOffsets (i : nat) :
  StronglySorted Z.lt blockOffsets ->
  (i < length blockOffsets)%nat ->
  let s' := setBlockOffsets s blockOffsets in
  finalized s' = true
  /\ size s' = Z.of_nat (length blockOffsets)
  /\ get s' (Z.of_nat i) = Ok (Some (List.nth i blockOffsets 0), s')
  /\ find s' (List.nth i blockOffsets 0) = Ok (Z.of_nat i).
Proof.
  intros Hsorted Hi s'. split; [reflexivity |]. split; [reflexivity |]. split.
  - rewrite get_without_gathering by (right; reflexivity).
    unfold s', setBlockOffsets, size. simpl.
    destruct (Z.ltb_spec (Z.of_nat i) (Z.of_nat (length blockOffsets))); [| lia].
    unfold at_index. rewrite Nat2Z.id. reflexivity.
  - unfold find, s', setBlockOffsets, size. simpl.
    rewrite lower_bound_at by assumption.
    destruct (Z.ltb_spec (Z.of_nat i) (Z.of_nat (length blockOffsets))); [| lia].
    unfold at_index. rewrite Nat2Z.id, Z.eqb_refl. reflexivity.
Qed.

Lemma GzipBlockFinder_setBlockOffsets_lookup_witness :
  let s' := setBlockOffsets Examples.finder [80; 40000; 70000] in
  finalized s' = true
  /\ size s' = Z.of_nat (length [80; 40000; 70000])
  /\ get s' (Z.of_nat 1) = Ok (Some (List.nth 1 [80; 40000; 70000] 0), s')
  /\ find s' (List.nth 1 [80; 40000; 70000] 0) = Ok (Z.of_nat 1).
Proof.
  apply (GzipBlockFinder_setBlockOffsets_lookup Examples.finder [80; 40000; 70000] 1).
  - repeat constructor; lia.
  - simpl. lia.
Defined.

End GzipBlockFinderIndex.

(** ** ThreadPool: order of processing, counts, results and [stop] *)

Section ThreadPoolService.

Context {R : Type}.

Import ThreadPool.

Implicit Types (pool : ThreadPool.t R) (task : unit -> result R).
Implicit Types (tasks : list (Z * list (ThreadPool.PackagedTask R))).
Implicit Types (packagedTask : ThreadPool.PackagedTask R).

Lemma takeFirstTask_head tasks packagedTask priority tasks' :
  StronglySorted Z.lt (map fst tasks) ->
  takeFirstTask tasks = Some (packagedTask, priority, tasks') ->
  (exists queue, In (priority, packagedTask :: queue) tasks)
  /\ forall p queue, In (p, queue) tasks -> queue <> [] -> priority <= p.
Proof.
  revert tasks'. induction tasks as [| [p0 queue0] tasks IH]; intros tasks' Hsorted; simpl;
    [discriminate |].
  simpl in Hsorted. apply StronglySorted_inv in Hsorted as [Hrest Hp0].
  destruct queue0 as [| first queue0].
  - destruct (takeFirstTask tasks) as [[[task' priority'] rest'] |] eqn:Htake; [| discriminate].
    intros [= <- <- <-]. destruct (IH rest' Hrest eq_refl) as [[queue Hin] Hleast].
    split; [exists queue; right; exact Hin |].
    intros p queue' [[= <- <-] | Hin'] Hne; [contradiction | eauto].
  - intros [= <- <- <-]. split; [exists queue0; left; reflexivity |].
    intros p queue' [[= <- <-] | Hin'] Hne; [lia |].
    rewrite List.Forall_forall in Hp0.
    assert (p0 < p); [| lia]. apply Hp0. apply in_map_iff. exists (p, queue'). auto.
Qed.

(** X9: a worker takes the task at the front of the deque of the smallest
    priority value that has a task; the other tasks stay queued in their
    order. *)
Theorem ThreadPool_worker_takes_most_urgent_task pool packagedTask priority tasks' :
  priorities_ascending pool ->
  takeFirstTask (m_tasks pool) = Some (packagedTask, priority, tasks') ->
  (exists queue, In (priority, packagedTask :: queue) (m_tasks pool))
  /\ (forall p queue, In (p, queue) (m_tasks pool) -> queue <> [] -> priority <= p)
  /\ queuedTasks pool = packagedTask :: concat (map snd tasks').
Proof.
  intros Hsorted Htake.
  destruct (takeFirstTask_head _ _ _ _ Hsorted Htake) as [Hhead Hleast].
  split; [exact Hhead |]. split; [exact Hleast |].
  apply takeFirstTask_Some in Htake. exact Htake.
Qed.

Lemma tasks_find_above tasks priority :
  Forall (fun p => priority < p) (map fst tasks) -> tasks_find tasks priority = None.
Proof.
  induction tasks as [| [p queue] tasks IH]; simpl; intros Habove; [reflexivity |].
  apply Forall_cons in Habove as [Hp Habove].
  destruct (Z.eqb_spec p priority); [lia | apply IH; exact Habove].
Qed.

Lemma tasks_find_emplace_back tasks priority packagedTask p :
  StronglySorted Z.lt (map fst tasks) ->
  tasks_find (tasks_emplace_back tasks priority packagedTask) p
  = if p =? priority
    then Some (default [] (tasks_find tasks p) ++ [packagedTask])
    else tasks_find tasks p.
Proof.
  induction tasks as [| [p0 queue0] tasks IH]; intros Hsorted; simpl.
  - rewrite (Z.eqb_sym priority p). destruct (p =? priority); reflexivity.
  - simpl in Hsorted. apply StronglySorted_inv in Hsorted as [Hrest Hp0].
    destruct (Z.ltb_spec priority p0) as [Hlt | Hge]; simpl.
    + rewrite (Z.eqb_sym priority p).
      destruct (Z.eqb_spec p priority) as [Heq | Hne]; [| reflexivity].
      destruct (Z.eqb_spec p0 p); [lia |].
      rewrite tasks_find_above; [reflexivity |].
      eapply Forall_impl; [exact Hp0 |]. simpl. intros q Hq. lia.
    + destruct (Z.eqb_spec priority p0) as [Heq | Hne]; simpl.
      * destruct (Z.eqb_spec p0 p) as [Heq' | Hne'].
        -- destruct (Z.eqb_spec p priority); [reflexivity | congruence].
        -- destruct (Z.eqb_spec p priority); [congruence | reflexivity].
      * destruct (Z.eqb_spec p0 p) as [Heq' | Hne'].
        -- destruct (Z.eqb_spec p priority); [congruence | reflexivity].
        -- apply IH. exact Hrest.
Qed.

Lemma fold_left_count tasks :
  forall sum,
    fold_left (fun sum queue => sum + Z.of_nat (length (snd queue))) tasks sum
    = sum + Z.of_nat (length (concat (map snd tasks))).
Proof.
  induction tasks as [| [p queue] tasks IH]; intros sum; simpl; [lia |].
  rewrite IH, length_app. simpl. lia.
Qed.

(** X10: [submit] returns a valid future and adds exactly one unprocessed
    task: the count of the priority it was submitted at and the total count
    grow by one, the counts of the other priorities stay. *)
Theorem ThreadPool_submit_counts pool task priority p :
  priorities_ascending pool ->
  let submitted := submit pool task priority in
  fst submitted = Some (m_nextFuture pool)
  /\ unprocessedTasksCount (snd submitted) (Some p)
     = unprocessedTasksCount pool (Some p) + (if p =? priority then 1 else 0)
  /\ unprocessedTasksCount (snd submitted) None = unprocessedTasksCount pool None + 1.
Proof.
  intros Hsorted submitted. split; [reflexivity |]. split.
  - unfold unprocessedTasksCount, submitted, submit. simpl.
    rewrite tasks_find_emplace_back by exact Hsorted.
    destruct (p =? priority); [| destruct (tasks_find (m_tasks pool) p); lia].
    destruct (tasks_find (m_tasks pool) p); simpl; rewrite ?length_app; simpl; lia.
  - unfold unprocessedTasksCount, submitted, submit. simpl. rewrite !fold_left_count.
    rewrite (Permutation_length (tasks_emplace_back_Permutation _ _ _)). simpl. lia.
Qed.

(** X11: the future that [submit] returns gets the result, or the exception,
    of the submitted task and of no other: whatever the workers do first, it
    holds nothing else, and once they have processed all tasks it holds the
    outcome of the task. *)
Theorem ThreadPool_future_gets_result_of_task pool task priority actions :
  working pool ->
  wellNumbered pool ->
  let future := fst (submit pool task priority) in
  let pool' := workerActions (snd (submit pool task priority)) actions in
  (forall r, future_get pool' future = Some r -> r = task tt)
  /\ future_ready (runToCompletion pool') future = true
  /\ future_get (runToCompletion pool') future = Some (task tt).
Proof.
  intros Hworking Hnumbered future pool'.
  assert (Htracks : tracks pool' (m_nextFuture pool) task).
  { apply workerActions_tracks. apply submit_tracks_new. exact Hnumbered. }
  assert (Hworking' : working pool').
  { apply workerActions_working. apply submit_working. exact Hworking. }
  destruct (runToCompletion_completes pool' (m_nextFuture pool) task Hworking' Htracks)
    as [_ Hresult].
  split; [| split].
  - intros r Hr. eapply tracks_future_get; eassumption.
  - unfold future_ready. simpl. rewrite Hresult. apply bool_decide_eq_true. eauto.
  - simpl. exact Hresult.
Qed.

Lemma finishTasks_states l :
  forall pool future,
    (is_Some (m_sharedStates pool !! future)
     \/ exists packagedTask, In packagedTask l /\ task_future packagedTask = future) ->
    is_Some (m_sharedStates (finishTasks pool l) !! future).
Proof.
  induction l as [| finished l IH]; intros pool future Hfuture; simpl.
  - destruct Hfuture as [Hready | (packagedTask & [] & _)]. exact Hready.
  - apply IH. simpl.
    destruct (Nat.eq_dec (task_future finished) future) as [<- | Hne].
    + left. rewrite lookup_insert_eq. eauto.
    + rewrite lookup_insert_ne by exact Hne.
      destruct Hfuture as [Hready | (packagedTask & [-> | Hin] & Heq)]; eauto. congruence.
Qed.

(** X12: [stop] lets the running tasks finish, so that their futures are
    ready, and leaves the queued tasks in the queues; no worker takes a task
    from a stopped pool, whose state no longer changes. *)
Theorem ThreadPool_stop_keeps_queued_tasks pool actions :
  m_tasks (stop pool) = m_tasks pool
  /\ (forall packagedTask,
        In packagedTask (m_runningTasks pool) ->
        future_ready (stop pool) (Some (task_future packagedTask)) = true)
  /\ workerActions (stop pool) actions = stop pool
  /\ runToCompletion (stop pool) = stop pool.
Proof.
  split; [apply finishTasks_tasks |]. split; [| split].
  - intros packagedTask Hrunning. unfold future_ready, stop. simpl.
    apply bool_decide_eq_true. apply finishTasks_states. right. eauto.
  - induction actions as [| [| future] actions IH]; simpl; [reflexivity | exact IH | exact IH].
  - unfold runToCompletion. simpl.
    generalize (queuedTasksCount (stop pool)). intros fuel.
    induction fuel as [| fuel IH]; simpl; [reflexivity | exact IH].
Qed.

End ThreadPoolService.

Section ThreadPoolServiceExamples.

Import ThreadPool.

Lemma ThreadPool_worker_takes_most_urgent_task_witness :
  let pool := snd (submit (snd (submit (ctor (R := Z) 2) (fun _ => Ok 7) 0)) (fun _ => Ok 8) (-1)) in
  exists packagedTask tasks',
    takeFirstTask (m_tasks pool) = Some (packagedTask, -1, tasks')
    /\ task_future packagedTask = 1%nat
    /\ (forall p queue, In (p, queue) (m_tasks pool) -> queue <> [] -> -1 <= p)
    /\ queuedTasks pool = packagedTask :: concat (map snd tasks').
Proof.
  intros pool.
  destruct (takeFirstTask (m_tasks pool)) as [[[packagedTask priority] tasks'] |] eqn:Htake;
    [| discriminate Htake].
  assert (Hsorted : priorities_ascending pool).
  { unfold priorities_ascending. simpl. repeat constructor. }
  pose proof (ThreadPool_worker_takes_most_urgent_task pool packagedTask priority tasks'
                Hsorted Htake) as [_ [Hleast Hqueued]].
  injection Htake as <- <- <-.
  eexists. eexists. split; [reflexivity |]. split; [reflexivity |].
  split; [exact Hleast | exact Hqueued].
Defined.

Lemma ThreadPool_submit_counts_witness :
  let submitted := submit (ctor (R := Z) 2) (fun _ => Ok 7) 0 in
  fst submitted = Some (m_nextFuture (ctor (R := Z) 2))
  /\ unprocessedTasksCount (snd submitted) (Some 0)
     = unprocessedTasksCount (ctor (R := Z) 2) (Some 0) + (if 0 =? 0 then 1 else 0)
  /\ unprocessedTasksCount (snd submitted) None
     = unprocessedTasksCount (ctor (R := Z) 2) None + 1.
Proof.
  apply (ThreadPool_submit_counts (ctor (R := Z) 2) (fun _ => Ok 7) 0 0).
  unfold priorities_ascending. simpl. constructor.
Defined.

Lemma ThreadPool_future_gets_result_of_task_witness :
  let future := fst (submit (ctor (R := Z) 2) (fun _ => Ok 7) 0) in
  let pool' := workerActions (snd (submit (ctor (R := Z) 2) (fun _ => Ok 7) 0)) [TakeTask] in
  (forall r, future_get pool' future = Some r -> r = Ok 7)
  /\ future_ready (runToCompletion pool') future = true
  /\ future_get (runToCompletion pool') future = Some (Ok 7).
Proof.
  apply (ThreadPool_future_gets_result_of_task (ctor (R := Z) 2) (fun _ => Ok 7) 0 [TakeTask]).
  - split; [reflexivity | simpl; lia].
  - split; simpl.
    + intros packagedTask [].
    + intros future r Hlookup. rewrite lookup_empty in Hlookup. discriminate.
Defined.

End ThreadPoolServiceExamples.

(** ** BlockFetcher: hits, misses and prefetches *)

Section BlockFetcherService.

Context {BlockFinder FetchingStrategy BlockData : Type}.
Context `{BlockFetcher.BlockFinderOps BlockFinder}
        `{BlockFetcher.FetchingStrategyOps FetchingStrategy}.
Variable decodeBlock : Z -> Z -> result BlockData.
Variable STATISTICS : bool.

Import BlockFetcher.

Local Abbreviation fetcher := (BlockFetcher.t BlockFinder FetchingStrategy BlockData).
Local Abbreviation steps := (BlockFetcher.steps decodeBlock STATISTICS).

Implicit Types (s : fetcher).

#[local] Arguments ThreadPool.future_ready : simpl never.
#[local] Arguments BlockFetcher.waitForResult : simpl never.
#[local] Arguments BlockFetcher.prefetchNewBlocks : simpl never.

Lemma Cache_insert_lookup (cache : Cache.t BlockData) key value :
  0 < Cache.capacity cache ->
  Cache.lookup_entry (Cache.entries (Cache.insert cache key value)) key = Some value.
Proof.
  intros Hcapacity. unfold Cache.insert.
  destruct (Z.eqb_spec (Cache.capacity cache) 0); [lia |].
  destruct (Cache.lookup_entry (Cache.entries cache) key); simpl; rewrite Z.eqb_refl;
    reflexivity.
Qed.

Lemma insertIntoCache_lookup s blockOffset blockData :
  0 < Cache.capacity (m_cache s) ->
  Cache.lookup_entry (Cache.entries (m_cache (insertIntoCache s blockOffset blockData)))
                     blockOffset = Some blockData.
Proof.
  intros Hcapacity. unfold insertIntoCache.
  destruct (strategy_isSequential (m_fetchingStrategy s)); simpl;
    apply Cache_insert_lookup; exact Hcapacity.
Qed.

(** A miss: [get] ends with the outcome of the decode task that it submits. *)
Lemma get_miss_outcome s blockOffset dataBlockIndex validDataBlockIndex
    getPartitionOffsetFromOffset :
  ThreadPool.working (m_threadPool s) ->
  accounted None s ->
  isInCacheOrQueue s blockOffset = false ->
  match dataBlockIndex with
  | Some index => Ok index
  | None => finder_find (m_blockFinder s) blockOffset
  end = Ok validDataBlockIndex ->
  exists s',
    Cache.capacity (m_cache s') = Cache.capacity (m_cache s)
    /\ get decodeBlock STATISTICS s blockOffset dataBlockIndex false
           getPartitionOffsetFromOffset
       = match decodeBlock blockOffset
                 (match fst (finder_get (m_blockFinder s)
                               (size_t_wrap (validDataBlockIndex + 1)) TimeoutInfinity) with
                  | Some offset => offset
                  | None => SIZE_T_MAX
                  end) with
         | Ok blockData => Returns (Some blockData) (insertIntoCache s' blockOffset blockData)
         | Throw e => Throws e s'
         end.
Proof.
  intros Hworking Haccounted Hmiss Hindex. unfold get.
  assert (Hnumbered : ThreadPool.wellNumbered (m_threadPool s)) by apply Haccounted.
  rewrite (getFromCaches_miss_unchanged STATISTICS s blockOffset Hmiss), Hindex.
  destruct (finder_get (m_blockFinder s) _ _) as [nextBlockOffset finder].
  destruct (recordAccess_with_statistics STATISTICS (with_blockFinder s finder)
              validDataBlockIndex) as [statistics ->].
  cbn [andb bool_decide decide_rel fst]. simpl bool_decide. cbv beta iota zeta.
  set (s1 := with_statistics (with_blockFinder s finder) statistics).
  assert (Haccounted1 : accounted None s1) by exact Haccounted.
  pose proof (submitOnDemandTask_future decodeBlock STATISTICS s1 blockOffset nextBlockOffset)
    as Hfuture.
  pose proof (submitOnDemandTask_frame decodeBlock STATISTICS s1 blockOffset nextBlockOffset)
    as (Hcache2 & _ & _ & _ & Hpool & _).
  pose proof (submitOnDemandTask_accounted decodeBlock STATISTICS s1 blockOffset
                nextBlockOffset Haccounted1) as Haccounted2.
  destruct (submitOnDemandTask decodeBlock STATISTICS s1 blockOffset nextBlockOffset)
    as [queuedResult s2].
  simpl in Hfuture, Hpool, Haccounted2, Hcache2. subst queuedResult.
  cbv beta iota zeta delta [andb orb].
  set (future := ThreadPool.m_nextFuture (m_threadPool s)) in *.
  set (task := fun _ : unit =>
                 decodeAndMeasureBlock decodeBlock blockOffset
                   (match nextBlockOffset with
                    | Some offset => offset
                    | None => SIZE_T_MAX
                    end)) in *.
  assert (Hlive2 : live future task s2).
  { unfold live. rewrite Hpool. split; [exact Hworking |].
    apply submit_tracks_new. exact Hnumbered. }
  match goal with
  | |- context [prefetchNewBlocks _ _ _ ?ready ?strategyUpdated] =>
      set (resultIsReady := ready); set (s3 := strategyUpdated)
  end.
  assert (Hlive3 : live future task s3) by exact Hlive2.
  assert (Haccounted3 : accounted (Some future) s3) by exact Haccounted2.
  assert (Hcache3 : m_cache s3 = m_cache s) by exact Hcache2.
  clearbody s3.
  assert (Hready : forall s', ThreadPool.future_ready (m_threadPool s') (Some future) = true ->
                              resultIsReady s' = true).
  { intros s' Hs'. subst resultIsReady. simpl. exact Hs'. }
  destruct (prefetchNewBlocks_accounted decodeBlock STATISTICS (Some future)
              getPartitionOffsetFromOffset resultIsReady s3 Haccounted3)
    as [Hends4 Haccounted4].
  destruct (prefetchNewBlocks_ends decodeBlock STATISTICS future task resultIsReady Hready
              getPartitionOffsetFromOffset s3 Hlive3) as (s4 & Hsteps4 & [Hreturns | Hthrows]);
    [| rewrite Hthrows in Hends4; contradiction].
  rewrite Hreturns in Haccounted4 |- *. simpl in Haccounted4. cbv beta iota zeta.
  assert (Hlive4 : live future task s4) by (eapply steps_live; eassumption).
  destruct (waitForResult_accounted decodeBlock STATISTICS (Some future)
              getPartitionOffsetFromOffset resultIsReady (Some future)
              (2 + length (workers s4)) s4 Haccounted4) as [Hends5 _].
  destruct (waitForResult_ends decodeBlock STATISTICS future task resultIsReady Hready
              (2 + length (workers s4)) getPartitionOffsetFromOffset s4 Hlive4)
    as (s5 & Hsteps5 & [[Hreturns5 Hdone] | Hthrows5]);
    [lia | | rewrite Hthrows5 in Hends5; contradiction].
  rewrite Hreturns5. cbv beta iota zeta.
  assert (Hlive5 : live future task s5) by (eapply steps_live; eassumption).
  destruct Hlive5 as [_ Htracks].
  unfold ThreadPool.future_ready in Hdone. apply bool_decide_eq_true in Hdone as [r Hr].
  simpl. rewrite Hr.
  rewrite (tracks_future_get _ _ _ _ Htracks Hr).
  exists s5. split.
  - apply steps_capacity in Hsteps4 as [Hcapacity4 _].
    apply steps_capacity in Hsteps5 as [Hcapacity5 _].
    rewrite Hcapacity5, Hcapacity4, Hcache3. reflexivity.
  - subst task. unfold decodeAndMeasureBlock.
    destruct (decodeBlock blockOffset _); reflexivity.
Qed.

(** X13: on a miss that the block finder can place, [get] returns what
    [decodeBlock] makes of the requested offset and the offset of the block
    behind it, whatever the worker threads do in the meantime, and the block
    is in the on-demand cache afterwards.  This holds with running workers,
    with an on-demand cache that has room for a block (as every fetcher's
    has), and with the tasks of the pool accounted for ([accounted]: the pool
    is orderly and has [m_parallelization] threads, every queued task is the
    task of a future in [m_prefetching], and less than [m_parallelization]
    prefetches are in flight), as after the constructor and after every
    sequence of operations that end in order; otherwise [prefetchNewBlocks]
    may throw its [std::logic_error] instead. *)
Theorem BlockFetcher_get_miss_returns_decoded_block s blockOffset dataBlockIndex
    validDataBlockIndex getPartitionOffsetFromOffset blockData :
  ThreadPool.working (m_threadPool s) ->
  accounted None s ->
  0 < Cache.capacity (m_cache s) ->
  isInCacheOrQueue s blockOffset = false ->
  match dataBlockIndex with
  | Some index => Ok index
  | None => finder_find (m_blockFinder s) blockOffset
  end = Ok validDataBlockIndex ->
  decodeBlock blockOffset
    (match fst (finder_get (m_blockFinder s) (size_t_wrap (validDataBlockIndex + 1))
                           TimeoutInfinity) with
     | Some offset => offset
     | None => SIZE_T_MAX
     end) = Ok blockData ->
  exists s',
    get decodeBlock STATISTICS s blockOffset dataBlockIndex false
        getPartitionOffsetFromOffset = Returns (Some blockData) s'
    /\ Cache.lookup_entry (Cache.entries (m_cache s')) blockOffset = Some blockData.
Proof.
  intros Hworking Haccounted Hcapacity Hmiss Hindex Hdecode.
  destruct (get_miss_outcome s blockOffset dataBlockIndex validDataBlockIndex
              getPartitionOffsetFromOffset Hworking Haccounted Hmiss Hindex)
    as (s' & Hsame & ->).
  rewrite Hdecode. eexists. split; [reflexivity |].
  apply insertIntoCache_lookup. rewrite Hsame. exact Hcapacity.
Qed.


(** *** Hits *)

Lemma lookup_remove_entry (l : list (Z * BlockData)) key :
  Cache.lookup_entry (Cache.remove_entry l key) key = None.
Proof.
  induction l as [| [k v] l IH]; simpl; [reflexivity |].
  destruct (Z.eqb_spec k key) as [-> | Hne]; simpl; [exact IH |].
  destruct (Z.eqb_spec k key); [contradiction | exact IH].
Qed.

Lemma Cache_get_hit (cache : Cache.t BlockData) key value :
  Cache.lookup_entry (Cache.entries cache) key = Some value ->
  Cache.get cache key = (Some value, Cache.touch cache key)
  /\ Cache.lookup_entry (Cache.entries (Cache.touch cache key)) key = Some value.
Proof.
  intros Hlookup. unfold Cache.get, Cache.touch. rewrite Hlookup. simpl.
  rewrite Z.eqb_refl. split; reflexivity.
Qed.

(** X15: a block that is in the prefetch cache only is handed out by
    [getFromCaches] and moves: afterwards it is in the on-demand cache and no
    longer in the prefetch cache. *)
Theorem BlockFetcher_getFromCaches_promotes_prefetched_block s blockOffset blockData :
  0 < Cache.capacity (m_cache s) ->
  m_prefetching s !! blockOffset = None ->
  Cache.lookup_entry (Cache.entries (m_cache s)) blockOffset = None ->
  Cache.lookup_entry (Cache.entries (m_prefetchCache s)) blockOffset = Some blockData ->
  let result := getFromCaches STATISTICS s blockOffset in
  fst result = (Some blockData, None)
  /\ Cache.lookup_entry (Cache.entries (m_cache (snd result))) blockOffset = Some blockData
  /\ Cache.test (m_prefetchCache (snd result)) blockOffset = false
  /\ m_prefetching (snd result) = m_prefetching s
  /\ m_threadPool (snd result) = m_threadPool s.
Proof.
  intros Hcapacity Hqueue Hcache Hprefetch result.
  assert (Hresult :
            result
            = (Some blockData, None,
               insertIntoCache
                 (with_prefetchCache s
                    (Cache.evict (Cache.touch (m_prefetchCache s) blockOffset) blockOffset))
                 blockOffset blockData)).
  { subst result. unfold getFromCaches, takeFromPrefetchQueue. rewrite Hqueue.
    assert (Hget : Cache.get (m_cache s) blockOffset = (None, m_cache s))
      by (unfold Cache.get; rewrite Hcache; reflexivity).
    rewrite Hget. simpl.
    destruct (Cache_get_hit (m_prefetchCache s) blockOffset blockData Hprefetch) as [-> _].
    destruct s; reflexivity. }
  rewrite Hresult. clear Hresult result. cbn [fst snd].
  split; [reflexivity |]. split; [| split; [| split]].
  - apply insertIntoCache_lookup. exact Hcapacity.
  - unfold insertIntoCache. destruct (strategy_isSequential _); simpl;
      unfold Cache.test, Cache.evict; simpl; rewrite lookup_remove_entry;
      apply bool_decide_eq_false; intros [? [=]].
  - unfold insertIntoCache. destruct (strategy_isSequential _); reflexivity.
  - unfold insertIntoCache. destruct (strategy_isSequential _); reflexivity.
Qed.

(** With a stop condition that always holds, the prefetching does not wait. *)
Lemma waitOnBlockFinder_stopped stopPrefetching fuel s blockIndexToPrefetch :
  (forall s', stopPrefetching s' = true) ->
  exists offsets s',
    waitOnBlockFinder (S fuel) stopPrefetching s blockIndexToPrefetch = Returns offsets s'.
Proof.
  intros Hstop. simpl. rewrite !Hstop.
  destruct (finder_get (m_blockFinder s) blockIndexToPrefetch _)
    as [prefetchBlockOffset finder1].
  destruct (finder_get finder1 _ _) as [nextPrefetchBlockOffset finder2].
  match goal with
  | |- context [if ?c then Some SIZE_T_MAX else nextPrefetchBlockOffset] =>
      set (next := if c then Some SIZE_T_MAX else nextPrefetchBlockOffset)
  end.
  destruct prefetchBlockOffset, next; rewrite ?Hstop; eexists _, _; reflexivity.
Qed.

#[local] Arguments BlockFetcher.waitOnBlockFinder : simpl never.

Lemma prefetchBlocks_stopped stopPrefetching blockIndexesToPrefetch blockOffsetsToPrefetch
    getPartitionOffsetFromOffset :
  (forall s', stopPrefetching s' = true) ->
  forall s,
  exists s',
    prefetchBlocks decodeBlock STATISTICS blockIndexesToPrefetch blockOffsetsToPrefetch
                   getPartitionOffsetFromOffset stopPrefetching s = Returns tt s'.
Proof.
  intros Hstop.
  induction blockIndexesToPrefetch as [| blockIndexToPrefetch rest IH]; intros s; simpl;
    [eexists; reflexivity |].
  destruct (threadPoolSaturated s); [eexists; reflexivity |].
  destruct (_ && _); [apply IH |].
  destruct (waitOnBlockFinder_stopped stopPrefetching (S (length (workers s))) s
              blockIndexToPrefetch Hstop)
    as ([prefetchBlockOffset nextPrefetchBlockOffset] & s1 & ->).
  cbv beta iota zeta.
  destruct prefetchBlockOffset as [prefetchOffset |], nextPrefetchBlockOffset as [nextOffset |];
    try apply IH.
  destruct (_ || _); [apply IH |].
  destruct (Cache.nextNthEviction _ _) as [offsetToBeEvicted |]; [| apply IH].
  destruct (existsb _ _); [eexists; reflexivity | apply IH].
Qed.

Lemma prefetchNewBlocks_stopped resultFuture stopPrefetching getPartitionOffsetFromOffset s :
  (forall s', stopPrefetching s' = true) ->
  accounted resultFuture s ->
  exists s',
    prefetchNewBlocks decodeBlock STATISTICS getPartitionOffsetFromOffset stopPrefetching s
    = Returns tt s'
    /\ accounted resultFuture s'.
Proof.
  intros Hstop Haccounted.
  destruct (prefetchNewBlocks_accounted decodeBlock STATISTICS resultFuture
              getPartitionOffsetFromOffset stopPrefetching s Haccounted) as [Hends Hstate].
  assert (Hform : exists s',
             prefetchNewBlocks decodeBlock STATISTICS getPartitionOffsetFromOffset
                               stopPrefetching s = Returns tt s'
             \/ prefetchNewBlocks decodeBlock STATISTICS getPartitionOffsetFromOffset
                                  stopPrefetching s = Throws (logic_error TOO_MANY_TASKS) s').
  { unfold prefetchNewBlocks.
    destruct (threadPoolSaturated _); [eexists; left; reflexivity |].
    destruct (collectBlockOffsetsToPrefetch _ _ _) as [found finder].
    match goal with
    | |- context [prefetchBlocks _ _ ?indexes ?offsets _ _ ?s2] =>
        destruct (prefetchBlocks_stopped stopPrefetching indexes offsets
                    getPartitionOffsetFromOffset Hstop s2) as [s3 ->]
    end.
    destruct (_ <? _); eexists; [right | left]; reflexivity. }
  destruct Hform as [s' [Hreturns | Hthrows]].
  - rewrite Hreturns in Hstate. exists s'. split; [exact Hreturns | exact Hstate].
  - rewrite Hthrows in Hends. contradiction.
Qed.

(** X16: [get] of a block that is in the on-demand cache, and that the block
    finder can place, returns the cached block, with or without
    [onlyCheckCaches]; it does not wait for any worker thread.  This holds with
    the tasks of the pool accounted for ([accounted], as after the constructor
    and after every sequence of operations that end in order) and with no
    prefetch of the block in flight; otherwise [prefetchNewBlocks] may throw
    its [std::logic_error] instead. *)
Theorem BlockFetcher_get_cache_hit s blockOffset dataBlockIndex validDataBlockIndex
    onlyCheckCaches getPartitionOffsetFromOffset blockData :
  accounted None s ->
  m_prefetching s !! blockOffset = None ->
  Cache.lookup_entry (Cache.entries (m_cache s)) blockOffset = Some blockData ->
  match dataBlockIndex with
  | Some index => Ok index
  | None => finder_find (m_blockFinder s) blockOffset
  end = Ok validDataBlockIndex ->
  exists s',
    get decodeBlock STATISTICS s blockOffset dataBlockIndex onlyCheckCaches
        getPartitionOffsetFromOffset = Returns (Some blockData) s'.
Proof.
  intros Haccounted Hqueue Hcache Hindex. unfold get.
  assert (Hresult :
            getFromCaches STATISTICS s blockOffset
            = (Some blockData, None, with_cache s (Cache.touch (m_cache s) blockOffset))).
  { unfold getFromCaches, takeFromPrefetchQueue. rewrite Hqueue.
    destruct (Cache_get_hit (m_cache s) blockOffset blockData Hcache) as [-> _].
    reflexivity. }
  rewrite Hresult. cbn [m_blockFinder with_cache]. rewrite Hindex.
  destruct (finder_get (m_blockFinder s) _ _) as [nextBlockOffset finder].
  destruct (recordAccess_with_statistics STATISTICS
              (with_blockFinder (with_cache s (Cache.touch (m_cache s) blockOffset)) finder)
              validDataBlockIndex) as [statistics ->].
  rewrite bool_decide_eq_false_2 by discriminate. cbn [andb]. cbv beta iota zeta.
  match goal with
  | |- context [prefetchNewBlocks _ _ ?partition ?ready ?updated] =>
      destruct (prefetchNewBlocks_stopped None ready partition updated) as (s' & -> & _)
  end.
  - intros s'. rewrite bool_decide_eq_true_2 by eauto. reflexivity.
  - exact Haccounted.
  - exists s'. reflexivity.
Qed.

(** *** Prefetches *)

Lemma processReadyPrefetch_lookup s prefetchedBlockOffset blockOffset :
  m_threadPool (processReadyPrefetch s prefetchedBlockOffset) = m_threadPool s
  /\ m_cache (processReadyPrefetch s prefetchedBlockOffset) = m_cache s
  /\ m_prefetching (processReadyPrefetch s prefetchedBlockOffset) !! blockOffset
     = if bool_decide (blockOffset = prefetchedBlockOffset)
       then match m_prefetching s !! blockOffset with
            | Some future =>
                if ThreadPool.future_ready (m_threadPool s) future then None else Some future
            | None => None
            end
       else m_prefetching s !! blockOffset.
Proof.
  unfold processReadyPrefetch.
  destruct (decide (blockOffset = prefetchedBlockOffset)) as [-> | Hne].
  - rewrite bool_decide_eq_true_2 by reflexivity.
    destruct (m_prefetching s !! prefetchedBlockOffset) as [future |] eqn:Hlookup;
      [| rewrite Hlookup; auto].
    destruct (ThreadPool.future_ready (m_threadPool s) future); [| rewrite Hlookup; auto].
    destruct (ThreadPool.future_get (m_threadPool s) future) as [[result | e] |]; simpl;
      rewrite lookup_delete_eq; auto.
  - rewrite bool_decide_eq_false_2 by exact Hne.
    destruct (m_prefetching s !! prefetchedBlockOffset) as [future |]; [| auto].
    destruct (ThreadPool.future_ready (m_threadPool s) future); [| auto].
    destruct (ThreadPool.future_get (m_threadPool s) future) as [[result | e] |]; simpl;
      rewrite lookup_delete_ne by congruence; auto.
Qed.

Lemma processReadyPrefetches_fold offsets :
  forall s blockOffset,
    let s' := fold_left processReadyPrefetch offsets s in
    m_threadPool s' = m_threadPool s
    /\ m_cache s' = m_cache s
    /\ (In blockOffset offsets ->
        m_prefetching s' !! blockOffset
        = match m_prefetching s !! blockOffset with
          | Some future =>
              if ThreadPool.future_ready (m_threadPool s) future then None else Some future
          | None => None
          end)
    /\ (~ In blockOffset offsets ->
        m_prefetching s' !! blockOffset = m_prefetching s !! blockOffset).
Proof.
  induction offsets as [| offset offsets IH]; intros s blockOffset; simpl.
  - split; [reflexivity |]. split; [reflexivity |]. split; [contradiction | reflexivity].
  - destruct (IH (processReadyPrefetch s offset) blockOffset)
      as (Hpool & Hcache & Hin & Hout).
    destruct (processReadyPrefetch_lookup s offset blockOffset)
      as (Hpool1 & Hcache1 & Hlookup1).
    rewrite Hpool1 in Hpool, Hin. rewrite Hcache1 in Hcache. rewrite Hlookup1 in Hin, Hout.
    split; [exact Hpool |]. split; [exact Hcache |].
    destruct (decide (blockOffset = offset)) as [-> | Hne].
    + rewrite bool_decide_eq_true_2 in Hin, Hout by reflexivity.
      assert (Hresult :
                m_prefetching (fold_left processReadyPrefetch offsets
                                         (processReadyPrefetch s offset)) !! offset
                = match m_prefetching s !! offset with
                  | Some future =>
                      if ThreadPool.future_ready (m_threadPool s) future
                      then None else Some future
                  | None => None
                  end).
      { destruct (in_dec Z.eq_dec offset offsets) as [Hrest | Hrest].
        - rewrite (Hin Hrest). destruct (m_prefetching s !! offset) as [future |]; [| reflexivity].
          destruct (ThreadPool.future_ready (m_threadPool s) future) eqn:Hready;
            [reflexivity | rewrite Hready; reflexivity].
        - exact (Hout Hrest). }
      split; [intros _; exact Hresult | intros Hnot; exfalso; apply Hnot; left; reflexivity].
    + rewrite bool_decide_eq_false_2 in Hin, Hout by exact Hne.
      split; [intros [Heq | Hrest]; [congruence | exact (Hin Hrest)] |].
      intros Hnot. apply Hout. intros Hrest. apply Hnot. right. exact Hrest.
Qed.

(** X17: [processReadyPrefetches] harvests exactly the futures that are
    ready: afterwards [m_prefetching] holds the futures that are not ready,
    under their offsets, and nothing else; the thread pool and the on-demand
    cache are as before. *)
Theorem BlockFetcher_processReadyPrefetches_keeps_unready s blockOffset :
  m_prefetching (processReadyPrefetches s) !! blockOffset
  = match m_prefetching s !! blockOffset with
    | Some future =>
        if ThreadPool.future_ready (m_threadPool s) future then None else Some future
    | None => None
    end
  /\ m_threadPool (processReadyPrefetches s) = m_threadPool s
  /\ m_cache (processReadyPrefetches s) = m_cache s.
Proof.
  unfold processReadyPrefetches.
  destruct (processReadyPrefetches_fold (prefetchingOffsets s) s blockOffset)
    as (Hpool & Hcache & Hin & Hout).
  split; [| split; assumption].
  destruct (m_prefetching s !! blockOffset) as [future |] eqn:Hlookup.
  - apply Hin.
    unfold prefetchingOffsets. apply list_elem_of_In.
    rewrite merge_sort_Permutation. apply list_elem_of_In, in_map_iff.
    exists (blockOffset, future). split; [reflexivity |].
    apply list_elem_of_In, elem_of_map_to_list. exact Hlookup.
  - destruct (in_dec Z.eq_dec blockOffset (prefetchingOffsets s)) as [Hkey | Hkey]; auto.
Qed.

(** X18: [prefetchNewBlocks] does not throw its [std::logic_error] when the
    tasks of the pool are accounted for at its call ([accounted]: the pool is
    orderly and has [m_parallelization] threads, every queued task is the task
    of a future in [m_prefetching] or of the requested block, and with the
    requested block at most [m_parallelization] blocks are being fetched):
    afterwards at most [m_parallelization] - 1 prefetches are in flight and,
    with the requested block, at most [m_parallelization] tasks of priority 0
    wait in the thread pool. *)
Theorem BlockFetcher_prefetchNewBlocks_keeps_pool_bounded resultFuture
    getPartitionOffsetFromOffset stopPrefetching s :
  accounted resultFuture s ->
  let outcome :=
    prefetchNewBlocks decodeBlock STATISTICS getPartitionOffsetFromOffset stopPrefetching s in
  (forall e s', outcome <> Throws e s')
  /\ Z.of_nat (size (m_prefetching (stateOf outcome))) <= m_parallelization s - 1
  /\ ThreadPool.unprocessedTasksCount (m_threadPool (stateOf outcome)) (Some 0)
     <= m_parallelization s
  /\ m_parallelization (stateOf outcome) = m_parallelization s.
Proof.
  intros Haccounted outcome.
  destruct (prefetchNewBlocks_accounted decodeBlock STATISTICS resultFuture
              getPartitionOffsetFromOffset stopPrefetching s Haccounted) as [Hends Hstate].
  fold outcome in Hends, Hstate.
  assert (Hsame : m_parallelization (stateOf outcome) = m_parallelization s).
  { pose proof (prefetchNewBlocks_steps decodeBlock STATISTICS getPartitionOffsetFromOffset
                  stopPrefetching s) as Hsteps.
    fold outcome in Hsteps. clearbody outcome.
    assert (Hinvariant : forall s1 s2 : fetcher,
               steps s1 s2 -> m_parallelization s2 = m_parallelization s1).
    { induction 1 as [s1 | s1 s2 s3 Hstep _ IH]; [reflexivity |]. rewrite IH.
      destruct Hstep; try reflexivity.
      - unfold workersProgress. destruct (workers s0); reflexivity.
      - unfold submitOnDemandTask. destruct STATISTICS; reflexivity.
      - unfold submitPrefetchTask. simpl. destruct (m_prefetching s0 !! _); reflexivity. }
    destruct outcome; simpl in Hsteps |- *; apply Hinvariant; exact Hsteps. }
  pose proof (accounted_queuedTasks _ _ Hstate) as Hqueued.
  pose proof (unprocessedTasksCount_queued (m_threadPool (stateOf outcome)) 0) as Hunprocessed.
  destruct Hstate as (_ & _ & _ & Hcount & _). rewrite Hsame in Hcount.
  split; [| split; [lia | split; [lia | exact Hsame]]].
  intros e s' Heq. rewrite Heq in Hends. exact Hends.
Qed.

End BlockFetcherService.

Section BlockFetcherServiceExamples.

Import BlockFetcher.

(** [Examples.fetcher] with the block of bit 80 in its on-demand cache. *)
Local Abbreviation fetcher_cached :=
  (with_cache Examples.fetcher (Cache.insert (m_cache Examples.fetcher) 80 [120])).

(** [Examples.fetcher] with the block of bit 80 in its prefetch cache. *)
Local Abbreviation fetcher_prefetched :=
  (with_prefetchCache Examples.fetcher
     (Cache.insert (m_prefetchCache Examples.fetcher) 80 [120])).

Lemma Examples_fetcher_accounted : accounted None Examples.fetcher.
Proof.
  apply (ctor_accounted 4 (Some Examples.finder) 2); [reflexivity | lia | lia].
Defined.

Lemma BlockFetcher_get_miss_returns_decoded_block_witness :
  exists s',
    get Examples.decodeBlock false Examples.fetcher 80 (Some 0) false None
    = Returns (Some [120]) s'
    /\ Cache.lookup_entry (Cache.entries (m_cache s')) 80 = Some [120].
Proof.
  apply (BlockFetcher_get_miss_returns_decoded_block Examples.decodeBlock false
           Examples.fetcher 80 (Some 0) 0 None [120]).
  - split; [reflexivity | simpl; lia].
  - exact Examples_fetcher_accounted.
  - simpl. lia.
  - vm_compute. reflexivity.
  - reflexivity.
  - reflexivity.
Defined.


Lemma BlockFetcher_getFromCaches_promotes_prefetched_block_witness :
  let result := getFromCaches false fetcher_prefetched 80 in
  fst result = (Some [120], None)
  /\ Cache.lookup_entry (Cache.entries (m_cache (snd result))) 80 = Some [120]
  /\ Cache.test (m_prefetchCache (snd result)) 80 = false
  /\ m_prefetching (snd result) = m_prefetching fetcher_prefetched
  /\ m_threadPool (snd result) = m_threadPool fetcher_prefetched.
Proof.
  apply (BlockFetcher_getFromCaches_promotes_prefetched_block false fetcher_prefetched
           80 [120]).
  - simpl. lia.
  - reflexivity.
  - vm_compute. reflexivity.
  - vm_compute. reflexivity.
Defined.

Lemma BlockFetcher_get_cache_hit_witness :
  exists s',
    get Examples.decodeBlock false fetcher_cached 80 (Some 0) true None
    = Returns (Some [120]) s'.
Proof.
  apply (BlockFetcher_get_cache_hit Examples.decodeBlock false fetcher_cached 80
           (Some 0) 0 true None [120]).
  - exact Examples_fetcher_accounted.
  - reflexivity.
  - vm_compute. reflexivity.
  - reflexivity.
Defined.

Lemma Examples_fetcher_busy_accounted : accounted (Some 0%nat) Examples.fetcher_busy.
Proof.
  exact (submitOnDemandTask_accounted Examples.decodeBlock false Examples.fetcher 80
           (Some 32768) Examples_fetcher_accounted).
Defined.

(** In the middle of a miss, with the on-demand task queued and idle workers:
    one block is prefetched, which makes two tasks of priority 0 for the two
    threads. *)
Lemma BlockFetcher_prefetchNewBlocks_keeps_pool_bounded_witness :
  let outcome :=
    prefetchNewBlocks Examples.decodeBlock false None (fun _ => false)
                      Examples.fetcher_busy in
  ((forall e s', outcome <> Throws e s')
   /\ Z.of_nat (size (m_prefetching (stateOf outcome)))
      <= m_parallelization Examples.fetcher_busy - 1
   /\ ThreadPool.unprocessedTasksCount (m_threadPool (stateOf outcome)) (Some 0)
      <= m_parallelization Examples.fetcher_busy
   /\ m_parallelization (stateOf outcome) = m_parallelization Examples.fetcher_busy)
  /\ map fst (map_to_list (m_prefetching (stateOf outcome))) = [32768]
  /\ ThreadPool.unprocessedTasksCount (m_threadPool (stateOf outcome)) (Some 0) = 2.
Proof.
  split.
  - apply (BlockFetcher_prefetchNewBlocks_keeps_pool_bounded Examples.decodeBlock false
             (Some 0%nat) None (fun _ => false) Examples.fetcher_busy).
    exact Examples_fetcher_busy_accounted.
  - split; vm_compute; reflexivity.
Defined.

End BlockFetcherServiceExamples.

(** ** CRC-32 by slicing *)

Section CRC32SlicingFacts.

Import CRC32 CRC32Slicing.

Local Abbreviation bytes := (map Z.of_nat (seq 0 256)).

Lemma In_bytes b : 0 <= b < 256 -> In b bytes.
Proof.
  intros Hb. apply in_map_iff. exists (Z.to_nat b). split; [lia |].
  apply in_seq. lia.
Qed.

Lemma CRC32_TABLE_linear a b :
  0 <= a < 256 -> 0 <= b < 256 ->
  array_at CRC32_TABLE (Z.lxor a b)
  = Z.lxor (array_at CRC32_TABLE a) (array_at CRC32_TABLE b).
Proof.
  intros Ha Hb.
  assert (Hall : (fun table =>
                    forallb (fun a => forallb (fun b =>
                      array_at table (Z.lxor a b)
                      =? Z.lxor (array_at table a) (array_at table b)) bytes) bytes)
                 CRC32_TABLE = true) by (vm_compute; reflexivity).
  cbv beta in Hall. rewrite forallb_forall in Hall.
  specialize (Hall a (In_bytes a Ha)). rewrite forallb_forall in Hall.
  specialize (Hall b (In_bytes b Hb)). apply Z.eqb_eq in Hall. exact Hall.
Qed.

Lemma CRC32_TABLE_range b :
  0 <= b < 256 -> 0 <= array_at CRC32_TABLE b < 2 ^ 32.
Proof.
  intros Hb.
  assert (Hall : forallb (fun b => (0 <=? array_at CRC32_TABLE b)
                                   && (array_at CRC32_TABLE b <? 2 ^ 32)) bytes = true)
    by (vm_compute; reflexivity).
  rewrite forallb_forall in Hall. specialize (Hall b (In_bytes b Hb)).
  apply andb_true_iff in Hall as [Hlow Hhigh]. lia.
Qed.

Lemma lxor_range n a b :
  0 <= n -> 0 <= a < 2 ^ n -> 0 <= b < 2 ^ n -> 0 <= Z.lxor a b < 2 ^ n.
Proof.
  intros Hn Ha Hb.
  assert (Hnonneg : 0 <= Z.lxor a b) by (apply Z.lxor_nonneg; lia).
  split; [exact Hnonneg |].
  destruct (Z.eq_dec (Z.lxor a b) 0) as [-> | Hne]; [apply Z.pow_pos_nonneg; lia |].
  assert (Hpositive : 0 < n).
  { destruct (Z.eq_dec n 0) as [-> | Hn0]; [| lia].
    change (2 ^ 0) with 1 in Ha, Hb.
    assert (a = 0) as -> by lia. assert (b = 0) as -> by lia.
    contradiction Hne. reflexivity. }
  apply Z.log2_lt_pow2; [lia |].
  eapply Z.le_lt_trans; [apply Z.log2_lxor; lia |].
  apply Z.max_lub_lt.
  - destruct (Z.eq_dec a 0) as [-> | Ha0]; [exact Hpositive | apply Z.log2_lt_pow2; lia].
  - destruct (Z.eq_dec b 0) as [-> | Hb0]; [exact Hpositive | apply Z.log2_lt_pow2; lia].
Qed.

Lemma land_lxor_distr a b c :
  Z.land (Z.lxor a b) c = Z.lxor (Z.land a c) (Z.land b c).
Proof.
  apply Z.bits_inj'. intros n Hn.
  rewrite !Z.lxor_spec, !Z.land_spec, Z.lxor_spec.
  destruct (Z.testbit a n), (Z.testbit b n), (Z.testbit c n); reflexivity.
Qed.

Lemma land_255_range c : 0 <= Z.land c 255 < 256.
Proof.
  change 255 with (Z.ones 8). rewrite Z.land_ones by lia.
  apply Z.mod_pos_bound. lia.
Qed.

Lemma land_255_byte b : 0 <= b < 256 -> Z.land b 255 = b.
Proof.
  intros Hb. change 255 with (Z.ones 8). rewrite Z.land_ones by lia.
  apply Z.mod_small. exact Hb.
Qed.

Lemma shiftr_8_byte b : 0 <= b < 256 -> Z.shiftr b 8 = 0.
Proof.
  intros Hb. rewrite Z.shiftr_div_pow2 by lia. apply Z.div_small. exact Hb.
Qed.

Lemma shiftr_8_range c : 0 <= c < 2 ^ 32 -> 0 <= Z.shiftr c 8 < 2 ^ 32.
Proof.
  intros Hc. rewrite Z.shiftr_div_pow2 by lia. split.
  - apply Z.div_pos; lia.
  - apply Z.div_lt_upper_bound; lia.
Qed.

Lemma updateCRC32_range crc data :
  0 <= crc < 2 ^ 32 -> 0 <= updateCRC32 crc data < 2 ^ 32.
Proof.
  intros Hcrc. unfold updateCRC32. apply lxor_range; [lia | |].
  - apply shiftr_8_range. exact Hcrc.
  - apply CRC32_TABLE_range. apply land_255_range.
Qed.

Lemma fold_updateCRC32_range data crc :
  0 <= crc < 2 ^ 32 -> 0 <= fold_left updateCRC32 data crc < 2 ^ 32.
Proof.
  revert crc. induction data as [| b data IH]; intros crc Hcrc; simpl; [exact Hcrc |].
  apply IH. apply updateCRC32_range. exact Hcrc.
Qed.

(** Feeding a byte is feeding a zero byte to the register with the byte mixed
    in. *)
Lemma updateCRC32_zero_byte crc data :
  0 <= data < 256 -> updateCRC32 crc data = updateCRC32 (Z.lxor crc data) 0.
Proof.
  intros Hdata. unfold updateCRC32.
  rewrite Z.shiftr_lxor, (shiftr_8_byte data Hdata), !Z.lxor_0_r. reflexivity.
Qed.

(** The register is linear in its content. *)
Lemma updateCRC32_linear a b :
  updateCRC32 (Z.lxor a b) 0 = Z.lxor (updateCRC32 a 0) (updateCRC32 b 0).
Proof.
  unfold updateCRC32. rewrite !Z.lxor_0_r, Z.shiftr_lxor, land_lxor_distr.
  rewrite CRC32_TABLE_linear by apply land_255_range.
  rewrite !Z.lxor_assoc. f_equal.
  rewrite <- !Z.lxor_assoc. f_equal. apply Z.lxor_comm.
Qed.

Lemma updateCRC32_zero : updateCRC32 0 0 = 0.
Proof. vm_compute. reflexivity. Qed.

Lemma iter_updateCRC32_linear n a b :
  Nat.iter n (fun crc => updateCRC32 crc 0) (Z.lxor a b)
  = Z.lxor (Nat.iter n (fun crc => updateCRC32 crc 0) a)
           (Nat.iter n (fun crc => updateCRC32 crc 0) b).
Proof.
  induction n as [| n IH]; simpl; [reflexivity |].
  rewrite IH. apply updateCRC32_linear.
Qed.

Lemma iter_updateCRC32_zero n :
  Nat.iter n (fun crc => updateCRC32 crc 0) 0 = 0.
Proof.
  induction n as [| n IH]; simpl; [reflexivity |].
  rewrite IH. apply updateCRC32_zero.
Qed.

Lemma iter_updateCRC32_succ n crc :
  Nat.iter (S n) (fun crc => updateCRC32 crc 0) crc
  = Nat.iter n (fun crc => updateCRC32 crc 0) (updateCRC32 crc 0).
Proof.
  induction n as [| n IH]; [reflexivity |].
  change (Nat.iter (S (S n)) (fun crc => updateCRC32 crc 0) crc)
    with (updateCRC32 (Nat.iter (S n) (fun crc => updateCRC32 crc 0) crc) 0).
  rewrite IH. reflexivity.
Qed.

(** The entry [j] of the table for a byte is the register after the byte
    and [j] zero bytes. *)
Lemma lut_entry_iter j b :
  0 <= b < 256 ->
  lut_entry j b = Nat.iter (S j) (fun crc => updateCRC32 crc 0) b.
Proof.
  intros Hb. induction j as [| j IH].
  - simpl. unfold updateCRC32.
    rewrite Z.lxor_0_r, (shiftr_8_byte b Hb), (land_255_byte b Hb). reflexivity.
  - simpl in *. rewrite IH. reflexivity.
Qed.

Lemma LUT_at_lut_entry (j : nat) b :
  (j < 64)%nat -> 0 <= b < 256 -> LUT_at (Z.of_nat j) b = lut_entry j b.
Proof.
  intros Hj Hb. unfold LUT_at, CRC32_SLICE_BY_N_LUT, array_at.
  rewrite Nat2Z.id.
  rewrite (nth_indep _ [] (map (fun i => lut_entry 0 (Z.of_nat i)) (seq 0 256)))
    by (rewrite length_map, length_seq; exact Hj).
  rewrite (map_nth (fun j => map (fun i => lut_entry j (Z.of_nat i)) (seq 0 256))
                   (seq 0 (Z.to_nat MAX_CRC32_SLICE_SIZE)) 0%nat j).
  rewrite seq_nth by exact Hj. simpl (0 + j)%nat.
  rewrite (nth_indep _ 0 (lut_entry j (Z.of_nat 0)))
    by (rewrite length_map, length_seq; lia).
  rewrite (map_nth (fun i => lut_entry j (Z.of_nat i)) (seq 0 256) 0%nat (Z.to_nat b)).
  rewrite seq_nth by lia. simpl (0 + _)%nat. rewrite Z2Nat.id by lia. reflexivity.
Qed.

Lemma lxor_swap a b c : Z.lxor (Z.lxor a b) c = Z.lxor (Z.lxor a c) b.
Proof. rewrite !Z.lxor_assoc. f_equal. apply Z.lxor_comm. Qed.

(** The inner loop of [crc32SliceByN] computes the register that the
    remaining bytes of the chunk leave, followed by as many zero bytes as
    bytes of the chunk have been looked up. *)
Lemma sliceChunk_fold (count : nat) :
  forall (j : nat) pre post result,
    length pre = count -> length post = j -> (count + j <= 64)%nat ->
    Forall is_byte pre ->
    sliceChunk count (Z.of_nat (count + j)) (Z.of_nat j) (pre ++ post) result
    = Z.lxor result
             (Nat.iter j (fun crc => updateCRC32 crc 0) (fold_left updateCRC32 pre 0)).
Proof.
  induction count as [| count IH]; intros j pre post result Hpre Hpost Hsize Hbytes.
  - destruct pre; [| discriminate Hpre]. simpl.
    rewrite iter_updateCRC32_zero, Z.lxor_0_r. reflexivity.
  - destruct (exists_last (l := pre)) as [pre' [b ->]];
      [intros ->; discriminate Hpre |].
    rewrite length_app in Hpre. simpl in Hpre.
    apply Forall_app in Hbytes as [Hbytes Hb]. apply Forall_cons in Hb as [Hb _].
    cbn [sliceChunk].
    replace (Z.of_nat (S count + j) - 1 - Z.of_nat j) with (Z.of_nat (length pre')) by lia.
    replace (array_at ((pre' ++ [b]) ++ post) (Z.of_nat (length pre'))) with b.
    2:{ unfold array_at. rewrite Nat2Z.id, <- app_assoc.
        rewrite app_nth2, Nat.sub_diag by lia. reflexivity. }
    rewrite <- app_assoc. cbn [app].
    replace (Z.of_nat (S count + j)) with (Z.of_nat (count + S j)) by lia.
    replace (Z.of_nat j + 1) with (Z.of_nat (S j)) by lia.
    rewrite IH by (simpl; lia || assumption).
    rewrite LUT_at_lut_entry, lut_entry_iter by (lia || exact Hb).
    rewrite fold_left_app. cbn [fold_left].
    rewrite (updateCRC32_zero_byte _ b Hb).
    rewrite <- iter_updateCRC32_succ, iter_updateCRC32_linear.
    rewrite !Z.lxor_assoc. f_equal. apply Z.lxor_comm.
Qed.

(** Mixing the low byte of a value into the data instead of the register. *)
Lemma updateCRC32_shift c r b :
  updateCRC32 (Z.lxor c r) b
  = Z.lxor (Z.shiftr c 8) (updateCRC32 r (Z.lxor b (Z.land c 255))).
Proof.
  unfold updateCRC32. rewrite Z.shiftr_lxor, Z.lxor_assoc. do 3 f_equal.
  apply Z.bits_inj'. intros n Hn.
  rewrite !Z.land_spec, !Z.lxor_spec, Z.land_spec.
  destruct (Z.testbit c n), (Z.testbit r n), (Z.testbit b n), (Z.testbit 255 n);
    reflexivity.
Qed.

Lemma load_u32_bytes b0 b1 b2 b3 :
  is_byte b0 -> is_byte b1 -> is_byte b2 -> is_byte b3 ->
  let word := load_u32 [b0; b1; b2; b3] in
  0 <= word < 2 ^ 32
  /\ Z.land word 255 = b0
  /\ Z.land (Z.shiftr word 8) 255 = b1
  /\ Z.land (Z.shiftr word 16) 255 = b2
  /\ Z.land (Z.shiftr word 24) 255 = b3.
Proof.
  unfold is_byte, load_u32, array_at. intros H0 H1 H2 H3. simpl.
  change 255 with (Z.ones 8).
  rewrite !Z.land_ones, !Z.shiftr_div_pow2, !Z.shiftl_mul_pow2 by lia.
  change (2 ^ 8) with 256. change (2 ^ 16) with 65536. change (2 ^ 24) with 16777216.
  change (2 ^ 32) with 4294967296.
  repeat split; try lia; Z.div_mod_to_equations; lia.
Qed.

(** The first four bytes of a slice: mixing them into the register and
    feeding the bytes of the register from zero is feeding them. *)
Lemma fold_updateCRC32_first_word crc b0 b1 b2 b3 :
  0 <= crc < 2 ^ 32 ->
  is_byte b0 -> is_byte b1 -> is_byte b2 -> is_byte b3 ->
  fold_left updateCRC32 (store_u32 (Z.lxor crc (load_u32 [b0; b1; b2; b3]))) 0
  = fold_left updateCRC32 [b0; b1; b2; b3] crc.
Proof.
  intros Hcrc H0 H1 H2 H3.
  destruct (load_u32_bytes b0 b1 b2 b3 H0 H1 H2 H3) as (Hword & Hw0 & Hw1 & Hw2 & Hw3).
  cbv zeta in *. set (word := load_u32 [b0; b1; b2; b3]) in *.
  unfold store_u32. cbn [fold_left].
  rewrite !Z.shiftr_lxor, !land_lxor_distr, Hw0, Hw1, Hw2, Hw3.
  assert (Hfirst : updateCRC32 crc b0
                   = Z.lxor (Z.shiftr crc 8) (updateCRC32 0 (Z.lxor b0 (Z.land crc 255)))).
  { rewrite <- (updateCRC32_shift crc 0 b0), Z.lxor_0_r. reflexivity. }
  rewrite Hfirst, !updateCRC32_shift.
  rewrite !Z.shiftr_shiftr by lia.
  change (8 + (8 + (8 + 8))) with 32. change (8 + 8 + 8) with 24. change (8 + 8) with 16.
  replace (Z.shiftr crc 32) with 0
    by (rewrite Z.shiftr_div_pow2 by lia; symmetry; apply Z.div_small; exact Hcrc).
  rewrite Z.lxor_0_l.
  rewrite (Z.lxor_comm (Z.land crc 255) b0), (Z.lxor_comm (Z.land (Z.shiftr crc 8) 255) b1),
    (Z.lxor_comm (Z.land (Z.shiftr crc 16) 255) b2),
    (Z.lxor_comm (Z.land (Z.shiftr crc 24) 255) b3).
  reflexivity.
Qed.

Lemma store_u32_bytes value : Forall is_byte (store_u32 value).
Proof. unfold store_u32. repeat constructor; apply land_255_range. Qed.

Lemma skipn_app_length {A} (n : nat) (l k : list A) :
  n = length l -> skipn n (l ++ k) = k.
Proof.
  intros ->. rewrite List.skipn_app, List.skipn_all, Nat.sub_diag. reflexivity.
Qed.

Lemma firstn_app_length {A} (n : nat) (l k : list A) :
  n = length l -> firstn n (l ++ k) = l.
Proof.
  intros ->. rewrite List.firstn_app, List.firstn_all, Nat.sub_diag. simpl.
  apply app_nil_r.
Qed.

(** A slice of [SLICE_SIZE] bytes at the front of what is left. *)
Lemma slice_front SLICE_SIZE (rest : list Z) :
  validSliceSize SLICE_SIZE ->
  SLICE_SIZE <= Z.of_nat (length rest) ->
  exists b0 b1 b2 b3 tail rest',
    rest = b0 :: b1 :: b2 :: b3 :: tail ++ rest'
    /\ length tail = Z.to_nat (SLICE_SIZE - 4).
Proof.
  intros [Hmod Hrange] Hrest.
  assert (Hfour : 4 <= SLICE_SIZE) by (Z.div_mod_to_equations; lia).
  destruct rest as [| b0 [| b1 [| b2 [| b3 rest]]]]; simpl in Hrest; try lia.
  exists b0, b1, b2, b3, (firstn (Z.to_nat (SLICE_SIZE - 4)) rest),
    (skipn (Z.to_nat (SLICE_SIZE - 4)) rest).
  rewrite firstn_skipn. split; [reflexivity |].
  apply List.firstn_length_le. lia.
Qed.

(** The loop over the slices leaves the register that feeding the bytes of
    the slices, one by one, leaves. *)
Lemma sliceLoop_fold SLICE_SIZE :
  validSliceSize SLICE_SIZE ->
  forall fuel done rest crc,
    (length rest <= fuel)%nat ->
    Forall is_byte rest ->
    0 <= crc < 2 ^ 32 ->
    Z.of_nat (length (done ++ rest)) + MAX_CRC32_SLICE_SIZE < 2 ^ 64 ->
    sliceLoop fuel SLICE_SIZE (done ++ rest) (Z.of_nat (length (done ++ rest)))
              (Z.of_nat (length done)) crc
    = fold_left updateCRC32
        (firstn (Z.to_nat (Z.of_nat (length rest)
                           - Z.of_nat (length rest) mod SLICE_SIZE)) rest)
        crc.
Proof.
  intros Hvalid fuel. pose proof Hvalid as [Hmod Hrange].
  unfold MAX_CRC32_SLICE_SIZE in *.
  assert (Hfour : 4 <= SLICE_SIZE) by (Z.div_mod_to_equations; lia).
  induction fuel as [| fuel IH]; intros done rest crc Hfuel Hbytes Hcrc Hsize.
  - destruct rest; [| simpl in Hfuel; lia]. rewrite List.firstn_nil. reflexivity.
  - cbn [sliceLoop].
    assert (Hnext : size_t_wrap (Z.of_nat (length done) + SLICE_SIZE)
                    = Z.of_nat (length done) + SLICE_SIZE).
    { unfold size_t_wrap, SIZE_T_DIGITS. apply Z.mod_small.
      rewrite length_app in Hsize. lia. }
    rewrite Hnext.
    destruct (Z.leb_spec (Z.of_nat (length done) + SLICE_SIZE)
                         (Z.of_nat (length (done ++ rest)))) as [Hslice | Hshort].
    + rewrite length_app in Hslice.
      destruct (slice_front SLICE_SIZE rest Hvalid ltac:(lia))
        as (b0 & b1 & b2 & b3 & tail & rest' & -> & Htail).
      apply Forall_cons in Hbytes as [H0 Hbytes]. apply Forall_cons in Hbytes as [H1 Hbytes].
      apply Forall_cons in Hbytes as [H2 Hbytes]. apply Forall_cons in Hbytes as [H3 Hbytes].
      apply Forall_app in Hbytes as [Htailbytes Hbytes].
      rewrite (skipn_app_length _ done) by lia.
      change (load_u32 (b0 :: b1 :: b2 :: b3 :: tail ++ rest'))
        with (load_u32 [b0; b1; b2; b3]).
      assert (Hskip : skipn (Z.to_nat (Z.of_nat (length done) + 4))
                            (done ++ b0 :: b1 :: b2 :: b3 :: tail ++ rest')
                      = tail ++ rest').
      { replace (done ++ b0 :: b1 :: b2 :: b3 :: tail ++ rest')
          with ((done ++ [b0; b1; b2; b3]) ++ tail ++ rest')
          by (rewrite <- app_assoc; reflexivity).
        apply skipn_app_length. rewrite length_app. simpl. lia. }
      rewrite Hskip.
      rewrite (firstn_app_length _ tail) by lia.
      pose proof (sliceChunk_fold (Z.to_nat SLICE_SIZE) 0
                    (store_u32 (Z.lxor crc (load_u32 [b0; b1; b2; b3])) ++ tail) [] 0)
        as Hchunk.
      rewrite app_nil_r, Nat.add_0_r, Z2Nat.id in Hchunk by lia.
      change (Z.of_nat 0) with 0 in Hchunk.
      rewrite Hchunk; cycle 1.
      { rewrite length_app. simpl. lia. }
      { reflexivity. }
      { lia. }
      { apply Forall_app. split; [apply store_u32_bytes | exact Htailbytes]. }
      cbn [Nat.iter]. rewrite Z.lxor_0_l, fold_left_app.
      rewrite fold_updateCRC32_first_word by assumption.
      replace (done ++ b0 :: b1 :: b2 :: b3 :: tail ++ rest')
        with ((done ++ b0 :: b1 :: b2 :: b3 :: tail) ++ rest')
        by (rewrite <- app_assoc; reflexivity).
      replace (Z.of_nat (length done) + SLICE_SIZE)
        with (Z.of_nat (length (done ++ b0 :: b1 :: b2 :: b3 :: tail)))
        by (rewrite length_app; simpl; lia).
      rewrite IH; cycle 1.
      { simpl in Hfuel. rewrite length_app in Hfuel. lia. }
      { exact Hbytes. }
      { apply fold_updateCRC32_range. apply fold_updateCRC32_range. exact Hcrc. }
      { rewrite <- app_assoc. exact Hsize. }
      replace (b0 :: b1 :: b2 :: b3 :: tail ++ rest')
        with ((b0 :: b1 :: b2 :: b3 :: tail) ++ rest') by reflexivity.
      set (slice := b0 :: b1 :: b2 :: b3 :: tail).
      assert (Hlength : Z.of_nat (length slice) = SLICE_SIZE) by (simpl; lia).
      rewrite length_app, Nat2Z.inj_add, Hlength.
      replace ((SLICE_SIZE + Z.of_nat (length rest')) mod SLICE_SIZE)
        with (Z.of_nat (length rest') mod SLICE_SIZE)
        by (rewrite <- (Z.mod_add (Z.of_nat (length rest')) 1 SLICE_SIZE) by lia;
            f_equal; lia).
      pose proof (Z.mod_pos_bound (Z.of_nat (length rest')) SLICE_SIZE ltac:(lia)) as Hrem.
      pose proof (Z.mod_le (Z.of_nat (length rest')) SLICE_SIZE ltac:(lia) ltac:(lia)) as Hle.
      replace (Z.to_nat (SLICE_SIZE + Z.of_nat (length rest')
                         - Z.of_nat (length rest') mod SLICE_SIZE))
        with (length slice
              + Z.to_nat (Z.of_nat (length rest')
                          - Z.of_nat (length rest') mod SLICE_SIZE))%nat by lia.
      rewrite List.firstn_app_2, fold_left_app. reflexivity.
    + rewrite length_app in Hshort.
      rewrite Z.mod_small by lia. rewrite Z.sub_diag. reflexivity.
Qed.

(** X19: slicing by N computes the CRC-32 of the table: for every slice size
    that the static assertions admit, every initial value and all bytes,
    [crc32SliceByN] returns what inverting the value, feeding the bytes one by
    one to [updateCRC32] and inverting again gives, and so does the
    [updateCRC32] of a buffer.  In particular all slice sizes give the same
    checksum. *)
Theorem crc32SliceByN_is_table_crc32 SLICE_SIZE crc data :
  validSliceSize SLICE_SIZE ->
  0 <= crc < 2 ^ 32 ->
  Forall is_byte data ->
  Z.of_nat (length data) + MAX_CRC32_SLICE_SIZE < 2 ^ 64 ->
  crc32SliceByN SLICE_SIZE crc data = crc32_table crc data
  /\ updateCRC32_buffer SLICE_SIZE crc data = crc32_table crc data.
Proof.
  intros Hvalid Hcrc Hbytes Hsize.
  cut (crc32SliceByN SLICE_SIZE crc data = crc32_table crc data);
    [intros Hsame; split; exact Hsame |].
  unfold crc32SliceByN, crc32_table. f_equal.
  assert (Hinverted : 0 <= Z.lxor crc 4294967295 < 2 ^ 32)
    by (apply lxor_range; lia).
  pose proof (sliceLoop_fold SLICE_SIZE Hvalid (length data) [] data
                (Z.lxor crc 4294967295) (le_n _) Hbytes Hinverted Hsize) as Hloop.
  cbn [app length] in Hloop. change (Z.of_nat 0) with 0 in Hloop.
  rewrite Hloop, <- fold_left_app, firstn_skipn. reflexivity.
Qed.

Lemma crc32SliceByN_is_table_crc32_witness :
  crc32SliceByN 8 0 [49; 50; 51; 52; 53; 54; 55; 56; 57; 58; 59]
  = crc32_table 0 [49; 50; 51; 52; 53; 54; 55; 56; 57; 58; 59]
  /\ updateCRC32_buffer 8 0 [49; 50; 51; 52; 53; 54; 55; 56; 57; 58; 59]
     = crc32_table 0 [49; 50; 51; 52; 53; 54; 55; 56; 57; 58; 59].
Proof.
  apply (crc32SliceByN_is_table_crc32 8 0 [49; 50; 51; 52; 53; 54; 55; 56; 57; 58; 59]).
  - unfold validSliceSize, MAX_CRC32_SLICE_SIZE. split; [reflexivity | lia].
  - lia.
  - repeat constructor; unfold is_byte; lia.
  - unfold MAX_CRC32_SLICE_SIZE. simpl. lia.
Defined.

(** One round of the bit-serial CRC is linear. *)
Lemma createCRC32LookupTable_bits_linear j :
  forall a b,
    createCRC32LookupTable_bits j (Z.lxor a b)
    = Z.lxor (createCRC32LookupTable_bits j a) (createCRC32LookupTable_bits j b).
Proof.
  induction j as [| j IH]; intros a b; [reflexivity |].
  cbn [createCRC32LookupTable_bits]. rewrite <- IH. f_equal.
  rewrite Z.lxor_spec, Z.shiftr_lxor.
  destruct (Z.testbit a 0), (Z.testbit b 0); cbn [xorb];
    apply Z.bits_inj'; intros n Hn; rewrite !Z.lxor_spec;
    destruct (Z.testbit 3988292384 n), (Z.testbit (Z.shiftr a 1) n),
      (Z.testbit (Z.shiftr b 1) n); reflexivity.
Qed.

(** Bits that lie above the rounds to come are only shifted down. *)
Lemma createCRC32LookupTable_bits_shifted j :
  forall high,
    createCRC32LookupTable_bits j (Z.shiftl high (Z.of_nat j)) = high.
Proof.
  induction j as [| j IH]; intros high; [apply Z.shiftl_0_r |].
  cbn [createCRC32LookupTable_bits].
  rewrite Z.shiftl_spec_low by lia.
  rewrite Z.shiftr_shiftl_l by lia.
  replace (Z.of_nat (S j) - 1) with (Z.of_nat j) by lia. apply IH.
Qed.

Lemma CRC32_TABLE_entry b :
  0 <= b < 256 -> array_at CRC32_TABLE b = createCRC32LookupTable_bits 8 b.
Proof.
  intros Hb.
  assert (Hall : forallb (fun b => array_at CRC32_TABLE b
                                   =? createCRC32LookupTable_bits 8 b) bytes = true)
    by (vm_compute; reflexivity).
  rewrite forallb_forall in Hall. specialize (Hall b (In_bytes b Hb)).
  apply Z.eqb_eq in Hall. exact Hall.
Qed.

Lemma split_low_byte x :
  x = Z.lxor (Z.shiftl (Z.shiftr x 8) 8) (Z.land x 255).
Proof.
  apply Z.bits_inj'. intros n Hn.
  rewrite Z.lxor_spec, Z.land_spec. change 255 with (Z.ones 8).
  rewrite Z.testbit_ones_nonneg by lia.
  destruct (Z.ltb_spec n 8) as [Hlow | Hhigh].
  - rewrite Z.shiftl_spec_low by lia. rewrite andb_true_r. reflexivity.
  - rewrite Z.shiftl_spec, Z.shiftr_spec by lia.
    replace (n - 8 + 8) with n by lia.
    rewrite andb_false_r, xorb_false_r. reflexivity.
Qed.

(** X20: the lookup table does the work of the bit-serial CRC: feeding a
    byte with [updateCRC32] is mixing the byte into the register and doing the
    eight rounds with the polynomial 0xEDB88320 that
    [createCRC32LookupTable] does for every table entry; the register stays a
    32-bit value. *)
Theorem updateCRC32_is_bitwise_crc32 crc data :
  0 <= crc < 2 ^ 32 ->
  is_byte data ->
  updateCRC32 crc data = createCRC32LookupTable_bits 8 (Z.lxor crc data)
  /\ 0 <= updateCRC32 crc data < 2 ^ 32.
Proof.
  intros Hcrc Hdata. split; [| apply updateCRC32_range; exact Hcrc].
  unfold updateCRC32.
  rewrite (split_low_byte (Z.lxor crc data)) at 2.
  rewrite createCRC32LookupTable_bits_linear.
  rewrite (createCRC32LookupTable_bits_shifted 8).
  rewrite Z.shiftr_lxor, (shiftr_8_byte data Hdata), Z.lxor_0_r.
  rewrite CRC32_TABLE_entry by apply land_255_range. reflexivity.
Qed.

Lemma updateCRC32_is_bitwise_crc32_witness :
  updateCRC32 4294967295 49 = createCRC32LookupTable_bits 8 (Z.lxor 4294967295 49)
  /\ 0 <= updateCRC32 4294967295 49 < 2 ^ 32.
Proof.
  apply (updateCRC32_is_bitwise_crc32 4294967295 49); [lia | unfold is_byte; lia].
Defined.

End CRC32SlicingFacts.

(** ** BlockFetcher: the access statistics *)

Section AccessStatisticsFacts.

Import BlockFetcher.

(** The counters of the access patterns add up to the number of accesses. *)
Local Abbreviation classified statistics :=
  (gets statistics
   = repeatedBlockAccesses statistics + sequentialBlockAccesses statistics
     + backwardBlockAccesses statistics + forwardBlockAccesses statistics).

Lemma size_t_wrap_succ x : 0 <= x -> x + 1 < 2 ^ 64 -> size_t_wrap (x + 1) = x + 1.
Proof. intros Hx Hsmall. unfold size_t_wrap, SIZE_T_DIGITS. apply Z.mod_small. lia. Qed.

Lemma recordBlockIndexGet_counts statistics blockindex :
  0 <= repeatedBlockAccesses statistics ->
  0 <= sequentialBlockAccesses statistics ->
  0 <= backwardBlockAccesses statistics ->
  0 <= forwardBlockAccesses statistics ->
  classified statistics ->
  gets statistics + 1 < 2 ^ 64 ->
  let statistics' := recordBlockIndexGet statistics blockindex in
  gets statistics' = gets statistics + 1
  /\ lastAccessedBlock statistics' = Some blockindex
  /\ 0 <= repeatedBlockAccesses statistics'
  /\ 0 <= sequentialBlockAccesses statistics'
  /\ 0 <= backwardBlockAccesses statistics'
  /\ 0 <= forwardBlockAccesses statistics'
  /\ classified statistics'.
Proof.
  intros Hrepeated Hsequential Hbackward Hforward Hsum Hgets.
  unfold recordBlockIndexGet.
  repeat match goal with
         | |- context [if ?c then _ else _] => destruct c
         end;
    cbn [gets lastAccessedBlock repeatedBlockAccesses sequentialBlockAccesses
         backwardBlockAccesses forwardBlockAccesses];
    rewrite !size_t_wrap_succ by lia; repeat split; lia.
Qed.

Lemma last_cons {A} (l : list A) :
  forall a d, List.last (a :: l) d = List.last l a.
Proof.
  induction l as [| b l IH]; intros a d; [reflexivity |].
  change (List.last (a :: b :: l) d) with (List.last (b :: l) d).
  rewrite (IH b d), (IH b a). reflexivity.
Qed.

Lemma recordBlockIndexGet_fold blockindexes :
  forall statistics : Statistics,
    0 <= repeatedBlockAccesses statistics ->
    0 <= sequentialBlockAccesses statistics ->
    0 <= backwardBlockAccesses statistics ->
    0 <= forwardBlockAccesses statistics ->
    classified statistics ->
    gets statistics + Z.of_nat (length blockindexes) < 2 ^ 64 ->
    let statistics' := fold_left recordBlockIndexGet blockindexes statistics in
    gets statistics' = gets statistics + Z.of_nat (length blockindexes)
    /\ lastAccessedBlock statistics'
       = List.last (map Some blockindexes) (lastAccessedBlock statistics)
    /\ classified statistics'.
Proof.
  induction blockindexes as [| blockindex blockindexes IH];
    intros statistics Hrepeated Hsequential Hbackward Hforward Hsum Hgets.
  - simpl. repeat split; [lia | exact Hsum].
  - cbn [fold_left length] in *.
    destruct (recordBlockIndexGet_counts statistics blockindex)
      as (Hgets' & Hlast' & Hrepeated' & Hsequential' & Hbackward' & Hforward' & Hsum');
      try assumption; [lia |].
    destruct (IH (recordBlockIndexGet statistics blockindex))
      as (Hgets'' & Hlast'' & Hsum''); try assumption; [lia |].
    split; [lia |]. split; [| exact Hsum''].
    rewrite Hlast'', Hlast'. cbn [map]. rewrite last_cons. reflexivity.
Qed.

(** X21: every access that [recordBlockIndexGet] records is counted as
    exactly one access pattern: after any sequence of accesses, [gets] is
    their number and the sum of the repeated, sequential, backward and forward
    accesses, and [lastAccessedBlock] is the index of the last one. *)
Theorem Statistics_recordBlockIndexGet_classifies blockindexes :
  Z.of_nat (length blockindexes) < 2 ^ 64 ->
  let statistics := recordAll blockindexes in
  gets statistics = Z.of_nat (length blockindexes)
  /\ repeatedBlockAccesses statistics + sequentialBlockAccesses statistics
     + backwardBlockAccesses statistics + forwardBlockAccesses statistics
     = Z.of_nat (length blockindexes)
  /\ lastAccessedBlock statistics = List.last (map Some blockindexes) None.
Proof.
  intros Hlength.
  destruct (recordBlockIndexGet_fold blockindexes initialStatistics)
    as (Hgets & Hlast & Hsum); simpl; try lia.
  fold (recordAll blockindexes) in Hgets, Hlast, Hsum.
  simpl in Hgets, Hlast. cbv zeta. split; [exact Hgets |]. split; [lia | exact Hlast].
Qed.

Lemma Statistics_recordBlockIndexGet_classifies_witness :
  let statistics := recordAll [0; 1; 2; 2; 7; 3] in
  gets statistics = Z.of_nat (length [0; 1; 2; 2; 7; 3])
  /\ repeatedBlockAccesses statistics + sequentialBlockAccesses statistics
     + backwardBlockAccesses statistics + forwardBlockAccesses statistics
     = Z.of_nat (length [0; 1; 2; 2; 7; 3])
  /\ lastAccessedBlock statistics = List.last (map Some [0; 1; 2; 2; 7; 3]) None.
Proof.
  apply (Statistics_recordBlockIndexGet_classifies [0; 1; 2; 2; 7; 3]). simpl. lia.
Defined.



End AccessStatisticsFacts.

(** ** FileUtils: writing all data and the splice vault *)

Section FileUtilsFacts.

Import FileUtils.

(** A system call that takes at most 4096 bytes at a time. *)
Local Abbreviation chunked := (fun (position count : Z) => Z.min count 4096).

Lemma wrap_small x : 0 <= x < 2 ^ 64 -> x mod 2 ^ 64 = x.
Proof. apply Z.mod_small. Qed.




(** A system call that takes at most 4096 bytes and fails when called again. *)
Local Abbreviation failingLater :=
  (fun (position count : Z) => if position =? 0 then Z.min count 4096 else -1).

(** With enough of it, the fuel plays no part. *)
Lemma writeAllSpliceUnsafe_loop_fuel vmsplice dataToWriteSize :
  dataToWriteSize < 2 ^ 64 ->
  transfers vmsplice ->
  forall fuel fuel' iov_len,
    0 <= iov_len <= dataToWriteSize ->
    iov_len < Z.of_nat fuel ->
    iov_len < Z.of_nat fuel' ->
    writeAllSpliceUnsafe_loop fuel vmsplice dataToWriteSize iov_len
    = writeAllSpliceUnsafe_loop fuel' vmsplice dataToWriteSize iov_len.
Proof.
  intros Hsize Htransfers fuel.
  induction fuel as [| fuel IH]; intros fuel' iov_len Hlen Hfuel Hfuel'; [lia |].
  destruct fuel' as [| fuel']; [lia |].
  cbn [writeAllSpliceUnsafe_loop].
  destruct (Z.ltb_spec 0 iov_len) as [Hleft | Hdone]; [| reflexivity].
  destruct (Htransfers (dataToWriteSize - iov_len) iov_len Hleft) as [Hcount Hsome].
  destruct (Z.ltb_spec (vmsplice (dataToWriteSize - iov_len) iov_len) 0) as [Hfailed | Hok];
    [reflexivity |].
  unfold size_t_wrap, SIZE_T_DIGITS. rewrite wrap_small by lia.
  apply IH; lia.
Qed.

(** The call goes on from every position that it reaches. *)
Lemma writeAllSpliceUnsafe_from vmsplice dataToWriteSize position :
  0 <= dataToWriteSize < 2 ^ 64 ->
  transfers vmsplice ->
  splicedUpTo vmsplice dataToWriteSize position ->
  0 <= position <= dataToWriteSize
  /\ writeAllSpliceUnsafe vmsplice dataToWriteSize
     = writeAllSpliceUnsafe_loop (S (Z.to_nat (dataToWriteSize - position))) vmsplice
                                 dataToWriteSize (dataToWriteSize - position).
Proof.
  intros Hsize Htransfers Hreached.
  induction Hreached as [| position Hreached [Hposition IH] Hleft Hok].
  - split; [lia |]. rewrite Z.sub_0_r. reflexivity.
  - destruct (Htransfers position (dataToWriteSize - position) ltac:(lia))
      as [Hcount Hsome].
    split; [lia |]. rewrite IH.
    remember (S (Z.to_nat (dataToWriteSize
                           - (position + vmsplice position (dataToWriteSize - position)))))
      as fuel' eqn:Hfuel'.
    cbn [writeAllSpliceUnsafe_loop].
    destruct (Z.ltb_spec 0 (dataToWriteSize - position)) as [_ | Hdone]; [| lia].
    replace (dataToWriteSize - (dataToWriteSize - position)) with position by lia.
    destruct (Z.ltb_spec (vmsplice position (dataToWriteSize - position)) 0)
      as [Hfailed | _]; [lia |].
    unfold size_t_wrap, SIZE_T_DIGITS. rewrite wrap_small by lia.
    replace (dataToWriteSize - position - vmsplice position (dataToWriteSize - position))
      with (dataToWriteSize
            - (position + vmsplice position (dataToWriteSize - position))) by lia.
    apply (writeAllSpliceUnsafe_loop_fuel vmsplice dataToWriteSize); try lia.
    exact Htransfers.
Qed.

Lemma writeAllSpliceUnsafe_loop_outcome vmsplice dataToWriteSize :
  dataToWriteSize < 2 ^ 64 ->
  transfers vmsplice ->
  forall fuel iov_len,
    0 <= iov_len <= dataToWriteSize ->
    iov_len < Z.of_nat fuel ->
    splicedUpTo vmsplice dataToWriteSize (dataToWriteSize - iov_len) ->
    match writeAllSpliceUnsafe_loop fuel vmsplice dataToWriteSize iov_len with
    | Ok true => splicedUpTo vmsplice dataToWriteSize dataToWriteSize
    | Ok false => iov_len = dataToWriteSize /\ vmsplice 0 dataToWriteSize < 0
    | Throw e =>
        e = runtime_error "Failed to write to pipe"
        /\ exists position,
             splicedUpTo vmsplice dataToWriteSize position
             /\ 0 < position < dataToWriteSize
             /\ vmsplice position (dataToWriteSize - position) < 0
    end.
Proof.
  intros Hsize Htransfers fuel.
  induction fuel as [| fuel IH]; intros iov_len Hlen Hfuel Hreached; [lia |].
  cbn [writeAllSpliceUnsafe_loop].
  destruct (Z.ltb_spec 0 iov_len) as [Hleft | Hdone].
  2: { replace iov_len with 0 in Hreached by lia. rewrite Z.sub_0_r in Hreached.
       exact Hreached. }
  destruct (Htransfers (dataToWriteSize - iov_len) iov_len Hleft) as [Hcount Hsome].
  destruct (Z.ltb_spec (vmsplice (dataToWriteSize - iov_len) iov_len) 0) as [Hfailed | Hok].
  - destruct (Z.eqb_spec iov_len dataToWriteSize) as [-> | Hlater].
    + rewrite Z.sub_diag in Hfailed. split; [reflexivity | exact Hfailed].
    + split; [reflexivity |]. exists (dataToWriteSize - iov_len).
      replace (dataToWriteSize - (dataToWriteSize - iov_len)) with iov_len by lia.
      split; [exact Hreached |]. split; [lia | exact Hfailed].
  - unfold size_t_wrap, SIZE_T_DIGITS. rewrite wrap_small by lia.
    assert (Hnext : splicedUpTo vmsplice dataToWriteSize
                      (dataToWriteSize
                       - (iov_len - vmsplice (dataToWriteSize - iov_len) iov_len))).
    { replace (dataToWriteSize - (iov_len - vmsplice (dataToWriteSize - iov_len) iov_len))
        with (dataToWriteSize - iov_len
              + vmsplice (dataToWriteSize - iov_len)
                         (dataToWriteSize - (dataToWriteSize - iov_len))).
      - apply spliced_more; [exact Hreached | lia |].
        replace (dataToWriteSize - (dataToWriteSize - iov_len)) with iov_len by lia.
        exact Hok.
      - replace (dataToWriteSize - (dataToWriteSize - iov_len)) with iov_len by lia. lia. }
    specialize (IH (iov_len - vmsplice (dataToWriteSize - iov_len) iov_len)
                   ltac:(lia) ltac:(lia) Hnext).
    destruct (writeAllSpliceUnsafe_loop fuel vmsplice dataToWriteSize _) as [[|] | e].
    + exact IH.
    + lia.
    + exact IH.
Qed.

(** X24: what [writeAllSpliceUnsafe] does with failing [vmsplice] calls,
    for a [vmsplice] that splices at least one byte and no more than asked
    for whenever it does not fail.  It returns false exactly when the very
    first call fails, so that nothing has been spliced; it throws
    [std::runtime_error] exactly when a later call fails, that is the call at
    a position behind the start that the calls before it have spliced up to;
    and it returns true exactly when the calls have spliced up to the end of
    the data, which they do when no call fails. *)
Theorem writeAllSpliceUnsafe_false_only_at_start vmsplice dataToWriteSize :
  is_size_t dataToWriteSize ->
  transfers vmsplice ->
  (writeAllSpliceUnsafe vmsplice dataToWriteSize = Ok false
   <-> 0 < dataToWriteSize /\ vmsplice 0 dataToWriteSize < 0)
  /\ (forall e,
        writeAllSpliceUnsafe vmsplice dataToWriteSize = Throw e
        <-> e = runtime_error "Failed to write to pipe"
            /\ exists position,
                 splicedUpTo vmsplice dataToWriteSize position
                 /\ 0 < position < dataToWriteSize
                 /\ vmsplice position (dataToWriteSize - position) < 0)
  /\ (writeAllSpliceUnsafe vmsplice dataToWriteSize = Ok true
      <-> splicedUpTo vmsplice dataToWriteSize dataToWriteSize)
  /\ ((forall position count, 0 <= vmsplice position count) ->
      writeAllSpliceUnsafe vmsplice dataToWriteSize = Ok true).
Proof.
  unfold is_size_t, SIZE_T_DIGITS. intros Hsize Htransfers.
  pose proof (writeAllSpliceUnsafe_loop_outcome vmsplice dataToWriteSize ltac:(lia)
                Htransfers (S (Z.to_nat dataToWriteSize)) dataToWriteSize
                ltac:(lia) ltac:(lia)) as Houtcome.
  rewrite Z.sub_diag in Houtcome. specialize (Houtcome (spliced_nothing _ _)).
  fold (writeAllSpliceUnsafe vmsplice dataToWriteSize) in Houtcome.
  assert (Hfirst : 0 < dataToWriteSize ->
                   vmsplice 0 dataToWriteSize < 0
                   -> writeAllSpliceUnsafe vmsplice dataToWriteSize = Ok false).
  { intros Hpositive Hfailed. unfold writeAllSpliceUnsafe. cbn [writeAllSpliceUnsafe_loop].
    destruct (Z.ltb_spec 0 dataToWriteSize); [| lia].
    rewrite Z.sub_diag. destruct (Z.ltb_spec (vmsplice 0 dataToWriteSize) 0); [| lia].
    rewrite Z.eqb_refl. reflexivity. }
  assert (Hlater : forall position,
             splicedUpTo vmsplice dataToWriteSize position ->
             0 < position < dataToWriteSize ->
             vmsplice position (dataToWriteSize - position) < 0 ->
             writeAllSpliceUnsafe vmsplice dataToWriteSize
             = Throw (runtime_error "Failed to write to pipe")).
  { intros position Hreached Hposition Hfailed.
    destruct (writeAllSpliceUnsafe_from vmsplice dataToWriteSize position ltac:(lia)
                Htransfers Hreached) as [_ ->].
    cbn [writeAllSpliceUnsafe_loop].
    destruct (Z.ltb_spec 0 (dataToWriteSize - position)); [| lia].
    replace (dataToWriteSize - (dataToWriteSize - position)) with position by lia.
    destruct (Z.ltb_spec (vmsplice position (dataToWriteSize - position)) 0); [| lia].
    destruct (Z.eqb_spec (dataToWriteSize - position) dataToWriteSize); [lia |].
    reflexivity. }
  assert (Hall : splicedUpTo vmsplice dataToWriteSize dataToWriteSize ->
                 writeAllSpliceUnsafe vmsplice dataToWriteSize = Ok true).
  { intros Hreached.
    destruct (writeAllSpliceUnsafe_from vmsplice dataToWriteSize dataToWriteSize
                ltac:(lia) Htransfers Hreached) as [_ ->].
    rewrite Z.sub_diag. reflexivity. }
  split; [| split; [| split]].
  - split; [| intros [Hpositive Hfailed]; exact (Hfirst Hpositive Hfailed)].
    intros Hfalse. rewrite Hfalse in Houtcome. destruct Houtcome as [_ Hfailed].
    split; [| exact Hfailed].
    destruct (Z.eq_dec dataToWriteSize 0) as [Hempty | Hnonempty]; [| lia].
    unfold writeAllSpliceUnsafe in Hfalse. rewrite Hempty in Hfalse.
    cbn in Hfalse. discriminate Hfalse.
  - intros e. split.
    + intros Hthrown. rewrite Hthrown in Houtcome. exact Houtcome.
    + intros (-> & position & Hreached & Hposition & Hfailed).
      exact (Hlater position Hreached Hposition Hfailed).
  - split; [| exact Hall].
    intros Htrue. rewrite Htrue in Houtcome. exact Houtcome.
  - intros Hnever.
    destruct (writeAllSpliceUnsafe vmsplice dataToWriteSize) as [[|] | e]; [reflexivity | |].
    + destruct Houtcome as [_ Hfailed]. specialize (Hnever 0 dataToWriteSize). lia.
    + destruct Houtcome as (_ & position & _ & _ & Hfailed).
      specialize (Hnever position (dataToWriteSize - position)). lia.
Qed.

Lemma writeAllSpliceUnsafe_false_only_at_start_witness :
  splicedUpTo failingLater 10000 4096
  /\ failingLater 4096 (10000 - 4096) < 0
  /\ writeAllSpliceUnsafe failingLater 10000
     = Throw (runtime_error "Failed to write to pipe").
Proof.
  assert (Hreached : splicedUpTo failingLater 10000 4096).
  { exact (spliced_more failingLater 10000 0 (spliced_nothing _ _)
             ltac:(lia) ltac:(simpl; lia)). }
  split; [exact Hreached |]. split; [simpl; lia |].
  destruct (writeAllSpliceUnsafe_false_only_at_start failingLater 10000)
    as (_ & Hthrows & _).
  - unfold is_size_t, SIZE_T_DIGITS. lia.
  - intros position count Hcount. destruct (position =? 0); lia.
  - apply Hthrows. split; [reflexivity |]. exists 4096.
    split; [exact Hreached |]. split; [lia | simpl; lia].
Defined.

End FileUtilsFacts.

Section SpliceVaultFacts.

Import FileUtils FileUtils.SpliceVault.







End SpliceVaultFacts.

(** ** Precode check: the packed histograms *)

Section PackedHistogramFacts.

Import PrecodeCheck PrecodeCheck.VariableLengthPackedHistogram.

(** The four 3-bit values of a key of [PRECODE_X4_TO_HISTOGRAM_LUT]. *)
Local Abbreviation valuesOf key :=
  (map (fun i => Z.land (Z.shiftr key (i * PRECODE_BITS)) 7) [0; 1; 2; 3]).

(** How many of the values are [value]. *)
Local Abbreviation countOf value values :=
  (Z.of_nat (length (List.filter (Z.eqb value) values))).

Local Abbreviation depths := [1; 2; 3; 4; 5; 6; 7].

Lemma In_keys key : 0 <= key < 4096 -> In key (map Z.of_nat (seq 0 4096)).
Proof.
  intros Hkey. apply in_map_iff. exists (Z.to_nat key). split; [lia |].
  apply in_seq. lia.
Qed.

(** The check of all keys, by computation. *)
Lemma PRECODE_X4_TO_HISTOGRAM_LUT_check :
    forallb (fun key =>
      let histogram := array_at PRECODE_X4_TO_HISTOGRAM_LUT key in
      (0 <=? histogram) && (histogram <? 2 ^ 32)
      && (getCount histogram 0
          =? Z.of_nat (length (List.filter (fun value => negb (value =? 0)) (valuesOf key))))
      && Bool.eqb (Z.shiftr histogram OVERFLOW_MEMBER_OFFSET =? 0)
                  (forallb (fun depth =>
                              countOf depth (valuesOf key)
                              <? Z.shiftl 1 (array_at MEMBER_BIT_WIDTHS depth)) depths)
      && (negb (Z.shiftr histogram OVERFLOW_MEMBER_OFFSET =? 0)
          || forallb (fun depth => getCount histogram depth =? countOf depth (valuesOf key))
                     depths))
      (map Z.of_nat (seq 0 4096)) = true.
Proof. vm_compute. reflexivity. Qed.

Lemma histogram_check_sound histogram (values : list Z) :
  (0 <=? histogram) && (histogram <? 2 ^ 32)
  && (getCount histogram 0
      =? Z.of_nat (length (List.filter (fun value => negb (value =? 0)) values)))
  && Bool.eqb (Z.shiftr histogram OVERFLOW_MEMBER_OFFSET =? 0)
              (forallb (fun depth =>
                          countOf depth values
                          <? Z.shiftl 1 (array_at MEMBER_BIT_WIDTHS depth)) depths)
  && (negb (Z.shiftr histogram OVERFLOW_MEMBER_OFFSET =? 0)
      || forallb (fun depth => getCount histogram depth =? countOf depth values) depths)
  = true ->
  0 <= histogram < 2 ^ 32
  /\ getCount histogram 0
     = Z.of_nat (length (List.filter (fun value => negb (value =? 0)) values))
  /\ (Z.shiftr histogram OVERFLOW_MEMBER_OFFSET = 0
      <-> Forall (fun depth =>
                    countOf depth values
                    < Z.shiftl 1 (array_at MEMBER_BIT_WIDTHS depth)) depths)
  /\ (Z.shiftr histogram OVERFLOW_MEMBER_OFFSET = 0 ->
      Forall (fun depth => getCount histogram depth = countOf depth values) depths).
Proof.
  intros Hall.
  apply andb_true_iff in Hall as [Hall Hcounts].
  apply andb_true_iff in Hall as [Hall Hoverflow].
  apply andb_true_iff in Hall as [Hall Hnonzero].
  apply andb_true_iff in Hall as [Hlow Hhigh].
  apply Bool.eqb_prop in Hoverflow.
  split; [lia |]. split; [apply Z.eqb_eq; exact Hnonzero |]. split.
  - rewrite <- Z.eqb_eq, Hoverflow, forallb_forall, List.Forall_forall.
    split; intros Hfits depth Hdepth; [apply Z.ltb_lt | apply Z.ltb_lt]; auto.
  - intros Hclear. apply Z.eqb_eq in Hclear. rewrite Hclear in Hcounts.
    cbn [negb orb] in Hcounts. rewrite forallb_forall in Hcounts.
    apply List.Forall_forall. intros depth Hdepth. apply Z.eqb_eq. auto.
Qed.

(** X26: the lookup table holds the histograms of its keys: the entry of a
    12-bit key counts the non-zero values among the four 3-bit values of the
    key, its overflow bit is clear exactly when every count fits the bits of
    its member, and then the member of every code length holds the number of
    values of that length. *)
Theorem PRECODE_X4_TO_HISTOGRAM_LUT_holds_histogram key :
  0 <= key < 4096 ->
  let histogram := array_at PRECODE_X4_TO_HISTOGRAM_LUT key in
  0 <= histogram < 2 ^ 32
  /\ getCount histogram 0
     = Z.of_nat (length (List.filter (fun value => negb (value =? 0)) (valuesOf key)))
  /\ (Z.shiftr histogram OVERFLOW_MEMBER_OFFSET = 0
      <-> Forall (fun depth =>
                    countOf depth (valuesOf key)
                    < Z.shiftl 1 (array_at MEMBER_BIT_WIDTHS depth)) depths)
  /\ (Z.shiftr histogram OVERFLOW_MEMBER_OFFSET = 0 ->
      Forall (fun depth => getCount histogram depth = countOf depth (valuesOf key)) depths).
Proof.
  intros Hkey histogram.
  apply (histogram_check_sound histogram (valuesOf key)).
  exact (proj1 (forallb_forall _ _) PRECODE_X4_TO_HISTOGRAM_LUT_check key
               (In_keys key Hkey)).
Qed.

Lemma PRECODE_X4_TO_HISTOGRAM_LUT_holds_histogram_witness :
  let histogram := array_at PRECODE_X4_TO_HISTOGRAM_LUT 1355 in
  0 <= histogram < 2 ^ 32
  /\ getCount histogram 0
     = Z.of_nat (length (List.filter (fun value => negb (value =? 0)) (valuesOf 1355)))
  /\ (Z.shiftr histogram OVERFLOW_MEMBER_OFFSET = 0
      <-> Forall (fun depth =>
                    countOf depth (valuesOf 1355)
                    < Z.shiftl 1 (array_at MEMBER_BIT_WIDTHS depth)) depths)
  /\ (Z.shiftr histogram OVERFLOW_MEMBER_OFFSET = 0 ->
      Forall (fun depth => getCount histogram depth = countOf depth (valuesOf 1355)) depths).
Proof.
  apply (PRECODE_X4_TO_HISTOGRAM_LUT_holds_histogram 1355). lia.
Defined.

Lemma member_cases value :
  0 <= value < 8 ->
  value = 0 \/ value = 1 \/ value = 2 \/ value = 3 \/ value = 4 \/ value = 5
  \/ value = 6 \/ value = 7.
Proof. lia. Qed.

(** The members at their places: the constants of the layout, and shifts and
    masks as divisions and remainders. *)
Ltac member_layout :=
  cbv [getCount incrementCount uint32_wrap] in *;
  repeat match goal with
         | H : context [array_at ?table ?v] |- _ =>
             let x := eval vm_compute in (array_at table v) in
             change (array_at table v) with x in H
         | |- context [array_at ?table ?v] =>
             let x := eval vm_compute in (array_at table v) in
             change (array_at table v) with x
         end;
  repeat match goal with
         | H : context [nLowestBitsSet 32 ?n] |- _ =>
             change (nLowestBitsSet 32 n) with (Z.ones n) in H
         | |- context [nLowestBitsSet 32 ?n] =>
             change (nLowestBitsSet 32 n) with (Z.ones n)
         end;
  change OVERFLOW_MEMBER_OFFSET with 29 in *;
  rewrite ?Z.shiftl_1_l, ?Z.shiftr_div_pow2, ?Z.land_ones in * by lia.

Ltac each_member value Hvalue :=
  destruct (member_cases value Hvalue)
    as [-> | [-> | [-> | [-> | [-> | [-> | [-> | ->]]]]]]].

Lemma lor_range n a b :
  0 <= n -> 0 <= a < 2 ^ n -> 0 <= b < 2 ^ n -> 0 <= Z.lor a b < 2 ^ n.
Proof.
  intros Hn Ha Hb.
  assert (Hnonneg : 0 <= Z.lor a b) by (apply Z.lor_nonneg; lia).
  split; [exact Hnonneg |].
  destruct (Z.eq_dec (Z.lor a b) 0) as [-> | Hne]; [apply Z.pow_pos_nonneg; lia |].
  assert (Hpositive : 0 < n).
  { destruct (Z.eq_dec n 0) as [-> | Hn0]; [| lia].
    change (2 ^ 0) with 1 in Ha, Hb.
    assert (a = 0) as -> by lia. assert (b = 0) as -> by lia.
    contradiction Hne. reflexivity. }
  apply Z.log2_lt_pow2; [lia |].
  rewrite Z.log2_lor by lia.
  apply Z.max_lub_lt.
  - destruct (Z.eq_dec a 0) as [-> | Ha0]; [exact Hpositive | apply Z.log2_lt_pow2; lia].
  - destruct (Z.eq_dec b 0) as [-> | Hb0]; [exact Hpositive | apply Z.log2_lt_pow2; lia].
Qed.

Lemma incrementCount_free histogram value :
  0 <= histogram < 2 ^ 32 ->
  0 <= value < 8 ->
  getCount histogram value + 1 < Z.shiftl 1 (array_at MEMBER_BIT_WIDTHS value) ->
  incrementCount histogram value = histogram + 2 ^ array_at MEMBER_OFFSETS value
  /\ histogram + 2 ^ array_at MEMBER_OFFSETS value < 2 ^ 32.
Proof.
  intros Hhistogram Hvalue Hfree.
  each_member value Hvalue; member_layout;
    match goal with |- context [if ?c then _ else _] => destruct c eqn:Hc end;
    try lia; Z.div_mod_to_equations; lia.
Qed.

Lemma incrementCount_full histogram value :
  0 <= histogram < 2 ^ 32 ->
  0 <= value < 8 ->
  Z.shiftl 1 (array_at MEMBER_BIT_WIDTHS value) <= getCount histogram value + 1 ->
  incrementCount histogram value
  = Z.lor ((histogram + 2 ^ array_at MEMBER_OFFSETS value) mod 2 ^ 32) (2 ^ 29).
Proof.
  intros Hhistogram Hvalue Hfull.
  each_member value Hvalue; member_layout;
    match goal with |- context [if ?c then _ else _] => destruct c eqn:Hc end;
    try lia; reflexivity.
Qed.

Lemma getCount_after_increment histogram value other :
  0 <= histogram < 2 ^ 32 ->
  0 <= value < 8 ->
  0 <= other < 8 ->
  getCount histogram value + 1 < Z.shiftl 1 (array_at MEMBER_BIT_WIDTHS value) ->
  getCount (histogram + 2 ^ array_at MEMBER_OFFSETS value) other
  = getCount histogram other + (if other =? value then 1 else 0).
Proof.
  intros Hhistogram Hvalue Hother Hfree.
  each_member value Hvalue; each_member other Hother; member_layout;
    cbn [Z.eqb Pos.eqb]; Z.div_mod_to_equations; lia.
Qed.

(** X27: [incrementCount] adds one to the count of one member and to nothing
    else, as long as the member has room for it; when the member is full, it
    sets the overflow bit. *)
Theorem incrementCount_counts_or_flags histogram value :
  0 <= histogram < 2 ^ 32 ->
  0 <= value < 8 ->
  let histogram' := incrementCount histogram value in
  0 <= histogram' < 2 ^ 32
  /\ (getCount histogram value + 1 < Z.shiftl 1 (array_at MEMBER_BIT_WIDTHS value) ->
      getCount histogram' value = getCount histogram value + 1
      /\ (forall other,
            0 <= other < 8 -> other <> value ->
            getCount histogram' other = getCount histogram other)
      /\ Z.shiftr histogram' OVERFLOW_MEMBER_OFFSET
         = Z.shiftr histogram OVERFLOW_MEMBER_OFFSET)
  /\ (Z.shiftl 1 (array_at MEMBER_BIT_WIDTHS value) <= getCount histogram value + 1 ->
      Z.testbit histogram' OVERFLOW_MEMBER_OFFSET = true).
Proof.
  intros Hhistogram Hvalue histogram'. subst histogram'.
  assert (Hoffset : 0 <= 2 ^ array_at MEMBER_OFFSETS value)
    by (apply Z.pow_nonneg; lia).
  split; [| split].
  - destruct (Z.lt_ge_cases (getCount histogram value + 1)
                            (Z.shiftl 1 (array_at MEMBER_BIT_WIDTHS value))) as [Hfree | Hfull].
    + destruct (incrementCount_free histogram value Hhistogram Hvalue Hfree) as [-> Hsmall].
      lia.
    + rewrite (incrementCount_full histogram value Hhistogram Hvalue Hfull).
      apply lor_range; [lia | apply Z.mod_pos_bound; lia | lia].
  - intros Hfree.
    destruct (incrementCount_free histogram value Hhistogram Hvalue Hfree) as [-> Hsmall].
    split; [| split].
    + rewrite (getCount_after_increment histogram value value) by assumption.
      rewrite Z.eqb_refl. reflexivity.
    + intros other Hother Hdifferent.
      rewrite (getCount_after_increment histogram value other) by assumption.
      destruct (Z.eqb_spec other value); [contradiction | lia].
    + clear Hoffset. each_member value Hvalue; member_layout; Z.div_mod_to_equations; lia.
  - intros Hfull. rewrite (incrementCount_full histogram value Hhistogram Hvalue Hfull).
    change OVERFLOW_MEMBER_OFFSET with 29.
    rewrite Z.lor_spec, Z.pow2_bits_true by lia. apply orb_true_r.
Qed.

Lemma incrementCount_counts_or_flags_witness :
  let histogram' := incrementCount 33 1 in
  0 <= histogram' < 2 ^ 32
  /\ (getCount 33 1 + 1 < Z.shiftl 1 (array_at MEMBER_BIT_WIDTHS 1) ->
      getCount histogram' 1 = getCount 33 1 + 1
      /\ (forall other,
            0 <= other < 8 -> other <> 1 ->
            getCount histogram' other = getCount 33 other)
      /\ Z.shiftr histogram' OVERFLOW_MEMBER_OFFSET = Z.shiftr 33 OVERFLOW_MEMBER_OFFSET)
  /\ (Z.shiftl 1 (array_at MEMBER_BIT_WIDTHS 1) <= getCount 33 1 + 1 ->
      Z.testbit histogram' OVERFLOW_MEMBER_OFFSET = true).
Proof.
  apply (incrementCount_counts_or_flags 33 1); lia.
Defined.

Lemma testbit_above n a m : 0 <= n -> 0 <= a < 2 ^ n -> n <= m -> Z.testbit a m = false.
Proof.
  intros Hn Ha Hm. rewrite <- (Z.mod_small a (2 ^ n)) by exact Ha.
  apply Z.mod_pow2_bits_high. lia.
Qed.

(** The bits of a histogram after a member has been set. *)
Lemma set_member_testbit offset width histogram count n :
  0 <= offset -> 0 <= width -> offset + width <= 32 ->
  0 <= histogram < 2 ^ 32 -> 0 <= count < 2 ^ width -> 0 <= n ->
  Z.testbit
    (Z.lor (Z.land histogram
                   (Z.lxor (2 ^ 32 - 1) (Z.shiftl (Z.ones width) offset mod 2 ^ 32)))
           (Z.shiftl count offset mod 2 ^ 32)) n
  = if (offset <=? n) && (n <? offset + width)
    then Z.testbit count (n - offset)
    else Z.testbit histogram n.
Proof.
  intros Hoffset Hwidth Hfits Hhistogram Hcount Hn.
  rewrite Z.lor_spec, Z.land_spec, Z.lxor_spec.
  change (2 ^ 32 - 1) with (Z.ones 32).
  rewrite Z.testbit_ones_nonneg by lia.
  rewrite !Z.testbit_mod_pow2 by lia.
  rewrite !Z.shiftl_spec by lia.
  destruct (Z.leb_spec offset n) as [Hlow | Hlow]; cbn [andb].
  - rewrite Z.testbit_ones_nonneg by lia.
    destruct (Z.ltb_spec n (offset + width)) as [Hhigh | Hhigh].
    + destruct (Z.ltb_spec (n - offset) width); [| lia].
      destruct (Z.ltb_spec n 32); [| lia].
      cbn [andb xorb]. rewrite andb_false_r. reflexivity.
    + destruct (Z.ltb_spec (n - offset) width); [lia |].
      rewrite (testbit_above width count (n - offset)) by lia.
      rewrite !andb_false_r, orb_false_r, xorb_false_r.
      destruct (Z.ltb_spec n 32); [apply andb_true_r |].
      rewrite (testbit_above 32 histogram n) by lia. reflexivity.
  - rewrite !(Z.testbit_neg_r _ (n - offset)) by lia.
    rewrite !andb_false_r, orb_false_r, xorb_false_r.
    destruct (Z.ltb_spec n 32); [apply andb_true_r | lia].
Qed.

Lemma get_member_bits offset width histogram histogram' :
  0 <= offset -> 0 <= width ->
  (forall n, offset <= n < offset + width -> Z.testbit histogram' n = Z.testbit histogram n) ->
  Z.land (Z.shiftr histogram' offset) (Z.ones width)
  = Z.land (Z.shiftr histogram offset) (Z.ones width).
Proof.
  intros Hoffset Hwidth Hbits. apply Z.bits_inj'. intros n Hn.
  rewrite !Z.land_spec, !Z.shiftr_spec, Z.testbit_ones_nonneg by lia.
  destruct (Z.ltb_spec n width); [| rewrite !andb_false_r; reflexivity].
  rewrite Hbits by lia. reflexivity.
Qed.

Lemma member_places value :
  0 <= value < 8 ->
  0 <= array_at MEMBER_OFFSETS value
  /\ 1 <= array_at MEMBER_BIT_WIDTHS value <= 5
  /\ array_at MEMBER_OFFSETS value + array_at MEMBER_BIT_WIDTHS value <= 29.
Proof. intros Hvalue. each_member value Hvalue; member_layout; lia. Qed.

Lemma members_apart value other :
  0 <= value < 8 -> 0 <= other < 8 -> other <> value ->
  array_at MEMBER_OFFSETS other + array_at MEMBER_BIT_WIDTHS other
  <= array_at MEMBER_OFFSETS value
  \/ array_at MEMBER_OFFSETS value + array_at MEMBER_BIT_WIDTHS value
     <= array_at MEMBER_OFFSETS other.
Proof.
  intros Hvalue Hother Hdifferent.
  each_member value Hvalue; each_member other Hother; member_layout; lia.
Qed.

Lemma getCount_member histogram value :
  0 <= value < 8 ->
  getCount histogram value
  = Z.land (Z.shiftr histogram (array_at MEMBER_OFFSETS value))
           (Z.ones (array_at MEMBER_BIT_WIDTHS value)).
Proof.
  intros Hvalue. destruct (member_places value Hvalue) as (Hoffset & Hwidth & _).
  unfold getCount.
  replace (nLowestBitsSet 32 (array_at MEMBER_BIT_WIDTHS value))
    with (Z.ones (array_at MEMBER_BIT_WIDTHS value))
    by (each_member value Hvalue; reflexivity).
  apply Z.mod_small. rewrite Z.land_ones by lia.
  pose proof (Z.mod_pos_bound (Z.shiftr histogram (array_at MEMBER_OFFSETS value))
                (2 ^ array_at MEMBER_BIT_WIDTHS value) ltac:(apply Z.pow_pos_nonneg; lia)).
  assert (2 ^ array_at MEMBER_BIT_WIDTHS value <= 2 ^ 5)
    by (apply Z.pow_le_mono_r; lia).
  lia.
Qed.

Lemma setCount_member histogram value count :
  0 <= value < 8 ->
  setCount histogram value count
  = if Z.shiftl 1 (array_at MEMBER_BIT_WIDTHS value) <=? count
    then Throw (invalid_argument "Overflow detected. Cannot set count to given value!")
    else Ok (Z.lor
               (Z.land histogram
                  (Z.lxor (2 ^ 32 - 1)
                     (Z.shiftl (Z.ones (array_at MEMBER_BIT_WIDTHS value))
                               (array_at MEMBER_OFFSETS value) mod 2 ^ 32)))
               (Z.shiftl count (array_at MEMBER_OFFSETS value) mod 2 ^ 32)).
Proof. intros Hvalue. each_member value Hvalue; reflexivity. Qed.

Lemma below_pow2_32 a :
  0 <= a -> (forall n, 32 <= n -> Z.testbit a n = false) -> a < 2 ^ 32.
Proof.
  intros Ha Hbits.
  assert (Hmod : a mod 2 ^ 32 = a).
  { apply Z.bits_inj'. intros n Hn. rewrite Z.testbit_mod_pow2 by lia.
    destruct (Z.ltb_spec n 32); [apply andb_true_l | rewrite Hbits by lia; reflexivity]. }
  rewrite <- Hmod. apply Z.mod_pos_bound. lia.
Qed.

(** Setting a member that has room for the count. *)
Lemma setCount_fits histogram value count :
  0 <= histogram < 2 ^ 32 ->
  0 <= value < 8 ->
  0 <= count < Z.shiftl 1 (array_at MEMBER_BIT_WIDTHS value) ->
  exists histogram',
    setCount histogram value count = Ok histogram'
    /\ 0 <= histogram' < 2 ^ 32
    /\ getCount histogram' value = count
    /\ (forall other,
          0 <= other < 8 -> other <> value ->
          getCount histogram' other = getCount histogram other)
    /\ Z.shiftr histogram' OVERFLOW_MEMBER_OFFSET
       = Z.shiftr histogram OVERFLOW_MEMBER_OFFSET.
Proof.
  intros Hhistogram Hvalue Hcount.
  destruct (member_places value Hvalue) as (Hoffset & Hwidth & Hend).
  rewrite setCount_member by exact Hvalue. rewrite Z.shiftl_1_l in *.
  destruct (Z.leb_spec (2 ^ array_at MEMBER_BIT_WIDTHS value) count); [lia |].
  eexists. split; [reflexivity |].
  set (offset := array_at MEMBER_OFFSETS value) in *.
  set (width := array_at MEMBER_BIT_WIDTHS value) in *.
  set (histogram' := Z.lor _ _).
  assert (Hbits : forall n, 0 <= n ->
             Z.testbit histogram' n
             = if (offset <=? n) && (n <? offset + width)
               then Z.testbit count (n - offset)
               else Z.testbit histogram n).
  { intros n Hn. apply set_member_testbit; lia. }
  assert (Hkept : forall n, 0 <= n -> ~ offset <= n < offset + width ->
                            Z.testbit histogram' n = Z.testbit histogram n).
  { intros n Hn Hout. rewrite Hbits by exact Hn.
    destruct (Z.leb_spec offset n), (Z.ltb_spec n (offset + width)); try reflexivity. lia. }
  split; [| split; [| split]].
  - split.
    + apply Z.lor_nonneg. split; [apply Z.land_nonneg; left; lia |].
      apply Z.mod_pos_bound. lia.
    + apply below_pow2_32.
      * apply Z.lor_nonneg. split; [apply Z.land_nonneg; left; lia |].
        apply Z.mod_pos_bound. lia.
      * intros n Hn. rewrite Hkept by lia. apply (testbit_above 32); lia.
  - rewrite getCount_member by exact Hvalue. fold offset width.
    apply Z.bits_inj'. intros n Hn.
    rewrite Z.land_spec, Z.shiftr_spec, Z.testbit_ones_nonneg, Hbits by lia.
    destruct (Z.ltb_spec n width).
    + destruct (Z.leb_spec offset (n + offset)), (Z.ltb_spec (n + offset) (offset + width));
        try lia.
      cbn [andb]. replace (n + offset - offset) with n by lia. apply andb_true_r.
    + rewrite andb_false_r. symmetry. apply (testbit_above width); lia.
  - intros other Hother Hdifferent.
    destruct (member_places other Hother) as (Hoffset' & Hwidth' & Hend').
    pose proof (members_apart value other Hvalue Hother Hdifferent) as Hapart.
    fold offset width in Hapart.
    rewrite !getCount_member by exact Hother.
    apply get_member_bits; [lia | lia |].
    intros n Hn. apply Hkept; lia.
  - change OVERFLOW_MEMBER_OFFSET with 29.
    apply Z.bits_inj'. intros n Hn. rewrite !Z.shiftr_spec by lia.
    apply Hkept; lia.
Qed.

(** X28: [setCount] and [getCount] round trip: a count that fits the bits of
    its member is stored, [getCount] of the member returns it, and the other
    members and the overflow bits are as before; a count that does not fit is
    refused with [std::invalid_argument]. *)
Theorem setCount_getCount_round_trip histogram value count :
  0 <= histogram < 2 ^ 32 ->
  0 <= value < 8 ->
  0 <= count < 2 ^ 8 ->
  if count <? Z.shiftl 1 (array_at MEMBER_BIT_WIDTHS value) then
    exists histogram',
      setCount histogram value count = Ok histogram'
      /\ 0 <= histogram' < 2 ^ 32
      /\ getCount histogram' value = count
      /\ (forall other,
            0 <= other < 8 -> other <> value ->
            getCount histogram' other = getCount histogram other)
      /\ Z.shiftr histogram' OVERFLOW_MEMBER_OFFSET
         = Z.shiftr histogram OVERFLOW_MEMBER_OFFSET
  else
    setCount histogram value count
    = Throw (invalid_argument "Overflow detected. Cannot set count to given value!").
Proof.
  intros Hhistogram Hvalue Hcount.
  destruct (Z.ltb_spec count (Z.shiftl 1 (array_at MEMBER_BIT_WIDTHS value)))
    as [Hfits | Hlarge].
  - apply setCount_fits; [exact Hhistogram | exact Hvalue | lia].
  - rewrite setCount_member by exact Hvalue.
    destruct (Z.leb_spec (Z.shiftl 1 (array_at MEMBER_BIT_WIDTHS value)) count);
      [reflexivity | lia].
Qed.

Lemma setCount_getCount_round_trip_witness :
  if 5 <? Z.shiftl 1 (array_at MEMBER_BIT_WIDTHS 3) then
    exists histogram',
      setCount 33 3 5 = Ok histogram'
      /\ 0 <= histogram' < 2 ^ 32
      /\ getCount histogram' 3 = 5
      /\ (forall other,
            0 <= other < 8 -> other <> 3 ->
            getCount histogram' other = getCount 33 other)
      /\ Z.shiftr histogram' OVERFLOW_MEMBER_OFFSET = Z.shiftr 33 OVERFLOW_MEMBER_OFFSET
  else
    setCount 33 3 5
    = Throw (invalid_argument "Overflow detected. Cannot set count to given value!").
Proof.
  apply (setCount_getCount_round_trip 33 3 5); lia.
Defined.

(** The loop of [packHistogram] when every count fits its member. *)
Lemma packHistogram_loop_fits counts :
  forall depth packedHistogram nonZeroCount,
    1 <= depth ->
    depth + Z.of_nat (length counts) <= 8 ->
    0 <= packedHistogram < 2 ^ 32 ->
    0 <= nonZeroCount ->
    nonZeroCount + fold_right Z.add 0 counts < 2 ^ 8 ->
    (forall i, (i < length counts)%nat ->
               0 <= List.nth i counts 0
               < Z.shiftl 1 (array_at MEMBER_BIT_WIDTHS (depth + Z.of_nat i))) ->
    exists packedHistogram',
      packHistogram_loop counts depth packedHistogram nonZeroCount
      = Ok (Some (packedHistogram', nonZeroCount + fold_right Z.add 0 counts))
      /\ 0 <= packedHistogram' < 2 ^ 32
      /\ (forall i, (i < length counts)%nat ->
                    getCount packedHistogram' (depth + Z.of_nat i) = List.nth i counts 0)
      /\ (forall other,
            0 <= other < 8 ->
            other < depth \/ depth + Z.of_nat (length counts) <= other ->
            getCount packedHistogram' other = getCount packedHistogram other)
      /\ Z.shiftr packedHistogram' OVERFLOW_MEMBER_OFFSET
         = Z.shiftr packedHistogram OVERFLOW_MEMBER_OFFSET.
Proof.
  induction counts as [| count counts IH];
    intros depth packedHistogram nonZeroCount Hdepth Hend Hpacked Hnonzero Hsum Hfit.
  - exists packedHistogram. cbn [packHistogram_loop fold_right length].
    rewrite Z.add_0_r. split; [reflexivity |]. split; [exact Hpacked |].
    split; [intros i Hi; simpl in Hi; lia |]. split; [reflexivity | reflexivity].
  - cbn [length fold_right] in *. rewrite Nat2Z.inj_succ in Hend.
    pose proof (Hfit 0%nat ltac:(lia)) as Hcount. cbn [List.nth] in Hcount.
    rewrite Z.add_0_r in Hcount.
    assert (Hrest : 0 <= fold_right Z.add 0 counts).
    { clear - Hfit. assert (Hall : forall i, (i < length counts)%nat -> 0 <= List.nth i counts 0).
      { intros i Hi. apply (Hfit (S i)). simpl. lia. }
      clear Hfit. induction counts as [| c counts IH]; simpl; [lia |].
      pose proof (Hall 0%nat ltac:(simpl; lia)). simpl in H.
      assert (0 <= fold_right Z.add 0 counts)
        by (apply IH; intros i Hi; apply (Hall (S i)); simpl; lia).
      lia. }
    cbn [packHistogram_loop].
    destruct (Z.leb_spec (Z.shiftl 1 (array_at MEMBER_BIT_WIDTHS depth)) count); [lia |].
    destruct (setCount_fits packedHistogram depth count Hpacked ltac:(lia) Hcount)
      as (packed1 & -> & Hpacked1 & Hset & Hothers & Hoverflow).
    cbn [bind]. rewrite Z.mod_small by lia.
    destruct (IH (depth + 1) packed1 (nonZeroCount + count)) as
      (packed2 & Hloop & Hpacked2 & Hcounts & Hothers2 & Hoverflow2); try lia.
    { intros i Hi. replace (depth + 1 + Z.of_nat i) with (depth + Z.of_nat (S i)) by lia.
      apply (Hfit (S i)). lia. }
    exists packed2. rewrite Hloop. split; [do 3 f_equal; lia |].
    split; [exact Hpacked2 |]. split; [| split].
    + intros [| i] Hi.
      * cbn [List.nth]. rewrite Z.add_0_r.
        rewrite Hothers2 by lia. exact Hset.
      * replace (depth + Z.of_nat (S i)) with (depth + 1 + Z.of_nat i) by lia.
        apply Hcounts. lia.
    + intros other Hother Hout.
      rewrite Hothers2 by lia. apply Hothers; lia.
    + rewrite Hoverflow2. exact Hoverflow.
Qed.

(** The loop of [packHistogram] when a count does not fit its member. *)
Lemma packHistogram_loop_none counts :
  forall depth packedHistogram nonZeroCount,
    1 <= depth ->
    depth + Z.of_nat (length counts) <= 8 ->
    0 <= packedHistogram < 2 ^ 32 ->
    Forall (fun count => 0 <= count) counts ->
    (exists i, (i < length counts)%nat
               /\ Z.shiftl 1 (array_at MEMBER_BIT_WIDTHS (depth + Z.of_nat i))
                  <= List.nth i counts 0) ->
    packHistogram_loop counts depth packedHistogram nonZeroCount = Ok None.
Proof.
  induction counts as [| count counts IH];
    intros depth packedHistogram nonZeroCount Hdepth Hend Hpacked Hnonneg [i [Hi Hlarge]].
  - simpl in Hi. lia.
  - cbn [length] in *. rewrite Nat2Z.inj_succ in Hend.
    apply Forall_cons in Hnonneg as [Hcount Hnonneg].
    cbn [packHistogram_loop].
    destruct (Z.leb_spec (Z.shiftl 1 (array_at MEMBER_BIT_WIDTHS depth)) count) as [| Hfits];
      [reflexivity |].
    destruct i as [| i]; [cbn [List.nth] in Hlarge; rewrite Z.add_0_r in Hlarge; lia |].
    destruct (setCount_fits packedHistogram depth count Hpacked ltac:(lia) ltac:(lia))
      as (packed1 & -> & Hpacked1 & _).
    cbn [bind]. apply IH; try lia; try assumption.
    exists i. split; [lia |].
    replace (depth + 1 + Z.of_nat i) with (depth + Z.of_nat (S i)) by lia. exact Hlarge.
Qed.

(** X29: [packHistogram] and [getCount] round trip: of a histogram whose
    counts all fit their members and add up to less than 32, the packed
    histogram holds every count under its code length and their sum as the
    non-zero count, with no overflow bit set; when a count does not fit,
    [packHistogram] returns nothing, and it throws [std::invalid_argument]
    only for a sum of 32 or more. *)
Theorem packHistogram_getCount_round_trip histogram :
  length histogram = 7%nat ->
  Forall (fun count => 0 <= count < 2 ^ 8) histogram ->
  let fits :=
    forall depth,
      1 <= depth <= 7 ->
      List.nth (Z.to_nat (depth - 1)) histogram 0
      < Z.shiftl 1 (array_at MEMBER_BIT_WIDTHS depth) in
  let total := fold_right Z.add 0 histogram in
  match packHistogram histogram with
  | Ok (Some packedHistogram) =>
      fits /\ total < 32
      /\ 0 <= packedHistogram < 2 ^ OVERFLOW_MEMBER_OFFSET
      /\ getCount packedHistogram 0 = total
      /\ forall depth,
           1 <= depth <= 7 ->
           getCount packedHistogram depth = List.nth (Z.to_nat (depth - 1)) histogram 0
  | Ok None => ~ fits
  | Throw e =>
      fits /\ 32 <= total
      /\ e = invalid_argument "More total non-zero counts than permitted!"
  end.
Proof.
  intros Hlength Hcounts fits total.
  assert (Hnonneg : Forall (fun count => 0 <= count) histogram).
  { eapply List.Forall_impl; [| exact Hcounts]. intros count Hcount. simpl in Hcount. lia. }
  assert (Hdecide : fits
                    \/ exists i, (i < length histogram)%nat
                                 /\ Z.shiftl 1 (array_at MEMBER_BIT_WIDTHS (1 + Z.of_nat i))
                                    <= List.nth i histogram 0).
  { destruct (List.Forall_Exists_dec
                (fun i => List.nth i histogram 0
                          < Z.shiftl 1 (array_at MEMBER_BIT_WIDTHS (1 + Z.of_nat i)))
                (fun i => Z_lt_dec _ _) (seq 0 7)) as [Hall | Hsome].
    - left. intros depth Hdepth. rewrite List.Forall_forall in Hall.
      specialize (Hall (Z.to_nat (depth - 1)) ltac:(apply in_seq; lia)).
      replace (1 + Z.of_nat (Z.to_nat (depth - 1))) with depth in Hall by lia.
      exact Hall.
    - right. apply List.Exists_exists in Hsome as [i [Hi Hlarge]].
      apply in_seq in Hi. exists i. split; lia. }
  unfold packHistogram.
  destruct Hdecide as [Hfits | Hlarge].
  - assert (Hfit : forall i, (i < length histogram)%nat ->
                             0 <= List.nth i histogram 0
                             < Z.shiftl 1 (array_at MEMBER_BIT_WIDTHS (1 + Z.of_nat i))).
    { intros i Hi. split.
      - rewrite List.Forall_forall in Hnonneg. apply Hnonneg. apply nth_In. exact Hi.
      - specialize (Hfits (1 + Z.of_nat i) ltac:(lia)).
        replace (Z.to_nat (1 + Z.of_nat i - 1)) with i in Hfits by lia. exact Hfits. }
    assert (Htotal : 0 <= total <= 103).
    { subst total.
      destruct histogram as [| c1 [| c2 [| c3 [| c4 [| c5 [| c6 [| c7 [|]]]]]]]];
        try discriminate Hlength.
      pose proof (Hfit 0%nat ltac:(simpl; lia)) as H1.
      pose proof (Hfit 1%nat ltac:(simpl; lia)) as H2.
      pose proof (Hfit 2%nat ltac:(simpl; lia)) as H3.
      pose proof (Hfit 3%nat ltac:(simpl; lia)) as H4.
      pose proof (Hfit 4%nat ltac:(simpl; lia)) as H5.
      pose proof (Hfit 5%nat ltac:(simpl; lia)) as H6.
      pose proof (Hfit 6%nat ltac:(simpl; lia)) as H7.
      clear - H1 H2 H3 H4 H5 H6 H7.
      cbn [List.nth Z.of_nat Pos.of_succ_nat Pos.succ Z.add Pos.add] in *.
      member_layout. simpl. lia. }
    destruct (packHistogram_loop_fits histogram 1 0 0)
      as (packed & -> & Hpacked & Hmembers & Hothers & Hoverflow); try lia.
    { exact Hfit. }
    cbn [bind]. rewrite Z.add_0_l. fold total.
    change (Z.shiftl 1 (array_at MEMBER_BIT_WIDTHS 0)) with 32.
    destruct (Z.leb_spec 32 total) as [Hmany | Hfew].
    + split; [exact Hfits |]. split; [exact Hmany | reflexivity].
    + destruct (setCount_fits packed 0 total Hpacked ltac:(lia))
        as (packed' & -> & Hpacked' & Hset & Hothers' & Hoverflow');
        [change (Z.shiftl 1 (array_at MEMBER_BIT_WIDTHS 0)) with 32; lia |].
      cbn [bind]. split; [exact Hfits |]. split; [exact Hfew |].
      split; [| split; [exact Hset |]].
      * rewrite Hoverflow in Hoverflow'. change OVERFLOW_MEMBER_OFFSET with 29 in *.
        change (Z.shiftr 0 29) with 0 in Hoverflow'.
        rewrite Z.shiftr_div_pow2 in Hoverflow' by lia.
        apply Z.div_small_iff in Hoverflow'; lia.
      * intros depth Hdepth. rewrite Hothers' by lia.
        specialize (Hmembers (Z.to_nat (depth - 1)) ltac:(lia)).
        replace (1 + Z.of_nat (Z.to_nat (depth - 1))) with depth in Hmembers by lia.
        exact Hmembers.
  - rewrite (packHistogram_loop_none histogram 1 0 0); try lia; try assumption.
    cbn [bind]. intros Hfits. destruct Hlarge as [i [Hi Hlarge]].
    specialize (Hfits (1 + Z.of_nat i) ltac:(lia)).
    replace (Z.to_nat (1 + Z.of_nat i - 1)) with i in Hfits by lia. lia.
Qed.

Lemma packHistogram_getCount_round_trip_witness :
  let fits :=
    forall depth,
      1 <= depth <= 7 ->
      List.nth (Z.to_nat (depth - 1)) [1; 1; 1; 0; 0; 0; 8] 0
      < Z.shiftl 1 (array_at MEMBER_BIT_WIDTHS depth) in
  let total := fold_right Z.add 0 [1; 1; 1; 0; 0; 0; 8] in
  match packHistogram [1; 1; 1; 0; 0; 0; 8] with
  | Ok (Some packedHistogram) =>
      fits /\ total < 32
      /\ 0 <= packedHistogram < 2 ^ OVERFLOW_MEMBER_OFFSET
      /\ getCount packedHistogram 0 = total
      /\ forall depth,
           1 <= depth <= 7 ->
           getCount packedHistogram depth
           = List.nth (Z.to_nat (depth - 1)) [1; 1; 1; 0; 0; 0; 8] 0
  | Ok None => ~ fits
  | Throw e =>
      fits /\ 32 <= total
      /\ e = invalid_argument "More total non-zero counts than permitted!"
  end.
Proof.
  apply (packHistogram_getCount_round_trip [1; 1; 1; 0; 0; 0; 8]).
  - reflexivity.
  - repeat constructor; lia.
Defined.

End PackedHistogramFacts.
